(** * Verification of the retiarii_perf graph utilities and MNASNet builder

    Shallow embedding of
      - [src/retiarii_perf/mnasnet.py]
      - [src/retiarii_perf/sdk/pytorch_graph/_graph_utils.py]

    Python values are modelled as follows.
      - [int] is [Z]; a [float] is an IEEE 754 double, with the rounding
        of every operation written out ([PyFloat]).
      - [str] is [string]: the strings of code points below 256;
        comparison is code-point lexicographic, as [String.leb].
      - a [dict] keyed by strings is a [gmap string _]; a [dict] whose
        [items()] are iterated also keeps its keys in insertion order
        ([odict]).
      - a raised exception is [None]; so is a loop that does not end within
        the rounds ([fuel]) it is given.
      - trace nodes ([torch._C.Node]) are records compared by identity,
        carried by the field [nid]; the mutable [NodePyGroup] objects are
        referred to by their position in [nodes_op]. *)

From Stdlib Require Import ZArith QArith Qabs Qround Qpower Lia Lqa String Ascii DecimalString.
From stdpp Require Import base option list strings gmap sorting.

Local Open Scope string_scope.
Local Open Scope Z_scope.
Local Open Scope list_scope.

Set Warnings "-register-all".

(** A [for] loop whose body may raise. *)
Fixpoint for_each {S A} (body : S -> A -> option S) (s : S) (l : list A)
  : option S :=
  match l with
  | [] => Some s
  | x :: l' => s' ← body s x; for_each body s' l'
  end.

(** ** Python string primitives *)
Module PyStr.

(** The whitespace that [str.strip] and [str.rstrip] drop: of the code
    points below 256, 9 to 13, 28 to 32, 133 and 160. *)
Definition is_space (c : ascii) : bool :=
  let n := N_of_ascii c in
  ((9 <=? n) && (n <=? 13) || (28 <=? n) && (n <=? 32) ||
   (n =? 133) || (n =? 160))%N.

(** The whitespace that [int] drops on both sides: the same but for 28
    to 31, which [int] rejects. *)
Definition is_int_space (c : ascii) : bool :=
  let n := N_of_ascii c in
  ((9 <=? n) && (n <=? 13) || (n =? 32) || (n =? 133) || (n =? 160))%N.

(** Dropping on the left and on the right the characters that [space]
    holds for. *)
Fixpoint lstrip_of (space : ascii -> bool) (s : string) : string :=
  match s with
  | String c r => if space c then lstrip_of space r else s
  | EmptyString => EmptyString
  end.

Fixpoint rstrip_of (space : ascii -> bool) (s : string) : string :=
  match s with
  | EmptyString => EmptyString
  | String c r =>
      match rstrip_of space r with
      | EmptyString => if space c then EmptyString else String c EmptyString
      | r' => String c r'
      end
  end.

(** [s.lstrip()], [s.rstrip()] and [s.strip()] *)
Definition lstrip (s : string) : string := lstrip_of is_space s.
Definition rstrip (s : string) : string := rstrip_of is_space s.
Definition strip (s : string) : string := rstrip (lstrip s).

(** [s[:-1]] *)
Fixpoint drop_last (s : string) : string :=
  match s with
  | EmptyString => EmptyString
  | String c EmptyString => EmptyString
  | String c r => String c (drop_last r)
  end.

(** [s[1:]] *)
Definition drop_first (s : string) : string :=
  match s with
  | EmptyString => EmptyString
  | String _ r => r
  end.

(** [s.split(sep)] for a one-character separator: never empty. *)
Fixpoint split (sep : ascii) (s : string) : list string :=
  match s with
  | EmptyString => [EmptyString]
  | String c r =>
      if Ascii.eqb c sep then EmptyString :: split sep r
      else match split sep r with
           | w :: ws => String c w :: ws
           | [] => [String c EmptyString]
           end
  end.

(** [sep.join(l)] *)
Fixpoint join (sep : string) (l : list string) : string :=
  match l with
  | [] => EmptyString
  | [w] => w
  | w :: ws => w +:+ sep +:+ join sep ws
  end.

(** [s.replace(old, new)] for a non-empty [old]: leftmost occurrences,
    not overlapping, in one pass.  [skip] counts the characters of the
    occurrence being consumed. *)
Fixpoint replace_go (old new : string) (skip : nat) (s : string) : string :=
  match s with
  | EmptyString => EmptyString
  | String c r =>
      match skip with
      | S k => replace_go old new k r
      | O =>
          if String.prefix old s
          then new +:+ replace_go old new (Nat.pred (String.length old)) r
          else String c (replace_go old new O r)
      end
  end.

Definition replace (old new s : string) : string := replace_go old new O s.

(** [s.startswith(p)] and [s.endswith(p)] *)
Definition startswith (s p : string) : bool := String.prefix p s.
Definition endswith (s p : string) : bool :=
  String.prefix (String.rev p) (String.rev s).

(** [s[a:len(s)-b]] as used by [module_name[len(prefix):-len(suffix)]]
    with a non-empty suffix. *)
Definition slice (a b : nat) (s : string) : string :=
  String.substring a (String.length s - a - b) s.

Definition digit_val (c : ascii) : option Z :=
  let n := N_of_ascii c in
  if ((48 <=? n) && (n <=? 57))%N then Some (Z.of_N n - 48) else None.

(** Digits of an [int] literal: groups of digits separated by single
    underscores. [seen] tells that the previous character was a digit. *)
Fixpoint int_digits (acc : Z) (seen : bool) (s : string) : option Z :=
  match s with
  | EmptyString => if seen then Some acc else None
  | String c r =>
      match digit_val c with
      | Some d => int_digits (10 * acc + d) true r
      | None =>
          if Ascii.eqb c "_" && seen then int_digits acc false r else None
      end
  end.

(** [int(s)]: [None] is [ValueError]. *)
Definition int (s : string) : option Z :=
  match rstrip_of is_int_space (lstrip_of is_int_space s) with
  | String "-" r => Z.opp <$> int_digits 0 false r
  | String "+" r => int_digits 0 false r
  | r => int_digits 0 false r
  end.

End PyStr.

(** ** Python floats *)
Module PyFloat.

Local Open Scope Q_scope.

(** A [float] is an IEEE 754 double: a finite value, an infinity or a
    NaN. The finite values are the rationals [m * 2^e] with [|m| < 2^53]
    and [-1074 <= e], below [2^1024] in magnitude. The sign of a zero is
    left out: no operation of the sources tells [-0.0] from [0.0]. *)
Inductive float :=
| Finite (q : Q)
| Inf (negative : bool)
| NaN.

(** [floor(log2 |x|)] for [x <> 0] *)
Definition ilog2 (x : Q) : Z :=
  let k := (Z.log2 (Z.abs (Qnum x)) - Z.log2 (Zpos (Qden x)))%Z in
  if Qle_bool (2 ^ k) (Qabs x) then k else (k - 1)%Z.

(** The exponent of the unit in the last place of the doubles around
    [x]: 53 significant bits, and no exponent below that of the
    subnormal numbers. *)
Definition ulp_exp (x : Q) : Z := Z.max (ilog2 x - 52) (-1074).

(** The integer nearest to [x], the even one of the two when [x] is
    halfway. *)
Definition round_half_even (x : Q) : Z :=
  let f := Qfloor x in
  match Qcompare (x - inject_Z f) (1 # 2) with
  | Lt => f
  | Gt => (f + 1)%Z
  | Eq => if Z.even f then f else (f + 1)%Z
  end.

(** [x] rounded to 53 significant bits, before the test for overflow. *)
Definition round_double (x : Q) : Q :=
  if Qeq_bool x 0 then 0
  else inject_Z (round_half_even (x / 2 ^ ulp_exp x)) * 2 ^ ulp_exp x.

(** The double that an operation with the exact result [x] returns:
    round to nearest, ties to even, and an infinity from [2^1024] on. *)
Definition of_real (x : Q) : float :=
  let r := round_double x in
  if Qle_bool (2 ^ 1024) (Qabs r) then Inf (negb (Qle_bool 0 r)) else Finite r.

(** [a + b], [-a], [a - b] and [a * b] on floats *)
Definition fadd (a b : float) : float :=
  match a, b with
  | NaN, _ | _, NaN => NaN
  | Inf s, Inf t => if Bool.eqb s t then Inf s else NaN
  | Inf s, Finite _ | Finite _, Inf s => Inf s
  | Finite x, Finite y => of_real (x + y)
  end.

Definition fneg (a : float) : float :=
  match a with
  | Finite x => Finite (- x)
  | Inf s => Inf (negb s)
  | NaN => NaN
  end.

Definition fsub (a b : float) : float := fadd a (fneg b).

Definition fmul (a b : float) : float :=
  match a, b with
  | NaN, _ | _, NaN => NaN
  | Inf s, Inf t => Inf (xorb s t)
  | Inf s, Finite y | Finite y, Inf s =>
      if Qeq_bool y 0 then NaN else Inf (xorb s (negb (Qle_bool 0 y)))
  | Finite x, Finite y => of_real (x * y)
  end.

(** [a < b] on floats: false when one of them is a NaN *)
Definition flt (a b : float) : bool :=
  match a, b with
  | NaN, _ | _, NaN => false
  | Inf s, Inf t => s && negb t
  | Inf s, Finite _ => s
  | Finite _, Inf t => negb t
  | Finite x, Finite y => negb (Qle_bool y x)
  end.

(** The conversion of an [int] to a float, as [int + float] and
    [int * float] make it: [None] is the [OverflowError] of an [int] too
    large for a float. *)
Definition of_int (n : Z) : option float :=
  match of_real (inject_Z n) with
  | Finite r => Some (Finite r)
  | _ => None
  end.

(** [a / b] on two [int]: the quotient correctly rounded; [None] is
    [ZeroDivisionError] or [OverflowError]. *)
Definition int_truediv (a b : Z) : option float :=
  if (b =? 0)%Z then None
  else match of_real (inject_Z a / inject_Z b) with
       | Finite r => Some (Finite r)
       | _ => None
       end.

(** [x] without its fractional part *)
Definition truncate (x : Q) : Z := Z.quot (Qnum x) (Zpos (Qden x)).

(** [int(a)]: truncation towards zero; [None] is the [OverflowError] of
    an infinity or the [ValueError] of a NaN. *)
Definition int_of_float (a : float) : option Z :=
  match a with
  | Finite x => Some (truncate x)
  | _ => None
  end.

(** [n >= a] for an [int] [n] and a float [a]: the comparison is exact. *)
Definition int_ge_float (n : Z) (a : float) : bool :=
  match a with
  | Finite x => Qle_bool x (inject_Z n)
  | Inf s => s
  | NaN => false
  end.

(** A number that is an [int] or a [float]. *)
Inductive num :=
| PyInt (n : Z)
| PyFlt (a : float).

(** [float(v)] as the mixed operations apply it. *)
Definition to_float (v : num) : option float :=
  match v with
  | PyInt n => of_int n
  | PyFlt a => Some a
  end.

(** The float that a decimal literal denotes. *)
Definition literal (x : Q) : float := of_real x.

End PyFloat.

(** ** mnasnet.py *)
Module Mnasnet.
Import PyFloat.

Definition _FIRST_DEPTH : Z := 32.
Definition _MOBILENET_V2_FILTERS : list Z := [16; 24; 32; 64; 96; 160; 320].
Definition _MOBILENET_V2_NUM_LAYERS : list Z := [1; 2; 3; 4; 3; 3; 1].

(** [_round_to_multiple_of(val, divisor, round_up_bias)] for an [int] or
    a [float] [val], an [int] [divisor] and a [float] bias. [None] is the
    failed assertion on the bias, the [ZeroDivisionError] of a zero
    divisor, or the [OverflowError] or [ValueError] of a conversion. *)
Definition _round_to_multiple_of (val : num) (divisor : Z) (round_up_bias : float)
  : option Z :=
  if negb (flt (Finite 0) round_up_bias && flt round_up_bias (Finite 1)) then None
  else
    half ← int_truediv divisor 2;
    v ← to_float val;
    t ← int_of_float (fadd v half);
    if divisor =? 0 then None
    else
      let new_val := Z.max divisor (t / divisor * divisor) in
      Some (if int_ge_float new_val (fmul round_up_bias v) then new_val
            else new_val + divisor).

(** The default [round_up_bias=0.9] *)
Definition default_bias : float := literal 0.9%Q.

(** [_get_depths(depths, alpha)] for a list of [int] and a [float]. *)
Definition _get_depths (depths : list Z) (alpha : float) : option (list Z) :=
  mapM (fun depth =>
          d ← of_int depth;
          _round_to_multiple_of (PyFlt (fmul d alpha)) 8 default_bias)
       depths.

(** The dictionary [block_def] of [parse_mnasnet_block]. *)
Record block_def := BlockDef {
  convop : list string;
  filters : list float;
  kernel_size : list Z;
  num_layers : list Z;
  skips : list bool }.

(** [for idx, op in enumerate(l): d[idx] = op] *)
Definition enumerate_into {A} (d : gmap Z A) (l : list A) : gmap Z A :=
  foldl (fun d p => <[p.1 := p.2]> d) d (imap (fun i x => (Z.of_nat i, x)) l).

Definition ID_TO_OP : gmap Z string := enumerate_into ∅ ["conv"; "mconv"; "dconv"].
Definition ID_TO_FILTERS : gmap Z float :=
  enumerate_into ∅ [literal 0.75%Q; literal 1.0%Q; literal 1.25%Q].
Definition ID_TO_KERNEL : gmap Z Z := enumerate_into ∅ [3; 5].
Definition ID_TO_SKIPS : gmap Z bool := enumerate_into ∅ [false; true].

(** [d[int(tokens[k])]] *)
Definition decode {A} (d : gmap Z A) (tokens : list string) (k : nat) : option A :=
  tok ← tokens !! k; id ← PyStr.int tok; d !! id.

(** Body of [for i in range(7)]; the state is [ID_TO_LAYERS], which the
    loop overwrites in place, and [block_def]. *)
Definition parse_stage (tokens : list string)
    (st : gmap Z Z * block_def) (i : nat) : option (gmap Z Z * block_def) :=
  let '(ID_TO_LAYERS, bd) := st in
  base ← _MOBILENET_V2_NUM_LAYERS !! i;
  let ID_TO_LAYERS :=
    enumerate_into ID_TO_LAYERS
      ([0; 1] ++ (if base >? 1 then [-1] else [0])) in
  op ← decode ID_TO_OP tokens (i * 5);
  nl ← decode ID_TO_LAYERS tokens (i * 5 + 1);
  fl ← decode ID_TO_FILTERS tokens (i * 5 + 2);
  ks ← decode ID_TO_KERNEL tokens (i * 5 + 3);
  sk ← decode ID_TO_SKIPS tokens (i * 5 + 4);
  Some (ID_TO_LAYERS,
        {| convop := convop bd ++ [op];
           filters := filters bd ++ [fl];
           kernel_size := kernel_size bd ++ [ks];
           num_layers := num_layers bd ++ [nl];
           skips := skips bd ++ [sk] |}).

(** [line.rstrip()[1:-1].split(' ')] *)
Definition tokens_of (line : string) : list string :=
  PyStr.split " " (PyStr.drop_last (PyStr.drop_first (PyStr.rstrip line))).

(** [parse_mnasnet_block(line)]; [None] is the failed assertion on the
    number of tokens, a [ValueError] of [int] or a [KeyError]. *)
Definition parse_mnasnet_block (line : string) : option block_def :=
  let tokens := tokens_of line in
  if negb (length tokens =? 7 * 5)%nat then None
  else snd <$> for_each (parse_stage tokens) (∅, BlockDef [] [] [] [] []) (seq 0 7).

(** The tuple the constructor's loop over the stages unpacks:
    [conv, prev_depth, depth, ks, skip, stride, repeat, exp_ratio]. *)
Record Stage := MkStage {
  st_conv : string;
  st_prev_depth : Z;
  st_depth : Z;
  st_ks : Z;
  st_skip : bool;
  st_stride : Z;
  st_repeat : Z;
  st_exp_ratio : Z }.

(** The assertions of [_stack_inverted_residual], [_InvertedResidual] and
    [_stack_normal_conv] on one stage. *)
Definition stage_ok (st : Stage) : bool :=
  (1 <=? st_repeat st) &&
  (if String.eqb (st_conv st) "mconv"
   then ((st_stride st =? 1) || (st_stride st =? 2)) &&
        ((st_ks st =? 3) || (st_ks st =? 5))
   else true).

(** [MNASNet.__init__(alpha, depths, convops, kernel_sizes, num_layers,
    skips)] for a [float] [alpha], up to the layers torch builds from each
    stage tuple: the result lists those tuples. [None] is a failed
    assertion of this file or an error of [_get_depths]. *)
Definition MNASNet (alpha : float) (depths : list Z) (convops : list string)
    (kernel_sizes num_layers : list Z) (skips : list bool)
  : option (list Stage) :=
  if negb (flt (Finite 0) alpha) then None
  else if negb ((length depths =? 7)%nat && (length convops =? 7)%nat &&
                (length kernel_sizes =? 7)%nat && (length num_layers =? 7)%nat &&
                (length skips =? 7)%nat) then None
  else
    depths ← _get_depths ([_FIRST_DEPTH] ++ depths) alpha;
    let exp_ratios := [3; 3; 3; 6; 6; 6; 6] in
    let strides := [1; 2; 2; 2; 1; 2; 1] in
    let stages :=
      zip_with (fun conv '(prev_depth, (depth, (ks, (skip, (stride, (repeat, exp_ratio)))))) =>
                  MkStage conv prev_depth depth ks skip stride repeat exp_ratio)
        convops
        (zip (take (length depths - 1) depths)
           (zip (drop 1 depths)
              (zip kernel_sizes (zip skips (zip strides (zip num_layers exp_ratios)))))) in
    if forallb stage_ok stages then Some stages else None.

(** [int(a * b)] for an [int] [a] and a [float] [b] *)
Definition int_of_product (a : Z) (b : float) : option Z :=
  fa ← of_int a; int_of_float (fmul fa b).

(** [mnasnet_any(convops, filter_multipliers, kernel_size,
    num_layer_deltas, skips)] *)
Definition mnasnet_filters (filter_multipliers : list float) : option (list Z) :=
  mapM (fun p => int_of_product p.1 p.2)
       (zip _MOBILENET_V2_FILTERS filter_multipliers).

Definition mnasnet_num_layers (num_layer_deltas : list Z) : list Z :=
  zip_with (fun a b => a + b) _MOBILENET_V2_NUM_LAYERS num_layer_deltas.

Definition mnasnet_any (convops : list string) (filter_multipliers : list float)
    (kernel_size num_layer_deltas : list Z) (skips : list bool)
  : option (list Stage) :=
  filters ← mnasnet_filters filter_multipliers;
  let num_layers := mnasnet_num_layers num_layer_deltas in
  MNASNet (literal 1.0%Q) filters convops kernel_size num_layers skips.

(** [build_model_from_file('mnasnet', model_str)] *)
Definition build_model_from_file (model_str : string) : option (list Stage) :=
  block_def ← parse_mnasnet_block model_str;
  mnasnet_any (convop block_def) (filters block_def) (kernel_size block_def)
              (num_layers block_def) (skips block_def).

End Mnasnet.

(** ** sdk/pytorch_graph/_graph_utils.py *)
Module GraphUtils.

Definition CAT_KIND : string := "aten::cat".

(** *** The trace graph handed over by the tracer *)

(** [toIValue()] of a constant. *)
Inductive IValue :=
| IVNone
| IVTensor
| IVInt (z : Z)
| IVBool (b : bool)
| IVStr (s : string).

(** [type()] of a value: a tensor type with its [sizes()], or another. *)
Inductive ValueType :=
| TensorType (sizes : list Z)
| OtherType.

(** [torch._C.Value] *)
Record Value := MkValue {
  debugName : string;
  toIValue : IValue;
  vtype : ValueType }.

(** [torch._C.Node]; [nid] stands for the identity of the object. *)
Record Node := MkNode {
  nid : nat;
  kind : string;
  scopeName : string;
  node_inputs : list Value;
  node_outputs : list Value }.

#[global] Instance IValue_eq_dec : EqDecision IValue.
Proof. solve_decision. Defined.
#[global] Instance ValueType_eq_dec : EqDecision ValueType.
Proof. solve_decision. Defined.
#[global] Instance Value_eq_dec : EqDecision Value.
Proof. solve_decision. Defined.
#[global] Instance Node_eq_dec : EqDecision Node.
Proof. solve_decision. Defined.

(** [x in l] on a list or a set of nodes. *)
Definition node_in (x : Node) (l : list Node) : bool := bool_decide (x ∈ l).

(** [x in l] on a list of strings. *)
Definition str_in (x : string) (l : list string) : bool := bool_decide (x ∈ l).

(** *** Module-level helpers *)

(** [parse_traced_name(module_name)] *)
Definition parse_traced_name (module_name : string) : string :=
  let prefix := "TracedModule[" in
  let suffix := "]" in
  if PyStr.startswith module_name prefix && PyStr.endswith module_name suffix
  then PyStr.slice (String.length prefix) (String.length suffix) module_name
  else module_name.

(** The text between a ['['] already read and the first [']'], when no
    newline comes before it, as [.*?\]] matches. *)
Fixpoint bracket_content (s : string) : option string :=
  match s with
  | EmptyString => None
  | String c r =>
      if Ascii.eqb c "]" then Some EmptyString
      else if Ascii.eqb c "010" then None
      else String c <$> bracket_content r
  end.

(** [re.findall(r'\[(.*?)\]', s)]: matches from left to right, not
    overlapping. [skip] counts the characters of the match being
    consumed. *)
Fixpoint findall_brackets_go (skip : nat) (s : string) : list string :=
  match s with
  | EmptyString => []
  | String c r =>
      match skip with
      | S k => findall_brackets_go k r
      | O =>
          if Ascii.eqb c "["
          then match bracket_content r with
               | Some content =>
                   content :: findall_brackets_go (S (String.length content)) r
               | None => findall_brackets_go O r
               end
          else findall_brackets_go O r
      end
  end.

Definition findall_brackets (s : string) : list string :=
  findall_brackets_go O s.

(** [l[-1]] of a list of strings that [split] returned. *)
Definition last_of (l : list string) : string := List.last l EmptyString.

(** [_get_module_name(scope_name)], with [torch.__version__] given. *)
Definition _get_module_name (torch_version scope_name : string) : string :=
  if String.leb "1.4.0" torch_version
  then PyStr.replace "__module." "" (last_of (PyStr.split "/" scope_name))
  else PyStr.join "." (findall_brackets scope_name).

(** [sorted(l)] on strings. *)
Fixpoint sorted_insert (x : string) (l : list string) : list string :=
  match l with
  | [] => [x]
  | y :: l' => if String.leb x y then x :: l else y :: sorted_insert x l'
  end.

Definition sorted (l : list string) : list string :=
  foldr sorted_insert [] l.

(** [is_parent(name1, name2)] of [_extract_leaf_modules]. *)
Fixpoint parts_agree (parts1 parts2 : list string) : bool :=
  match parts1, parts2 with
  | [], _ => true
  | p1 :: r1, p2 :: r2 => if String.eqb p2 p1 then parts_agree r1 r2 else false
  | _ :: _, [] => false
  end.

Definition is_parent (name1 name2 : string) : bool :=
  let parts1 := PyStr.split "." name1 in
  let parts2 := PyStr.split "." name2 in
  if (length parts2 <=? length parts1)%nat then false
  else parts_agree parts1 parts2.

(** [_extract_leaf_modules()]; [named_modules] lists the names that
    [self.trace.named_modules()] yields. *)
Definition _extract_leaf_modules (named_modules : list string) : list string :=
  let module_names :=
    sorted (filter (fun x => x <> EmptyString) named_modules) in
  omap id
    (imap (fun i name =>
             match module_names !! (i + 1)%nat with
             | None => Some name
             | Some next => if is_parent name next then None else Some name
             end)
          module_names).

(** *** Node groups *)

(** Entries of the list [input_args]. *)
Inductive Arg :=
| ArgStr (s : string)
| ArgConst (v : IValue)
| ArgList (l : list Arg).

(** Values stored in the dictionary [auxiliary]. *)
Inductive AuxVal :=
| AuxArgs (l : list Arg)
| AuxShape (sizes : list Z)
| AuxShapes (sizes : list (list Z))
| AuxConst (v : IValue)
| AuxNames (l : list string).

(** [NodePyGroup] *)
Record NodePyGroup := MkNodePyGroup {
  name : string;
  unique_name : string;
  node_type : string;
  op_type : string;
  node_cpps : list Node;
  inputs : list string;
  outputs : list string;
  auxiliary : option (gmap string AuxVal) }.

(** [NodePyGroup.sub_node_names()] *)
Definition sub_node_names (g : NodePyGroup) : list string :=
  (fun node_cpp => scopeName node_cpp +:+ "_" +:+ kind node_cpp) <$> node_cpps g.

Definition set_auxiliary (g : NodePyGroup) (aux : option (gmap string AuxVal))
  : NodePyGroup :=
  MkNodePyGroup (name g) (unique_name g) (node_type g) (op_type g)
                (node_cpps g) (inputs g) (outputs g) aux.

(** [str(n)] *)
Definition str_of_nat (n : nat) : string :=
  NilEmpty.string_of_uint (Nat.to_uint n).

(** *** [_expand_module_node] *)

(** The variables the [while] loop updates. *)
Record ExpandState := MkExpandState {
  node_queue : list Node;
  node_group : list Node;
  visited : list Node;
  acc_inputs : list string;
  acc_outputs : list string }.

(** [node_group.append(n); node_queue.put(n); visited.add(n)] *)
Definition enqueue (n : Node) (st : ExpandState) : ExpandState :=
  MkExpandState (node_queue st ++ [n]) (node_group st ++ [n])
                (visited st ++ [n]) (acc_inputs st) (acc_outputs st).

Definition add_input (x : string) (st : ExpandState) : ExpandState :=
  MkExpandState (node_queue st) (node_group st) (visited st)
                (acc_inputs st ++ [x]) (acc_outputs st).

Definition add_output (x : string) (st : ExpandState) : ExpandState :=
  MkExpandState (node_queue st) (node_group st) (visited st)
                (acc_inputs st) (acc_outputs st ++ [x]).

Section ExpandModule.
Variable nodes : list Node.
Variable input_to_node : gmap string Node.
Variable output_to_node : gmap string Node.

(** Body of [for _input in curr_node.inputs()]. *)
Definition module_visit_input (st : ExpandState) (_input : Value)
  : ExpandState :=
  let input_name := debugName _input in
  match output_to_node !! input_name with
  | Some predecessor_node =>
      if node_in predecessor_node nodes then
        if negb (node_in predecessor_node (visited st))
        then enqueue predecessor_node st
        else st
      else add_input input_name st
  | None => add_input input_name st
  end.

(** Body of [for _output in curr_node.outputs()]. *)
Definition module_visit_output (st : ExpandState) (_output : Value)
  : ExpandState :=
  let output_name := debugName _output in
  match input_to_node !! output_name with
  | Some successor_node =>
      if node_in successor_node nodes then
        if negb (node_in successor_node (visited st))
        then enqueue successor_node st
        else st
      else add_output output_name st
  | None => add_output output_name st
  end.

(** One round of [while not node_queue.empty()], [curr_node] taken
    from the queue. *)
Definition module_visit (curr_node : Node) (st : ExpandState) : ExpandState :=
  foldl module_visit_output
        (foldl module_visit_input st (node_inputs curr_node))
        (node_outputs curr_node).

(** The [while] loop; [None] when [fuel] rounds do not empty the queue. *)
Fixpoint module_loop (fuel : nat) (st : ExpandState) : option ExpandState :=
  match node_queue st with
  | [] => Some st
  | curr_node :: rest =>
      match fuel with
      | O => None
      | S fuel' =>
          module_loop fuel'
            (module_visit curr_node
               (MkExpandState rest (node_group st) (visited st)
                              (acc_inputs st) (acc_outputs st)))
      end
  end.

(** [_expand_module_node(node, node_name, unique_name, op_type, nodes,
    input_to_node, output_to_node, module_type)]: the group and the
    new value of [self.global_count]. *)
Definition _expand_module_node (fuel : nat) (global_count : nat) (node : Node)
    (node_name unique_name op_type module_type : string)
  : option (NodePyGroup * nat) :=
  let global_count := (global_count + 1)%nat in
  let op_type := if String.eqb op_type "" then kind node else op_type in
  st ← module_loop fuel (MkExpandState [node] [node] [node] [] []);
  Some (MkNodePyGroup node_name unique_name module_type op_type
                      (node_group st) (acc_inputs st) (acc_outputs st) None,
        global_count).
End ExpandModule.

(** *** [_expand_non_prim_node] *)

Definition is_prim (n : Node) : bool := PyStr.startswith (kind n) "prim::".

(** [c] matches [[0-9a-zA-Z_]]. *)
Definition is_word_char (c : ascii) : bool :=
  let n := N_of_ascii c in
  ((48 <=? n) && (n <=? 57) || (65 <=? n) && (n <=? 90) ||
   (97 <=? n) && (n <=? 122) || (n =? 95))%N.

Fixpoint all_chars (p : ascii -> bool) (s : string) : bool :=
  match s with
  | EmptyString => true
  | String c r => p c && all_chars p r
  end.

(** [s.isidentifier()] on 7-bit text. *)
Definition isidentifier (s : string) : bool :=
  match s with
  | EmptyString => false
  | String c _ =>
      match PyStr.digit_val c with
      | Some _ => false
      | None => all_chars is_word_char s
      end
  end.

(** [re.sub('[^0-9a-zA-Z_]', '_', s)] *)
Fixpoint sub_non_word (s : string) : string :=
  match s with
  | EmptyString => EmptyString
  | String c r => String (if is_word_char c then c else "_"%char) (sub_non_word r)
  end.

Definition none_allowed_kinds : list string :=
  ["aten::mean"; "aten::avg_pool2d"; "aten::ones_like"; "aten::to";
   "aten::softmax"; "aten::sum"; "aten::arange"].

Section ExpandNonPrim.
Variable torch_version : string.
Variable nodes : list Node.
Variable input_to_node : gmap string Node.
Variable output_to_node : gmap string Node.

(** Body of [for _input in curr_node.inputs()]; [visited] is not used
    by this loop and stays empty. *)
Definition non_prim_visit_input (st : ExpandState) (_input : Value)
  : ExpandState :=
  let input_name := debugName _input in
  match output_to_node !! input_name with
  | Some predecessor_node =>
      if node_in predecessor_node nodes then
        if is_prim predecessor_node
        then MkExpandState (node_queue st ++ [predecessor_node])
                           (node_group st ++ [predecessor_node])
                           (visited st) (acc_inputs st) (acc_outputs st)
        else add_input input_name st
      else add_input input_name st
  | None => add_input input_name st
  end.

Fixpoint non_prim_loop (fuel : nat) (st : ExpandState) : option ExpandState :=
  match node_queue st with
  | [] => Some st
  | curr_node :: rest =>
      match fuel with
      | O => None
      | S fuel' =>
          non_prim_loop fuel'
            (foldl non_prim_visit_input
               (MkExpandState rest (node_group st) (visited st)
                              (acc_inputs st) (acc_outputs st))
               (node_inputs curr_node))
      end
  end.

(** [_visit_node(curr_node, arg_list, node_group)]: the entries it
    appends to [arg_list]; [None] is a raised exception or the end of
    [fuel]. *)
Fixpoint _visit_node (fuel : nat) (node_group : list Node) (curr_node : Node)
  : option (list Arg) :=
  match fuel with
  | O => None
  | S fuel' =>
      for_each
        (fun arg_list _input =>
           let input_name := debugName _input in
           match output_to_node !! input_name with
           | Some predecessor_node =>
               if node_in predecessor_node node_group then
                 if String.eqb (kind predecessor_node) "prim::ListConstruct" then
                   sub ← _visit_node fuel' node_group predecessor_node;
                   Some (arg_list ++ [ArgList sub])
                 else if String.eqb (kind predecessor_node) "prim::Constant" then
                   match toIValue <$> node_outputs predecessor_node with
                   | [IVNone] =>
                       if str_in (kind curr_node) none_allowed_kinds
                       then Some arg_list else None
                   | [IVTensor] => Some (arg_list ++ [ArgStr "Tensor"])
                   | [v] => Some (arg_list ++ [ArgConst v])
                   | _ => None
                   end
                 else if String.eqb (kind predecessor_node) "prim::NumToTensor"
                         || String.eqb (kind predecessor_node) "prim::ListUnpack" then
                   match debugName <$> node_inputs predecessor_node with
                   | [a] => Some (arg_list ++ [ArgStr a])
                   | _ => None
                   end
                 else None
               else Some (arg_list ++ [ArgStr input_name])
           | None => Some (arg_list ++ [ArgStr input_name])
           end)
        [] (node_inputs curr_node)
  end.

(** [_expand_non_prim_node(node, nodes, input_to_node, output_to_node,
    module_type)]: the group and the new value of [self.global_count]. *)
Definition _expand_non_prim_node (fuel : nat) (global_count : nat)
    (node : Node) (module_type : string) : option (NodePyGroup * nat) :=
  let node_name :=
    PyStr.join "." [_get_module_name torch_version (scopeName node);
                    kind node; str_of_nat global_count] in
  let unique_name := node_name in
  let global_count := (global_count + 1)%nat in
  let op_type := kind node in
  st ← non_prim_loop fuel (MkExpandState [node] [node] [] [] []);
  let outputs := debugName <$> node_outputs node in
  let unique_name :=
    if negb (isidentifier unique_name) then sub_non_word unique_name
    else unique_name in
  input_args ← _visit_node fuel (node_group st) node;
  Some (MkNodePyGroup node_name unique_name module_type op_type
                      (node_group st) (acc_inputs st) outputs
                      (Some {[ "input_args" := AuxArgs input_args ]}),
        global_count).
End ExpandNonPrim.

(** *** Dictionaries that are iterated *)

(** A [dict] whose [items()] are read: the mapping and the keys in
    insertion order. *)
Record odict (V : Type) := MkOdict {
  od_map : gmap string V;
  od_keys : list string }.
Arguments MkOdict {V} _ _.
Arguments od_map {V} _.
Arguments od_keys {V} _.

Definition od_empty {V} : odict V := MkOdict ∅ [].

(** [d[k] = v] *)
Definition od_set {V} (k : string) (v : V) (d : odict V) : odict V :=
  MkOdict (<[k := v]> (od_map d))
          (if decide (is_Some (od_map d !! k)) then od_keys d
           else od_keys d ++ [k]).

(** [d[k].append(x)] on a [defaultdict(list)] *)
Definition od_append {V} (k : string) (x : V) (d : odict (list V))
  : odict (list V) :=
  od_set k (default [] (od_map d !! k) ++ [x]) d.

(** [d.items()] *)
Definition od_items {V} (d : odict V) : list (string * V) :=
  omap (fun k => (fun v => (k, v)) <$> od_map d !! k) (od_keys d).

(** *** The module graph *)

(** [TorchModuleGraph]. The [NodePyGroup] objects live in
    [nodes_op] ([self.nodes_py.nodes_op]); the three indices and the
    hierarchy tree refer to one by its position there, so that the update
    of [auxiliary] in place is seen through them. [trace_nodes] is
    [self.trace.graph.nodes()]. *)
Record TorchModuleGraph := MkTorchModuleGraph {
  trace_nodes : list Node;
  global_count : nat;
  leaf_modules : list string;
  nodes_op : list NodePyGroup;
  name_to_node : odict nat;
  input_to_node : gmap string (list nat);
  output_to_node : gmap string nat }.

(** Body of [for node in nodes_op] in [_build_index]; [ref] is the
    position of [node]. *)
Definition index_group
    (st : odict nat * gmap string (list nat) * gmap string nat)
    (entry : nat * NodePyGroup)
  : option (odict nat * gmap string (list nat) * gmap string nat) :=
  let '(name_to_node, input_to_node, output_to_node) := st in
  let '(ref, node) := entry in
  let name_to_node := od_set (unique_name node) ref name_to_node in
  let input_to_node :=
    foldl (fun m _input => <[_input := default [] (m !! _input) ++ [ref]]> m)
          input_to_node (inputs node) in
  output_to_node ←
    for_each (fun m output =>
                if decide (is_Some (m !! output)) then None
                else Some (<[output := ref]> m))
             output_to_node (outputs node);
  Some (name_to_node, input_to_node, output_to_node).

(** [_build_index(nodes_op)]; [None] is the failed assertion
    "One output cannot be generated by multiple nodes". *)
Definition _build_index (nodes_op : list NodePyGroup)
  : option (odict nat * gmap string (list nat) * gmap string nat) :=
  for_each index_group (od_empty, ∅, ∅) (imap pair nodes_op).

(** [find_predecessors(unique_name)]; [None] is the [KeyError]. *)
Definition find_predecessors (self : TorchModuleGraph) (unique_name_ : string)
  : option (list string) :=
  ref ← od_map (name_to_node self) !! unique_name_;
  node ← nodes_op self !! ref;
  for_each (fun predecessors _input =>
              match output_to_node self !! _input with
              | None => Some predecessors
              | Some r =>
                  node_py ← nodes_op self !! r;
                  Some (predecessors ++ [unique_name node_py])
              end)
           [] (inputs node).

(** [find_successors(unique_name)]; [None] is the [KeyError]. *)
Definition find_successors (self : TorchModuleGraph) (unique_name_ : string)
  : option (list string) :=
  ref ← od_map (name_to_node self) !! unique_name_;
  node ← nodes_op self !! ref;
  for_each (fun successors output =>
              match input_to_node self !! output with
              | None => Some successors
              | Some nodes_py =>
                  for_each (fun successors r =>
                              node_py ← nodes_op self !! r;
                              Some (successors ++ [unique_name node_py]))
                           successors nodes_py
              end)
           [] (outputs node).

(** *** Auxiliary information *)

(** [_extract_shape_info(node)]; [None] is a failed assertion or a node
    without input or without exactly one output. *)
Definition _extract_shape_info (node : Node) : option (gmap string AuxVal) :=
  t_input ← head (node_inputs node);
  match node_outputs node with
  | [t_output] =>
      match vtype t_input, vtype t_output with
      | TensorType in_shape, TensorType out_shape =>
          Some (<["out_shape" := AuxShape out_shape]>
                  {[ "in_shape" := AuxShape in_shape ]})
      | _, _ => None
      end
  | _ => None
  end.

(** [_extract_cat_info(node_group, cpp_node)]: the body returns the empty
    dictionary in its first statement; what follows it in the source is
    never run. *)
Definition _extract_cat_info (node_group : NodePyGroup) (cpp_node : Node)
  : gmap string AuxVal := ∅.

Definition shape_op_types : list string :=
  ["aten::view"; "aten::flatten"; "aten::mean"; "aten::reshape"].

(** [aux.update(d)], or [aux = d] when [aux] is [None]. *)
Definition aux_update (aux : option (gmap string AuxVal))
    (d : gmap string AuxVal) : option (gmap string AuxVal) :=
  match aux with
  | None => Some d
  | Some a => Some (d ∪ a)
  end.

(** Body of the loop of [_extract_auxiliary_info] on one group;
    [None] is the [IndexError] of [[0]] or an error of
    [_extract_shape_info]. *)
Definition extract_auxiliary (node_group : NodePyGroup) : option NodePyGroup :=
  if str_in (op_type node_group) shape_op_types then
    cpp_node ← head (filter (fun x => kind x = op_type node_group)
                            (node_cpps node_group));
    info ← _extract_shape_info cpp_node;
    Some (set_auxiliary node_group (aux_update (auxiliary node_group) info))
  else if String.eqb (op_type node_group) CAT_KIND then
    cpp_node ← head (filter (fun x => kind x = op_type node_group)
                            (node_cpps node_group));
    Some (set_auxiliary node_group
            (aux_update (auxiliary node_group)
                        (_extract_cat_info node_group cpp_node)))
  else Some node_group.

(** [_extract_auxiliary_info()]: the groups are updated in place. *)
Definition _extract_auxiliary_info (self : TorchModuleGraph)
  : option TorchModuleGraph :=
  nodes_op' ← mapM extract_auxiliary (nodes_op self);
  Some (MkTorchModuleGraph (trace_nodes self) (global_count self)
          (leaf_modules self) nodes_op' (name_to_node self)
          (input_to_node self) (output_to_node self)).

(** *** [_build_graph] *)

Section BuildGraph.
Variable torch_version : string.
(** Rounds granted to each [while] loop and to [_visit_node]. *)
Variable fuel : nat.

(** [{x.debugName(): n for n in nodes for x in values(n)}] *)
Definition value_index (values : Node -> list Value) (nodes : list Node)
  : gmap string Node :=
  foldl (fun m n => foldl (fun m x => <[debugName x := n]> m) m (values n))
        ∅ nodes.

(** Body of [for node in node_cpps] in the loop over the modules. *)
Definition expand_module_use (module_name op_type_ : string)
    (node_cpps_ : list Node) (input_to_node_ output_to_node_ : gmap string Node)
    (st : nat * list Node * list NodePyGroup * nat) (node : Node)
  : option (nat * list Node * list NodePyGroup * nat) :=
  let '(use_count, merged, nodes_op_, global_count_) := st in
  if negb (node_in node merged) then
    let unique_name_ :=
      if (0 <? use_count)%nat
      then module_name +:+ "." +:+ str_of_nat use_count
      else module_name in
    r ← _expand_module_node node_cpps_ input_to_node_ output_to_node_
           fuel global_count_ node module_name unique_name_ op_type_ "module";
    Some ((use_count + 1)%nat, merged ++ node_cpps r.1,
          nodes_op_ ++ [r.1], r.2)
  else Some st.

(** Body of [for node in non_prim_nodes]. *)
Definition expand_func (nodes : list Node)
    (input_to_node_ output_to_node_ : gmap string Node)
    (st : list NodePyGroup * nat) (node : Node)
  : option (list NodePyGroup * nat) :=
  let '(nodes_op_, global_count_) := st in
  r ← _expand_non_prim_node torch_version nodes output_to_node_
         fuel global_count_ node "func";
  Some (nodes_op_ ++ [r.1], r.2).

(** [TorchModuleGraph._build_graph()] on the trace nodes
    [graph.nodes()] and the pairs [(name, module._name)] of
    [self.trace.named_modules()]. The graph inputs and outputs only
    produce [NodePyIO] entries, which are not kept in [nodes_op]. *)
Definition _build_graph (graph_nodes : list Node)
    (named_modules : list (string * string)) : option TorchModuleGraph :=
  let output_to_node_ := value_index node_outputs graph_nodes in
  let input_to_node_ := value_index node_inputs graph_nodes in
  let leaf_modules_ := _extract_leaf_modules (fst <$> named_modules) in
  let module_to_type : gmap string string :=
    foldl (fun m p => <[p.1 := parse_traced_name p.2]> m) ∅ named_modules in
  let '(module_to_nodes, func_to_nodes) :=
    foldl (fun (acc : odict (list Node) * odict (list Node)) node =>
             let module_name := _get_module_name torch_version (scopeName node) in
             if str_in module_name leaf_modules_
             then (od_append module_name node acc.1, acc.2)
             else (acc.1, od_append (scopeName node) node acc.2))
          (od_empty, od_empty) graph_nodes in
  r1 ← for_each
         (fun (st : list NodePyGroup * nat) (item : string * list Node) =>
            let '(module_name, node_cpps_) := item in
            op_type_ ← module_to_type !! module_name;
            r ← for_each (expand_module_use module_name op_type_ node_cpps_
                            input_to_node_ output_to_node_)
                   (O, [], st.1, st.2) node_cpps_;
            Some (r.1.2, r.2))
         ([], O) (od_items module_to_nodes);
  r2 ← for_each
         (fun (st : list NodePyGroup * nat) (item : string * list Node) =>
            let non_prim_nodes := filter (fun n => is_prim n = false) item.2 in
            for_each (expand_func item.2 input_to_node_ output_to_node_)
                     st non_prim_nodes)
         r1 (od_items func_to_nodes);
  idx ← _build_index r2.1;
  Some (MkTorchModuleGraph graph_nodes r2.2 leaf_modules_ r2.1
                           idx.1.1 idx.1.2 idx.2).

(** [TorchModuleGraph.__init__]: build the graph, then extract the
    auxiliary information. *)
Definition TorchModuleGraph_init (graph_nodes : list Node)
    (named_modules : list (string * string)) : option TorchModuleGraph :=
  self ← _build_graph graph_nodes named_modules;
  _extract_auxiliary_info self.
End BuildGraph.

(** *** [build_module_hierarchy] *)

(** [TreeNode]; [graph_nodes] refers to the attached groups by their
    position in [nodes_op]. *)
Inductive TreeNode :=
  MkTreeNode (local_name full_name : string) (graph_nodes : list nat)
             (child_tnodes : gmap string TreeNode).

Definition local_name (t : TreeNode) : string :=
  match t with MkTreeNode l _ _ _ => l end.
Definition full_name (t : TreeNode) : string :=
  match t with MkTreeNode _ f _ _ => f end.
Definition graph_nodes (t : TreeNode) : list nat :=
  match t with MkTreeNode _ _ g _ => g end.
Definition child_tnodes (t : TreeNode) : gmap string TreeNode :=
  match t with MkTreeNode _ _ _ c => c end.

(** [insert_scope_name(root, name_slices)]: the loop, entered at
    position [i] of [name_slices] with [rest = name_slices[i:]]; the
    tree is mutable in the source, here the visited path is rebuilt. *)
Fixpoint insert_scope_name_from (name_slices : list string) (i : nat)
    (rest : list string) (curr_node : TreeNode) : TreeNode :=
  match rest with
  | [] => curr_node
  | name_ :: rest' =>
      let child :=
        match child_tnodes curr_node !! name_ with
        | Some c => c
        | None =>
            MkTreeNode name_ (PyStr.join "." (take (i + 1) name_slices)) [] ∅
        end in
      MkTreeNode (local_name curr_node) (full_name curr_node)
        (graph_nodes curr_node)
        (<[name_ := insert_scope_name_from name_slices (S i) rest' child]>
           (child_tnodes curr_node))
  end.

Definition insert_scope_name (root : TreeNode) (name_slices : list string)
  : TreeNode :=
  insert_scope_name_from name_slices O name_slices root.

(** [attach_node_to_tree(root, name_slices, node_pygroup)] *)
Fixpoint attach_node_to_tree (curr_node : TreeNode) (name_slices : list string)
    (node_pygroup : nat) : TreeNode :=
  match name_slices with
  | [] => curr_node
  | name_ :: rest =>
      match child_tnodes curr_node !! name_ with
      | Some c =>
          MkTreeNode (local_name curr_node) (full_name curr_node)
            (graph_nodes curr_node)
            (<[name_ := attach_node_to_tree c rest node_pygroup]>
               (child_tnodes curr_node))
      | None =>
          MkTreeNode (local_name curr_node) (full_name curr_node)
            (graph_nodes curr_node ++ [node_pygroup])
            (child_tnodes curr_node)
      end
  end.

(** The scope name tree of the first loop. *)
Definition scope_name_tree (graph_nodes_ : list Node) : TreeNode :=
  foldl (fun root_tnode node =>
           let scope_name :=
             PyStr.replace "__module." ""
               (last_of (PyStr.split "/" (scopeName node))) in
           insert_scope_name root_tnode (PyStr.split "." scope_name))
        (MkTreeNode "root" "root" [] ∅) graph_nodes_.

(** The second loop, over [self.name_to_node.items()]. *)
Definition attach_groups (self : TorchModuleGraph) (root_tnode : TreeNode)
  : option TreeNode :=
  for_each (fun root_tnode (item : string * nat) =>
              node_pygroup ← nodes_op self !! item.2;
              Some (attach_node_to_tree root_tnode
                      (PyStr.split "." (name node_pygroup)) item.2))
           root_tnode (od_items (name_to_node self)).

(** [build_module_hierarchy()]; [None] is the failed assertion on the
    version. *)
Definition build_module_hierarchy (torch_version : string)
    (self : TorchModuleGraph) : option TreeNode :=
  if negb (String.leb "1.4.0" torch_version) then None
  else attach_groups self (scope_name_tree (trace_nodes self)).

(** The tree node reached from [t] along the local names [path]. *)
Fixpoint tnode_at (t : TreeNode) (path : list string) : option TreeNode :=
  match path with
  | [] => Some t
  | x :: path' => c ← child_tnodes t !! x; tnode_at c path'
  end.

End GraphUtils.

(** ** Reference definitions the statements about mnasnet.py compare with *)
Module MnasnetSpec.
Import PyFloat Mnasnet.

(** The multiple of [d] nearest to [val], ties going up. *)
Definition nearest_multiple (val d : Z) : Z := (2 * val + d) / 2 / d * d.

(** The largest multiple of [d] not above [val]. *)
Definition lower_multiple (val d : Z) : Z := val / d * d.

Definition op_table : list string := ["conv"; "mconv"; "dconv"].
Definition filter_table : list float :=
  [literal 0.75%Q; literal 1.0%Q; literal 1.25%Q].
Definition kernel_table : list Z := [3; 5].
Definition skip_table : list bool := [false; true].
Definition layer_deltas (base : Z) : list Z :=
  if base >? 1 then [0; 1; -1] else [0; 1; 0].

(** Entry [c] of a table, when [c] is one of its indices. *)
Definition pick {A} (table : list A) (c : Z) : option A :=
  if c <? 0 then None else table !! Z.to_nat c.

(** The choice an integer token selects in a table. *)
Definition token_choice {A} (table : list A) (tok : string) : option A :=
  c ← PyStr.int tok; pick table c.

(** The five choices of one stage. *)
Record Choice := MkChoice {
  ch_op : string;
  ch_delta : Z;
  ch_multiplier : float;
  ch_kernel : Z;
  ch_skip : bool }.

Definition stage_choices (base : Z) (toks : list string) : option Choice :=
  match toks with
  | [t_op; t_layers; t_filters; t_kernel; t_skip] =>
      op ← token_choice op_table t_op;
      nl ← token_choice (layer_deltas base) t_layers;
      fl ← token_choice filter_table t_filters;
      ks ← token_choice kernel_table t_kernel;
      sk ← token_choice skip_table t_skip;
      Some (MkChoice op nl fl ks sk)
  | _ => None
  end.

(** The choices of the stages, five tokens each. *)
Fixpoint block_choices (bases : list Z) (toks : list string)
  : option (list Choice) :=
  match bases with
  | [] => Some []
  | base :: bases' =>
      c ← stage_choices base (take 5 toks);
      cs ← block_choices bases' (drop 5 toks);
      Some (c :: cs)
  end.

Definition block_of (cs : list Choice) : block_def :=
  BlockDef (ch_op <$> cs) (ch_multiplier <$> cs) (ch_kernel <$> cs)
           (ch_delta <$> cs) (ch_skip <$> cs).

Definition parse_spec (line : string) : option block_def :=
  if decide (length (tokens_of line) = 35%nat)
  then block_of <$> block_choices _MOBILENET_V2_NUM_LAYERS (tokens_of line)
  else None.

(** The keys of [ID_TO_LAYERS] stay among 0, 1 and 2. *)
Definition dom3 (d : gmap Z Z) : Prop :=
  forall k, k < 0 \/ 3 <= k -> d !! k = None.

(** The block definition extended with the choices of one stage. *)
Definition push_choice (bd : block_def) (c : Choice) : block_def :=
  {| convop := convop bd ++ [ch_op c];
     filters := filters bd ++ [ch_multiplier c];
     kernel_size := kernel_size bd ++ [ch_kernel c];
     num_layers := num_layers bd ++ [ch_delta c];
     skips := skips bd ++ [ch_skip c] |}.

(** What [_round_to_multiple_of] returns for the float [v], the divisor
    [d] and the bias [b] when no conversion fails, operation by operation:
    the sum and the product are rounded to doubles. *)
Definition round_result (v : Q) (d : Z) (b : Q) : Z :=
  let t :=
    truncate (round_double (v + round_double (inject_Z d / inject_Z 2))) in
  let new_val := Z.max d (t / d * d) in
  if Qle_bool (round_double (b * v)) (inject_Z new_val) then new_val
  else new_val + d.

(** Every choice of a stage is an entry of its table. *)
Definition valid_choice (base : Z) (c : Choice) : Prop :=
  ch_op c ∈ op_table /\ ch_delta c ∈ layer_deltas base /\
  ch_multiplier c ∈ filter_table /\ ch_kernel c ∈ kernel_table /\
  ch_skip c ∈ skip_table.

(** Stage [st] of the model is built from the choice [c]: operator,
    kernel size and skip are the chosen ones, the layer count is
    [base_n + delta], and the depth is what [_get_depths] with
    [alpha = 1.0] makes of the requested depth
    [int(base_f * multiplier)]. *)
Definition built_stage (base_f base_n : Z) (c : Choice) (st : Stage) : Prop :=
  st_conv st = ch_op c /\ st_ks st = ch_kernel c /\ st_skip st = ch_skip c /\
  st_repeat st = base_n + ch_delta c /\
  exists requested,
    int_of_product base_f (ch_multiplier c) = Some requested /\
    _get_depths [requested] (literal 1.0%Q) = Some [st_depth st].

(** What building the model from [line] gives when the line parses to
    [bd]: the line has 35 tokens giving the choices [cs] of the 7 stages,
    [bd] lists them, and [mnasnet_any] returns 7 stages, each built from
    its choice. *)
Definition model_follows (line : string) (bd : block_def) : Prop :=
  exists cs stages,
    length (tokens_of line) = 35%nat /\
    block_choices _MOBILENET_V2_NUM_LAYERS (tokens_of line) = Some cs /\
    bd = block_of cs /\
    build_model_from_file line = Some stages /\
    length stages = 7%nat /\
    forall i st, stages !! i = Some st ->
      exists base_f base_n c,
        _MOBILENET_V2_FILTERS !! i = Some base_f /\
        _MOBILENET_V2_NUM_LAYERS !! i = Some base_n /\
        cs !! i = Some c /\ valid_choice base_n c /\
        built_stage base_f base_n c st.

Definition sample_line : string :=
  "[0 0 0 0 0 1 1 1 1 1 2 2 2 0 0 1 0 1 0 1 1 0 1 0 1 1 0 1 0 1 0 2 2 1 1]".

Definition zeros_line : string :=
  "[0 0 0 0 0 0 0 0 0 0 0 0 0 0 0 0 0 0 0 0 0 0 0 0 0 0 0 0 0 0 0 0 0 0 0]".

End MnasnetSpec.

(** ** Reference definitions the statements about _graph_utils.py compare with *)
Module GraphSpec.
Import GraphUtils.

(** [c] occurs in [s]. *)
Fixpoint contains (c : ascii) (s : string) : bool :=
  match s with
  | EmptyString => false
  | String c' r => Ascii.eqb c' c || contains c r
  end.

(** [r] is [s] with the occurrences of [old] removed, scanning from the
    left and never inside an occurrence already removed. *)
Inductive removed (old : string) : string -> string -> Prop :=
| removed_nil : removed old "" ""
| removed_occ s r : removed old s r -> removed old (old +:+ s) r
| removed_char c s r :
    String.prefix old (String c s) = false ->
    removed old s r -> removed old (String c s) (String c r).

(** [s[k:]] *)
Fixpoint string_drop (k : nat) (s : string) : string :=
  match k, s with
  | S k', String _ r => string_drop k' r
  | _, _ => s
  end.

(** The text [ [a1]t1[a2]t2... ] of the components [(a, t)]. *)
Fixpoint bracketed (comps : list (string * string)) : string :=
  match comps with
  | [] => ""
  | (a, t) :: rest => "[" +:+ a +:+ "]" +:+ t +:+ bracketed rest
  end.

(** Attribute names hold no [']'] and no newline; the text between two
    bracketed names holds no ['[']. *)
Definition scope_comp_ok (comp : string * string) : Prop :=
  contains "]" comp.1 = false /\ contains "010" comp.1 = false /\
  contains "[" comp.2 = false.

(** The output names of the groups, in the order [_build_index] reads them. *)
Definition all_outputs (nodes_op : list NodePyGroup) : list string :=
  nodes_op ≫= outputs.

(** The same for groups paired with their positions. *)
Definition entry_outputs (entries : list (nat * NodePyGroup)) : list string :=
  entries ≫= (fun e => outputs e.2).

(** Body of [for output in node.outputs] *)
Definition output_step (ref : nat) (m : gmap string nat) (output : string)
  : option (gmap string nat) :=
  if decide (is_Some (m !! output)) then None else Some (<[output := ref]> m).

(** Body of [for _input in node.inputs] *)
Definition input_step (ref : nat) (m : gmap string (list nat)) (_input : string)
  : gmap string (list nat) :=
  <[_input := default [] (m !! _input) ++ [ref]]> m.

(** Two groups at different positions list the same output name. *)
Definition shares_output (nodes_op : list NodePyGroup) : Prop :=
  exists i j gi gj x,
    i <> j /\ nodes_op !! i = Some gi /\ nodes_op !! j = Some gj /\
    x ∈ outputs gi /\ x ∈ outputs gj.


(** The indices of [self] are those [_build_index] computes from its groups. *)
Definition indexed (self : TorchModuleGraph) : Prop :=
  _build_index (nodes_op self)
  = Some (name_to_node self, input_to_node self, output_to_node self).

(** Body of the loop of [find_predecessors]. *)
Definition pred_step (self : TorchModuleGraph) (predecessors : list string) (_input : string)
  : option (list string) :=
  match output_to_node self !! _input with
  | None => Some predecessors
  | Some r => node_py ← nodes_op self !! r; Some (predecessors ++ [unique_name node_py])
  end.

(** Body of the inner loop of [find_successors]. *)
Definition succ_ref_step (self : TorchModuleGraph) (successors : list string) (r : nat)
  : option (list string) :=
  node_py ← nodes_op self !! r; Some (successors ++ [unique_name node_py]).

(** Body of the outer loop of [find_successors]. *)
Definition succ_step (self : TorchModuleGraph) (successors : list string) (output : string)
  : option (list string) :=
  match input_to_node self !! output with
  | None => Some successors
  | Some nodes_py => for_each (succ_ref_step self) successors nodes_py
  end.

(** A trace in which a leaf module carries the name that the naming scheme
    gives to a function group: [self._aten__relu_1 = nn.ReLU()] applied to
    the input, followed by [F.relu] in the top-level [forward]. *)
Definition colliding_trace : list Node :=
  [MkNode 1 "aten::relu" "__module._aten__relu_1"
     [MkValue "x" IVNone (TensorType [1; 8])] [MkValue "v1" IVNone (TensorType [1; 8])];
   MkNode 2 "aten::relu" ""
     [MkValue "v1" IVNone (TensorType [1; 8])] [MkValue "out" IVNone (TensorType [1; 8])]].

Definition colliding_modules : list (string * string) :=
  [("", "Net"); ("_aten__relu_1", "ReLU")].

(** Two groups agree on what [_build_index] reads. *)
Definition same_keys (g g' : NodePyGroup) : Prop :=
  unique_name g = unique_name g' /\ inputs g = inputs g' /\ outputs g = outputs g'.

(** A trace with two leaf modules feeding a top-level [torch.cat]. *)
Definition cat_trace : list Node :=
  [MkNode 1 "aten::_convolution" "__module.conv1"
     [MkValue "x" IVNone (TensorType [1; 3; 8; 8])]
     [MkValue "v1" IVNone (TensorType [1; 4; 8; 8])];
   MkNode 2 "aten::_convolution" "__module.conv2"
     [MkValue "x" IVNone (TensorType [1; 3; 8; 8])]
     [MkValue "v2" IVNone (TensorType [1; 4; 8; 8])];
   MkNode 3 "prim::Constant" "" [] [MkValue "c1" (IVInt 1) OtherType];
   MkNode 4 "prim::ListConstruct" ""
     [MkValue "v1" IVNone (TensorType [1; 4; 8; 8]);
      MkValue "v2" IVNone (TensorType [1; 4; 8; 8])]
     [MkValue "l1" IVNone OtherType];
   MkNode 5 "aten::cat" ""
     [MkValue "l1" IVNone OtherType; MkValue "c1" (IVInt 1) OtherType]
     [MkValue "out" IVNone (TensorType [1; 8; 8; 8])]].

Definition cat_modules : list (string * string) :=
  [("", "Net"); ("conv1", "Conv2d"); ("conv2", "Conv2d")].

(** A tree node without children. *)
Definition leaf_tnode (local full : string) (attached : list nat) : TreeNode :=
  MkTreeNode local full attached ∅.

(** The hierarchy of [cat_trace]: the function group 2 hangs under the
    empty scope, the module groups 0 and 1 hang nowhere. *)
Definition cat_hierarchy : TreeNode :=
  MkTreeNode "root" "root" []
    (<["" := leaf_tnode "" "" [2%nat]]>
       (<["conv2" := leaf_tnode "conv2" "conv2" []]>
          {["conv1" := leaf_tnode "conv1" "conv1" []]})).

(** Every tree node below [t] has as full name the '.'-join of the local
    names from the root, [pre] being the names down to [t]. *)
Definition named_below (pre : list string) (t : TreeNode) : Prop :=
  forall path t', path <> [] -> tnode_at t path = Some t' ->
    full_name t' = PyStr.join "." (pre ++ path) /\
    Some (local_name t') = last path.

(** Every character of a module name is a dot or a character of an
    identifier. *)
Definition name_ok (s : string) : Prop :=
  all_chars (fun c => Ascii.eqb c "." || is_word_char c) s = true.

(** [x <= y] on strings. *)
Definition sle (x y : string) : Prop := String.leb x y = true.

(** The scan of [_extract_leaf_modules] over the sorted names: a name is
    kept unless it is the parent of the next one. *)
Fixpoint leaf_scan (l : list string) : list string :=
  match l with
  | [] => []
  | x :: l' =>
      match l' with
      | [] => [x]
      | y :: _ => if is_parent x y then leaf_scan l' else x :: leaf_scan l'
      end
  end.

Section ModuleGroupSpec.
Variable nodes : list Node.
Variable input_to_node : gmap string Node.
Variable output_to_node : gmap string Node.







End ModuleGroupSpec.

(** A constant added to a tensor at top level. *)
Definition const_node : Node :=
  MkNode 3 "prim::Constant" "" [] [MkValue "c1" (IVInt 1) OtherType].

Definition add_node : Node :=
  MkNode 6 "aten::add" ""
    [MkValue "x" IVNone (TensorType [1]); MkValue "c1" (IVInt 1) OtherType]
    [MkValue "y" IVNone (TensorType [1])].



(** The scope name that [build_module_hierarchy] splits for a trace node. *)
Definition scope_slices (node : Node) : list string :=
  PyStr.split "." (PyStr.replace "__module." "" (last_of (PyStr.split "/" (scopeName node)))).

Section RankSpec.
Variable nodes : list Node.
Variable output_to_node : gmap string Node.
(** A topological rank of the trace nodes, and a bound on their fan-in. *)
Variable rank : Node -> nat.
Variable fan_in : nat.

(** [n] has at most [fan_in] inputs, each produced, when its producer is
    in [nodes], by a node of smaller rank. *)
Definition ranked (n : Node) : Prop :=
  (length (node_inputs n) <= fan_in)%nat /\
  forall v m, v ∈ node_inputs n -> output_to_node !! debugName v = Some m ->
              m ∈ nodes -> (rank m < rank n)%nat.

(** Rounds of the loop that a queued node can cause. *)
Definition weight (n : Node) : nat := (S fan_in ^ rank n)%nat.

End RankSpec.

End GraphSpec.

(** ** The layers that mnasnet.py builds *)
Module MnasnetLayers.
Import PyFloat Mnasnet.

(** [1 - 0.9997]: the [int] 1 is the float 1.0 in the difference. *)
Definition _BN_MOMENTUM : float := fsub (Finite 1) (literal 0.9997%Q).

(** The torch modules that mnasnet.py instantiates, with the arguments it
    passes: [nn.Conv2d(in_channels, out_channels, kernel_size, padding=,
    stride=, groups=, bias=False)], [nn.BatchNorm2d(num_features,
    momentum=)], [nn.ReLU(inplace=True)], [nn.Dropout(p=, inplace=True)],
    [nn.Linear(in_features, out_features)], [nn.Sequential] of a list of
    layers, and the two classes of the file. *)
Inductive Layer :=
| Conv2d (in_channels out_channels kernel_size padding stride groups : Z)
| BatchNorm2d (num_features : Z) (momentum : float)
| ReLU
| Dropout (p : float)
| Linear (in_features out_features : Z)
| Sequential (layers : list Layer)
| _ResidualBlock (net : Layer)
| MkInvertedResidual (apply_residual : bool) (layers : Layer).

(** [m.modules()]: the module and the modules below it. *)
Fixpoint modules (m : Layer) : list Layer :=
  m :: match m with
       | Sequential ls =>
           (fix go (ls : list Layer) : list Layer :=
              match ls with
              | [] => []
              | l :: ls' => modules l ++ go ls'
              end) ls
       | _ResidualBlock net => modules net
       | MkInvertedResidual _ layers => modules layers
       | _ => []
       end.

Section Torch.

(** torch is not among the sources: which arguments its constructors take
    without raising, and which modules the functions of [nn.init] fill
    without raising, are parameters of the model. *)
Variable torch_accepts : Layer -> bool.
Variable init_accepts : Layer -> bool.

(** A call of a constructor of torch; [None] is the error it raises. *)
Definition new (l : Layer) : option Layer :=
  if torch_accepts l then Some l else None.

(** [nn.Sequential] of modules built one after the other. *)
Definition new_sequential (ls : list Layer) : option Layer :=
  ls ← mapM new ls; new (Sequential ls).

(** [_InvertedResidual(in_ch, out_ch, kernel_size, stride,
    expansion_factor, skip, bn_momentum)]; [None] is a failed assertion or
    an error of torch. *)
Definition _InvertedResidual (in_ch out_ch kernel_size stride expansion_factor : Z)
    (skip : bool) (bn_momentum : float) : option Layer :=
  if negb ((stride =? 1) || (stride =? 2)) then None
  else if negb ((kernel_size =? 3) || (kernel_size =? 5)) then None
  else
    let mid_ch := in_ch * expansion_factor in
    let apply_residual := skip && (in_ch =? out_ch) && (stride =? 1) in
    layers ←
      new_sequential
        [Conv2d in_ch mid_ch 1 0 1 1;
         BatchNorm2d mid_ch bn_momentum;
         ReLU;
         Conv2d mid_ch mid_ch kernel_size (kernel_size / 2) stride mid_ch;
         BatchNorm2d mid_ch bn_momentum;
         ReLU;
         Conv2d mid_ch out_ch 1 0 1 1;
         BatchNorm2d out_ch bn_momentum];
    Some (MkInvertedResidual apply_residual layers).

(** [_stack_inverted_residual(in_ch, out_ch, kernel_size, skip, stride,
    exp_factor, repeats, bn_momentum)] *)
Definition _stack_inverted_residual (in_ch out_ch kernel_size : Z) (skip : bool)
    (stride exp_factor repeats : Z) (bn_momentum : float) : option Layer :=
  if negb (1 <=? repeats) then None
  else
    first ← _InvertedResidual in_ch out_ch kernel_size stride exp_factor skip
              bn_momentum;
    remaining ←
      for_each (fun remaining (_ : Z) =>
                  b ← _InvertedResidual out_ch out_ch kernel_size 1 exp_factor
                        skip bn_momentum;
                  Some (remaining ++ [b]))
               [] (seqZ 1 (repeats - 1));
    new (Sequential (first :: remaining)).

(** Body of [for i in range(repeats)] in [_stack_normal_conv]; the state
    is [stack] and [in_ch]. *)
Definition normal_conv_step (out_ch kernel_size : Z) (skip dconv : bool)
    (stride : Z) (bn_momentum : float) (st : list Layer * Z) (i : Z)
  : option (list Layer * Z) :=
  let '(stack, in_ch) := st in
  let s := if i =? 0 then stride else 1 in
  modules ←
    mapM new
      (if dconv then
         [Conv2d in_ch in_ch kernel_size (kernel_size / 2) s in_ch;
          BatchNorm2d in_ch bn_momentum;
          ReLU;
          Conv2d in_ch out_ch 1 0 1 1;
          BatchNorm2d out_ch bn_momentum]
       else
         [Conv2d in_ch out_ch kernel_size (kernel_size / 2) s 1;
          ReLU;
          BatchNorm2d out_ch bn_momentum]);
  stack ←
    (if skip && (in_ch =? out_ch) && (s =? 1)
     then net ← new (Sequential modules); Some (stack ++ [_ResidualBlock net])
     else Some (stack ++ modules));
  Some (stack, out_ch).

(** [_stack_normal_conv(in_ch, out_ch, kernel_size, skip, dconv, stride,
    repeats, bn_momentum)] *)
Definition _stack_normal_conv (in_ch out_ch kernel_size : Z) (skip dconv : bool)
    (stride repeats : Z) (bn_momentum : float) : option (list Layer) :=
  if negb (1 <=? repeats) then None
  else
    fst <$> for_each (normal_conv_step out_ch kernel_size skip dconv stride
                        bn_momentum)
                     ([], in_ch) (seqZ 0 repeats).

(** The attributes that [MNASNet.__init__] sets. *)
Record MNASNetModel := MkMNASNetModel {
  model_alpha : float;
  model_num_classes : Z;
  model_layers : Layer;
  model_classifier : Layer }.

(** Body of the loop of [MNASNet.__init__] over the stages. *)
Definition add_stage (layers : list Layer)
    (stage : string * (Z * (Z * (Z * (bool * (Z * (Z * Z)))))))
  : option (list Layer) :=
  let '(conv, (prev_depth, (depth, (ks, (skip, (stride, (repeat, exp_ratio))))))) :=
    stage in
  if String.eqb conv "mconv" then
    stack ← _stack_inverted_residual prev_depth depth ks skip stride exp_ratio
              repeat _BN_MOMENTUM;
    Some (layers ++ [stack])
  else
    stack ← _stack_normal_conv prev_depth depth ks skip (String.eqb conv "dconv")
              stride repeat _BN_MOMENTUM;
    Some (layers ++ stack).

(** Body of the loop of [_initialize_weights]: only the convolutions,
    the batch norms and the linear layers are filled. *)
Definition initialize (m : Layer) : bool :=
  match m with
  | Conv2d _ _ _ _ _ _ | BatchNorm2d _ _ | Linear _ _ => init_accepts m
  | _ => true
  end.

(** [MNASNet.__init__(alpha, depths, convops, kernel_sizes, num_layers,
    skips, num_classes, dropout)] for a [float] [alpha], with the layers
    it builds. [None] is a failed assertion, an error of [_get_depths] or
    an error of torch. *)
Definition MNASNet_init (alpha : float) (depths : list Z) (convops : list string)
    (kernel_sizes num_layers : list Z) (skips : list bool)
    (num_classes : Z) (dropout : float) : option MNASNetModel :=
  if negb (flt (Finite 0) alpha) then None
  else if negb ((length depths =? 7)%nat && (length convops =? 7)%nat &&
                (length kernel_sizes =? 7)%nat && (length num_layers =? 7)%nat &&
                (length skips =? 7)%nat) then None
  else
    depths ← _get_depths ([_FIRST_DEPTH] ++ depths) alpha;
    let exp_ratios := [3; 3; 3; 6; 6; 6; 6] in
    let strides := [1; 2; 2; 2; 1; 2; 1] in
    depths_0 ← depths !! 0%nat;
    layers ←
      mapM new [Conv2d 3 depths_0 3 1 2 1; BatchNorm2d depths_0 _BN_MOMENTUM;
                ReLU];
    layers ←
      for_each add_stage layers
        (zip convops
           (zip (take (length depths - 1) depths)
              (zip (drop 1 depths)
                 (zip kernel_sizes
                    (zip skips (zip strides (zip num_layers exp_ratios)))))));
    depths_7 ← depths !! 7%nat;
    final ←
      mapM new [Conv2d depths_7 1280 1 0 1 1; BatchNorm2d 1280 _BN_MOMENTUM;
                ReLU];
    layers ← new (Sequential (layers ++ final));
    classifier ← new_sequential [Dropout dropout; Linear 1280 num_classes];
    if forallb initialize (modules layers ++ modules classifier)
    then Some (MkMNASNetModel alpha num_classes layers classifier)
    else None.

(** [mnasnet_any(...)], returning the model with its layers; the
    constructor is called with its defaults [num_classes=1000] and
    [dropout=0.2]. *)
Definition mnasnet_any_model (convops : list string)
    (filter_multipliers : list float)
    (kernel_size num_layer_deltas : list Z) (skips : list bool)
  : option MNASNetModel :=
  filters ← mnasnet_filters filter_multipliers;
  let num_layers := mnasnet_num_layers num_layer_deltas in
  MNASNet_init (literal 1.0%Q) filters convops kernel_size num_layers skips
               1000 (literal 0.2%Q).

(** [build_model_from_file(model_type, model_str)]; [None] is also the
    [None] returned for a model type other than 'mnasnet'. *)
Definition build_model_from_file_model (model_type model_str : string)
  : option MNASNetModel :=
  if String.eqb model_type "mnasnet" then
    block_def ← parse_mnasnet_block model_str;
    mnasnet_any_model (convop block_def) (filters block_def)
                      (kernel_size block_def) (num_layers block_def)
                      (skips block_def)
  else None.

End Torch.

End MnasnetLayers.

(** ** Reference semantics of the torch layers *)
Module LayerSpec.
Import PyFloat MnasnetLayers.

(** Arguments that the constructors of torch take: sizes above 0, a
    padding that is not negative, groups that divide the channels, a
    dropout probability that is neither below 0 nor above 1. *)
Definition plain_args (l : Layer) : bool :=
  match l with
  | Conv2d cin cout k p s g =>
      (0 <? cin) && (0 <? cout) && (0 <? k) && (0 <=? p) && (0 <? s) &&
      (0 <? g) && (cin mod g =? 0) && (cout mod g =? 0)
  | BatchNorm2d n _ => 0 <? n
  | Dropout p => negb (flt p (Finite 0)) && negb (flt (Finite 1) p)
  | Linear i o => (0 <? i) && (0 <? o)
  | _ => true
  end.

(** The modules of one round of [_stack_normal_conv], and what the round
    adds to the stack. *)
Definition normal_conv_modules (in_ch out_ch kernel_size s : Z) (dconv : bool)
    (bn_momentum : float) : list Layer :=
  if dconv then
    [Conv2d in_ch in_ch kernel_size (kernel_size / 2) s in_ch;
     BatchNorm2d in_ch bn_momentum;
     ReLU;
     Conv2d in_ch out_ch 1 0 1 1;
     BatchNorm2d out_ch bn_momentum]
  else
    [Conv2d in_ch out_ch kernel_size (kernel_size / 2) s 1;
     ReLU;
     BatchNorm2d out_ch bn_momentum].

Definition normal_conv_block (in_ch out_ch kernel_size s : Z) (skip dconv : bool)
    (bn_momentum : float) : list Layer :=
  let modules := normal_conv_modules in_ch out_ch kernel_size s dconv bn_momentum in
  if skip && (in_ch =? out_ch) && (s =? 1)
  then [_ResidualBlock (Sequential modules)]
  else modules.

(** The block of [_InvertedResidual]. *)
Definition inverted_residual_block (in_ch out_ch kernel_size s e : Z)
    (skip : bool) (bn_momentum : float) : Layer :=
  MkInvertedResidual (skip && (in_ch =? out_ch) && (s =? 1))
    (Sequential
       [Conv2d in_ch (in_ch * e) 1 0 1 1;
        BatchNorm2d (in_ch * e) bn_momentum;
        ReLU;
        Conv2d (in_ch * e) (in_ch * e) kernel_size (kernel_size / 2) s (in_ch * e);
        BatchNorm2d (in_ch * e) bn_momentum;
        ReLU;
        Conv2d (in_ch * e) out_ch 1 0 1 1;
        BatchNorm2d out_ch bn_momentum]).

(** Every module of [l] has plain arguments. *)
Definition all_plain (l : Layer) : Prop :=
  Forall (fun m => plain_args m = true) (modules l).

(** Output size of a convolution along one axis. *)
Definition conv_out (h kernel_size padding stride : Z) : Z :=
  (h + 2 * padding - kernel_size) / stride + 1.

(** [ceil(h / s)] *)
Definition ceil_div (h s : Z) : Z := (h - 1) / s + 1.

(** Shape (channels, height, width) of the output of a layer on an input
    of shape [x]; [None] when torch rejects the layer or the input. *)
Fixpoint shape (l : Layer) (x : Z * Z * Z) : option (Z * Z * Z) :=
  match l with
  | Conv2d cin cout k p s g =>
      let '(c, h, w) := x in
      if (c =? cin) && (0 <? cin) && (0 <? cout) && (0 <? g) &&
         (cin mod g =? 0) && (cout mod g =? 0) && (0 <? s) && (0 <=? p) &&
         (k <=? h + 2 * p) && (k <=? w + 2 * p) && (0 <? k)
      then Some (cout, conv_out h k p s, conv_out w k p s)
      else None
  | BatchNorm2d n _ => if x.1.1 =? n then Some x else None
  | ReLU => Some x
  | Dropout _ => Some x
  | Linear _ _ => None
  | Sequential ls =>
      (fix go (ls : list Layer) (x : Z * Z * Z) : option (Z * Z * Z) :=
         match ls with
         | [] => Some x
         | l :: ls' => x' ← shape l x; go ls' x'
         end) ls x
  | _ResidualBlock net =>
      y ← shape net x; if decide (y = x) then Some y else None
  | MkInvertedResidual apply_residual layers =>
      y ← shape layers x;
      if apply_residual then (if decide (y = x) then Some y else None)
      else Some y
  end.

(** The same for layers applied one after the other. *)
Definition shape_list (ls : list Layer) (x : Z * Z * Z) : option (Z * Z * Z) :=
  for_each (fun x l => shape l x) x ls.

End LayerSpec.

(** ** Reference definitions for the statements about [_build_graph] *)
Module BuildSpec.
Import GraphUtils.

(** The keys of an iterated dictionary are listed once each. *)
Definition od_wf {V} (d : odict V) : Prop :=
  NoDup (od_keys d) /\ forall k, k ∈ od_keys d <-> is_Some (od_map d !! k).

(** A [view] of a tensor at top level. *)
Definition view_node : Node :=
  MkNode 9 "aten::view" ""
    [MkValue "x" IVNone (TensorType [1; 4; 2; 2]); MkValue "s" IVNone OtherType]
    [MkValue "y" IVNone (TensorType [1; 16])].

End BuildSpec.

(** ** Reference definitions for the statements about the function groups *)
Module FuncGroupSpec.
Import GraphUtils.

Section PrimSpec.
Variable nodes : list Node.
Variable output_to_node : gmap string Node.

(** [m] is a prim node of [nodes] that produces an input of [n]. *)
Definition prim_producer (n m : Node) : Prop :=
  m ∈ nodes /\ is_prim m = true /\
  exists v, v ∈ node_inputs n /\ output_to_node !! debugName v = Some m.

(** The nodes reached from [seed] through prim producers. *)
Inductive prim_reachable (seed : Node) : Node -> Prop :=
| prim_reach_seed : prim_reachable seed seed
| prim_reach_step n m :
    prim_reachable seed n -> prim_producer n m -> prim_reachable seed m.

(** The prim producers within [nodes] of the values [vs], in their order. *)
Definition prim_producers (vs : list Value) : list Node :=
  omap (fun v =>
          match output_to_node !! debugName v with
          | Some m => if node_in m nodes && is_prim m then Some m else None
          | None => None
          end) vs.

(** The debug names among [vs] that have no prim producer within [nodes]. *)
Definition func_inputs (vs : list Value) : list string :=
  omap (fun v =>
          match output_to_node !! debugName v with
          | Some m => if node_in m nodes && is_prim m then None
                      else Some (debugName v)
          | None => Some (debugName v)
          end) vs.

End PrimSpec.

End FuncGroupSpec.

(** ** The scope names of [TorchProtoGraph.parse] *)
Module ProtoGraph.
Import GraphUtils.

Definition CLASSTYPE_KIND : string := "ClassType".
Definition GETATTR_KIND : string := "prim::GetAttr".

(** What [parse] reads of a trace node: its text [str(node)], its kind,
    the scope name that [NodePyOP(node)] starts with and, for a
    [prim::GetAttr] node, the attribute [node.s('name')], the text and the
    kind of [node.input().node()], and the kind of the type of its output. *)
Record ProtoNode := MkProtoNode {
  pn_str : string;
  pn_kind : string;
  pn_scopeName : string;
  pn_attr_name : string;
  pn_parent_str : string;
  pn_parent_kind : string;
  pn_output_kind : string }.

(** [node_to_name(d)], on the text [str(d)] *)
Definition node_to_name (d : string) : string :=
  PyStr.strip (hd EmptyString (PyStr.split ":" d)).

(** Body of [for node in graph.nodes()]: the state is [attr_to_scope]
    and the scope names of the entries of [nodes_py.nodes_op]. [None] is
    the [KeyError] of a parent that was not met before. *)
Definition attr_step (st : gmap string string * list string) (node : ProtoNode)
  : option (gmap string string * list string) :=
  let '(attr_to_scope, scopes) := st in
  if String.eqb (pn_kind node) GETATTR_KIND then
    let attr_name := pn_attr_name node in
    let node_name := node_to_name (pn_str node) in
    attr_to_scope ←
      (if String.eqb (pn_parent_kind node) GETATTR_KIND then
         parent_scope ← attr_to_scope !! node_to_name (pn_parent_str node);
         let attr_scope := last_of (PyStr.split "/" parent_scope) in
         Some (<[node_name := parent_scope +:+ "/" +:+ attr_scope +:+ "." +:+
                              attr_name]> attr_to_scope)
       else Some (<[node_name := "__module." +:+ attr_name]> attr_to_scope));
    if negb (String.eqb (pn_output_kind node) CLASSTYPE_KIND) then
      scope ← attr_to_scope !! node_name;
      Some (attr_to_scope, scopes ++ [scope])
    else Some (attr_to_scope, scopes)
  else Some (attr_to_scope, scopes ++ [pn_scopeName node]).

(** [alias_to_name], from the pairs [(name, module._name)] of
    [trace.named_modules(prefix='__module')]. *)
Definition alias_to_name (named_modules : list (string * string))
  : gmap string string :=
  foldl (fun m p =>
           let mod_name := parse_traced_name p.2 in
           let attr_name := last_of (PyStr.split "." p.1) in
           <[p.1 := mod_name +:+ "[" +:+ attr_name +:+ "]"]> m)
        ∅ named_modules.

(** Body of [for i, alias in enumerate(module_aliases)]: the state is
    [module_name] and [node.scopeName]. *)
Definition rewrite_step (base_name : string) (aliases : gmap string string)
    (st : string * string) (entry : nat * string) : string * string :=
  let '(module_name, scopeName_) := st in
  let '(i, alias) := entry in
  if (i =? 0)%nat then (alias, base_name)
  else
    let module_name := module_name +:+ "." +:+ alias in
    (module_name,
     scopeName_ +:+ "/" +:+
       (match aliases !! module_name with Some n => n | None => alias end)).

(** The scope name that the last loop of [parse] leaves in a node. *)
Definition rewrite_scope (base_name : string) (aliases : gmap string string)
    (scopeName_ : string) : string :=
  let module_aliases :=
    PyStr.split "." (last_of (PyStr.split "/" scopeName_)) in
  (foldl (rewrite_step base_name aliases) (EmptyString, scopeName_)
         (imap pair module_aliases)).2.

End ProtoGraph.

(** ** Reference definitions for the statements about the scope names *)
Module ProtoSpec.
Import GraphUtils ProtoGraph.

(** The scope name of the module reached by the attributes [path]:
    ['__module.a1/__module.a1.a2/...']. *)
Definition scope_of_path (path : list string) : string :=
  PyStr.join "/"
    (imap (fun i _ => "__module." +:+ PyStr.join "." (take (S i) path)) path).

(** One component of the rewritten scope: ['/Class[attr]'], or ['/attr']
    for a module path that has no name. *)
Definition scope_component (aliases : gmap string string) (module_name alias : string)
  : string :=
  "/" +:+ default alias (aliases !! module_name).

(** The loop over [graph.nodes()] with the attribute path of a
    [prim::GetAttr] node, the attribute names from [self] down to the
    node, in the place of its scope. *)
Definition path_step (st : gmap string (list string) * list string) (node : ProtoNode)
  : option (gmap string (list string) * list string) :=
  let '(paths, scopes) := st in
  if String.eqb (pn_kind node) GETATTR_KIND then
    path ←
      (if String.eqb (pn_parent_kind node) GETATTR_KIND then
         parent ← paths !! node_to_name (pn_parent_str node);
         Some (parent ++ [pn_attr_name node])
       else Some [pn_attr_name node]);
    Some (<[node_to_name (pn_str node) := path]> paths,
          if String.eqb (pn_output_kind node) CLASSTYPE_KIND then scopes
          else scopes ++ [scope_of_path path])
  else Some (paths, scopes ++ [pn_scopeName node]).

(** The scopes that the attribute paths stand for. *)
Definition path_scopes (st : gmap string (list string) * list string)
  : gmap string string * list string :=
  (scope_of_path <$> st.1, st.2).

(** The trace of a model whose [backbone] holds [conv2]: its
    attribute nodes and the convolution. *)
Definition backbone_nodes : list ProtoNode :=
  [MkProtoNode "%2 : __torch__.BackboneModel = prim::GetAttr[name=backbone](%self)"
     "prim::GetAttr" "" "backbone" "%self : __torch__.MyModel" "prim::Param"
     "ClassType";
   MkProtoNode "%3 : __torch__.Conv2d = prim::GetAttr[name=conv2](%2)"
     "prim::GetAttr" "" "conv2"
     "%2 : __torch__.BackboneModel = prim::GetAttr[name=backbone](%self)"
     "prim::GetAttr" "ClassType";
   MkProtoNode "%4 : Tensor = prim::GetAttr[name=weight](%3)"
     "prim::GetAttr" "" "weight"
     "%3 : __torch__.Conv2d = prim::GetAttr[name=conv2](%2)"
     "prim::GetAttr" "TensorType";
   MkProtoNode "%5 : Tensor = aten::_convolution(%x, %4)"
     "aten::_convolution" "__module.backbone/__module.backbone.conv2" "" "" ""
     "TensorType"].

(** The named modules of that trace. *)
Definition backbone_modules : list (string * string) :=
  [("__module", "MyModel"); ("__module.backbone", "BackboneModel");
   ("__module.backbone.conv2", "Conv2d")].

End ProtoSpec.
(** * Facts about the floats *)
Section FloatFacts.
Import PyFloat.
Local Open Scope Q_scope.

Lemma pow2_pos (k : Z) : 0 < 2 ^ k.
Proof. by apply Qpower_0_lt. Qed.

Lemma pow2_add (a b : Z) : 2 ^ (a + b) == 2 ^ a * 2 ^ b.
Proof. by apply Qpower_plus. Qed.

Lemma pow2_sub (a b : Z) : 2 ^ (a - b) == 2 ^ a / 2 ^ b.
Proof. by apply Qpower_minus. Qed.

Lemma pow2_le (a b : Z) : (a <= b)%Z -> 2 ^ a <= 2 ^ b.
Proof. intros H. by apply Qpower_le_compat_l. Qed.

Lemma pow2_lt (a b : Z) : (a < b)%Z -> 2 ^ a < 2 ^ b.
Proof. intros H. by apply Qpower_lt_compat_l. Qed.

Lemma pow2_lt_inv (a b : Z) : 2 ^ a < 2 ^ b -> (a < b)%Z.
Proof. intros H. by apply (Qpower_lt_compat_l_inv 2). Qed.

Lemma pow2_Z (k : Z) : (0 <= k)%Z -> 2 ^ k == inject_Z (2 ^ k).
Proof. intros H. by rewrite Zpower_Qpower. Qed.

Lemma pow2_succ (k : Z) : 2 ^ (k + 1) == 2 * 2 ^ k.
Proof. rewrite pow2_add. change (2 ^ 1) with 2. ring. Qed.

Lemma pow2_pred (k : Z) : 2 * 2 ^ (k - 1) == 2 ^ k.
Proof. rewrite <- pow2_succ. by replace (k - 1 + 1)%Z with k by lia. Qed.

(** [ilog2] is the position of the leading bit. *)
Lemma ilog2_spec (x : Q) :
  ~ x == 0 -> 2 ^ ilog2 x <= Qabs x /\ Qabs x < 2 ^ (ilog2 x + 1).
Proof.
  intros Hx. unfold ilog2.
  destruct x as [n d]. cbn [Qnum Qden].
  assert (Hn : (0 < Z.abs n)%Z).
  { destruct n; [|lia..]. destruct Hx. reflexivity. }
  set (p := Z.abs n) in *.
  set (lp := Z.log2 p). set (lq := Z.log2 (Z.pos d)).
  destruct (Z.log2_spec p Hn) as [Hp1 Hp2]. fold lp in Hp1, Hp2.
  destruct (Z.log2_spec (Z.pos d) ltac:(lia)) as [Hd1 Hd2]. fold lq in Hd1, Hd2.
  assert (0 <= lp)%Z by apply Z.log2_nonneg.
  assert (0 <= lq)%Z by apply Z.log2_nonneg.
  assert (Habs : Qabs (n # d) * inject_Z (Z.pos d) == inject_Z p).
  { unfold Qabs, Qeq, Qmult, inject_Z. cbn. subst p. lia. }
  set (ax := Qabs (n # d)) in *.
  assert (Hax : 0 <= ax) by apply Qabs_nonneg.
  assert (Hk : 2 ^ (lp - lq) * 2 ^ lq == 2 ^ lp).
  { rewrite <- pow2_add. by replace (lp - lq + lq)%Z with lp by lia. }
  pose proof (pow2_pos (lp - lq)) as Ha.
  pose proof (pow2_pos lq) as Hb.
  rewrite (pow2_Z lq), (pow2_Z lp) in Hk by done.
  rewrite (pow2_Z lq) in Hb by done.
  assert (Hc1 : inject_Z (2 ^ lp) <= inject_Z p) by (by rewrite <- Zle_Qle).
  assert (Hc2 : inject_Z p < 2 * inject_Z (2 ^ lp)).
  { change 2 with (inject_Z 2). rewrite <- inject_Z_mult, <- Zlt_Qlt.
    rewrite Z.pow_succ_r in Hp2 by done. lia. }
  assert (Hd1' : inject_Z (2 ^ lq) <= inject_Z (Z.pos d)) by (by rewrite <- Zle_Qle).
  assert (Hd2' : inject_Z (Z.pos d) < 2 * inject_Z (2 ^ lq)).
  { change 2 with (inject_Z 2). rewrite <- inject_Z_mult, <- Zlt_Qlt.
    rewrite Z.pow_succ_r in Hd2 by done. lia. }
  set (D := inject_Z (Z.pos d)) in *. set (P := inject_Z p) in *.
  set (a := 2 ^ (lp - lq)) in *. set (b := inject_Z (2 ^ lq)) in *.
  set (c := inject_Z (2 ^ lp)) in *.
  destruct (Qle_bool a ax) eqn:E.
  - apply Qle_bool_iff in E. split; [done|].
    rewrite pow2_succ. fold a. nra.
  - assert (ax < a).
    { apply Qnot_le_lt. intros H'. apply Qle_bool_iff in H'. congruence. }
    split.
    + assert (2 * 2 ^ (lp - lq - 1) <= 2 * ax); [|lra].
      rewrite pow2_pred. fold a. nra.
    + by replace (lp - lq - 1 + 1)%Z with (lp - lq)%Z by lia.
Qed.

Lemma ilog2_unique (x : Q) (l : Z) :
  2 ^ l <= Qabs x -> Qabs x < 2 ^ (l + 1) -> ilog2 x = l.
Proof.
  intros H1 H2.
  assert (Hx : ~ x == 0).
  { intros E. pose proof (pow2_pos l).
    assert (Qabs x == 0) by (by rewrite E). lra. }
  destruct (ilog2_spec x Hx) as [H3 H4].
  assert (l < ilog2 x + 1)%Z by (apply pow2_lt_inv; lra).
  assert (ilog2 x < l + 1)%Z by (apply pow2_lt_inv; lra).
  lia.
Qed.

Lemma ilog2_comp (x y : Q) : ~ y == 0 -> x == y -> ilog2 x = ilog2 y.
Proof.
  intros Hy E. destruct (ilog2_spec y Hy) as [H1 H2].
  apply ilog2_unique; by rewrite E.
Qed.

Lemma ilog2_opp (x : Q) : ~ x == 0 -> ilog2 (- x) = ilog2 x.
Proof.
  intros Hx. destruct (ilog2_spec x Hx) as [H1 H2].
  apply ilog2_unique; by rewrite Qabs_opp.
Qed.

Lemma ilog2_mono (x y : Q) :
  ~ x == 0 -> Qabs x <= Qabs y -> (ilog2 x <= ilog2 y)%Z.
Proof.
  intros Hx H.
  assert (Hy : ~ y == 0).
  { intros E. assert (Qabs y == 0) as E' by (by rewrite E).
    apply Hx. destruct (Qabs_Qle_condition x 0) as [H' _].
    specialize (H' ltac:(lra)). lra. }
  destruct (ilog2_spec x Hx) as [H1 _]. destruct (ilog2_spec y Hy) as [_ H2].
  assert (ilog2 x < ilog2 y + 1)%Z by (apply pow2_lt_inv; lra). lia.
Qed.

Lemma inject_Z_sub (a b : Z) : inject_Z (a - b) == inject_Z a - inject_Z b.
Proof. unfold Z.sub. rewrite inject_Z_plus, inject_Z_opp. ring. Qed.

Lemma Qfloor_unique (x : Q) (n : Z) :
  inject_Z n <= x -> x < inject_Z (n + 1) -> Qfloor x = n.
Proof.
  intros H1 H2. pose proof (Qfloor_le x) as H3. pose proof (Qlt_floor x) as H4.
  assert (n < Qfloor x + 1)%Z by (rewrite Zlt_Qlt; lra).
  assert (Qfloor x < n + 1)%Z by (rewrite Zlt_Qlt; lra).
  lia.
Qed.

Lemma rhe_comp (x y : Q) : x == y -> round_half_even x = round_half_even y.
Proof.
  intros E. unfold round_half_even. rewrite (Qfloor_comp _ _ E).
  by rewrite E.
Qed.

Lemma rhe_int (n : Z) : round_half_even (inject_Z n) = n.
Proof.
  unfold round_half_even. rewrite Qfloor_Z.
  destruct (Qcompare_spec (inject_Z n - inject_Z n) (1 # 2)); [lra|done|lra].
Qed.

(** The rounded value is the floor or the integer after it, at most a
    half away. *)
Lemma rhe_near (x : Q) :
  inject_Z (round_half_even x) - (1 # 2) <= x /\
  x <= inject_Z (round_half_even x) + (1 # 2) /\
  (Qfloor x <= round_half_even x <= Qfloor x + 1)%Z.
Proof.
  unfold round_half_even.
  pose proof (Qfloor_le x) as H1. pose proof (Qlt_floor x) as H2.
  rewrite inject_Z_plus in H2. change (inject_Z 1) with 1 in H2.
  destruct (Qcompare_spec (x - inject_Z (Qfloor x)) (1 # 2)) as [E|E|E].
  - destruct (Z.even (Qfloor x)).
    + split; [lra|]. split; [lra|lia].
    + rewrite inject_Z_plus. change (inject_Z 1) with 1.
      split; [lra|]. split; [lra|lia].
  - split; [lra|]. split; [lra|lia].
  - rewrite inject_Z_plus. change (inject_Z 1) with 1.
    split; [lra|]. split; [lra|lia].
Qed.

Lemma rhe_mono (x y : Q) : x <= y -> (round_half_even x <= round_half_even y)%Z.
Proof.
  intros H. pose proof (Qfloor_resp_le _ _ H) as Hf.
  destruct (Z.eq_dec (Qfloor x) (Qfloor y)) as [E|Hne].
  - unfold round_half_even. rewrite <- E.
    destruct (Qcompare_spec (x - inject_Z (Qfloor x)) (1 # 2)) as [E1|E1|E1];
      destruct (Qcompare_spec (y - inject_Z (Qfloor x)) (1 # 2)) as [E2|E2|E2];
      destruct (Z.even (Qfloor x)); try lia; lra.
  - destruct (rhe_near x) as (_ & _ & H1). destruct (rhe_near y) as (_ & _ & H2).
    lia.
Qed.

Lemma rhe_ge (x : Q) (n : Z) : inject_Z n <= x -> (n <= round_half_even x)%Z.
Proof. intros H. rewrite <- (rhe_int n). by apply rhe_mono. Qed.

Lemma rhe_le (x : Q) (n : Z) : x <= inject_Z n -> (round_half_even x <= n)%Z.
Proof. intros H. rewrite <- (rhe_int n). by apply rhe_mono. Qed.

Lemma rhe_opp (x : Q) : round_half_even (- x) = (- round_half_even x)%Z.
Proof.
  pose proof (Qfloor_le x) as H1. pose proof (Qlt_floor x) as H2.
  rewrite inject_Z_plus in H2. change (inject_Z 1) with 1 in H2.
  destruct (Qeq_dec x (inject_Z (Qfloor x))) as [E|Hne].
  - rewrite (rhe_comp x _ E), (rhe_comp (- x) (inject_Z (- Qfloor x))).
    + by rewrite !rhe_int.
    + rewrite inject_Z_opp. by rewrite <- E.
  - assert (Hf : Qfloor (- x) = (- Qfloor x - 1)%Z).
    { apply Qfloor_unique.
      - rewrite inject_Z_sub, inject_Z_opp. change (inject_Z 1) with 1. lra.
      - replace (- Qfloor x - 1 + 1)%Z with (- Qfloor x)%Z by lia.
        rewrite inject_Z_opp.
        assert (inject_Z (Qfloor x) < x); [|lra].
        apply Qle_lt_or_eq in H1 as [?|E]; [done|]. destruct Hne. by symmetry. }
    unfold round_half_even. rewrite Hf.
    rewrite (Qcompare_comp (- x - inject_Z (- Qfloor x - 1))
               (- x - (- inject_Z (Qfloor x) - 1)) ltac:(by rewrite inject_Z_sub, inject_Z_opp)
               (1 # 2) (1 # 2) ltac:(reflexivity)).
    assert (Hev : Z.even (- Qfloor x - 1) = negb (Z.even (Qfloor x))).
    { rewrite Z.even_sub, Z.even_opp. by destruct (Z.even (Qfloor x)). }
    rewrite Hev.
    destruct (Qcompare_spec (x - inject_Z (Qfloor x)) (1 # 2)) as [E1|E1|E1];
      destruct (Qcompare_spec (- x - (- inject_Z (Qfloor x) - 1)) (1 # 2)) as [E2|E2|E2];
      destruct (Z.even (Qfloor x)); cbn [negb]; try lia; lra.
Qed.

Lemma round_double_0 (x : Q) : x == 0 -> round_double x == 0.
Proof. intros E. unfold round_double. by rewrite (Qeq_eq_bool _ _ E). Qed.

Lemma round_double_nz (x : Q) :
  ~ x == 0 ->
  round_double x
  = inject_Z (round_half_even (x / 2 ^ ulp_exp x)) * 2 ^ ulp_exp x.
Proof.
  intros Hx. unfold round_double.
  destruct (Qeq_bool x 0) eqn:E; [|done]. by apply Qeq_bool_eq in E.
Qed.

Lemma scaled_mul (x : Q) (u : Z) : x / 2 ^ u * 2 ^ u == x.
Proof. pose proof (pow2_pos u). field. lra. Qed.

Lemma round_double_comp (x y : Q) : x == y -> round_double x == round_double y.
Proof.
  intros E. destruct (Qeq_dec y 0) as [E0|Hy].
  - rewrite !round_double_0; [done|done|by rewrite E].
  - rewrite !round_double_nz; [|done|by rewrite E].
    unfold ulp_exp. rewrite (ilog2_comp x y Hy E).
    by rewrite (rhe_comp (x / _) (y / 2 ^ Z.max (ilog2 y - 52) (-1074)))
      by (by rewrite E).
Qed.

Lemma round_double_opp (x : Q) : round_double (- x) == - round_double x.
Proof.
  destruct (Qeq_dec x 0) as [E0|Hx].
  - rewrite !round_double_0; [done|done|by rewrite E0].
  - rewrite !round_double_nz; [|done|lra].
    unfold ulp_exp. rewrite (ilog2_opp x Hx).
    set (u := Z.max (ilog2 x - 52) (-1074)).
    rewrite (rhe_comp (- x / 2 ^ u) (- (x / 2 ^ u)))
      by (pose proof (pow2_pos u); field; lra).
    rewrite rhe_opp, inject_Z_opp. ring.
Qed.

(** A double is left as it is. *)
Lemma round_double_exact (m e : Z) :
  (Z.abs m < 2 ^ 53)%Z -> (-1074 <= e)%Z ->
  round_double (inject_Z m * 2 ^ e) == inject_Z m * 2 ^ e.
Proof.
  intros Hm He. set (x := inject_Z m * 2 ^ e).
  pose proof (pow2_pos e) as Hpe.
  destruct (Z.eq_dec m 0%Z) as [->|Hm0].
  { assert (x == 0) as E by (subst x; by rewrite Qmult_0_l).
    by rewrite (round_double_0 x E), E. }
  assert (Hx : ~ x == 0).
  { subst x. intros E. apply Qmult_integral in E as [E|E]; [|lra].
    apply Hm0. unfold Qeq in E. cbn in E. lia. }
  rewrite round_double_nz by done.
  destruct (ilog2_spec x Hx) as [H1 _].
  assert (Habs : Qabs x == inject_Z (Z.abs m) * 2 ^ e).
  { subst x. rewrite Qabs_Qmult, (Qabs_pos (2 ^ e)) by lra.
    apply Qmult_comp; [|done]. unfold Qabs, inject_Z. by cbn. }
  assert (Hlt : Qabs x < 2 ^ (53 + e)).
  { rewrite Habs, pow2_add, (pow2_Z 53) by done.
    assert (inject_Z (Z.abs m) < inject_Z (2 ^ 53)) by (by rewrite <- Zlt_Qlt).
    nra. }
  assert (ilog2 x < 53 + e)%Z by (apply pow2_lt_inv; lra).
  assert (Hu : (ulp_exp x <= e)%Z) by (unfold ulp_exp; lia).
  set (u := ulp_exp x) in *.
  assert (Hs : x / 2 ^ u == inject_Z (m * 2 ^ (e - u))).
  { subst x. rewrite inject_Z_mult, <- pow2_Z by lia. rewrite pow2_sub.
    pose proof (pow2_pos u). field. lra. }
  rewrite (rhe_comp _ _ Hs), rhe_int.
  rewrite inject_Z_mult, <- pow2_Z by lia. rewrite pow2_sub. subst x.
  pose proof (pow2_pos u). field. lra.
Qed.

Lemma round_double_int (n : Z) :
  (Z.abs n <= 2 ^ 53)%Z -> round_double (inject_Z n) == inject_Z n.
Proof.
  intros Hn. destruct (Z.eq_dec (Z.abs n) (2 ^ 53)%Z) as [E|Hne].
  - assert (inject_Z n == inject_Z (n / 2) * 2 ^ 1) as E'.
    { change (2 ^ 1) with (inject_Z 2). rewrite <- inject_Z_mult.
      change (2 ^ 53)%Z with 9007199254740992%Z in E.
      replace (n / 2 * 2)%Z with n; [reflexivity|]. clear Hn.
      pose proof (Z.div_mod n 2 ltac:(lia)) as Hd.
      pose proof (Z.mod_pos_bound n 2 ltac:(lia)). lia. }
    rewrite (round_double_comp _ _ E'), E'.
    apply round_double_exact; [|lia].
    change (2 ^ 53)%Z with 9007199254740992%Z in *. clear E' Hn.
    pose proof (Z.div_mod n 2 ltac:(lia)) as Hd.
    pose proof (Z.mod_pos_bound n 2 ltac:(lia)). lia.
  - assert (inject_Z n == inject_Z n * 2 ^ 0) as E'
      by (change (2 ^ 0) with 1; ring).
    rewrite (round_double_comp _ _ E'), round_double_exact by lia.
    by symmetry.
Qed.

(** The doubles around [x]: a multiple of the unit in the last place of
    [x] that is below [x] is below the rounded value, and the same above. *)
Lemma round_double_ge_grid (x : Q) (n : Z) :
  ~ x == 0 -> inject_Z n * 2 ^ ulp_exp x <= x ->
  inject_Z n * 2 ^ ulp_exp x <= round_double x.
Proof.
  intros Hx H. rewrite round_double_nz by done.
  pose proof (pow2_pos (ulp_exp x)) as Hp.
  pose proof (scaled_mul x (ulp_exp x)) as Hs.
  set (t := x / 2 ^ ulp_exp x) in *.
  assert (n <= round_half_even t)%Z as Hr by (apply rhe_ge; nra).
  rewrite Zle_Qle in Hr. nra.
Qed.

Lemma round_double_le_grid (x : Q) (n : Z) :
  ~ x == 0 -> x <= inject_Z n * 2 ^ ulp_exp x ->
  round_double x <= inject_Z n * 2 ^ ulp_exp x.
Proof.
  intros Hx H. rewrite round_double_nz by done.
  pose proof (pow2_pos (ulp_exp x)) as Hp.
  pose proof (scaled_mul x (ulp_exp x)) as Hs.
  set (t := x / 2 ^ ulp_exp x) in *.
  assert (round_half_even t <= n)%Z as Hr by (apply rhe_le; nra).
  rewrite Zle_Qle in Hr. nra.
Qed.

Lemma round_double_nonneg (x : Q) : 0 <= x -> 0 <= round_double x.
Proof.
  intros H. destruct (Qeq_dec x 0) as [E|Hx].
  - rewrite round_double_0; [lra|done].
  - pose proof (round_double_ge_grid x 0 Hx) as H'.
    rewrite Qmult_0_l in H'. by apply H'.
Qed.

Lemma round_double_mono_pos (x y : Q) :
  0 < x -> x <= y -> round_double x <= round_double y.
Proof.
  intros Hx Hxy.
  assert (Hx0 : ~ x == 0) by lra. assert (Hy0 : ~ y == 0) by lra.
  assert (Hax : Qabs x == x) by (apply Qabs_pos; lra).
  assert (Hay : Qabs y == y) by (apply Qabs_pos; lra).
  pose proof (ilog2_mono x y Hx0 ltac:(lra)) as Hl.
  destruct (ilog2_spec x Hx0) as [_ Hx2]. destruct (ilog2_spec y Hy0) as [Hy1 _].
  destruct (Z.eq_dec (ulp_exp x) (ulp_exp y)) as [E|Hne].
  - rewrite !round_double_nz by done. rewrite <- E.
    pose proof (pow2_pos (ulp_exp x)) as Hp.
    pose proof (scaled_mul x (ulp_exp x)) as Hs.
    pose proof (scaled_mul y (ulp_exp x)) as Ht.
    set (s := x / 2 ^ ulp_exp x) in *. set (t := y / 2 ^ ulp_exp x) in *.
    assert (round_half_even s <= round_half_even t)%Z as Hr
      by (apply rhe_mono; nra).
    rewrite Zle_Qle in Hr. nra.
  - assert (Hu : (ulp_exp x < ulp_exp y)%Z) by (unfold ulp_exp in *; lia).
    assert (Huy : ulp_exp y = (ilog2 y - 52)%Z) by (unfold ulp_exp in *; lia).
    assert (Hll : (ilog2 x < ilog2 y)%Z) by (unfold ulp_exp in *; lia).
    apply Qle_trans with (2 ^ ilog2 y).
    + assert (E : 2 ^ ilog2 y == inject_Z (2 ^ (ilog2 y - ulp_exp x)) * 2 ^ ulp_exp x).
      { rewrite <- pow2_Z by lia. rewrite <- pow2_add.
        by replace (ilog2 y - ulp_exp x + ulp_exp x)%Z with (ilog2 y) by lia. }
      rewrite E. apply round_double_le_grid; [done|]. rewrite <- E.
      pose proof (pow2_le (ilog2 x + 1) (ilog2 y) ltac:(lia)). lra.
    + assert (E : 2 ^ ilog2 y == inject_Z (2 ^ 52) * 2 ^ ulp_exp y).
      { rewrite <- pow2_Z by lia. rewrite <- pow2_add, Huy.
        by replace (52 + (ilog2 y - 52))%Z with (ilog2 y) by lia. }
      rewrite E. apply round_double_ge_grid; [done|]. rewrite <- E. lra.
Qed.

(** Rounding keeps the order. *)
Lemma round_double_mono (x y : Q) : x <= y -> round_double x <= round_double y.
Proof.
  intros H. destruct (Qlt_le_dec 0 x) as [Hx|Hx].
  - by apply round_double_mono_pos.
  - destruct (Qlt_le_dec y 0) as [Hy|Hy].
    + pose proof (round_double_mono_pos (- y) (- x) ltac:(lra) ltac:(lra)) as H'.
      rewrite !round_double_opp in H'. lra.
    + pose proof (round_double_nonneg y Hy).
      pose proof (round_double_nonneg (- x) ltac:(lra)) as H'.
      rewrite round_double_opp in H'. lra.
Qed.

Lemma pow2_exact (k : Z) : (-1074 <= k)%Z -> round_double (2 ^ k) == 2 ^ k.
Proof.
  intros Hk.
  assert (2 ^ k == inject_Z 1 * 2 ^ k) as E by ring.
  rewrite (round_double_comp _ _ E), round_double_exact; [by symmetry|done|done].
Qed.

(** Below [2^1024] no operation overflows. *)
Lemma round_double_bounded (x : Q) (k : Z) :
  (-1074 <= k)%Z -> Qabs x <= 2 ^ k -> Qabs (round_double x) <= 2 ^ k.
Proof.
  intros Hk H. apply Qabs_Qle_condition in H as [H1 H2].
  apply Qabs_Qle_condition.
  pose proof (round_double_mono _ _ H1) as H1'.
  pose proof (round_double_mono _ _ H2) as H2'.
  rewrite round_double_opp in H1'. rewrite pow2_exact in H1', H2' by done.
  by split.
Qed.

Lemma of_real_finite (x : Q) :
  Qabs (round_double x) < 2 ^ 1024 -> of_real x = Finite (round_double x).
Proof.
  intros H. unfold of_real. cbv zeta.
  destruct (Qle_bool (2 ^ 1024) (Qabs (round_double x))) eqn:E; [|done].
  apply Qle_bool_iff in E. lra.
Qed.

Lemma of_real_bounded (x : Q) (k : Z) :
  (-1074 <= k < 1024)%Z -> Qabs x <= 2 ^ k -> of_real x = Finite (round_double x).
Proof.
  intros Hk H. apply of_real_finite.
  pose proof (round_double_bounded x k ltac:(lia) H).
  pose proof (pow2_lt k 1024 ltac:(lia)). lra.
Qed.

Lemma truncate_nonneg (x : Q) : 0 <= x -> truncate x = Qfloor x.
Proof.
  intros H. unfold truncate, Qfloor. destruct x as [n d]. cbn [Qnum Qden].
  apply Z.quot_div_nonneg; [|lia]. unfold Qle in H. cbn in H. lia.
Qed.

Lemma truncate_opp (x : Q) : truncate (- x) = (- truncate x)%Z.
Proof. unfold truncate. destruct x as [n d]. cbn. apply Z.quot_opp_l. lia. Qed.

Lemma truncate_comp (x y : Q) : x == y -> truncate x = truncate y.
Proof.
  intros E. destruct (Qlt_le_dec x 0) as [H|H].
  - rewrite <- (Z.opp_involutive (truncate x)), <- (Z.opp_involutive (truncate y)).
    rewrite <- (truncate_opp x), <- (truncate_opp y).
    assert (0 <= - x) by lra. assert (0 <= - y) by lra.
    rewrite (truncate_nonneg (- x)), (truncate_nonneg (- y)) by done.
    f_equal. apply Qfloor_comp. by rewrite E.
  - rewrite !truncate_nonneg by lra. by apply Qfloor_comp.
Qed.

Lemma truncate_int (n : Z) : truncate (inject_Z n) = n.
Proof. unfold truncate. cbn. apply Z.quot_1_r. Qed.

Lemma truncate_half (n : Z) :
  (0 <= n)%Z -> truncate (inject_Z n / 2) = (n / 2)%Z.
Proof.
  intros H. rewrite truncate_nonneg.
  - change 2 with (inject_Z 2). by rewrite <- Zdiv_Qdiv.
  - assert (0 <= inject_Z n) by (change 0 with (inject_Z 0); by rewrite <- Zle_Qle).
    apply Qle_shift_div_l; lra.
Qed.

Lemma truncate_mono (x y : Q) : x <= y -> (truncate x <= truncate y)%Z.
Proof.
  intros H. destruct (Qlt_le_dec x 0) as [Hx|Hx]; destruct (Qlt_le_dec y 0) as [Hy|Hy].
  - rewrite <- (Z.opp_involutive (truncate x)), <- (Z.opp_involutive (truncate y)).
    rewrite <- (truncate_opp x), <- (truncate_opp y).
    assert (0 <= - x) by lra. assert (0 <= - y) by lra.
    rewrite (truncate_nonneg (- x)), (truncate_nonneg (- y)) by done.
    assert (Qfloor (- y) <= Qfloor (- x))%Z by (apply Qfloor_resp_le; lra). lia.
  - rewrite <- (Z.opp_involutive (truncate x)), <- (truncate_opp x).
    assert (0 <= - x) by lra.
    rewrite (truncate_nonneg (- x)), (truncate_nonneg y) by done.
    assert (Qfloor 0 <= Qfloor (- x))%Z by (apply Qfloor_resp_le; lra).
    assert (Qfloor 0 <= Qfloor y)%Z by (apply Qfloor_resp_le; lra).
    change (Qfloor 0) with 0%Z in *. lia.
  - lra.
  - rewrite !truncate_nonneg by lra. by apply Qfloor_resp_le.
Qed.

(** The rounded value is a double. *)
Lemma round_double_idem (x : Q) : round_double (round_double x) == round_double x.
Proof.
  destruct (Qeq_dec x 0) as [E|Hx].
  { rewrite (round_double_comp _ _ (round_double_0 x E)).
    rewrite (round_double_0 x E). by apply round_double_0. }
  rewrite (round_double_nz x Hx).
  set (u := ulp_exp x). set (m := round_half_even (x / 2 ^ u)).
  assert (Hu : (-1074 <= u)%Z) by (unfold u, ulp_exp; lia).
  assert (Hm : (Z.abs m <= 2 ^ 53)%Z).
  { destruct (ilog2_spec x Hx) as [_ H2].
    pose proof (pow2_pos u) as Hp. pose proof (scaled_mul x u) as Hs.
    assert (Hl : (ilog2 x + 1 <= 53 + u)%Z) by (unfold u, ulp_exp; lia).
    pose proof (pow2_le _ _ Hl) as Hle.
    pose proof (pow2_add 53 u) as Hadd.
    pose proof (pow2_Z 53 ltac:(done)) as H53.
    set (P := 2 ^ 53) in *. set (PZ := inject_Z (2 ^ 53)) in *.
    apply Qabs_Qlt_condition in H2 as [H2 H3].
    set (t := x / 2 ^ u) in *. fold t in m.
    assert (Hlo : - PZ <= t).
    { assert (0 < (t + P) * 2 ^ u) as Hpos by nra.
      assert (0 < t + P); [|lra].
      destruct (Qlt_le_dec 0 (t + P)) as [?|Hneg]; [done|]. nra. }
    assert (Hhi : t <= PZ).
    { assert (0 < (P - t) * 2 ^ u) as Hpos by nra.
      assert (0 < P - t); [|lra].
      destruct (Qlt_le_dec 0 (P - t)) as [?|Hneg]; [done|]. nra. }
    assert (- 2 ^ 53 <= m)%Z by (apply rhe_ge; by rewrite inject_Z_opp).
    assert (m <= 2 ^ 53)%Z by (by apply rhe_le).
    lia. }
  destruct (Z.eq_dec (Z.abs m) (2 ^ 53)%Z) as [E|Hne].
  - assert (inject_Z m * 2 ^ u == inject_Z (m / 2) * 2 ^ (u + 1)) as E'.
    { rewrite pow2_succ. change (2 ^ 53)%Z with 9007199254740992%Z in E.
      assert (m = (m / 2 * 2)%Z) as Hm2.
      { pose proof (Z.div_mod m 2 ltac:(lia)) as Hd.
        pose proof (Z.mod_pos_bound m 2 ltac:(lia)). clear Hm. lia. }
      rewrite Hm2 at 1. rewrite inject_Z_mult. change (inject_Z 2) with 2. ring. }
    rewrite (round_double_comp _ _ E'), E'.
    apply round_double_exact; [|lia].
    change (2 ^ 53)%Z with 9007199254740992%Z in *. clear E' Hm.
    pose proof (Z.div_mod m 2 ltac:(lia)) as Hd.
    pose proof (Z.mod_pos_bound m 2 ltac:(lia)). lia.
  - apply round_double_exact; lia.
Qed.
End FloatFacts.
(** * Facts about mnasnet.py *)
Section MnasnetFacts.
Import PyFloat Mnasnet MnasnetSpec.

Lemma Qabs_inject_Z (n : Z) : (Qabs (inject_Z n) == inject_Z (Z.abs n))%Q.
Proof. unfold Qabs, inject_Z. by cbn. Qed.

Lemma Qabs_le_pow2 (n k : Z) :
  0 <= k -> Z.abs n <= 2 ^ k -> (Qabs (inject_Z n) <= 2 ^ k)%Q.
Proof.
  intros Hk H. rewrite Qabs_inject_Z, pow2_Z by done. by rewrite <- Zle_Qle.
Qed.

Lemma of_int_finite (n : Z) :
  Z.abs n <= 2 ^ 1000 -> of_int n = Some (Finite (round_double (inject_Z n))).
Proof.
  intros H. unfold of_int.
  by rewrite (of_real_bounded _ 1000) by (done || by apply Qabs_le_pow2).
Qed.

Lemma int_truediv_2 (d : Z) :
  Z.abs d <= 2 ^ 1000 ->
  int_truediv d 2 = Some (Finite (round_double (inject_Z d / inject_Z 2))).
Proof.
  intros H. unfold int_truediv. cbn [Z.eqb].
  rewrite (of_real_bounded _ 1000); [done|done|].
  pose proof (Qabs_le_pow2 d 1000 ltac:(done) H) as H'.
  apply Qabs_Qle_condition in H' as [H1 H2]. apply Qabs_Qle_condition.
  change (inject_Z 2) with 2%Q.
  pose proof (pow2_pos 1000).
  split; [apply Qle_shift_div_l|apply Qle_shift_div_r]; lra.
Qed.

Lemma half_bounded (d : Z) :
  Z.abs d <= 2 ^ 1000 ->
  (Qabs (round_double (inject_Z d / inject_Z 2)) <= 2 ^ 1000)%Q.
Proof.
  intros H. apply round_double_bounded; [done|].
  pose proof (Qabs_le_pow2 d 1000 ltac:(done) H) as H'.
  apply Qabs_Qle_condition in H' as [H1 H2]. apply Qabs_Qle_condition.
  change (inject_Z 2) with 2%Q.
  pose proof (pow2_pos 1000).
  split; [apply Qle_shift_div_l|apply Qle_shift_div_r]; lra.
Qed.

Lemma flt_bias (b : Q) :
  (0 < b)%Q -> (b < 1)%Q ->
  flt (Finite 0) (Finite b) && flt (Finite b) (Finite 1) = true.
Proof.
  intros H0 H1. cbn [flt].
  destruct (Qle_bool b 0) eqn:E0; [apply Qle_bool_iff in E0; lra|].
  destruct (Qle_bool 1 b) eqn:E1; [apply Qle_bool_iff in E1; lra|]. done.
Qed.

(** The result when every value stays far below the largest double. *)
Lemma round_to_multiple_of_closed (val : num) (v : Q) (d : Z) (b : Q) :
  to_float val = Some (Finite v) -> (Qabs v <= 2 ^ 1000)%Q ->
  d <> 0 -> Z.abs d <= 2 ^ 1000 -> (0 < b)%Q -> (b < 1)%Q ->
  _round_to_multiple_of val d (Finite b) = Some (round_result v d b).
Proof.
  intros Hval Hv Hd0 Hd H0 H1. unfold _round_to_multiple_of.
  rewrite flt_bias by done. cbn [negb].
  rewrite int_truediv_2, Hval by done. cbn [mbind option_bind fadd].
  pose proof (half_bounded d Hd) as Hh.
  set (h := round_double (inject_Z d / inject_Z 2)) in *.
  rewrite (of_real_bounded (v + h) 1001); [|done|].
  2:{ pose proof (Qabs_triangle v h). pose proof (pow2_succ 1000) as Hs.
      change (1000 + 1) with 1001 in Hs. lra. }
  cbn [int_of_float mbind option_bind].
  destruct (Z.eqb_spec d 0) as [?|_]; [done|].
  cbn [fmul]. rewrite (of_real_bounded (b * v) 1000); [done|done|].
  rewrite Qabs_Qmult, (Qabs_pos b) by lra.
  pose proof (Qabs_nonneg v). nra.
Qed.

Lemma half_exact (d : Z) :
  Z.abs d < 2 ^ 53 ->
  (round_double (inject_Z d / inject_Z 2) == inject_Z d / 2)%Q.
Proof.
  intros H.
  assert (inject_Z d / inject_Z 2 == inject_Z d * 2 ^ (-1))%Q as E
    by (change (inject_Z 2) with 2%Q; change (2 ^ (-1))%Q with (/ 2)%Q; field).
  rewrite (round_double_comp _ _ E), round_double_exact by (done || lia).
  by rewrite <- E.
Qed.

(** On integers below [2^53] the sum [val + divisor / 2] is exact. *)
Lemma round_result_int (val d : Z) (b : Q) :
  0 <= val -> 0 < d -> 2 * val + d < 2 ^ 53 ->
  round_result (round_double (inject_Z val)) d b =
  (let c := Z.max d (nearest_multiple val d) in
   if Qle_bool (round_double (b * inject_Z val)) (inject_Z c) then c else c + d).
Proof.
  intros Hv Hd Hr. unfold round_result, nearest_multiple.
  assert (Hv' : Z.abs val <= 2 ^ 53) by lia.
  assert (Hd' : Z.abs d < 2 ^ 53) by lia.
  pose proof (round_double_int val Hv') as E1.
  pose proof (half_exact d Hd') as E2.
  assert (E3 : (round_double (inject_Z val)
                + round_double (inject_Z d / inject_Z 2)
                == inject_Z (2 * val + d) * 2 ^ (-1))%Q).
  { rewrite E1, E2, inject_Z_plus, inject_Z_mult.
    change (inject_Z 2) with 2%Q. change (2 ^ (-1))%Q with (/ 2)%Q. field. }
  assert (E4 : (round_double (round_double (inject_Z val)
                              + round_double (inject_Z d / inject_Z 2))
                == inject_Z (2 * val + d) / 2)%Q).
  { rewrite (round_double_comp _ _ E3), round_double_exact by lia.
    change (2 ^ (-1))%Q with (/ 2)%Q. field. }
  rewrite (truncate_comp _ _ E4), truncate_half by lia.
  assert (E5 : (round_double (b * round_double (inject_Z val))
                == round_double (b * inject_Z val))%Q).
  { apply round_double_comp. by rewrite E1. }
  cbv zeta. by rewrite E5.
Qed.

Lemma nearest_multiple_spec (val d : Z) :
  0 < d ->
  (d | nearest_multiple val d) /\
  - d < 2 * (nearest_multiple val d - val) <= d.
Proof.
  intros Hd. unfold nearest_multiple.
  set (t := (2 * val + d) / 2).
  assert (Ht : 2 * t <= 2 * val + d < 2 * t + 2).
  { subst t. pose proof (Z.div_mod (2 * val + d) 2 ltac:(lia)).
    pose proof (Z.mod_pos_bound (2 * val + d) 2 ltac:(lia)). lia. }
  assert (Hm : t / d * d <= t < t / d * d + d).
  { pose proof (Z.div_mod t d ltac:(lia)).
    pose proof (Z.mod_pos_bound t d ltac:(lia)). lia. }
  split; [apply Z.divide_factor_r | lia].
Qed.

Lemma round_to_multiple_of_eq (val d : Z) (bias : Q) :
  0 < val -> 0 < d -> 2 * val + d < 2 ^ 53 -> (0 < bias)%Q -> (bias < 1)%Q ->
  _round_to_multiple_of (PyInt val) d (Finite bias) =
    Some (let c := Z.max d (nearest_multiple val d) in
          if Qle_bool (round_double (bias * inject_Z val)) (inject_Z c)
          then c else c + d).
Proof.
  intros Hv Hd Hr H0 H1.
  assert (Z.abs val <= 2 ^ 53) as Hv' by lia.
  rewrite (round_to_multiple_of_closed _ (round_double (inject_Z val))).
  - by rewrite round_result_int by lia.
  - cbn [to_float]. apply of_int_finite.
    etransitivity; [exact Hv'|]. by apply Z.pow_le_mono_r.
  - apply round_double_bounded; [done|]. apply Qabs_le_pow2; [done|].
    etransitivity; [exact Hv'|]. by apply Z.pow_le_mono_r.
  - lia.
  - assert (Z.abs d <= 2 ^ 53) by lia.
    etransitivity; [eassumption|]. by apply Z.pow_le_mono_r.
  - done.
  - done.
Qed.

(** The float product [bias * val] is at most [val]. *)
Lemma bias_below (val r : Z) (bias : Q) :
  0 < val -> val <= 2 ^ 53 -> val <= r -> (0 < bias)%Q -> (bias < 1)%Q ->
  (round_double (bias * inject_Z val) <= inject_Z r)%Q.
Proof.
  intros Hv Hv' Hr H0 H1.
  apply Qle_trans with (inject_Z val); [|by rewrite <- Zle_Qle].
  rewrite <- (round_double_int val) at 2 by lia.
  apply round_double_mono.
  assert (0 < inject_Z val)%Q by (change 0%Q with (inject_Z 0); by rewrite <- Zlt_Qlt).
  nra.
Qed.

(** C8, as amended. For positive integers [val] and [divisor] with
    [2 * val + divisor < 2^53] and a float bias strictly between 0 and 1,
    [_round_to_multiple_of] returns a positive multiple of [divisor], at
    least [divisor] and at least the float [bias * val] that the code
    compares it with. It is computed from the multiple [m] of [divisor]
    nearest to [val] (ties going up): [c = max divisor m] is returned when
    it is at least that float, and [c + divisor] otherwise. With the
    default bias, (83, 8) yields 80 and (84, 8) yields 88. Beyond the
    range the sum [val + divisor / 2] is rounded and a large [val] does
    not convert: (2^53 + 1, 2) yields 2^53, and 10^400 raises. *)
Theorem round_to_multiple_of_nearest :
  (forall (val divisor : Z) (bias : Q),
      0 < val -> 0 < divisor -> 2 * val + divisor < 2 ^ 53 ->
      (0 < bias)%Q -> (bias < 1)%Q ->
      exists r m : Z,
        _round_to_multiple_of (PyInt val) divisor (Finite bias) = Some r /\
        (divisor | r) /\ divisor <= r /\ 0 < r /\
        (round_double (bias * inject_Z val) <= inject_Z r)%Q /\
        (divisor | m) /\ - divisor < 2 * (m - val) <= divisor /\
        r = (if Qle_bool (round_double (bias * inject_Z val))
                         (inject_Z (Z.max divisor m))
             then Z.max divisor m else Z.max divisor m + divisor)) /\
  _round_to_multiple_of (PyInt 83) 8 default_bias = Some 80 /\
  _round_to_multiple_of (PyInt 84) 8 default_bias = Some 88 /\
  _round_to_multiple_of (PyInt (2 ^ 53 + 1)) 2 default_bias = Some (2 ^ 53) /\
  _round_to_multiple_of (PyInt (10 ^ 400)) 8 default_bias = None.
Proof.
  split; [|by vm_compute].
  intros val d bias Hv Hd Hr H0 H1.
  destruct (nearest_multiple_spec val d Hd) as [Hdiv Hnear].
  set (m := nearest_multiple val d) in *.
  assert (Hc : (d | Z.max d m)).
  { destruct (Z.max_spec d m) as [[_ ->]|[_ ->]]; [done|apply Z.divide_refl]. }
  exists (if Qle_bool (round_double (bias * inject_Z val)) (inject_Z (Z.max d m))
          then Z.max d m else Z.max d m + d), m.
  split; [by rewrite round_to_multiple_of_eq|].
  destruct (Qle_bool _ _) eqn:E.
  - apply Qle_bool_iff in E. repeat split; try done; lia.
  - repeat split; try done; try lia.
    + apply Z.divide_add_r; [done|apply Z.divide_refl].
    + apply bias_below; [done|lia|lia|done|done].
Qed.

(** The statement above at (83, 8) with the default bias. *)
Lemma round_to_multiple_of_nearest_witness :
  exists r m : Z,
    _round_to_multiple_of (PyInt 83) 8 (Finite (round_double 0.9)) = Some r /\
    (8 | r) /\ 8 <= r /\ 0 < r /\
    (round_double (round_double 0.9 * inject_Z 83) <= inject_Z r)%Q /\
    (8 | m) /\ - 8 < 2 * (m - 83) <= 8 /\
    r = (if Qle_bool (round_double (round_double 0.9 * inject_Z 83))
                     (inject_Z (Z.max 8 m))
         then Z.max 8 m else Z.max 8 m + 8).
Proof.
  apply (proj1 round_to_multiple_of_nearest 83 8 (round_double 0.9));
    [lia | lia | by vm_compute | by vm_compute | by vm_compute].
Defined.

(** C8 as first stated fails at (84, 8): 84 exceeds the lower multiple 80 by
    5 percent only, and yet the function returns 88. *)
Lemma round_to_multiple_of_not_lower_multiple :
  lower_multiple 84 8 = 80 /\
  10 * 84 <= 11 * lower_multiple 84 8 /\
  _round_to_multiple_of (PyInt 84) 8 default_bias = Some 88 /\
  Some 88 <> Some (lower_multiple 84 8).
Proof. by vm_compute. Qed.

Lemma default_bias_eq : default_bias = Finite (round_double 0.9).
Proof. by vm_compute. Qed.

Lemma default_bias_range :
  (0 < round_double 0.9)%Q /\ (round_double 0.9 < 1)%Q.
Proof. by vm_compute. Qed.

(** The depth that [_get_depths] makes of [depth], operation by
    operation. *)
Lemma get_depths_closed (depths : list Z) (alpha : Q) :
  Forall (fun depth => Z.abs depth <= 2 ^ 400) depths ->
  (Qabs alpha <= 2 ^ 400)%Q ->
  _get_depths depths (Finite alpha) =
  Some ((fun depth =>
           round_result (round_double (round_double (inject_Z depth) * alpha))
                        8 (round_double 0.9)) <$> depths).
Proof.
  intros H Ha. unfold _get_depths.
  induction H as [|depth depths Hd _ IH]; [done|].
  cbn [mapM fmap list_fmap]. rewrite IH. clear IH.
  assert (Hd' : Z.abs depth <= 2 ^ 1000).
  { etransitivity; [exact Hd|]. by apply Z.pow_le_mono_r. }
  rewrite of_int_finite by done. cbn [mbind option_bind fmul].
  assert (Hv : (Qabs (round_double (inject_Z depth)) <= 2 ^ 400)%Q).
  { apply round_double_bounded; [done|]. by apply Qabs_le_pow2. }
  set (v := round_double (inject_Z depth)) in *.
  assert (Hp : (Qabs (v * alpha) <= 2 ^ 800)%Q).
  { rewrite Qabs_Qmult. change (2 ^ 800)%Q with (2 ^ (400 + 400))%Q.
    rewrite pow2_add. pose proof (Qabs_nonneg v). pose proof (Qabs_nonneg alpha).
    pose proof (pow2_pos 400). nra. }
  rewrite (of_real_bounded _ 800) by done.
  rewrite default_bias_eq.
  rewrite (round_to_multiple_of_closed _ (round_double (v * alpha)));
    [done|done| |done|done|apply default_bias_range..].
  pose proof (round_double_bounded _ 800 ltac:(done) Hp).
  pose proof (pow2_le 800 1000 ltac:(done)). lra.
Qed.

(** Whatever the float, the result is a multiple of the divisor that is
    not below it. *)
Lemma round_result_multiple (v : Q) (d : Z) (b : Q) :
  0 < d -> (d | round_result v d b) /\ d <= round_result v d b.
Proof.
  intros Hd. unfold round_result. cbv zeta.
  set (t := truncate _).
  assert (Hc : (d | Z.max d (t / d * d))).
  { destruct (Z.max_spec d (t / d * d)) as [[_ ->]|[_ ->]];
      [apply Z.divide_factor_r|apply Z.divide_refl]. }
  destruct (Qle_bool _ _).
  - split; [done|lia].
  - split; [|lia]. apply Z.divide_add_r; [done|apply Z.divide_refl].
Qed.

Ltac elem_cases H :=
  repeat (apply elem_of_cons in H as [->|H]); [..|by apply elem_of_nil in H].

Lemma enumerate_from_lookup {A} (l : list A) (n : nat) (d : gmap Z A) (k : Z) :
  foldl (fun d p => <[p.1 := p.2]> d) d
        (imap (fun i x => (Z.of_nat (n + i), x)) l) !! k =
  match (if decide (Z.of_nat n <= k) then l !! (Z.to_nat k - n)%nat else None) with
  | Some v => Some v
  | None => d !! k
  end.
Proof.
  revert n d. induction l as [|x l IH]; intros n d.
  - cbn. case_decide; by rewrite ?lookup_nil.
  - rewrite imap_cons. cbn [foldl fst snd].
    rewrite (imap_ext _ (fun i x => (Z.of_nat (S n + i), x)))
      by (intros; cbn; f_equal; lia).
    rewrite IH. rewrite Nat.add_0_r.
    destruct (decide (Z.of_nat n = k)) as [<-|Hne].
    + rewrite decide_False by lia. rewrite decide_True by lia.
      rewrite Nat2Z.id, Nat.sub_diag. cbn. by rewrite lookup_insert_eq.
    + rewrite lookup_insert_ne by done.
      destruct (decide (Z.of_nat n <= k)).
      * rewrite decide_True by lia.
        replace (Z.to_nat k - n)%nat with (S (Z.to_nat k - S n)) by lia. done.
      * by rewrite decide_False by lia.
Qed.

Lemma enumerate_into_lookup {A} (l : list A) (d : gmap Z A) (k : Z) :
  enumerate_into d l !! k =
  match pick l k with Some v => Some v | None => d !! k end.
Proof.
  unfold enumerate_into, pick.
  rewrite (imap_ext _ (fun i x => (Z.of_nat (0 + i), x))) by done.
  rewrite enumerate_from_lookup. rewrite Nat.sub_0_r.
  destruct (Z.ltb_spec k 0); by case_decide; try lia.
Qed.

Lemma pick_None_out {A} (l : list A) (k : Z) :
  k < 0 \/ Z.of_nat (length l) <= k -> pick l k = None.
Proof.
  intros H. unfold pick. destruct (Z.ltb_spec k 0); [done|].
  apply lookup_ge_None. lia.
Qed.

Lemma pick_elem_of {A} (l : list A) (k : Z) (v : A) :
  pick l k = Some v -> v ∈ l.
Proof.
  unfold pick. destruct (k <? 0); [done|]. apply list_elem_of_lookup_2.
Qed.

Lemma decode_table {A} (l : list A) (tokens : list string) (k : nat) (tok : string) :
  tokens !! k = Some tok ->
  decode (enumerate_into ∅ l) tokens k = token_choice l tok.
Proof.
  intros H. unfold decode, token_choice. rewrite H. cbn [mbind option_bind].
  destruct (PyStr.int tok) as [c|]; [cbn [mbind option_bind]|done].
  rewrite enumerate_into_lookup. by destruct (pick l c).
Qed.

Lemma decode_layers (d : gmap Z Z) (base : Z) (tokens : list string) (k : nat)
    (tok : string) :
  dom3 d -> tokens !! k = Some tok ->
  decode (enumerate_into d ([0; 1] ++ (if base >? 1 then [-1] else [0]))) tokens k
  = token_choice (layer_deltas base) tok.
Proof.
  intros Hd H. unfold decode, token_choice. rewrite H. cbn [mbind option_bind].
  destruct (PyStr.int tok) as [c|]; [cbn [mbind option_bind]|done].
  replace ([0; 1] ++ (if base >? 1 then [-1] else [0])) with (layer_deltas base)
    by (unfold layer_deltas; by destruct (base >? 1)).
  rewrite enumerate_into_lookup.
  destruct (pick (layer_deltas base) c) eqn:E; [done|].
  apply Hd. unfold pick in E. destruct (Z.ltb_spec c 0); [lia|].
  apply lookup_ge_None in E. right.
  assert (length (layer_deltas base) = 3%nat)
    by (unfold layer_deltas; by destruct (base >? 1)).
  lia.
Qed.

Lemma dom3_enumerate (d : gmap Z Z) (l : list Z) :
  length l = 3%nat -> dom3 d -> dom3 (enumerate_into d l).
Proof.
  intros Hl Hd k Hk. rewrite enumerate_into_lookup.
  rewrite pick_None_out by lia. by apply Hd.
Qed.

Lemma parse_stage_eq (tokens : list string) (i : nat) (d : gmap Z Z)
    (bd : block_def) (base : Z) (t0 t1 t2 t3 t4 : string) :
  _MOBILENET_V2_NUM_LAYERS !! i = Some base ->
  tokens !! (i * 5)%nat = Some t0 -> tokens !! (i * 5 + 1)%nat = Some t1 ->
  tokens !! (i * 5 + 2)%nat = Some t2 -> tokens !! (i * 5 + 3)%nat = Some t3 ->
  tokens !! (i * 5 + 4)%nat = Some t4 ->
  dom3 d ->
  exists d', dom3 d' /\
    parse_stage tokens (d, bd) i =
      (fun c => (d', push_choice bd c)) <$> stage_choices base [t0; t1; t2; t3; t4].
Proof.
  intros Hb H0 H1 H2 H3 H4 Hd.
  exists (enumerate_into d ([0; 1] ++ (if base >? 1 then [-1] else [0]))).
  split.
  { apply dom3_enumerate; [by destruct (base >? 1)|done]. }
  unfold parse_stage. rewrite Hb. cbn [mbind option_bind].
  unfold ID_TO_OP, ID_TO_FILTERS, ID_TO_KERNEL, ID_TO_SKIPS.
  rewrite (decode_table _ _ _ _ H0), (decode_layers _ _ _ _ _ Hd H1),
    (decode_table _ _ _ _ H2), (decode_table _ _ _ _ H3), (decode_table _ _ _ _ H4).
  unfold stage_choices.
  fold op_table filter_table kernel_table skip_table.
  destruct (token_choice op_table t0); [cbn|done].
  destruct (token_choice (layer_deltas base) t1); [cbn|done].
  destruct (token_choice filter_table t2); [cbn|done].
  destruct (token_choice kernel_table t3); [cbn|done].
  destruct (token_choice skip_table t4); [cbn|done].
  done.
Qed.

Lemma dom3_empty : dom3 ∅.
Proof. intros k _. apply lookup_empty. Qed.

Ltac stage_step tokens i base d Hd :=
  let d' := fresh "d" in
  let Hd' := fresh "Hd" in
  let E := fresh "E" in
  let c := fresh "c" in
  match goal with
  | |- context [parse_stage tokens (d, ?bd) i] =>
      edestruct (parse_stage_eq tokens i d bd base) as (d' & Hd' & E);
      [reflexivity | reflexivity | reflexivity | reflexivity | reflexivity
      | reflexivity | exact Hd |];
      rewrite E; clear E;
      match goal with
      | |- context [stage_choices base ?l] =>
          destruct (stage_choices base l) as [c|];
          [cbn -[stage_choices parse_stage] | reflexivity]
      end
  end.

Lemma parse_tokens_eq (tokens : list string) :
  length tokens = 35%nat ->
  snd <$> for_each (parse_stage tokens) (∅, BlockDef [] [] [] [] []) (seq 0 7)
  = block_of <$> block_choices _MOBILENET_V2_NUM_LAYERS tokens.
Proof.
  intros Hlen.
  do 35 (destruct tokens as [|? tokens]; [discriminate Hlen|]).
  destruct tokens; [clear Hlen|discriminate Hlen].
  match goal with |- context [parse_stage ?l] => set (tokens := l) end.
  cbn -[stage_choices parse_stage].
  pose proof dom3_empty as Hd.
  stage_step tokens 0%nat 1 (∅ : gmap Z Z) Hd.
  stage_step tokens 1%nat 2 d Hd0.
  stage_step tokens 2%nat 3 d0 Hd1.
  stage_step tokens 3%nat 4 d1 Hd2.
  stage_step tokens 4%nat 3 d2 Hd3.
  stage_step tokens 5%nat 3 d3 Hd4.
  stage_step tokens 6%nat 1 d4 Hd5.
  reflexivity.
Qed.

Lemma parse_mnasnet_block_eq (line : string) :
  parse_mnasnet_block line = parse_spec line.
Proof.
  unfold parse_mnasnet_block, parse_spec.
  destruct (decide (length (tokens_of line) = 35%nat)) as [E|E].
  - rewrite E. change (negb (35 =? 7 * 5)%nat) with false.
    by apply parse_tokens_eq.
  - destruct (Nat.eqb_spec (length (tokens_of line)) (7 * 5)) as [E'|_]; [|done].
    by destruct E.
Qed.

Lemma token_choice_elem_of {A} (l : list A) (tok : string) (v : A) :
  token_choice l tok = Some v -> v ∈ l.
Proof.
  unfold token_choice. destruct (PyStr.int tok) as [c|]; [cbn|done].
  apply pick_elem_of.
Qed.

Lemma stage_choices_valid (base : Z) (toks : list string) (c : Choice) :
  stage_choices base toks = Some c -> valid_choice base c.
Proof.
  unfold stage_choices.
  destruct toks as [|t0 [|t1 [|t2 [|t3 [|t4 [|? ?]]]]]]; try done.
  destruct (token_choice op_table t0) eqn:E0; [cbn|done].
  destruct (token_choice (layer_deltas base) t1) eqn:E1; [cbn|done].
  destruct (token_choice filter_table t2) eqn:E2; [cbn|done].
  destruct (token_choice kernel_table t3) eqn:E3; [cbn|done].
  destruct (token_choice skip_table t4) eqn:E4; [cbn|done].
  intros [= <-]. unfold valid_choice. cbn.
  eauto 10 using @token_choice_elem_of.
Qed.

Lemma block_choices_valid (bases : list Z) (toks : list string) (cs : list Choice) :
  block_choices bases toks = Some cs -> Forall2 valid_choice bases cs.
Proof.
  revert toks cs. induction bases as [|base bases IH]; intros toks cs.
  - intros [= <-]. constructor.
  - cbn [block_choices].
    destruct (stage_choices base (take 5 toks)) as [c|] eqn:E; [cbn|done].
    destruct (block_choices bases (drop 5 toks)) as [cs'|] eqn:E'; [cbn|done].
    intros [= <-]. constructor; eauto using stage_choices_valid.
Qed.


Lemma stage_ok_intro (conv : string) (prev depth ks : Z) (skip : bool)
    (stride repeat exp : Z) :
  1 <= repeat -> stride = 1 \/ stride = 2 -> ks ∈ kernel_table ->
  stage_ok (MkStage conv prev depth ks skip stride repeat exp) = true.
Proof.
  intros Hr Hs Hk. unfold stage_ok. cbn.
  apply andb_true_intro. split; [by apply Z.leb_le|].
  destruct (String.eqb conv "mconv"); [|done].
  apply andb_true_intro. split.
  - destruct Hs as [-> | ->]; done.
  - unfold kernel_table in Hk. elem_cases Hk; done.
Qed.

Lemma delta_bound (base : Z) (d : Z) :
  1 <= base -> d ∈ layer_deltas base -> 1 <= base + d.
Proof.
  intros Hb. unfold layer_deltas.
  destruct (Z.gtb_spec base 1); intros Hd; elem_cases Hd; lia.
Qed.

Lemma int_of_product_table (base : Z) (mult : float) :
  base ∈ _MOBILENET_V2_FILTERS -> mult ∈ filter_table ->
  exists requested,
    int_of_product base mult = Some requested /\ 0 <= requested <= 400.
Proof.
  unfold _MOBILENET_V2_FILTERS, filter_table. intros Hb Hm.
  elem_cases Hb; elem_cases Hm; vm_compute; eexists; (split; [reflexivity|]);
    split; discriminate.
Qed.

Lemma literal_one : literal 1.0%Q = Finite (round_double 1.0%Q).
Proof. by vm_compute. Qed.

Lemma one_bounded : (Qabs (round_double 1.0) <= 2 ^ 400)%Q.
Proof. by vm_compute. Qed.

Lemma get_depths_one (depths : list Z) :
  Forall (fun depth => 0 <= depth <= 400) depths ->
  _get_depths depths (literal 1.0%Q) =
  Some ((fun depth =>
           round_result (round_double (round_double (inject_Z depth)
                                       * round_double 1.0%Q))
                        8 (round_double 0.9)) <$> depths).
Proof.
  intros H. rewrite literal_one. apply get_depths_closed; [|apply one_bounded].
  eapply Forall_impl; [exact H|]. intros depth Hd. cbn beta in *.
  assert (400 <= 2 ^ 400) by (by vm_compute). lia.
Qed.

Lemma mnasnet_any_built (cs : list Choice) :
  Forall2 valid_choice _MOBILENET_V2_NUM_LAYERS cs ->
  exists stages,
    mnasnet_any (ch_op <$> cs) (ch_multiplier <$> cs) (ch_kernel <$> cs)
                (ch_delta <$> cs) (ch_skip <$> cs) = Some stages /\
    length stages = 7%nat /\
    forall i st, stages !! i = Some st ->
      exists base_f base_n c,
        _MOBILENET_V2_FILTERS !! i = Some base_f /\
        _MOBILENET_V2_NUM_LAYERS !! i = Some base_n /\
        cs !! i = Some c /\ valid_choice base_n c /\
        built_stage base_f base_n c st.
Proof.
  intros H. unfold _MOBILENET_V2_NUM_LAYERS in H.
  repeat match goal with
         | H : Forall2 _ (_ :: _) _ |- _ =>
             apply Forall2_cons_inv_l in H as (? & ? & ? & H & ->)
         | H : Forall2 _ [] _ |- _ => apply Forall2_nil_inv_l in H as ->
         end.
  repeat match goal with
         | H : valid_choice _ ?c |- _ =>
             let H' := fresh "V" in
             let Hm := fresh "M" in
             pose proof H as H'; destruct H as (_ & ? & Hm & ? & _);
             revert H'
         end.
  intros.
  unfold mnasnet_any, mnasnet_filters, _MOBILENET_V2_FILTERS.
  cbn [fmap list_fmap zip zip_with mapM fst snd].
  repeat match goal with
         | Hm : ch_multiplier ?c ∈ filter_table
           |- context [int_of_product ?base (ch_multiplier ?c)] =>
             let req := fresh "req" in
             let E := fresh "E" in
             let B := fresh "B" in
             destruct (int_of_product_table base (ch_multiplier c)) as (req & E & B);
             [unfold _MOBILENET_V2_FILTERS; repeat constructor | exact Hm |];
             rewrite E; clear Hm; cbn [mbind option_bind mret option_ret]
         end.
  unfold MNASNet.
  assert (flt (Finite 0) (literal 1.0%Q) = true) as -> by (by vm_compute).
  cbn [negb length Nat.eqb andb].
  unfold _FIRST_DEPTH. cbn [app].
  rewrite get_depths_one by (repeat constructor; lia).
  cbn [mbind option_bind fmap list_fmap].
  cbn [length Nat.sub take drop zip zip_with].
  unfold mnasnet_num_layers, _MOBILENET_V2_NUM_LAYERS.
  cbn [zip_with forallb].
  rewrite !stage_ok_intro by (auto using delta_bound with lia).
  cbn [andb]. eexists. split; [reflexivity|]. split; [reflexivity|].
  intros i st Hi.
  repeat (destruct i as [|i];
          [injection Hi as <-; eexists _, _, _;
           split; [reflexivity|]; split; [reflexivity|]; split; [reflexivity|];
           split; [assumption|];
           unfold built_stage; cbn [st_conv st_ks st_skip st_repeat st_depth];
           repeat (split; [reflexivity|]);
           eexists; split; [eassumption|];
           by rewrite get_depths_one by (repeat constructor; lia)|]).
  done.
Qed.

(** C7, as amended. [parse_mnasnet_block] is the table decoding
    [parse_spec]: it fails unless the line, stripped of trailing blanks and
    of its first and last character, splits at single spaces into exactly
    7*5 tokens; each token must read as an integer indexing its table: op
    in conv/mconv/dconv, multiplier in 0.75/1.0/1.25, kernel in 3/5, skip in
    False/True, layer delta in 0/1/-1 when the base layer count exceeds 1 and
    in 0/1/0 otherwise. When it succeeds, [mnasnet_any] builds 7 stages:
    stage [i] has [base_count + delta] layers, and its depth is the
    requested depth [int(base_filter * multiplier)] rounded to a multiple
    of 8 by [_get_depths] (the constructor scales and rounds every depth
    it is given). *)
Theorem parse_mnasnet_block_build (line : string) :
  parse_mnasnet_block line = parse_spec line /\
  forall bd, parse_mnasnet_block line = Some bd -> model_follows line bd.
Proof.
  split; [apply parse_mnasnet_block_eq|].
  intros bd Hbd. unfold model_follows.
  pose proof Hbd as Hspec. rewrite parse_mnasnet_block_eq in Hspec.
  unfold parse_spec in Hspec.
  destruct (decide (length (tokens_of line) = 35%nat)) as [Hlen|]; [|done].
  destruct (block_choices _MOBILENET_V2_NUM_LAYERS (tokens_of line))
    as [cs|] eqn:Hcs; [|done].
  injection Hspec as <-.
  destruct (mnasnet_any_built cs (block_choices_valid _ _ _ Hcs))
    as (stages & Hstages & Hlen' & Hall).
  exists cs, stages. repeat split; try done.
  unfold build_model_from_file. rewrite Hbd. exact Hstages.
Qed.

(** The statement above on a line choosing each table entry at least once. *)
Lemma parse_mnasnet_block_build_witness :
  exists bd, parse_mnasnet_block sample_line = Some bd /\
             model_follows sample_line bd.
Proof.
  eexists. split; [by vm_compute|].
  apply (proj2 (parse_mnasnet_block_build sample_line)). by vm_compute.
Defined.

(** C7 as first stated fails on the line of zeros: the first stage asks for
    [int(16 * 0.75) = 12] filters, and the model built has depth 16 there. *)
Lemma mnasnet_any_depth_not_requested :
  exists bd stages st,
    parse_mnasnet_block zeros_line = Some bd /\
    build_model_from_file zeros_line = Some stages /\
    filters bd !! 0%nat = Some (literal 0.75%Q) /\
    int_of_product 16 (literal 0.75%Q) = Some 12 /\
    stages !! 0%nat = Some st /\
    st_depth st = 16 /\ st_depth st <> 12.
Proof.
  eexists _, _, _.
  split; [by vm_compute|]. split; [by vm_compute|].
  split; [reflexivity|]. split; [reflexivity|].
  split; [reflexivity|]. split; [reflexivity|]. done.
Qed.

End MnasnetFacts.

(** * Facts about the string helpers of _graph_utils.py *)
Section ScopeNameFacts.
Import PyStr GraphUtils GraphSpec.

Lemma app_String (c : ascii) (s t : string) :
  String c s +:+ t = String c (s +:+ t).
Proof. done. Qed.

Lemma app_empty_l (s : string) : "" +:+ s = s.
Proof. done. Qed.

Lemma app_empty_r (s : string) : s +:+ "" = s.
Proof. induction s as [|c s IH]; [done|]. by rewrite app_String, IH. Qed.

Lemma app_assoc_s (s t u : string) : (s +:+ t) +:+ u = s +:+ (t +:+ u).
Proof. induction s as [|c s IH]; [done|]. by rewrite !app_String, IH. Qed.

Lemma prefix_app (p r : string) : String.prefix p (p +:+ r) = true.
Proof.
  induction p as [|c p IH]; [by destruct r|].
  rewrite app_String. cbn. by destruct (ascii_dec c c).
Qed.

Lemma prefix_inv (p s : string) :
  String.prefix p s = true -> exists r, s = p +:+ r.
Proof.
  revert s. induction p as [|c p IH]; intros s H.
  - by exists s.
  - destruct s as [|c' s]; [done|]. cbn in H.
    destruct (ascii_dec c c') as [<-|]; [|done].
    destruct (IH _ H) as [r ->]. by exists r.
Qed.

Lemma split_nonempty (sep : ascii) (s : string) : split sep s <> [].
Proof.
  destruct s as [|c s]; [done|]. cbn.
  destruct (Ascii.eqb c sep); [done|]. by destruct (split sep s).
Qed.

Lemma split_no_sep (sep : ascii) (s : string) :
  contains sep s = false -> split sep s = [s].
Proof.
  induction s as [|c s IH]; [done|]. cbn.
  destruct (Ascii.eqb c sep); [done|]. cbn. intros H. by rewrite IH.
Qed.

Lemma split_two (sep : ascii) (s : string) :
  contains sep s = true -> exists w w' ws, split sep s = w :: w' :: ws.
Proof.
  induction s as [|c s IH]; [done|]. cbn.
  destruct (Ascii.eqb c sep); cbn.
  - intros _. pose proof (split_nonempty sep s).
    destruct (split sep s) as [|w ws]; [done|]. by exists "", w, ws.
  - intros H. destruct (IH H) as (w & w' & ws & ->). by exists (String c w), w', ws.
Qed.

Lemma last_split_String (sep c : ascii) (s : string) :
  contains sep s = true ->
  last_of (split sep (String c s)) = last_of (split sep s).
Proof.
  intros H. destruct (split_two sep s H) as (w & w' & ws & E).
  cbn [split]. rewrite E. by destruct (Ascii.eqb c sep).
Qed.

Lemma last_split_app (sep : ascii) (pre seg : string) :
  contains sep seg = false ->
  last_of (split sep (pre +:+ String sep seg)) = seg.
Proof.
  intros H. induction pre as [|c pre IH].
  - rewrite app_empty_l. cbn [split]. rewrite Ascii.eqb_refl. by rewrite split_no_sep.
  - rewrite app_String, last_split_String; [done|].
    clear. induction pre as [|d pre IH].
    + rewrite app_empty_l. cbn [contains]. by rewrite Ascii.eqb_refl.
    + rewrite app_String. cbn [contains]. rewrite IH. by destruct (Ascii.eqb d sep).
Qed.

(** The scope name after its last ['/'], or the whole of it. *)
Lemma last_segment (s : string) :
  exists seg, last_of (split "/" s) = seg /\ contains "/" seg = false /\
              (s = seg \/ exists pre, s = pre +:+ String "/" seg).
Proof.
  induction s as [|c s (seg & IH & Hno & Hs)].
  - exists "". auto.
  - destruct (contains "/" s) eqn:Hc.
    + exists seg. rewrite last_split_String by done. split; [done|]. split; [done|].
      right. destruct Hs as [->|[pre ->]]; [congruence|]. by exists (String c pre).
    + destruct (Ascii.eqb_spec c "/") as [->|Hne].
      * exists s. cbn [split]. rewrite Ascii.eqb_refl, split_no_sep by done. split; [done|]. split; [done|].
        right. by exists "".
      * exists (String c s).
        assert (contains "/" (String c s) = false) as Hc'.
        { cbn [contains]. rewrite Hc. by destruct (Ascii.eqb_spec c "/"). }
        rewrite split_no_sep by done. auto.
Qed.

Lemma replace_go_skip (old new : string) (k : nat) (s : string) :
  replace_go old new k s = replace_go old new O (string_drop k s).
Proof.
  revert s. induction k as [|k IH]; intros [|c s]; try done. cbn. apply IH.
Qed.

Lemma string_drop_app (p r : string) : string_drop (String.length p) (p +:+ r) = r.
Proof. induction p as [|c p IH]; [by destruct r|]. by rewrite app_String. Qed.

Lemma replace_occ (c : ascii) (p s : string) :
  replace (String c p) "" (String c p +:+ s) = replace (String c p) "" s.
Proof.
  unfold replace. rewrite app_String. cbn [replace_go].
  rewrite <- app_String, prefix_app, app_empty_l.
  cbn [String.length Nat.pred].
  by rewrite replace_go_skip, string_drop_app.
Qed.

Lemma replace_char (old : string) (c : ascii) (s : string) :
  String.prefix old (String c s) = false ->
  replace old "" (String c s) = String c (replace old "" s).
Proof. intros H. unfold replace. cbn [replace_go]. by rewrite H. Qed.

Lemma length_app_s (s t : string) :
  String.length (s +:+ t) = (String.length s + String.length t)%nat.
Proof. induction s as [|c s IH]; [done|]. rewrite app_String. cbn. by rewrite IH. Qed.

Lemma replace_removed (c : ascii) (p s : string) :
  removed (String c p) s (replace (String c p) "" s).
Proof.
  remember (String.length s) as n eqn:Hn. revert s Hn.
  induction n as [n IH] using lt_wf_ind. intros s ->.
  destruct s as [|d s]; [constructor|].
  destruct (String.prefix (String c p) (String d s)) eqn:E.
  - apply prefix_inv in E as [r E]. rewrite E, replace_occ.
    constructor. eapply IH; [|done].
    rewrite E, length_app_s. cbn. lia.
  - rewrite replace_char by done. constructor; [done|].
    eapply IH; [|done]. cbn. lia.
Qed.

Lemma removed_replace (c : ascii) (p s r : string) :
  removed (String c p) s r -> r = replace (String c p) "" s.
Proof.
  induction 1 as [|s r _ IH|d s r E _ IH].
  - done.
  - by rewrite replace_occ.
  - rewrite replace_char by done. by rewrite IH.
Qed.

Lemma findall_go_skip (k : nat) (s : string) :
  findall_brackets_go k s = findall_brackets_go O (string_drop k s).
Proof.
  revert s. induction k as [|k IH]; intros [|c s]; try done. cbn. apply IH.
Qed.

Lemma findall_no_open (t r : string) :
  contains "[" t = false ->
  findall_brackets_go O (t +:+ r) = findall_brackets_go O r.
Proof.
  induction t as [|c t IH]; [done|]. rewrite app_String. cbn [contains findall_brackets_go].
  destruct (Ascii.eqb c "["); [done|]. apply IH.
Qed.

Lemma bracket_content_app (a r : string) :
  contains "]" a = false -> contains "010" a = false ->
  bracket_content (a +:+ String "]" r) = Some a.
Proof.
  induction a as [|c a IH].
  - done.
  - rewrite app_String. cbn [contains bracket_content].
    destruct (Ascii.eqb c "]"); [done|]. destruct (Ascii.eqb c "010"); [done|].
    cbn. intros H1 H2. by rewrite IH.
Qed.

Lemma findall_bracketed (t0 : string) (comps : list (string * string)) :
  contains "[" t0 = false -> Forall scope_comp_ok comps ->
  findall_brackets (t0 +:+ bracketed comps) = fst <$> comps.
Proof.
  unfold findall_brackets. intros H0 H. rewrite findall_no_open by done. clear t0 H0.
  induction H as [|[a t] comps (Ha1 & Ha2 & Ht) _ IH]; [done|].
  cbn [bracketed fst snd] in *.
  change ("[" +:+ a +:+ "]" +:+ t +:+ bracketed comps)
    with (String "[" (a +:+ String "]" (t +:+ bracketed comps))).
  cbn [findall_brackets_go]. change (Ascii.eqb "[" "[") with true. cbn iota.
  rewrite bracket_content_app by done.
  rewrite findall_go_skip.
  replace (string_drop (S (String.length a)) (a +:+ String "]" (t +:+ bracketed comps)))
    with (t +:+ bracketed comps).
  2:{ clear. induction a as [|c a IH]; [done|]. by rewrite app_String. }
  rewrite findall_no_open by done. cbn. by rewrite IH.
Qed.

Lemma rev_app_snoc (s : string) (c : ascii) (acc : string) :
  String.rev_app (s +:+ String c "") acc = String c (String.rev_app s acc).
Proof.
  revert acc. induction s as [|a s IH]; intros acc; [done|].
  rewrite app_String. cbn. apply IH.
Qed.

Lemma rev_app_acc (s acc : string) :
  String.rev_app s acc = String.rev_app s "" +:+ acc.
Proof.
  revert acc. induction s as [|a s IH]; intros acc; [done|]. cbn.
  rewrite IH, (IH (String a "")). by rewrite app_assoc_s.
Qed.

Lemma rev_rev (s : string) : String.rev (String.rev s) = s.
Proof.
  unfold String.rev. induction s as [|a s IH]; [done|]. cbn.
  rewrite (rev_app_acc s (String a "")), rev_app_snoc. by rewrite IH.
Qed.

Lemma endswith_char (s : string) (c : ascii) :
  endswith s (String c "") = true <-> exists m, s = m +:+ String c "".
Proof.
  unfold endswith. split.
  - intros H. apply prefix_inv in H as [r H]. exists (String.rev r).
    rewrite <- (rev_rev s), H. unfold String.rev.
    change (String.rev_app (String c "") "") with (String c "").
    rewrite app_String, app_empty_l. cbn [String.rev_app]. apply rev_app_acc.
  - intros [m ->]. unfold String.rev. rewrite rev_app_snoc. cbn.
    destruct (ascii_dec c c); [|done]. by destruct (String.rev_app m "").
Qed.

Lemma substring_skip (p r : string) (n : nat) :
  String.substring (String.length p) n (p +:+ r) = String.substring 0 n r.
Proof. induction p as [|c p IH]; [done|]. by rewrite app_String. Qed.

Lemma substring_take (m q : string) :
  String.substring 0 (String.length m) (m +:+ q) = m.
Proof.
  induction m as [|c m IH]; [by destruct q|]. rewrite app_String. cbn. by rewrite IH.
Qed.

Lemma slice_middle (p m q : string) :
  slice (String.length p) (String.length q) (p +:+ m +:+ q) = m.
Proof.
  unfold slice. rewrite !length_app_s, substring_skip.
  replace (String.length p + (String.length m + String.length q)
           - String.length p - String.length q)%nat with (String.length m) by lia.
  apply substring_take.
Qed.

Lemma parse_traced_name_strip (m : string) :
  parse_traced_name ("TracedModule[" +:+ m +:+ "]") = m.
Proof.
  unfold parse_traced_name, startswith.
  rewrite prefix_app.
  replace (endswith ("TracedModule[" +:+ m +:+ "]") "]") with true.
  2:{ symmetry. apply endswith_char. exists ("TracedModule[" +:+ m).
      by rewrite app_assoc_s. }
  cbn [andb]. apply slice_middle.
Qed.

Lemma parse_traced_name_keep (s : string) :
  (forall m, s <> "TracedModule[" +:+ m +:+ "]") -> parse_traced_name s = s.
Proof.
  intros H. unfold parse_traced_name, startswith.
  destruct (String.prefix "TracedModule[" s) eqn:E1; [|done].
  destruct (endswith s "]") eqn:E2; [|done]. exfalso.
  apply prefix_inv in E1 as [r ->]. apply endswith_char in E2 as [m E2].
  rewrite !app_String, app_empty_l in E2.
  do 13 (destruct m as [|? m];
         [rewrite app_empty_l in E2; discriminate E2
         |rewrite app_String in E2; injection E2 as <- E2]).
  apply (H m). congruence.
Qed.

(** C6. For a version string at least '1.4.0', [_get_module_name] returns
    the part of the scope name after its last ['/'] (the whole name when it
    has none) with the occurrences of '__module.' removed, as [str.replace]
    removes them: from the left, one pass. For an older version it returns
    the '.'-join of the matches of [\[(.*?)\]]; on a scope name
    [t0[a1]t1...[an]tn] these are [a1 ... an]. [parse_traced_name] returns
    [m] on 'TracedModule[' + m + ']' and its argument unchanged when it is
    not of that form. *)
Theorem get_module_name_by_version :
  (forall version scope_name : string,
      String.leb "1.4.0" version = true ->
      exists seg,
        contains "/" seg = false /\
        (scope_name = seg \/ exists pre, scope_name = pre +:+ String "/" seg) /\
        removed "__module." seg (_get_module_name version scope_name) /\
        forall r, removed "__module." seg r ->
                  r = _get_module_name version scope_name) /\
  (forall version scope_name : string,
      String.leb "1.4.0" version = false ->
      _get_module_name version scope_name
      = join "." (findall_brackets scope_name)) /\
  (forall (version t0 : string) (comps : list (string * string)),
      String.leb "1.4.0" version = false ->
      contains "[" t0 = false -> Forall scope_comp_ok comps ->
      _get_module_name version (t0 +:+ bracketed comps)
      = join "." (fst <$> comps)) /\
  (forall m : string, parse_traced_name ("TracedModule[" +:+ m +:+ "]") = m) /\
  (forall s : string,
      (forall m, s <> "TracedModule[" +:+ m +:+ "]") -> parse_traced_name s = s).
Proof.
  split; [|split; [|split; [|split]]].
  - intros version scope_name Hv. unfold _get_module_name. rewrite Hv.
    destruct (last_segment scope_name) as (seg & -> & Hno & Hs).
    exists seg. split; [done|]. split; [done|]. split.
    + apply replace_removed.
    + apply removed_replace.
  - intros version scope_name Hv. unfold _get_module_name. by rewrite Hv.
  - intros version t0 comps Hv H0 H. unfold _get_module_name. rewrite Hv.
    by rewrite findall_bracketed.
  - apply parse_traced_name_strip.
  - apply parse_traced_name_keep.
Qed.

(** The statement above on the two scope names of the docstring of
    [_get_module_name], and on a module name without the traced prefix. *)
Lemma get_module_name_by_version_witness :
  (exists seg,
      contains "/" seg = false /\
      ("__module.backbone/__module.backbone.conv2" = seg \/
       exists pre, "__module.backbone/__module.backbone.conv2" = pre +:+ String "/" seg) /\
      removed "__module." seg
        (_get_module_name "1.4.0" "__module.backbone/__module.backbone.conv2") /\
      forall r, removed "__module." seg r ->
        r = _get_module_name "1.4.0" "__module.backbone/__module.backbone.conv2") /\
  _get_module_name "1.3.1"
    ("MyModel/BackboneModel" +:+ bracketed [("backbone", "/Conv2d"); ("conv2", "")])
  = join "." (fst <$> [("backbone", "/Conv2d"); ("conv2", "")]) /\
  parse_traced_name "Conv2d" = "Conv2d".
Proof.
  destruct get_module_name_by_version as (H1 & _ & H3 & _ & H5).
  split; [|split].
  - apply H1. reflexivity.
  - apply H3; [reflexivity | reflexivity |].
    repeat constructor.
  - apply H5. intros m. apply String.eqb_neq.
    destruct m as [|c m]; [reflexivity|]. rewrite !app_String.
    cbn [String.eqb]. change (Ascii.eqb "C" "T") with false. reflexivity.
Defined.

End ScopeNameFacts.

(** * Facts about the indices of the module graph *)
Section IndexFacts.
Import PyStr GraphUtils GraphSpec.

Lemma outputs_loop_Some (ref : nat) (outs : list string) (m m' : gmap string nat) :
  for_each (output_step ref) m outs = Some m' ->
  NoDup outs /\ (forall x, x ∈ outs -> m !! x = None) /\
  (forall x, m' !! x = if decide (x ∈ outs) then Some ref else m !! x).
Proof.
  revert m. induction outs as [|o outs IH]; intros m.
  - intros [= <-]. split; [constructor|]. split; [by intros x ?%elem_of_nil|].
    intros x. rewrite decide_False; [done|apply not_elem_of_nil].
  - cbn [for_each].
    destruct (output_step ref m o) as [m1|] eqn:E; cbn [mbind option_bind]; [|done].
    unfold output_step in E.
    destruct (decide (is_Some (m !! o))) as [|Hnone]; [done|]. injection E as <-.
    intros H. apply IH in H as (Hnd & Hfresh & Hlook).
    apply eq_None_not_Some in Hnone.
    assert (o ∉ outs) as Ho.
    { intros Hin. specialize (Hfresh o Hin). by rewrite lookup_insert_eq in Hfresh. }
    split; [by constructor|]. split.
    + intros x [->|Hin]%elem_of_cons; [done|].
      specialize (Hfresh x Hin). rewrite lookup_insert_ne in Hfresh; [done|].
      by intros ->.
    + intros x. rewrite Hlook.
      destruct (decide (x ∈ outs)) as [Hin|Hin].
      * rewrite decide_True; [done|by right].
      * destruct (decide (x = o)) as [->|Hne].
        -- rewrite decide_True by left. by rewrite lookup_insert_eq.
        -- rewrite decide_False; [by rewrite lookup_insert_ne|].
           by intros [?|?]%elem_of_cons.
Qed.


Lemma inputs_loop_lookup (ref : nat) (ins : list string) (m : gmap string (list nat))
    (x : string) (r : nat) :
  r ∈ default [] (foldl (input_step ref) m ins !! x) <->
  r ∈ default [] (m !! x) \/ (r = ref /\ x ∈ ins).
Proof.
  revert m. induction ins as [|i ins IH]; intros m; cbn [foldl].
  - rewrite elem_of_nil. tauto.
  - rewrite IH, elem_of_cons. unfold input_step.
    destruct (decide (i = x)) as [->|Hne].
    + rewrite lookup_insert_eq. cbn [default from_option id].
      rewrite elem_of_app, list_elem_of_singleton. tauto.
    + rewrite lookup_insert_ne by done.
      split; [tauto|]. intros [?|[? [?|?]]]; [tauto|congruence|tauto].
Qed.

Lemma index_group_unfold (n2n : odict nat) (i2n : gmap string (list nat))
    (o2n : gmap string nat) (ref : nat) (g : NodePyGroup) :
  index_group (n2n, i2n, o2n) (ref, g) =
    (fun o2n' => (od_set (unique_name g) ref n2n,
                  foldl (input_step ref) i2n (inputs g), o2n'))
      <$> for_each (output_step ref) o2n (outputs g).
Proof.
  unfold index_group. fold (output_step ref). fold (input_step ref).
  by destruct (for_each _ _ _).
Qed.

(** What the three indices hold after [entries], from the state [st]. *)
Lemma index_loop_Some (entries : list (nat * NodePyGroup))
    (st st' : odict nat * gmap string (list nat) * gmap string nat) :
  for_each index_group st entries = Some st' ->
  NoDup (entry_outputs entries) /\
  (forall x, x ∈ entry_outputs entries -> st.2 !! x = None) /\
  (forall x r, st'.2 !! x = Some r <->
      st.2 !! x = Some r \/ exists g, (r, g) ∈ entries /\ x ∈ outputs g) /\
  (forall x r, r ∈ default [] (st'.1.2 !! x) <->
      r ∈ default [] (st.1.2 !! x) \/ exists g, (r, g) ∈ entries /\ x ∈ inputs g) /\
  (NoDup ((fun e => unique_name e.2) <$> entries) ->
   forall u r, od_map st'.1.1 !! u = Some r <->
      (exists g, (r, g) ∈ entries /\ unique_name g = u) \/
      (od_map st.1.1 !! u = Some r /\
       forall e, e ∈ entries -> unique_name e.2 <> u)).
Proof.
  revert st. induction entries as [|[ref g] entries IH]; intros [[n2n i2n] o2n].
  - intros [= <-]. cbn. split; [constructor|]. split; [by intros x ?%elem_of_nil|].
    split; [|split].
    + intros x r. split; [by left|]. intros [?|(g & []%elem_of_nil & _)]. done.
    + intros x r. split; [by left|]. intros [?|(g & []%elem_of_nil & _)]. done.
    + intros _ u r. split.
      * intros H. right. split; [done|]. by intros e ?%elem_of_nil.
      * intros [(g & []%elem_of_nil & _)|[? _]]. done.
  - cbn [for_each]. rewrite index_group_unfold.
    destruct (for_each (output_step ref) o2n (outputs g)) as [o2n1|] eqn:E; [|done].
    cbn [fmap option_fmap option_map mbind option_bind].
    intros H. apply IH in H as (Hnd & Hfresh & Ho & Hi & Hn). cbn [fst snd] in *.
    apply outputs_loop_Some in E as (Hnd1 & Hfresh1 & Hlook1).
    unfold entry_outputs in *. cbn [mbind list_bind fst snd] in *. fold (@mbind list _) in *.
    split; [|split; [|split; [|split]]].
    + apply NoDup_app. split; [done|]. split; [|done].
      intros x Hx Hx'. specialize (Hfresh x Hx'). rewrite Hlook1 in Hfresh.
      by rewrite decide_True in Hfresh.
    + intros x [Hx|Hx]%elem_of_app; [by apply Hfresh1|].
      specialize (Hfresh x Hx). rewrite Hlook1 in Hfresh.
      by destruct (decide (x ∈ outputs g)).
    + intros x r. rewrite Ho, Hlook1. split.
      * intros [H|(g' & Hin & Hx)].
        -- destruct (decide (x ∈ outputs g)); [|by left].
           injection H as <-. right. exists g. split; [left|done].
        -- right. exists g'. split; [by right|done].
      * intros [H|(g' & [[= -> ->]|Hin]%elem_of_cons & Hx)].
        -- left. rewrite decide_False; [done|]. intros Hx.
           rewrite Hfresh1 in H; done.
        -- left. by rewrite decide_True.
        -- right. by exists g'.
    + intros x r. rewrite Hi, inputs_loop_lookup. split.
      * intros [[H|[-> Hx]]|(g' & Hin & Hx)]; [by left| |].
        -- right. exists g. split; [left|done].
        -- right. exists g'. split; [by right|done].
      * intros [H|(g' & [[= -> ->]|Hin]%elem_of_cons & Hx)];
          [by left;left|by left; right|right; by exists g'].
    + intros Hnames u r. cbn [fmap list_fmap fst snd] in Hnames.
      apply NoDup_cons in Hnames as [Hg Hnames].
      rewrite (Hn Hnames). cbn [od_set od_map].
      split.
      * intros [(g' & Hin & Hu)|[H Hall]].
        -- left. exists g'. split; [by right|done].
        -- destruct (decide (unique_name g = u)) as [<-|Hne].
           ++ rewrite lookup_insert_eq in H. injection H as <-.
              left. exists g. split; [left|done].
           ++ rewrite lookup_insert_ne in H by done. right. split; [done|].
              intros e [->|He]%elem_of_cons; [done|by apply Hall].
      * intros [(g' & [[= -> ->]|Hin]%elem_of_cons & Hu)|[H Hall]].
        -- right. rewrite Hu, lookup_insert_eq. split; [done|].
           intros e He <-. apply Hg. apply list_elem_of_fmap. by exists e.
        -- left. by exists g'.
        -- right. split.
           ++ rewrite lookup_insert_ne; [done|]. apply (Hall (ref, g)). left.
           ++ intros e He. apply Hall. by right.
Qed.


Lemma elem_of_imap_pair {A} (l : list A) (r : nat) (g : A) :
  (r, g) ∈ imap pair l <-> l !! r = Some g.
Proof.
  rewrite elem_of_lookup_imap. split.
  - by intros (i & x & [= -> ->] & H).
  - intros H. by exists r, g.
Qed.

Lemma imap_pair_bind {A B} (f : A -> list B) (l : list A) :
  imap pair l ≫= (fun e => f e.2) = l ≫= f.
Proof.
  assert (forall k, imap (fun i x => (k + i, x)%nat) l ≫= (fun e => f e.2) = l ≫= f) as H.
  { induction l as [|x l IH]; intros k; [done|].
    rewrite imap_cons. cbn [mbind list_bind snd]. f_equal.
    rewrite <- (IH (S k)). f_equal. apply imap_ext. intros. cbn. f_equal. lia. }
  apply (H O).
Qed.

Lemma imap_pair_fmap {A B} (f : A -> B) (l : list A) :
  (fun e => f e.2) <$> imap pair l = f <$> l.
Proof.
  assert (forall k, (fun e => f e.2) <$> imap (fun i x => (k + i, x)%nat) l = f <$> l) as H.
  { induction l as [|x l IH]; intros k; [done|].
    rewrite imap_cons. cbn [fmap list_fmap snd]. f_equal.
    rewrite <- (IH (S k)). f_equal. apply imap_ext. intros. cbn. f_equal. lia. }
  apply (H O).
Qed.

(** What [_build_index] returns. *)
Lemma build_index_Some (nodes_op : list NodePyGroup) (n2n : odict nat)
    (i2n : gmap string (list nat)) (o2n : gmap string nat) :
  _build_index nodes_op = Some (n2n, i2n, o2n) ->
  NoDup (all_outputs nodes_op) /\
  (forall x r, o2n !! x = Some r <->
      exists g, nodes_op !! r = Some g /\ x ∈ outputs g) /\
  (forall x r, r ∈ default [] (i2n !! x) <->
      exists g, nodes_op !! r = Some g /\ x ∈ inputs g) /\
  (NoDup (unique_name <$> nodes_op) ->
   forall u r, od_map n2n !! u = Some r <->
      exists g, nodes_op !! r = Some g /\ unique_name g = u).
Proof.
  unfold _build_index. intros H.
  apply index_loop_Some in H as (Hnd & _ & Ho & Hi & Hn). cbn [fst snd] in *.
  unfold entry_outputs in Hnd. rewrite imap_pair_bind in Hnd.
  split; [done|]. split; [|split].
  - intros x r. rewrite Ho, lookup_empty.
    setoid_rewrite elem_of_imap_pair. split; [by intros [?|?]|by right].
  - intros x r. rewrite Hi, lookup_empty. cbn.
    setoid_rewrite elem_of_imap_pair. rewrite elem_of_nil. tauto.
  - intros Hnames u r. rewrite Hn by (by rewrite imap_pair_fmap).
    cbn. rewrite lookup_empty. setoid_rewrite elem_of_imap_pair.
    split; [by intros [?|[? _]]|by left].
Qed.





(** The direction of C10 as first stated that holds: two groups that share
    an output name trip the assertion. *)
Lemma shares_output_raises (nodes_op : list NodePyGroup) :
  shares_output nodes_op -> _build_index nodes_op = None.
Proof.
  intros (i & j & gi & gj & x & Hij & Hi & Hj & Hxi & Hxj).
  destruct (_build_index nodes_op) as [[[n2n i2n] o2n]|] eqn:E; [|done].
  apply build_index_Some in E as (_ & Ho & _).
  assert (o2n !! x = Some i) as E1 by (apply Ho; eauto).
  assert (o2n !! x = Some j) as E2 by (apply Ho; eauto).
  congruence.
Qed.

Section Queries.
Variable self : TorchModuleGraph.

Lemma pred_loop (ins acc : list string) :
  (forall x r, x ∈ ins -> output_to_node self !! x = Some r ->
               is_Some (nodes_op self !! r)) ->
  exists preds,
    for_each (pred_step self) acc ins = Some (acc ++ preds) /\
    forall u, u ∈ preds <->
      exists x r g, x ∈ ins /\ output_to_node self !! x = Some r /\
                    nodes_op self !! r = Some g /\ unique_name g = u.
Proof.
  revert acc. induction ins as [|i ins IH]; intros acc Hok.
  - exists []. rewrite app_nil_r. split; [done|]. intros u. split.
    + by intros ?%elem_of_nil.
    + by intros (x & r & g & ?%elem_of_nil & _).
  - cbn [for_each].
    destruct (output_to_node self !! i) as [r|] eqn:E.
    + destruct (Hok i r) as [g Hg]; [left|done|].
      assert (pred_step self acc i = Some (acc ++ [unique_name g])) as ->
        by (unfold pred_step; by rewrite E, Hg).
      cbn [mbind option_bind].
      destruct (IH (acc ++ [unique_name g])) as (preds & -> & Hp).
      { intros x r' Hx. apply Hok. by right. }
      exists (unique_name g :: preds). split; [by rewrite <- app_assoc|].
      intros u. rewrite elem_of_cons, Hp. split.
      * intros [->|(x & r' & g' & Hx & ?)].
        -- exists i, r, g. split; [left|done].
        -- exists x, r', g'. split; [by right|done].
      * intros (x & r' & g' & [->|Hx]%elem_of_cons & Hr & Hg' & Hu).
        -- left. congruence.
        -- right. by exists x, r', g'.
    + assert (pred_step self acc i = Some acc) as -> by (unfold pred_step; by rewrite E).
      cbn [mbind option_bind].
      destruct (IH acc) as (preds & -> & Hp).
      { intros x r' Hx. apply Hok. by right. }
      exists preds. split; [done|]. intros u. rewrite Hp. split.
      * intros (x & r' & g' & Hx & ?). exists x, r', g'. split; [by right|done].
      * intros (x & r' & g' & [->|Hx]%elem_of_cons & Hr & ?); [congruence|].
        by exists x, r', g'.
Qed.

Lemma succ_ref_loop (refs : list nat) (acc : list string) :
  (forall r, r ∈ refs -> is_Some (nodes_op self !! r)) ->
  exists succs,
    for_each (succ_ref_step self) acc refs = Some (acc ++ succs) /\
    forall u, u ∈ succs <->
      exists r g, r ∈ refs /\ nodes_op self !! r = Some g /\ unique_name g = u.
Proof.
  revert acc. induction refs as [|r refs IH]; intros acc Hok.
  - exists []. rewrite app_nil_r. split; [done|]. intros u. split.
    + by intros ?%elem_of_nil.
    + by intros (r & g & ?%elem_of_nil & _).
  - cbn [for_each].
    destruct (Hok r) as [g Hg]; [left|].
    assert (succ_ref_step self acc r = Some (acc ++ [unique_name g])) as ->
      by (unfold succ_ref_step; by rewrite Hg).
    cbn [mbind option_bind].
    destruct (IH (acc ++ [unique_name g])) as (succs & -> & Hs).
    { intros r' Hr'. apply Hok. by right. }
    exists (unique_name g :: succs). split; [by rewrite <- app_assoc|].
    intros u. rewrite elem_of_cons, Hs. split.
    + intros [->|(r' & g' & Hr' & ?)].
      * exists r, g. split; [left|done].
      * exists r', g'. split; [by right|done].
    + intros (r' & g' & [->|Hr']%elem_of_cons & Hg' & Hu).
      * left. congruence.
      * right. by exists r', g'.
Qed.

Lemma succ_loop (outs acc : list string) :
  (forall x refs r, x ∈ outs -> input_to_node self !! x = Some refs -> r ∈ refs ->
                    is_Some (nodes_op self !! r)) ->
  exists succs,
    for_each (succ_step self) acc outs = Some (acc ++ succs) /\
    forall u, u ∈ succs <->
      exists x refs r g, x ∈ outs /\ input_to_node self !! x = Some refs /\
                         r ∈ refs /\ nodes_op self !! r = Some g /\
                         unique_name g = u.
Proof.
  revert acc. induction outs as [|o outs IH]; intros acc Hok.
  - exists []. rewrite app_nil_r. split; [done|]. intros u. split.
    + by intros ?%elem_of_nil.
    + by intros (x & refs & r & g & ?%elem_of_nil & _).
  - cbn [for_each].
    destruct (input_to_node self !! o) as [refs|] eqn:E.
    + destruct (succ_ref_loop refs acc) as (s1 & Hs1' & Hs1).
      { intros r Hr. by apply (Hok o refs r); [left|..]. }
      assert (succ_step self acc o = Some (acc ++ s1)) as ->
        by (unfold succ_step; by rewrite E).
      cbn [mbind option_bind].
      destruct (IH (acc ++ s1)) as (s2 & -> & Hs2).
      { intros x refs' r Hx. apply Hok. by right. }
      exists (s1 ++ s2). split; [by rewrite <- app_assoc|].
      intros u. rewrite elem_of_app, Hs1, Hs2. split.
      * intros [(r & g & Hr & ?)|(x & refs' & r & g & Hx & ?)].
        -- exists o, refs, r, g. split; [left|done].
        -- exists x, refs', r, g. split; [by right|done].
      * intros (x & refs' & r & g & [->|Hx]%elem_of_cons & Hrefs & Hr & ?).
        -- left. exists r, g. split; [congruence|done].
        -- right. by exists x, refs', r, g.
    + assert (succ_step self acc o = Some acc) as -> by (unfold succ_step; by rewrite E).
      cbn [mbind option_bind].
      destruct (IH acc) as (s2 & -> & Hs2).
      { intros x refs' r Hx. apply Hok. by right. }
      exists s2. split; [done|]. intros u. rewrite Hs2. split.
      * intros (x & refs' & r & g & Hx & ?).
        exists x, refs', r, g. split; [by right|done].
      * intros (x & refs' & r & g & [->|Hx]%elem_of_cons & Hrefs & ?); [congruence|].
        by exists x, refs', r, g.
Qed.

Hypothesis Hindexed : indexed self.
Hypothesis Hnames : NoDup (unique_name <$> nodes_op self).

(** On a graph whose unique names are pairwise distinct, the two queries
    read the indices of [_build_index] and are dual. *)
Lemma find_predecessors_successors_dual (rp rn : nat) (p n : NodePyGroup) :
  nodes_op self !! rp = Some p -> nodes_op self !! rn = Some n ->
  exists preds succs,
    find_predecessors self (unique_name n) = Some preds /\
    find_successors self (unique_name p) = Some succs /\
    (unique_name p ∈ preds <->
       exists x, x ∈ inputs n /\ output_to_node self !! x = Some rp) /\
    (unique_name p ∈ preds -> unique_name n ∈ succs).
Proof.
  intros Hp Hn.
  apply build_index_Some in Hindexed as (_ & Ho & Hi & Hu).
  specialize (Hu Hnames).
  assert (forall r r' g g', nodes_op self !! r = Some g -> nodes_op self !! r' = Some g' ->
            unique_name g = unique_name g' -> r = r') as Hinj.
  { intros r r' g g' Hr Hr' E.
    assert (od_map (name_to_node self) !! unique_name g = Some r) as E1
      by (apply Hu; eauto).
    assert (od_map (name_to_node self) !! unique_name g = Some r') as E2
      by (apply Hu; eauto).
    congruence. }
  unfold find_predecessors, find_successors.
  assert (od_map (name_to_node self) !! unique_name n = Some rn) as ->
    by (apply Hu; eauto).
  assert (od_map (name_to_node self) !! unique_name p = Some rp) as ->
    by (apply Hu; eauto).
  cbn [mbind option_bind]. rewrite Hp, Hn. cbn [mbind option_bind].
  fold (pred_step self). fold (succ_ref_step self). fold (succ_step self).
  destruct (pred_loop (inputs n) []) as (preds & -> & Hpreds).
  { intros x r _ Hr. apply Ho in Hr as (g & -> & _). by eexists. }
  destruct (succ_loop (outputs p) []) as (succs & -> & Hsuccs).
  { intros x refs r _ Hrefs Hr.
    assert (r ∈ default [] (input_to_node self !! x)) as Hr' by (by rewrite Hrefs).
    apply Hi in Hr' as (g & -> & _). by eexists. }
  exists preds, succs. split; [done|]. split; [done|].
  assert (unique_name p ∈ preds <->
          exists x, x ∈ inputs n /\ output_to_node self !! x = Some rp) as Hiff.
  { rewrite Hpreds. split.
    - intros (x & r & g & Hx & Hr & Hg & E). exists x. split; [done|].
      by rewrite (Hinj rp r p g).
    - intros (x & Hx & Hr). by exists x, rp, p. }
  split; [done|].
  intros (x & Hx & Hr)%Hiff. apply Hsuccs.
  assert (rn ∈ default [] (input_to_node self !! x)) as Hrn by (apply Hi; eauto).
  destruct (input_to_node self !! x) as [refs|] eqn:E; [|by apply elem_of_nil in Hrn].
  exists x, refs, rn, n. split; [|done].
  apply Ho in Hr as (g & Hg & Hxg). congruence.
Qed.

End Queries.

Lemma index_loop_same_keys (entries entries' : list (nat * NodePyGroup))
    (st : odict nat * gmap string (list nat) * gmap string nat) :
  Forall2 (fun e e' => e.1 = e'.1 /\ same_keys e.2 e'.2) entries entries' ->
  for_each index_group st entries = for_each index_group st entries'.
Proof.
  intros H. revert st.
  induction H as [|[r g] [r' g'] l l' [Hr (Hu & Hi & Ho)] _ IH]; intros st; [done|].
  cbn [for_each fst snd] in *. subst r'.
  assert (index_group st (r, g) = index_group st (r, g')) as ->.
  { destruct st as [[n2n i2n] o2n]. unfold index_group. by rewrite Hu, Hi, Ho. }
  destruct (index_group st (r, g')); [apply IH|done].
Qed.

Lemma build_index_same_keys (l l' : list NodePyGroup) :
  Forall2 same_keys l l' -> _build_index l = _build_index l'.
Proof.
  intros H. apply index_loop_same_keys.
  assert (forall k, Forall2 (fun e e' => e.1 = e'.1 /\ same_keys e.2 e'.2)
            (imap (fun i x => (k + i, x)%nat) l) (imap (fun i x => (k + i, x)%nat) l')) as Hk.
  { induction H as [|g g' l l' Hg _ IH]; intros k; [constructor|].
    rewrite !imap_cons. constructor; [done|].
    rewrite (imap_ext _ (fun i x => (S k + i, x)%nat) l) by (intros; cbn; f_equal; lia).
    rewrite (imap_ext _ (fun i x => (S k + i, x)%nat) l') by (intros; cbn; f_equal; lia).
    apply IH. }
  apply (Hk O).
Qed.

Lemma extract_auxiliary_same_keys (g g' : NodePyGroup) :
  extract_auxiliary g = Some g' -> same_keys g g'.
Proof.
  unfold extract_auxiliary.
  destruct (str_in (op_type g) shape_op_types).
  - destruct (head _) as [c|]; [cbn|done].
    destruct (_extract_shape_info c); [cbn|done]. by intros [= <-].
  - destruct (String.eqb (op_type g) CAT_KIND).
    + destruct (head _) as [c|]; [cbn|done]. by intros [= <-].
    + by intros [= <-].
Qed.

(** The graph that [TorchModuleGraph.__init__] leaves is indexed. *)
Lemma init_indexed (torch_version : string) (fuel : nat) (graph_nodes : list Node)
    (named_modules : list (string * string)) (self : TorchModuleGraph) :
  TorchModuleGraph_init torch_version fuel graph_nodes named_modules = Some self ->
  indexed self.
Proof.
  unfold TorchModuleGraph_init.
  destruct (_build_graph _ _ _ _) as [self0|] eqn:E; [cbn [mbind option_bind]|done].
  assert (indexed self0) as H0.
  { unfold _build_graph in E. cbv zeta in E.
    destruct (foldl _ _ graph_nodes) as [m2n f2n].
    repeat match type of E with
           | (let '(_, _) := ?x in _) = _ => destruct x
           | (?x ≫= _) = _ =>
               destruct x eqn:?; cbn [mbind option_bind] in E; [|done]
           end.
    injection E as <-. unfold indexed. cbn.
    match goal with |- ?a = Some (?p.1.1, ?p.1.2, ?p.2) => by destruct p as [[? ?] ?] end. }
  unfold _extract_auxiliary_info.
  destruct (mapM extract_auxiliary (nodes_op self0)) as [l'|] eqn:E';
    [cbn [mbind option_bind]|done].
  intros [= <-]. unfold indexed in *. cbn.
  rewrite <- H0. symmetry. apply build_index_same_keys.
  apply mapM_Some in E'. eapply Forall2_impl; [exact E'|].
  intros g g'. apply extract_auxiliary_same_keys.
Qed.

(** On a graph that [TorchModuleGraph.__init__] built and whose unique
    names are pairwise distinct, [find_predecessors] and [find_successors]
    read the indices and are dual. *)
Corollary built_graph_queries_dual (torch_version : string) (fuel : nat)
    (graph_nodes : list Node) (named_modules : list (string * string))
    (self : TorchModuleGraph) (rp rn : nat) (p n : NodePyGroup) :
  TorchModuleGraph_init torch_version fuel graph_nodes named_modules = Some self ->
  NoDup (unique_name <$> nodes_op self) ->
  nodes_op self !! rp = Some p -> nodes_op self !! rn = Some n ->
  exists preds succs,
    find_predecessors self (unique_name n) = Some preds /\
    find_successors self (unique_name p) = Some succs /\
    (unique_name p ∈ preds <->
       exists x, x ∈ inputs n /\ output_to_node self !! x = Some rp) /\
    (unique_name p ∈ preds -> unique_name n ∈ succs).
Proof.
  intros Hinit Hnames. apply find_predecessors_successors_dual; [|done].
  by eapply init_indexed.
Qed.

(** C4 at a failing input. On the graph built from [colliding_trace] the
    module group and the function group both get the unique name
    [_aten__relu_1]; [name_to_node] keeps the function group, so that, with
    [n] the module group, [find_predecessors(n.unique_name)] lists
    [n.unique_name] although no input of [n] is in [output_to_node], and
    [find_successors] of that name is empty. *)
Theorem find_predecessors_name_collision :
  exists self n,
    TorchModuleGraph_init "1.4.0" 4 colliding_trace colliding_modules = Some self /\
    nodes_op self !! 0%nat = Some n /\
    ~ NoDup (unique_name <$> nodes_op self) /\
    find_predecessors self (unique_name n) = Some [unique_name n] /\
    (forall x, x ∈ inputs n -> output_to_node self !! x = None) /\
    find_successors self (unique_name n) = Some [].
Proof.
  eexists _, _. split; [by vm_compute|].
  split; [reflexivity|]. split.
  { cbn. intros H. apply NoDup_cons in H as [H _]. apply H. left. }
  split; [by vm_compute|]. split; [|by vm_compute].
  cbn. intros x ->%list_elem_of_singleton. by vm_compute.
Qed.

End IndexFacts.

(** * Facts about the auxiliary information and the module hierarchy *)
Section HierarchyFacts.
Import PyStr GraphUtils GraphSpec.

(** A group of operator type [aten::cat] gains no key. *)
Lemma extract_auxiliary_cat (g g' : NodePyGroup) :
  op_type g = CAT_KIND -> extract_auxiliary g = Some g' ->
  forall k, default ∅ (auxiliary g') !! k = default ∅ (auxiliary g) !! k.
Proof.
  intros Hop. unfold extract_auxiliary. rewrite Hop.
  change (str_in CAT_KIND shape_op_types) with false.
  change (String.eqb CAT_KIND CAT_KIND) with true. cbn iota.
  destruct (head _) as [c|]; [cbn [mbind option_bind]|done].
  intros [= <-] k. cbn. unfold _extract_cat_info.
  destruct (auxiliary g) as [a|]; cbn; [|done]. by rewrite (left_id_L ∅ (∪)).
Qed.

(** C1 at a failing input. On the graph built from [cat_trace], the group
    of operator type [aten::cat] keeps the auxiliary dictionary that
    [_expand_non_prim_node] gave it, with the single key [input_args]: none
    of [cat_dim], [out_shape], [in_order], [in_shape] is set. *)
Theorem extract_cat_info_is_empty :
  exists self g aux,
    TorchModuleGraph_init "1.4.0" 8 cat_trace cat_modules = Some self /\
    nodes_op self !! 2%nat = Some g /\
    op_type g = CAT_KIND /\
    auxiliary g = Some aux /\
    aux !! "cat_dim" = None /\ aux !! "out_shape" = None /\
    aux !! "in_order" = None /\ aux !! "in_shape" = None /\
    dom aux = {["input_args"]}.
Proof.
  eexists _, _, _. split; [by vm_compute|].
  split; [reflexivity|]. split; [reflexivity|]. split; [reflexivity|].
  repeat split; by vm_compute.
Qed.

(** A group whose name slices all name tree nodes is attached nowhere: the
    loop of [attach_node_to_tree] ends without reaching its [else]. *)
Lemma attach_full_path (r : nat) (name_slices : list string) (t : TreeNode) :
  is_Some (tnode_at t name_slices) -> attach_node_to_tree t name_slices r = t.
Proof.
  revert t. induction name_slices as [|x rest IH]; intros t; [done|].
  cbn [tnode_at attach_node_to_tree].
  destruct (child_tnodes t !! x) as [c|] eqn:E; cbn [mbind option_bind];
    [|by intros [? ?]].
  intros H. rewrite IH by done. rewrite insert_id by done. by destruct t.
Qed.

(** C3 at a failing input. On the graph built from [cat_trace], the
    hierarchy is [cat_hierarchy]: the module group [conv1], at position 0 of
    [nodes_op] and in [name_to_node], is attached to no tree node. *)
Theorem module_groups_not_attached :
  exists self g,
    TorchModuleGraph_init "1.4.0" 8 cat_trace cat_modules = Some self /\
    nodes_op self !! 0%nat = Some g /\
    od_map (name_to_node self) !! unique_name g = Some 0%nat /\
    name g = "conv1" /\ node_type g = "module" /\
    build_module_hierarchy "1.4.0" self = Some cat_hierarchy /\
    forall path t, tnode_at cat_hierarchy path = Some t -> 0%nat ∉ graph_nodes t.
Proof.
  eexists _, _. split; [by vm_compute|].
  split; [reflexivity|]. split; [by vm_compute|].
  split; [reflexivity|]. split; [reflexivity|]. split; [by vm_compute|].
  intros path t. destruct path as [|x path].
  { intros [= <-]. apply not_elem_of_nil. }
  cbn [tnode_at cat_hierarchy child_tnodes].
  destruct (_ !! x) as [c|] eqn:E; cbn [mbind option_bind]; [|done].
  assert (c = leaf_tnode "" "" [2%nat] \/ c = leaf_tnode "conv2" "conv2" [] \/
          c = leaf_tnode "conv1" "conv1" []) as Hc.
  { apply lookup_insert_Some in E as [[_ <-]|[_ E]]; [by left|].
    apply lookup_insert_Some in E as [[_ <-]|[_ E]]; [by right; left|].
    apply lookup_singleton_Some in E as [_ <-]. by right; right. }
  destruct path as [|y path].
  - intros [= <-]. destruct Hc as [-> | [-> | ->]]; cbn.
    + intros H%list_elem_of_singleton. discriminate H.
    + apply not_elem_of_nil.
    + apply not_elem_of_nil.
  - cbn [tnode_at]. by destruct Hc as [-> | [-> | ->]].
Qed.

Lemma tnode_at_no_children (t : TreeNode) (path : list string) :
  child_tnodes t = ∅ -> path <> [] -> tnode_at t path = None.
Proof.
  intros Hc Hp. destruct path as [|x path]; [done|]. cbn. by rewrite Hc, lookup_empty.
Qed.

Lemma insert_from_root (name_slices rest : list string) (i : nat) (t : TreeNode) :
  local_name (insert_scope_name_from name_slices i rest t) = local_name t /\
  full_name (insert_scope_name_from name_slices i rest t) = full_name t.
Proof. by destruct rest. Qed.

Lemma last_cons_ne {A} (x : A) (l : list A) : l <> [] -> last (x :: l) = last l.
Proof. by destruct l. Qed.

(** Inserting a scope name keeps the full names in line with the paths. *)
Lemma insert_from_named (rest pre : list string) (curr : TreeNode) :
  named_below pre curr ->
  named_below pre
    (insert_scope_name_from (pre ++ rest) (length pre) rest curr).
Proof.
  revert pre curr. induction rest as [|name_ rest IH]; intros pre curr Hcurr; [done|].
  cbn [insert_scope_name_from].
  set (child := match child_tnodes curr !! name_ with
                | Some c => c
                | None => MkTreeNode name_
                            (join "." (take (length pre + 1) (pre ++ name_ :: rest))) [] ∅
                end).
  assert (full_name child = join "." (pre ++ [name_]) /\ local_name child = name_)
    as [Hfull Hlocal].
  { subst child. destruct (child_tnodes curr !! name_) as [c|] eqn:E.
    - destruct (Hcurr [name_] c) as [H1 H2]; [done|by cbn; rewrite E|].
      split; [done|]. cbn in H2. congruence.
    - cbn. split; [|done]. f_equal.
      rewrite take_app_ge by lia.
      replace (length pre + 1 - length pre)%nat with 1%nat by lia. done. }
  assert (named_below (pre ++ [name_]) child) as Hchild.
  { subst child. destruct (child_tnodes curr !! name_) as [c|] eqn:E.
    - intros path t' Hp Ht'. rewrite <- app_assoc. cbn.
      rewrite <- (last_cons_ne name_) by done.
      apply Hcurr; [done|]. cbn. by rewrite E.
    - intros path t' Hp Ht'. by rewrite tnode_at_no_children in Ht'. }
  specialize (IH (pre ++ [name_]) child Hchild).
  rewrite <- app_assoc, length_app in IH. cbn [app length] in IH.
  replace (length pre + 1)%nat with (S (length pre)) in IH by lia.
  set (new := insert_scope_name_from (pre ++ name_ :: rest) (S (length pre)) rest child) in *.
  intros path t' Hp Ht'. destruct path as [|x path]; [done|].
  cbn [tnode_at child_tnodes] in Ht'.
  destruct (decide (name_ = x)) as [<-|Hne].
  - rewrite lookup_insert_eq in Ht'. cbn [mbind option_bind] in Ht'.
    destruct path as [|y path].
    + injection Ht' as <-. subst new.
      destruct (insert_from_root (pre ++ name_ :: rest) rest (S (length pre)) child)
        as [-> ->].
      cbn. by rewrite Hfull, Hlocal.
    + destruct (IH (y :: path) t') as [H1 H2]; [done|done|].
      rewrite <- app_assoc in H1. by rewrite last_cons_ne.
  - rewrite lookup_insert_ne in Ht' by done. apply Hcurr; [done|]. done.
Qed.

Lemma insert_from_path (name_slices rest : list string) (i : nat) (t : TreeNode) :
  is_Some (tnode_at (insert_scope_name_from name_slices i rest t) rest).
Proof.
  revert i t. induction rest as [|name_ rest IH]; intros i t; [by eexists|].
  cbn [insert_scope_name_from tnode_at child_tnodes]. rewrite lookup_insert_eq.
  cbn [mbind option_bind]. apply IH.
Qed.

Lemma insert_from_keeps (name_slices rest path : list string) (i : nat) (t : TreeNode) :
  is_Some (tnode_at t path) ->
  is_Some (tnode_at (insert_scope_name_from name_slices i rest t) path).
Proof.
  revert i t path. induction rest as [|name_ rest IH]; intros i t path; [done|].
  destruct path as [|x path]; [by eexists|].
  cbn [insert_scope_name_from tnode_at child_tnodes].
  destruct (decide (name_ = x)) as [<-|Hne].
  - rewrite lookup_insert_eq. cbn [mbind option_bind].
    destruct (child_tnodes t !! name_) as [c|]; cbn [mbind option_bind];
      [apply IH|by intros [? ?]].
  - by rewrite lookup_insert_ne.
Qed.

(** Attaching a group changes neither the shape of the tree nor a name. *)
Lemma attach_names (r : nat) (name_slices path : list string) (t : TreeNode) :
  (fun t' => (local_name t', full_name t'))
    <$> tnode_at (attach_node_to_tree t name_slices r) path
  = (fun t' => (local_name t', full_name t')) <$> tnode_at t path.
Proof.
  revert t path. induction name_slices as [|name_ rest IH]; intros t path; [done|].
  cbn [attach_node_to_tree].
  destruct (child_tnodes t !! name_) as [c|] eqn:E.
  - destruct path as [|x path]; [done|]. cbn [tnode_at child_tnodes].
    destruct (decide (name_ = x)) as [<-|Hne].
    + rewrite lookup_insert_eq, E. cbn [mbind option_bind]. apply IH.
    + by rewrite lookup_insert_ne.
  - by destruct path.
Qed.

Lemma attach_named (r : nat) (name_slices : list string) (t : TreeNode) :
  named_below [] t -> named_below [] (attach_node_to_tree t name_slices r).
Proof.
  intros Ht path t' Hp Ht'.
  pose proof (attach_names r name_slices path t) as H. rewrite Ht' in H.
  destruct (tnode_at t path) as [t0|] eqn:E; [|done].
  injection H as H1 H2. rewrite H1, H2. by apply Ht.
Qed.

Lemma attach_keeps (r : nat) (name_slices path : list string) (t : TreeNode) :
  is_Some (tnode_at t path) ->
  is_Some (tnode_at (attach_node_to_tree t name_slices r) path).
Proof.
  intros [t0 E]. pose proof (attach_names r name_slices path t) as H.
  rewrite E in H. by destruct (tnode_at (attach_node_to_tree t name_slices r) path).
Qed.

Lemma scope_name_tree_spec (graph_nodes_ : list Node) :
  named_below [] (scope_name_tree graph_nodes_) /\
  forall node, node ∈ graph_nodes_ ->
               is_Some (tnode_at (scope_name_tree graph_nodes_) (scope_slices node)).
Proof.
  unfold scope_name_tree.
  assert (forall root : TreeNode,
    named_below [] root ->
    let t := foldl (fun root_tnode node => insert_scope_name root_tnode (scope_slices node))
                   root graph_nodes_ in
    named_below [] t /\
    (forall path, is_Some (tnode_at root path) -> is_Some (tnode_at t path)) /\
    forall node, node ∈ graph_nodes_ -> is_Some (tnode_at t (scope_slices node))) as H.
  { induction graph_nodes_ as [|n l IH]; intros root Hroot; cbn [foldl].
    - split; [done|]. split; [done|]. by intros node ?%elem_of_nil.
    - destruct (IH (insert_scope_name root (scope_slices n))) as (H1 & H2 & H3).
      { apply (insert_from_named (scope_slices n) [] root Hroot). }
      split; [done|]. split.
      + intros path Hp. apply H2. by apply insert_from_keeps.
      + intros node [->|Hn]%elem_of_cons; [|by apply H3].
        apply H2. apply insert_from_path. }
  destruct (H (MkTreeNode "root" "root" [] ∅)) as (H1 & _ & H3); [|done].
  intros path t' Hp Ht'. by rewrite tnode_at_no_children in Ht'.
Qed.

(** The part of C3 that holds: in the tree that [build_module_hierarchy]
    returns, the scope name of every trace node is a path, and every node
    below the root has as full name the '.'-join of the local names along
    its path. *)
Lemma build_module_hierarchy_names (torch_version : string)
    (self : TorchModuleGraph) (root : TreeNode) :
  build_module_hierarchy torch_version self = Some root ->
  named_below [] root /\
  forall node, node ∈ trace_nodes self ->
               is_Some (tnode_at root (scope_slices node)).
Proof.
  unfold build_module_hierarchy. destruct (negb _); [done|].
  destruct (scope_name_tree_spec (trace_nodes self)) as [H1 H2].
  unfold attach_groups.
  generalize dependent (scope_name_tree (trace_nodes self)).
  induction (od_items (name_to_node self)) as [|[u r] items IH]; intros t H1 H2.
  - intros [= <-]. done.
  - cbn [for_each]. destruct (nodes_op self !! (u, r).2) as [g|];
      cbn [mbind option_bind]; [|done].
    apply IH.
    + by apply attach_named.
    + intros node Hn. by apply attach_keeps, H2.
Qed.

End HierarchyFacts.

(** * Facts about the leaf modules *)
Section LeafFacts.
Import PyStr GraphUtils GraphSpec.

Lemma leb_cons (x y : ascii) (s t : string) :
  String.leb (String x s) (String y t) =
  match Ascii.compare x y with
  | Lt => true
  | Eq => String.leb s t
  | Gt => false
  end.
Proof. unfold String.leb. cbn. by destruct (Ascii.compare x y). Qed.

Lemma leb_nil_l (s : string) : String.leb "" s = true.
Proof. by destruct s. Qed.

Lemma leb_refl (s : string) : String.leb s s = true.
Proof.
  induction s as [|c s IH]; [done|]. rewrite leb_cons.
  unfold Ascii.compare. by rewrite N.compare_refl.
Qed.

Lemma leb_app (s t : string) : String.leb s (s +:+ t) = true.
Proof.
  induction s as [|c s IH]; [apply leb_nil_l|]. rewrite app_String, leb_cons.
  unfold Ascii.compare. by rewrite N.compare_refl.
Qed.

Lemma sle_trans (x y z : string) : sle x y -> sle y z -> sle x z.
Proof.
  unfold sle. intros Hxy%Is_true_true Hyz%Is_true_true. apply Is_true_true.
  change (String.le x z). by trans y.
Qed.

Lemma sle_antisym (x y : string) : sle x y -> sle y x -> x = y.
Proof. apply String.leb_antisym. Qed.

Lemma word_char_above_dot (c : ascii) :
  is_word_char c = true -> (N_of_ascii "." < N_of_ascii c)%N.
Proof.
  unfold is_word_char. cbv zeta.
  rewrite !orb_true_iff, !andb_true_iff, !N.leb_le, N.eqb_eq.
  change (N_of_ascii ".") with 46%N. lia.
Qed.

(** Between [a] and one of its dotted extensions only dotted extensions of
    [a] are found, when the characters are dots or above.  *)
Lemma between_extension (a c rest : string) :
  name_ok c -> sle a c -> sle c (a +:+ String "." rest) -> c <> a ->
  exists rest', c = a +:+ String "." rest'.
Proof.
  revert c. induction a as [|x a IH]; intros c Hok Hac Hcb Hne.
  - destruct c as [|y c]; [done|]. exists c. rewrite app_empty_l in *.
    unfold sle in Hcb. rewrite leb_cons in Hcb.
    unfold name_ok in Hok. cbn [all_chars] in Hok.
    apply andb_prop in Hok as [Hy _].
    destruct (Ascii.eqb_spec y ".") as [->|Hy']; [done|]. cbn [orb] in Hy.
    exfalso. unfold Ascii.compare in Hcb.
    destruct (N.compare_spec (N_of_ascii y) (N_of_ascii ".")) as [E|E|E]; [| |done].
    + apply Hy'. rewrite <- (ascii_N_embedding y), E. done.
    + apply word_char_above_dot in Hy. lia.
  - destruct c as [|y c]; [done|].
    unfold sle in *. rewrite app_String, leb_cons in *.
    unfold name_ok in Hok. cbn [all_chars] in Hok. apply andb_prop in Hok as [_ Hok].
    unfold Ascii.compare in *. rewrite (N.compare_antisym (N_of_ascii y)) in Hac.
    destruct (N.compare_spec (N_of_ascii y) (N_of_ascii x)) as [E|E|E]; try done.
    assert (y = x) as -> by (by rewrite <- (ascii_N_embedding y), E, ascii_N_embedding).
    cbn in Hac. destruct (IH c) as [rest' ->]; try done; [congruence|].
    by exists rest'.
Qed.

Lemma split_app_sep (sep : ascii) (a rest : string) :
  split sep (a +:+ String sep rest) = split sep a ++ split sep rest.
Proof.
  induction a as [|c a IH].
  - rewrite app_empty_l. cbn [split]. by rewrite Ascii.eqb_refl.
  - rewrite app_String. cbn [split]. rewrite IH.
    destruct (Ascii.eqb c sep); [done|].
    pose proof (split_nonempty sep a). by destruct (split sep a).
Qed.

Lemma join_split (sep : ascii) (s : string) :
  join (String sep "") (split sep s) = s.
Proof.
  induction s as [|c s IH]; [done|]. cbn [split].
  pose proof (split_nonempty sep s) as Hne.
  destruct (Ascii.eqb_spec c sep) as [->|_].
  - destruct (split sep s) as [|w ws]; [done|].
    cbn [join] in *. by rewrite IH.
  - destruct (split sep s) as [|w ws]; [done|].
    destruct ws as [|w' ws]; cbn [join] in *; [by rewrite IH|].
    by rewrite <- IH.
Qed.

Lemma join_app (sep : string) (l1 l2 : list string) :
  l1 <> [] -> l2 <> [] ->
  join sep (l1 ++ l2) = join sep l1 +:+ sep +:+ join sep l2.
Proof.
  intros H1 H2. induction l1 as [|w l1 IH]; [done|].
  destruct l1 as [|w' l1].
  - destruct l2; [done|]. done.
  - change (join sep ((w :: w' :: l1) ++ l2))
      with (w +:+ sep +:+ join sep ((w' :: l1) ++ l2)).
    rewrite IH by done. change (join sep (w :: w' :: l1))
      with (w +:+ sep +:+ join sep (w' :: l1)).
    by rewrite !app_assoc_s.
Qed.

Lemma parts_agree_prefix (p1 p2 : list string) :
  parts_agree p1 p2 = true /\ (length p1 < length p2)%nat <->
  exists more, more <> [] /\ p2 = p1 ++ more.
Proof.
  revert p2. induction p1 as [|x p1 IH]; intros p2.
  - cbn. split.
    + intros [_ H]. exists p2. split; [|done]. by destruct p2; [cbn in H; lia|].
    + intros (more & Hne & ->). split; [done|]. destruct more; [done|cbn; lia].
  - destruct p2 as [|y p2].
    + cbn. split; [intros [? _]; done|]. by intros (more & _ & ?).
    + cbn [parts_agree length]. destruct (String.eqb_spec y x) as [->|Hne].
      * rewrite <- Nat.succ_lt_mono, IH. split.
        -- intros (more & ? & ->). by exists more.
        -- intros (more & ? & [= ->]). by exists more.
      * split; [intros [? _]; done|]. intros (more & _ & [= ? _]). done.
Qed.

(** [is_parent] on the text of the names. *)
Lemma is_parent_extension (a b : string) :
  is_parent a b = true <-> exists rest, b = a +:+ String "." rest.
Proof.
  unfold is_parent.
  assert ((if (length (split "." b) <=? length (split "." a))%nat
           then false else parts_agree (split "." a) (split "." b)) = true
          <-> parts_agree (split "." a) (split "." b) = true /\
              (length (split "." a) < length (split "." b))%nat) as ->.
  { destruct (Nat.leb_spec (length (split "." b)) (length (split "." a))).
    - split; [done|]. lia.
    - tauto. }
  rewrite parts_agree_prefix. split.
  - intros (more & Hne & E). exists (join "." more).
    rewrite <- (join_split "." b), E, join_app; [|apply split_nonempty|done].
    by rewrite join_split.
  - intros [rest ->]. exists (split "." rest). split; [apply split_nonempty|].
    apply split_app_sep.
Qed.

Lemma elem_of_sorted_insert (x y : string) (l : list string) :
  y ∈ sorted_insert x l <-> y = x \/ y ∈ l.
Proof.
  induction l as [|z l IH]; cbn [sorted_insert].
  - by rewrite list_elem_of_singleton, elem_of_nil; tauto.
  - destruct (String.leb x z); rewrite !elem_of_cons; [tauto|]. rewrite IH. tauto.
Qed.

Lemma elem_of_sorted (y : string) (l : list string) : y ∈ sorted l <-> y ∈ l.
Proof.
  induction l as [|x l IH]; [done|]. cbn [sorted foldr].
  fold (sorted l). rewrite elem_of_sorted_insert, elem_of_cons, IH. tauto.
Qed.

Lemma NoDup_sorted_insert (x : string) (l : list string) :
  x ∉ l -> NoDup l -> NoDup (sorted_insert x l).
Proof.
  induction l as [|z l IH]; intros Hx Hl; cbn [sorted_insert].
  - by apply NoDup_singleton.
  - destruct (String.leb x z); [by constructor|].
    apply NoDup_cons in Hl as [Hz Hl]. apply not_elem_of_cons in Hx as [Hxz Hx].
    constructor; [|by apply IH].
    rewrite elem_of_sorted_insert. intros [->|?]; done.
Qed.

Lemma NoDup_sorted (l : list string) : NoDup l -> NoDup (sorted l).
Proof.
  induction 1 as [|x l Hx Hl IH]; [constructor|]. cbn [sorted foldr]. fold (sorted l).
  apply NoDup_sorted_insert; [|done]. by rewrite elem_of_sorted.
Qed.

Lemma sorted_insert_ascending (x : string) (l : list string) :
  StronglySorted sle l -> StronglySorted sle (sorted_insert x l).
Proof.
  induction 1 as [|z l Hl IH Hz]; cbn [sorted_insert].
  - repeat constructor.
  - destruct (String.leb x z) eqn:E.
    + constructor; [by constructor|]. constructor; [done|].
      eapply Forall_impl; [exact Hz|]. intros w Hw. by apply (sle_trans x z w).
    + constructor; [done|]. apply Forall_forall. intros w Hw.
      apply elem_of_sorted_insert in Hw as [->|Hw].
      * destruct (String.leb_total x z) as [H|H]; [congruence|done].
      * by apply (proj1 (Forall_forall _ _) Hz).
Qed.

Lemma sorted_ascending (l : list string) : StronglySorted sle (sorted l).
Proof.
  induction l as [|x l IH]; [constructor|]. by apply sorted_insert_ascending.
Qed.

Lemma leaf_imap_scan (pre l : list string) :
  omap id
    (imap (fun i name =>
             match (pre ++ l) !! (length pre + i + 1)%nat with
             | None => Some name
             | Some next => if is_parent name next then None else Some name
             end) l)
  = leaf_scan l.
Proof.
  revert pre. induction l as [|x l IH]; intros pre; [done|].
  rewrite imap_cons. cbn [omap list_omap].
  rewrite (imap_ext _
    (fun i name =>
       match ((pre ++ [x]) ++ l) !! (length (pre ++ [x]) + i + 1)%nat with
       | None => Some name
       | Some next => if is_parent name next then None else Some name
       end)).
  2:{ intros i y _. cbn. rewrite <- app_assoc, length_app. cbn.
      by replace (length pre + S i + 1)%nat with (length pre + 1 + i + 1)%nat by lia. }
  rewrite IH. rewrite lookup_app_r by lia.
  replace (length pre + 0 + 1 - length pre)%nat with 1%nat by lia. cbn [lookup list_lookup].
  destruct l as [|y l]; [done|]. cbn [lookup list_lookup leaf_scan id].
  by destruct (is_parent x y).
Qed.

Lemma extract_leaf_modules_scan (named_modules : list string) :
  _extract_leaf_modules named_modules
  = leaf_scan (sorted (filter (fun x => x <> "") named_modules)).
Proof. unfold _extract_leaf_modules. apply (leaf_imap_scan []). Qed.

Lemma is_parent_irrefl (x : string) : is_parent x x = false.
Proof. unfold is_parent. by rewrite Nat.leb_refl. Qed.

Lemma leaf_scan_spec (l : list string) :
  StronglySorted sle l -> NoDup l -> Forall name_ok l ->
  forall w, w ∈ leaf_scan l <->
            w ∈ l /\ forall z, z ∈ l -> is_parent w z = false.
Proof.
  induction 1 as [|x l Hl IH Hx]; intros Hnd Hok w.
  { cbn. rewrite elem_of_nil. tauto. }
  apply NoDup_cons in Hnd as [Hxl Hnd]. apply Forall_cons in Hok as [Hokx Hok].
  specialize (IH Hnd Hok).
  assert (forall z, z ∈ l -> is_parent z x = false) as HB.
  { intros z Hz. destruct (is_parent z x) eqn:E; [|done]. exfalso.
    apply is_parent_extension in E as [rest E].
    assert (z = x) as ->; [|by apply Hxl].
    apply sle_antisym; [rewrite E; apply leb_app|].
    by apply (proj1 (Forall_forall _ _) Hx). }
  destruct l as [|y r].
  { cbn [leaf_scan]. rewrite list_elem_of_singleton. split.
    - intros ->. split; [done|]. intros z ->%list_elem_of_singleton.
      apply is_parent_irrefl.
    - by intros [? _]. }
  assert ((exists z, z ∈ y :: r /\ is_parent x z = true) -> is_parent x y = true) as HA.
  { intros (z & Hz & E). apply elem_of_cons in Hz as [->|Hz]; [done|].
    apply is_parent_extension in E as [rest ->].
    apply is_parent_extension.
    apply (between_extension x y rest).
    - by apply Forall_cons in Hok as [? _].
    - apply (proj1 (Forall_forall _ _) Hx). left.
    - apply StronglySorted_inv in Hl as [_ Hy].
      by apply (proj1 (Forall_forall _ _) Hy).
    - intros ->. apply Hxl. left. }
  change (leaf_scan (x :: y :: r))
    with (if is_parent x y then leaf_scan (y :: r) else x :: leaf_scan (y :: r)).
  destruct (is_parent x y) eqn:Exy.
  - rewrite IH. split.
    + intros [Hw Hall]. split; [by right|].
      intros z [->|Hz]%elem_of_cons; [by apply HB|by apply Hall].
    + intros [[->|Hw]%elem_of_cons Hall].
      * rewrite Hall in Exy; [discriminate Exy|]. right. left.
      * split; [done|]. intros z Hz. apply Hall. by right.
  - rewrite elem_of_cons, IH. split.
    + intros [->|[Hw Hall]].
      * split; [left|]. intros z [->|Hz]%elem_of_cons; [apply is_parent_irrefl|].
        destruct (is_parent x z) eqn:E; [|done].
        exfalso. assert (false = true) as Hf by (apply HA; by exists z).
        discriminate Hf.
      * split; [by right|].
        intros z [->|Hz]%elem_of_cons; [by apply HB|by apply Hall].
    + intros [[->|Hw]%elem_of_cons Hall]; [by left|].
      right. split; [done|]. intros z Hz. apply Hall. by right.
Qed.

(** C9. The names that [named_modules()] yields are distinct. For every
    duplicate-free list of module names whose characters are dots and
    identifier characters, [_extract_leaf_modules] returns exactly the
    non-empty names that are the parent, in the sense of [is_parent], of no
    name of the list, although it compares each name with its successor in
    sorted order only. *)
Theorem extract_leaf_modules_leaves (named_modules : list string) :
  NoDup named_modules -> Forall name_ok named_modules ->
  forall x, x ∈ _extract_leaf_modules named_modules <->
            x ∈ named_modules /\ x <> "" /\
            forall y, y ∈ named_modules -> is_parent x y = false.
Proof.
  intros Hnd Hok x. rewrite extract_leaf_modules_scan.
  rewrite leaf_scan_spec.
  - rewrite elem_of_sorted, list_elem_of_filter. split.
    + intros [[Hne Hx] Hall]. split; [done|]. split; [done|].
      intros y Hy. destruct (decide (y = "")) as [->|Hy'].
      * unfold is_parent. cbn [split length].
        pose proof (split_nonempty "." x). by destruct (split "." x).
      * apply Hall. rewrite elem_of_sorted, list_elem_of_filter. done.
    + intros (Hx & Hne & Hall). split; [done|].
      intros y [_ Hy]%elem_of_sorted%list_elem_of_filter. by apply Hall.
  - apply sorted_ascending.
  - apply NoDup_sorted. by apply NoDup_filter.
  - apply Forall_forall. intros y [_ Hy]%elem_of_sorted%list_elem_of_filter.
    by apply (proj1 (Forall_forall _ _) Hok).
Qed.

(** The statement above on a small module tree. *)
Lemma extract_leaf_modules_leaves_witness :
  "a.bb" ∈ _extract_leaf_modules [""; "b"; "a"; "a.b"; "a.b.c"; "a.bb"] <->
  "a.bb" ∈ [""; "b"; "a"; "a.b"; "a.b.c"; "a.bb"] /\ "a.bb" <> "" /\
  forall y, y ∈ [""; "b"; "a"; "a.b"; "a.b.c"; "a.bb"] ->
            is_parent "a.bb" y = false.
Proof.
  apply extract_leaf_modules_leaves.
  - by apply (bool_decide_unpack _).
  - repeat constructor.
Defined.

End LeafFacts.

(** * Facts about [_expand_module_node] *)
Section ModuleGroup.
Import PyStr GraphUtils GraphSpec.

Section ModuleGroupFacts.
Variable nodes : list Node.
Variable input_to_node : gmap string Node.
Variable output_to_node : gmap string Node.

Lemma node_in_true (x : Node) (l : list Node) : node_in x l = true <-> x ∈ l.
Proof. unfold node_in. apply bool_decide_eq_true. Qed.

Lemma node_in_false (x : Node) (l : list Node) : node_in x l = false <-> x ∉ l.
Proof. unfold node_in. apply bool_decide_eq_false. Qed.








End ModuleGroupFacts.


End ModuleGroup.

(** * Facts about [_expand_non_prim_node] *)
Section NonPrimGroup.
Import PyStr GraphUtils GraphSpec.

Section NonPrimFacts.
Variable torch_version : string.
Variable nodes : list Node.
Variable output_to_node : gmap string Node.

Lemma non_prim_visit_group (vs : list Value) (st : ExpandState) :
  exists new,
    node_group (foldl (non_prim_visit_input nodes output_to_node) st vs)
    = node_group st ++ new /\
    Forall (fun n => is_prim n = true) new.
Proof.
  revert st. induction vs as [|v vs IH]; intros st; cbn [foldl].
  - exists []. by rewrite app_nil_r.
  - destruct (IH (non_prim_visit_input nodes output_to_node st v)) as (new & -> & Hnew).
    unfold non_prim_visit_input.
    destruct (output_to_node !! debugName v) as [m|]; [|by exists new].
    destruct (node_in m nodes); [|by exists new].
    destruct (is_prim m) eqn:Em; [|by exists new].
    exists (m :: new). cbn. rewrite <- app_assoc. split; [done|]. by constructor.
Qed.

Lemma non_prim_loop_group (fuel : nat) (st st' : ExpandState) :
  non_prim_loop nodes output_to_node fuel st = Some st' ->
  exists new,
    node_group st' = node_group st ++ new /\
    Forall (fun n => is_prim n = true) new.
Proof.
  revert st. induction fuel as [|fuel IH]; intros st; cbn [non_prim_loop].
  - destruct (node_queue st); [|done]. intros [= <-]. exists []. by rewrite app_nil_r.
  - destruct (node_queue st) as [|curr rest].
    { intros [= <-]. exists []. by rewrite app_nil_r. }
    intros H. apply IH in H as (new2 & -> & Hnew2).
    destruct (non_prim_visit_group (node_inputs curr)
                (MkExpandState rest (node_group st) (visited st)
                               (acc_inputs st) (acc_outputs st)))
      as (new1 & -> & Hnew1).
    exists (new1 ++ new2). cbn. rewrite <- app_assoc. split; [done|].
    by apply Forall_app.
Qed.

Lemma non_prim_loop_more_fuel (fuel fuel' : nat) (st st' : ExpandState) :
  non_prim_loop nodes output_to_node fuel st = Some st' ->
  (fuel <= fuel')%nat ->
  non_prim_loop nodes output_to_node fuel' st = Some st'.
Proof.
  revert fuel' st. induction fuel as [|fuel IH]; intros fuel' st H Hle.
  - destruct fuel'; cbn in *; by destruct (node_queue st).
  - destruct fuel' as [|fuel']; [lia|]. cbn in *.
    destruct (node_queue st); [done|]. apply IH; [done|lia].
Qed.

(** C5. Whenever [_expand_non_prim_node] returns a group, the first node of
    the group is the seed, every other node of the group has a kind that
    starts with 'prim::', and the [outputs] of the group are the debug names
    of the outputs of the seed. *)
Theorem expand_non_prim_node_group (fuel global_count global_count' : nat)
    (node : Node) (module_type : string) (g : NodePyGroup) :
  _expand_non_prim_node torch_version nodes output_to_node fuel global_count
    node module_type = Some (g, global_count') ->
  head (node_cpps g) = Some node /\
  Forall (fun n => is_prim n = true) (tail (node_cpps g)) /\
  (forall n, n ∈ node_cpps g -> n <> node -> is_prim n = true) /\
  outputs g = debugName <$> node_outputs node.
Proof.
  unfold _expand_non_prim_node.
  destruct (non_prim_loop _ _ _ _) as [st|] eqn:Hloop; [|done].
  cbn [mbind option_bind].
  destruct (_visit_node _ _ _ _) as [input_args|]; [|done].
  cbn [mbind option_bind]. intros [= <- _].
  apply non_prim_loop_group in Hloop as (new & Hg & Hnew).
  cbn [node_group node_cpps outputs] in *. rewrite Hg. cbn.
  split_and!; try done.
  intros n [->|Hn]%elem_of_cons Hne; [done|].
  by apply (proj1 (Forall_forall _ _) Hnew).
Qed.

End NonPrimFacts.

(** The statement above on an addition of a constant. *)
Lemma expand_non_prim_node_group_witness :
  exists g,
    _expand_non_prim_node "1.4.0" [const_node; add_node] {[ "c1" := const_node ]}
      3 0 add_node "func" = Some (g, 1%nat) /\
    head (node_cpps g) = Some add_node /\
    Forall (fun n => is_prim n = true) (tail (node_cpps g)) /\
    (forall n, n ∈ node_cpps g -> n <> add_node -> is_prim n = true) /\
    outputs g = debugName <$> node_outputs add_node.
Proof.
  eexists. split; [by vm_compute|].
  apply (expand_non_prim_node_group "1.4.0" [const_node; add_node]
           {[ "c1" := const_node ]} 3 0 1 add_node "func").
  by vm_compute.
Defined.

Section NonPrimTermination.
Variable nodes : list Node.
Variable output_to_node : gmap string Node.
(** A topological rank of the trace nodes, and a bound on their fan-in. *)
Variable rank : Node -> nat.
Variable fan_in : nat.

Hypothesis Hnodes : forall n, n ∈ nodes -> ranked nodes output_to_node rank fan_in n.

Lemma non_prim_visit_queue (vs : list Value) (st : ExpandState) :
  exists new,
    node_queue (foldl (non_prim_visit_input nodes output_to_node) st vs)
    = node_queue st ++ new /\
    (length new <= length vs)%nat /\
    Forall (fun m => m ∈ nodes /\
                     exists v, v ∈ vs /\ output_to_node !! debugName v = Some m) new.
Proof.
  revert st. induction vs as [|v vs IH]; intros st; cbn [foldl].
  - exists []. by rewrite app_nil_r.
  - destruct (IH (non_prim_visit_input nodes output_to_node st v))
      as (new & -> & Hlen & Hnew).
    assert (Forall (fun m => m ∈ nodes /\
              exists v', v' ∈ v :: vs /\ output_to_node !! debugName v' = Some m) new)
      as Hnew'.
    { eapply Forall_impl; [exact Hnew|]. intros m (Hm & v' & Hv' & E).
      split; [done|]. exists v'. split; [by right|done]. }
    unfold non_prim_visit_input.
    destruct (output_to_node !! debugName v) as [m|] eqn:E;
      [|exists new; cbn; split_and!; [done|lia|done]].
    destruct (node_in m nodes) eqn:Em;
      [|exists new; cbn; split_and!; [done|lia|done]].
    destruct (is_prim m);
      [|exists new; cbn; split_and!; [done|lia|done]].
    exists (m :: new). cbn. rewrite <- app_assoc. split_and!; [done|lia|].
    constructor; [|done]. split; [by apply bool_decide_eq_true in Em|].
    exists v. split; [left|done].
Qed.

Lemma weight_pos (n : Node) : (1 <= weight rank fan_in n)%nat.
Proof. unfold weight. apply Nat.pow_lower_bound. lia. Qed.

Lemma sum_weight_bound (new : list Node) (r : nat) :
  Forall (fun m => (rank m < r)%nat) new ->
  (length new <= fan_in)%nat ->
  (sum_list_with (weight rank fan_in) new < S fan_in ^ r)%nat.
Proof.
  intros Hnew Hlen. destruct r as [|r].
  { destruct new as [|m new]; [cbn; lia|]. apply Forall_cons in Hnew as [? _]. lia. }
  assert (sum_list_with (weight rank fan_in) new <= length new * S fan_in ^ r)%nat as H.
  { clear Hlen. induction Hnew as [|m new Hm _ IH]; [cbn; lia|]. cbn.
    assert (weight rank fan_in m <= S fan_in ^ r)%nat.
    { unfold weight. apply Nat.pow_le_mono_r; lia. }
    lia. }
  assert (1 <= S fan_in ^ r)%nat by (apply Nat.pow_lower_bound; lia).
  cbn [Nat.pow]. nia.
Qed.

(** With a topological rank the loop of [_expand_non_prim_node] ends:
    [fuel] rounds suffice as soon as they cover the weight of the queue. *)
Lemma non_prim_loop_total (fuel : nat) (st : ExpandState) :
  Forall (ranked nodes output_to_node rank fan_in) (node_queue st) ->
  (sum_list_with (weight rank fan_in) (node_queue st) <= fuel)%nat ->
  is_Some (non_prim_loop nodes output_to_node fuel st).
Proof.
  revert st. induction fuel as [|fuel IH]; intros st Hq Hfuel.
  - destruct (node_queue st) as [|curr rest] eqn:E; cbn; rewrite E; [by eexists|].
    cbn in Hfuel. pose proof (weight_pos curr). lia.
  - cbn [non_prim_loop]. destruct (node_queue st) as [|curr rest] eqn:E; [by eexists|].
    apply Forall_cons in Hq as [[Hfan Hrank] Hrest].
    set (st0 := MkExpandState rest (node_group st) (visited st)
                              (acc_inputs st) (acc_outputs st)).
    destruct (non_prim_visit_queue (node_inputs curr) st0) as (new & Hnewq & Hlen & Hnew).
    apply IH; rewrite Hnewq; cbn [node_queue st0].
    + apply Forall_app. split; [done|].
      eapply Forall_impl; [exact Hnew|]. intros m [Hm _]. by apply Hnodes.
    + rewrite sum_list_with_app. cbn in Hfuel.
      assert (sum_list_with (weight rank fan_in) new < weight rank fan_in curr)%nat; [|lia].
      apply sum_weight_bound; [|lia].
      eapply Forall_impl; [exact Hnew|]. intros m (Hm & v & Hv & Ev).
      by apply (Hrank v m).
Qed.

End NonPrimTermination.

End NonPrimGroup.
(** * The rounding of depths in mnasnet.py *)
Section RoundingFacts.
Import PyFloat Mnasnet MnasnetSpec.

Lemma Qle_bool_false (a b : Q) : Qle_bool a b = false -> (b < a)%Q.
Proof.
  intros E. apply Qnot_le_lt. intros H. apply Qle_bool_iff in H. congruence.
Qed.

(** The multiple of [d] that the division leaves. *)
Lemma floor_multiple (i d : Z) :
  0 < d -> (d | i / d * d) /\ i / d * d <= i < i / d * d + d.
Proof.
  intros Hd. split; [apply Z.divide_factor_r|].
  pose proof (Z.div_mod i d ltac:(lia)).
  pose proof (Z.mod_pos_bound i d ltac:(lia)). lia.
Qed.

Lemma nearest_multiple_of_multiple (val d : Z) :
  0 < d -> (d | val) -> nearest_multiple val d = val.
Proof.
  intros Hd [k ->]. unfold nearest_multiple.
  replace (2 * (k * d) + d) with (d + k * d * 2) by lia.
  rewrite Z.div_add by lia.
  replace (d / 2 + k * d) with (d / 2 + k * d) by lia.
  rewrite Z.div_add by lia.
  rewrite (Z.div_small (d / 2) d); [lia|].
  pose proof (Z.div_mod d 2 ltac:(lia)).
  pose proof (Z.mod_pos_bound d 2 ltac:(lia)). lia.
Qed.

(** Within the range where the float sum is exact, a positive
    integer is returned as it is exactly when the divisor divides it. *)
Theorem round_to_multiple_of_fixed (val d : Z) (bias : Q) :
  0 < val -> 0 < d -> 2 * val + d < 2 ^ 53 -> (0 < bias)%Q -> (bias < 1)%Q ->
  _round_to_multiple_of (PyInt val) d (Finite bias) = Some val <-> (d | val).
Proof.
  intros Hv Hd Hr H0 H1. rewrite round_to_multiple_of_eq by done. cbv zeta.
  destruct (nearest_multiple_spec val d Hd) as [Hdiv Hnear].
  split.
  - intros [= E].
    assert (Hc : (d | Z.max d (nearest_multiple val d))).
    { destruct (Z.max_spec d (nearest_multiple val d)) as [[_ ->]|[_ ->]];
        [done|apply Z.divide_refl]. }
    destruct (Qle_bool _ _); rewrite <- E; [done|].
    apply Z.divide_add_r; [done|apply Z.divide_refl].
  - intros Hdv. rewrite nearest_multiple_of_multiple by done.
    assert (d <= val) by (by apply Z.divide_pos_le).
    rewrite Z.max_r by done.
    destruct (Qle_bool _ _) eqn:E; [done|].
    apply Qle_bool_false in E.
    pose proof (bias_below val val bias Hv ltac:(lia) ltac:(lia) H0 H1). lra.
Qed.

Lemma round_to_multiple_of_fixed_witness :
  _round_to_multiple_of (PyInt 40) 8 (Finite (round_double 0.9)) = Some 40
  <-> (8 | 40).
Proof.
  apply (round_to_multiple_of_fixed 40 8 (round_double 0.9));
    [lia | lia | by vm_compute | by vm_compute | by vm_compute].
Defined.

Lemma round_result_mono (v1 v2 : Q) (d : Z) (b : Q) :
  0 < d -> (0 < b)%Q -> (v1 <= v2)%Q ->
  round_result v1 d b <= round_result v2 d b.
Proof.
  intros Hd Hb Hv. unfold round_result. cbv zeta.
  set (h := round_double (inject_Z d / inject_Z 2)).
  assert (Ht : truncate (round_double (v1 + h)) <= truncate (round_double (v2 + h))).
  { apply truncate_mono, round_double_mono. lra. }
  set (t1 := truncate (round_double (v1 + h))) in *.
  set (t2 := truncate (round_double (v2 + h))) in *.
  assert (Hq : t1 / d <= t2 / d) by (by apply Z.div_le_mono).
  assert (Hp : (round_double (b * v1) <= round_double (b * v2))%Q)
    by (apply round_double_mono; nra).
  set (q1 := t1 / d) in *. set (q2 := t2 / d) in *. clearbody q1 q2.
  set (c1 := Z.max d (q1 * d)). set (c2 := Z.max d (q2 * d)).
  assert (Hc : c1 <= c2) by (subst c1 c2; nia).
  assert (Hstep : c1 < c2 -> c1 + d <= c2).
  { subst c1 c2. intros Hlt.
    destruct (Z.max_spec d (q1 * d)) as [[? E1]|[? E1]];
      destruct (Z.max_spec d (q2 * d)) as [[? E2]|[? E2]];
      rewrite E1, E2 in *; try lia.
    - assert (q1 + 1 <= q2) by nia. nia.
    - assert (2 <= q2) by nia. nia. }
  destruct (Qle_bool (round_double (b * v1)) (inject_Z c1)) eqn:E1;
    destruct (Qle_bool (round_double (b * v2)) (inject_Z c2)) eqn:E2; try lia.
  destruct (Z.eq_dec c1 c2) as [E|Hne]; [|lia].
  apply Qle_bool_iff in E2. apply Qle_bool_false in E1. rewrite E in E1. lra.
Qed.

(** The rounding keeps the order of the values, ints or floats,
    as long as they stay far from the largest double. *)
Theorem round_to_multiple_of_mono (val1 val2 : num) (v1 v2 : Q) (d : Z) (bias : Q) :
  to_float val1 = Some (Finite v1) -> to_float val2 = Some (Finite v2) ->
  (v1 <= v2)%Q -> (Qabs v1 <= 2 ^ 1000)%Q -> (Qabs v2 <= 2 ^ 1000)%Q ->
  0 < d <= 2 ^ 1000 -> (0 < bias)%Q -> (bias < 1)%Q ->
  exists r1 r2,
    _round_to_multiple_of val1 d (Finite bias) = Some r1 /\
    _round_to_multiple_of val2 d (Finite bias) = Some r2 /\
    r1 <= r2.
Proof.
  intros E1 E2 Hv Hb1 Hb2 Hd H0 H1.
  exists (round_result v1 d bias), (round_result v2 d bias).
  split; [apply round_to_multiple_of_closed; try done; lia|].
  split; [apply round_to_multiple_of_closed; try done; lia|].
  apply round_result_mono; [lia|done|done].
Qed.

Lemma round_to_multiple_of_mono_witness :
  exists r1 r2,
    _round_to_multiple_of (PyInt 83) 8 (Finite (round_double 0.9)) = Some r1 /\
    _round_to_multiple_of (PyFlt (Finite 83.5)) 8 (Finite (round_double 0.9))
    = Some r2 /\
    r1 <= r2.
Proof.
  apply (round_to_multiple_of_mono (PyInt 83) (PyFlt (Finite 83.5))
           (round_double (inject_Z 83)) 83.5%Q 8 (round_double 0.9));
    by vm_compute.
Defined.

Lemma round_result_comp (v v' : Q) (d : Z) (b : Q) :
  (v == v')%Q -> round_result v d b = round_result v' d b.
Proof.
  intros E. unfold round_result. cbv zeta.
  rewrite (truncate_comp (round_double (v + _)) (round_double (v' + round_double (inject_Z d / inject_Z 2))))
    by (apply round_double_comp; by rewrite E).
  assert (E' : (round_double (b * v) == round_double (b * v'))%Q)
    by (apply round_double_comp; by rewrite E).
  by rewrite E'.
Qed.

Lemma round_result_fixed (val d : Z) (b : Q) :
  0 < val -> (d | val) -> 0 < d -> 2 * val + d < 2 ^ 53 ->
  (0 < b)%Q -> (b < 1)%Q ->
  round_result (round_double (inject_Z val)) d b = val.
Proof.
  intros Hv Hdv Hd Hr H0 H1. rewrite round_result_int by lia. cbv zeta.
  rewrite nearest_multiple_of_multiple by done.
  assert (d <= val) by (by apply Z.divide_pos_le).
  rewrite Z.max_r by done.
  destruct (Qle_bool _ _) eqn:E; [done|].
  apply Qle_bool_false in E.
  pose proof (bias_below val val b Hv ltac:(lia) ltac:(lia) H0 H1). lra.
Qed.

(** The float [depth * alpha] that [_get_depths] rounds. *)
Lemma scaled_depth (depth : Z) (alpha : Q) :
  0 <= depth <= 2 ^ 53 -> (0 <= alpha)%Q -> (inject_Z depth * alpha <= 2 ^ 50)%Q ->
  let p := round_double (round_double (inject_Z depth) * alpha) in
  (p == round_double (inject_Z depth * alpha))%Q /\
  (round_double p == p)%Q /\ (0 <= p)%Q /\ (p <= 2 ^ 50)%Q.
Proof.
  intros Hd Ha Hp p.
  assert (E : (p == round_double (inject_Z depth * alpha))%Q).
  { apply round_double_comp. by rewrite round_double_int by lia. }
  split; [done|]. split; [apply round_double_idem|].
  assert (0 <= inject_Z depth)%Q
    by (change 0%Q with (inject_Z 0); rewrite <- Zle_Qle; lia).
  rewrite E. split.
  - apply round_double_nonneg. nra.
  - rewrite <- (pow2_exact 50) by done. by apply round_double_mono.
Qed.

(** The result for a float between 0 and [2^50] and the divisor 8. *)
Lemma round_result_8_bounds (p b : Q) :
  (0 <= p)%Q -> (p <= 2 ^ 50)%Q -> (round_double p == p)%Q ->
  (0 < b)%Q -> (b < 1)%Q ->
  (round_double (b * p) <= inject_Z (round_result p 8 b))%Q /\
  (p - 4 < inject_Z (round_result p 8 b))%Q /\
  (inject_Z (round_result p 8 b) <= p + 8)%Q /\
  8 <= round_result p 8 b <= 2 ^ 50 + 8 /\ (8 | round_result p 8 b).
Proof.
  intros Hp0 Hp1 Hpp H0 H1.
  destruct (round_result_multiple p 8 b ltac:(done)) as [Hdiv Hge].
  unfold round_result in *. cbv zeta in *.
  assert (Eh : (round_double (inject_Z 8 / inject_Z 2) == 4)%Q).
  { rewrite half_exact by done. reflexivity. }
  set (h := round_double (inject_Z 8 / inject_Z 2)) in *.
  assert (Es : (round_double (p + h) == round_double (p + 4))%Q)
    by (apply round_double_comp; by rewrite Eh).
  rewrite (truncate_comp _ _ Es) in *. clear Es Eh h.
  set (n := Qfloor (p + 4)).
  pose proof (Qfloor_le (p + 4)) as Hn1. pose proof (Qlt_floor (p + 4)) as Hn2.
  fold n in Hn1, Hn2. rewrite inject_Z_plus in Hn2.
  change (inject_Z 1) with 1%Q in Hn2.
  assert (H50 : (2 ^ 50 == inject_Z (2 ^ 50))%Q) by (by apply pow2_Z).
  assert (Hn0 : 4 <= n).
  { subst n. rewrite <- (Qfloor_Z 4) at 1. apply Qfloor_resp_le.
    change (inject_Z 4) with 4%Q. lra. }
  assert (Hn3 : n <= 2 ^ 50 + 4).
  { subst n. rewrite <- (Qfloor_Z (2 ^ 50 + 4)). apply Qfloor_resp_le.
    rewrite inject_Z_plus. change (inject_Z 4) with 4%Q. lra. }
  assert (Hpow : 2 ^ 50 + 5 <= 2 ^ 53) by (by vm_compute).
  assert (Hs1 : (inject_Z n <= round_double (p + 4))%Q).
  { rewrite <- (round_double_int n) by lia. by apply round_double_mono. }
  assert (Hs2 : (round_double (p + 4) <= inject_Z (n + 1))%Q).
  { rewrite <- (round_double_int (n + 1)) by lia. apply round_double_mono.
    rewrite inject_Z_plus. change (inject_Z 1) with 1%Q. lra. }
  assert (Hs0 : (0 <= round_double (p + 4))%Q).
  { assert (0 <= inject_Z n)%Q
      by (change 0%Q with (inject_Z 0); rewrite <- Zle_Qle; lia). lra. }
  rewrite truncate_nonneg in * by done.
  assert (Ht : n <= Qfloor (round_double (p + 4)) <= n + 1).
  { split.
    - rewrite <- (Qfloor_Z n) at 1. by apply Qfloor_resp_le.
    - rewrite <- (Qfloor_Z (n + 1)). by apply Qfloor_resp_le. }
  set (t := Qfloor (round_double (p + 4))) in *. clearbody t.
  destruct (floor_multiple t 8 ltac:(done)) as [_ Hm].
  set (m8 := t / 8 * 8) in *. clearbody m8.
  assert (Hbp : (round_double (b * p) <= p)%Q).
  { rewrite <- Hpp at 2. apply round_double_mono. nra. }
  assert (Hc1 : n - 7 <= Z.max 8 m8) by lia.
  assert (Hc2 : Z.max 8 m8 <= Z.max 8 (n + 1)) by lia.
  assert (Hc3 : n - 7 + 8 <= Z.max 8 m8 + 8) by lia.
  rewrite Zle_Qle in Hc1, Hc3. rewrite inject_Z_sub in Hc1.
  rewrite inject_Z_plus, inject_Z_sub in Hc3.
  rewrite (inject_Z_plus (Z.max 8 m8) 8) in Hc3.
  change (inject_Z 7) with 7%Q in *. change (inject_Z 8) with 8%Q in *.
  assert (Hc4 : (inject_Z (Z.max 8 m8) <= p + 8)%Q).
  { apply Qle_trans with (inject_Z (Z.max 8 (n + 1))); [by rewrite <- Zle_Qle|].
    destruct (Z.max_spec 8 (n + 1)) as [[_ ->]|[_ ->]].
    - rewrite inject_Z_plus. change (inject_Z 1) with 1%Q. lra.
    - change (inject_Z 8) with 8%Q. lra. }
  destruct (Qle_bool (round_double (b * p)) (inject_Z (Z.max 8 m8))) eqn:E.
  - apply Qle_bool_iff in E. repeat split; try done; try lra; lia.
  - apply Qle_bool_false in E. rewrite inject_Z_plus.
    change (inject_Z 8) with 8%Q.
    repeat split; try done; try lra; try lia.
    assert (Z.max 8 m8 < 2 ^ 50).
    { rewrite Zlt_Qlt. rewrite <- H50. lra. }
    lia.
Qed.

(** As long as the depths and [alpha] stay far from the largest
    double, [_get_depths] returns as many depths as it is given, all
    multiples of 8 and at least 8. For an [alpha] that is not negative and
    depths whose product with [alpha] is at most [2^50], each returned depth
    [r] is at least the float [0.9 * p] that the code compares it with,
    above [p - 4] and at most [p + 8], where [p] is the float
    [depth * alpha]. *)
Theorem get_depths_multiples (depths : list Z) (alpha : Q) :
  Forall (fun depth => Z.abs depth <= 2 ^ 400) depths ->
  (Qabs alpha <= 2 ^ 400)%Q ->
  exists l : list Z,
    _get_depths depths (Finite alpha) = Some l /\ length l = length depths /\
    (forall r, r ∈ l -> (8 | r) /\ 8 <= r) /\
    ((0 <= alpha)%Q ->
     Forall (fun depth => 0 <= depth <= 2 ^ 53 /\
                          (inject_Z depth * alpha <= 2 ^ 50)%Q) depths ->
     Forall2 (fun depth r =>
                let p := round_double (inject_Z depth * alpha) in
                (round_double (round_double 0.9 * p) <= inject_Z r)%Q /\
                (p - 4 < inject_Z r)%Q /\ (inject_Z r <= p + 8)%Q) depths l).
Proof.
  intros Hd Ha. eexists. split; [by apply get_depths_closed|].
  split; [by rewrite length_fmap|]. split.
  - intros r (depth & -> & _)%list_elem_of_fmap.
    by apply round_result_multiple.
  - intros Ha0 Hg. apply Forall2_fmap_r, Forall_Forall2_diag.
    eapply Forall_impl; [exact Hg|]. intros depth [Hd1 Hd2]. cbv zeta.
    destruct (scaled_depth depth alpha Hd1 Ha0 Hd2) as (E & Hpp & Hp0 & Hp1).
    cbv zeta in *.
    destruct (round_result_8_bounds _ (round_double 0.9) Hp0 Hp1 Hpp)
      as (B1 & B2 & B3 & _); [apply default_bias_range..|].
    set (r := round_result _ 8 _) in *.
    assert (E' : (round_double (round_double 0.9
                                * round_double (round_double (inject_Z depth) * alpha))
                  == round_double (round_double 0.9
                                   * round_double (inject_Z depth * alpha)))%Q)
      by (apply round_double_comp; by rewrite E).
    unfold compose. cbn beta. fold r. repeat split; lra.
Qed.

(** The statement above on three depths halved. *)
Lemma get_depths_multiples_witness :
  exists l : list Z,
    _get_depths [32; 16; 24] (Finite 0.5) = Some l /\
    Forall2 (fun depth r =>
               let p := round_double (inject_Z depth * 0.5) in
               (round_double (round_double 0.9 * p) <= inject_Z r)%Q /\
               (p - 4 < inject_Z r)%Q /\ (inject_Z r <= p + 8)%Q) [32; 16; 24] l.
Proof.
  destruct (get_depths_multiples [32; 16; 24] 0.5%Q) as (l & E & _ & _ & H);
    [repeat constructor; by vm_compute | by vm_compute |].
  exists l. split; [exact E|]. apply H; [by vm_compute|].
  repeat constructor; by vm_compute.
Defined.

Lemma get_depths_twice (depths : list Z) (alpha : Q) :
  (0 <= alpha)%Q -> (alpha <= 2 ^ 400)%Q ->
  Forall (fun depth => 0 <= depth <= 2 ^ 53 /\
                       (inject_Z depth * alpha <= 2 ^ 50)%Q) depths ->
  _get_depths depths (Finite alpha) ≫= (fun l => _get_depths l (literal 1.0%Q))
  = _get_depths depths (Finite alpha).
Proof.
  intros Ha0 Ha1 Hg.
  assert (H53 : 2 ^ 53 <= 2 ^ 400) by (by apply Z.pow_le_mono_r).
  assert (H50 : 2 ^ 50 + 8 <= 2 ^ 400) by (by vm_compute).
  rewrite get_depths_closed.
  2:{ eapply Forall_impl; [exact Hg|]. intros depth [Hd _]. cbn beta. lia. }
  2:{ by rewrite Qabs_pos. }
  cbn [mbind option_bind]. rewrite literal_one, get_depths_closed.
  2:{ apply Forall_fmap. eapply Forall_impl; [exact Hg|].
      intros depth [Hd1 Hd2]. cbn.
      destruct (scaled_depth depth alpha Hd1 Ha0 Hd2) as (_ & Hpp & Hp0 & Hp1).
      destruct (round_result_8_bounds _ (round_double 0.9) Hp0 Hp1 Hpp)
        as (_ & _ & _ & B & _); [apply default_bias_range..|]. lia. }
  2:{ apply one_bounded. }
  f_equal. rewrite <- list_fmap_compose. apply Forall_fmap_ext_1.
  eapply Forall_impl; [exact Hg|]. intros depth [Hd1 Hd2]. cbn.
  destruct (scaled_depth depth alpha Hd1 Ha0 Hd2) as (_ & Hpp & Hp0 & Hp1).
  destruct (round_result_8_bounds _ (round_double 0.9) Hp0 Hp1 Hpp)
    as (_ & _ & _ & B & Hdiv); [apply default_bias_range..|].
  set (r := round_result _ 8 _) in *. clearbody r.
  assert (Hr53 : Z.abs r <= 2 ^ 53).
  { assert (2 ^ 50 + 8 <= 2 ^ 53) by (by vm_compute). lia. }
  assert (E : (round_double (round_double (inject_Z r) * round_double 1.0%Q)
               == round_double (inject_Z r))%Q).
  { assert (round_double 1.0 == 1)%Q as E1 by (by vm_compute).
    rewrite <- (round_double_idem (inject_Z r)) at 2.
    apply round_double_comp. rewrite E1. ring. }
  rewrite (round_result_comp _ _ 8 _ E).
  apply round_result_fixed; [lia|done|done| |apply default_bias_range..].
  assert (2 * (2 ^ 50 + 8) + 8 < 2 ^ 53) by (by vm_compute). lia.
Qed.

(** Depths that [_get_depths] returned are left as they are by
    [_get_depths] with [alpha = 1.0]: for an [alpha] that is not negative and
    depths whose product with [alpha] is at most [2^50], both calls return,
    and the second returns the list it is given. *)
Theorem get_depths_idempotent (depths : list Z) (alpha : Q) :
  (0 <= alpha)%Q -> (alpha <= 2 ^ 400)%Q ->
  Forall (fun depth => 0 <= depth <= 2 ^ 53 /\
                       (inject_Z depth * alpha <= 2 ^ 50)%Q) depths ->
  exists l : list Z,
    _get_depths depths (Finite alpha) = Some l /\
    _get_depths l (literal 1.0%Q) = Some l.
Proof.
  intros Ha0 Ha1 Hg.
  pose proof (get_depths_twice depths alpha Ha0 Ha1 Hg) as H.
  assert (H53 : 2 ^ 53 <= 2 ^ 400) by (by apply Z.pow_le_mono_r).
  assert (Hb : Forall (fun depth => Z.abs depth <= 2 ^ 400) depths).
  { eapply Forall_impl; [exact Hg|]. intros depth [Hd _]. cbn beta. lia. }
  assert (Ha : (Qabs alpha <= 2 ^ 400)%Q) by (by rewrite Qabs_pos).
  rewrite (get_depths_closed depths alpha Hb Ha) in H |- *.
  eexists. split; [reflexivity|exact H].
Qed.

(** The statement above on three depths halved. *)
Lemma get_depths_idempotent_witness :
  exists l : list Z,
    _get_depths [32; 16; 24] (Finite 0.5) = Some l /\
    _get_depths l (literal 1.0%Q) = Some l.
Proof.
  apply (get_depths_idempotent [32; 16; 24] 0.5%Q); [by vm_compute..|].
  repeat constructor; by vm_compute.
Defined.

End RoundingFacts.
(** * The layers that mnasnet.py builds *)
Section LayerFacts.
Import PyFloat Mnasnet MnasnetSpec MnasnetLayers LayerSpec.

(** The constructors of torch take plain arguments, and [nn.init] fills
    the modules built from them. *)
Variable torch_accepts : Layer -> bool.
Variable init_accepts : Layer -> bool.
Hypothesis torch_plain : forall l, plain_args l = true -> torch_accepts l = true.
Hypothesis init_plain : forall l, plain_args l = true -> init_accepts l = true.

Lemma new_inv (l l' : Layer) : new torch_accepts l = Some l' -> l' = l.
Proof. unfold new. destruct (torch_accepts l); by intros [= <-]. Qed.

Lemma mapM_new_inv (ls ls' : list Layer) :
  mapM (new torch_accepts) ls = Some ls' -> ls' = ls.
Proof.
  revert ls'. induction ls as [|l ls IH]; intros ls'; [by intros [= <-]|].
  cbn [mapM]. destruct (new torch_accepts l) as [l0|] eqn:E; [|done].
  apply new_inv in E as ->. cbn [mbind option_bind].
  destruct (mapM (new torch_accepts) ls) as [ls0|]; [|done].
  cbn. intros [= <-]. by rewrite (IH ls0).
Qed.

Lemma new_sequential_inv (ls : list Layer) (l : Layer) :
  new_sequential torch_accepts ls = Some l -> l = Sequential ls.
Proof.
  unfold new_sequential.
  destruct (mapM (new torch_accepts) ls) as [ls'|] eqn:E; [|done].
  apply mapM_new_inv in E as ->. cbn [mbind option_bind]. apply new_inv.
Qed.

Lemma new_plain (l : Layer) :
  plain_args l = true -> new torch_accepts l = Some l.
Proof. intros H. unfold new. by rewrite torch_plain. Qed.

Lemma mapM_new_plain (ls : list Layer) :
  Forall (fun l => plain_args l = true) ls ->
  mapM (new torch_accepts) ls = Some ls.
Proof.
  intros H. induction H as [|l ls Hl _ IH]; [done|].
  cbn [mapM]. rewrite new_plain, IH by done. done.
Qed.

Lemma new_sequential_plain (ls : list Layer) :
  Forall (fun l => plain_args l = true) ls ->
  new_sequential torch_accepts ls = Some (Sequential ls).
Proof.
  intros H. unfold new_sequential. rewrite mapM_new_plain by done.
  cbn [mbind option_bind]. by apply new_plain.
Qed.

Lemma plain_conv (cin cout k p s g : Z) :
  0 < cin -> 0 < cout -> 0 < k -> 0 <= p -> 0 < s -> 0 < g ->
  (g | cin) -> (g | cout) ->
  plain_args (Conv2d cin cout k p s g) = true.
Proof.
  intros ? ? ? ? ? ? Hd1 Hd2. cbn [plain_args].
  apply Z.mod_divide in Hd1, Hd2; lia.
Qed.

Lemma plain_bn (n : Z) (m : float) : 0 < n -> plain_args (BatchNorm2d n m) = true.
Proof. intros H. by apply Z.ltb_lt. Qed.

Lemma half_kernel (k : Z) : 1 <= k -> 0 <= k / 2.
Proof. intros H. apply Z.div_pos; lia. Qed.

Lemma shape_Sequential (ls : list Layer) (x : Z * Z * Z) :
  shape (Sequential ls) x = shape_list ls x.
Proof.
  unfold shape_list. revert x. induction ls as [|l ls IH]; intros x; [done|].
  cbn [for_each]. cbn. destruct (shape l x) as [x'|]; [|done].
  cbn [mbind option_bind]. apply IH.
Qed.

Lemma shape_InvertedResidual (a : bool) (l : Layer) (x : Z * Z * Z) :
  shape (MkInvertedResidual a l) x =
  shape l x ≫= (fun y => if a then (if decide (y = x) then Some y else None) else Some y).
Proof. done. Qed.

Lemma shape_ResidualBlock (l : Layer) (x : Z * Z * Z) :
  shape (_ResidualBlock l) x =
  shape l x ≫= (fun y => if decide (y = x) then Some y else None).
Proof. done. Qed.

Lemma for_each_app {S A} (body : S -> A -> option S) (s : S) (l1 l2 : list A) :
  for_each body s (l1 ++ l2) = for_each body s l1 ≫= (fun s' => for_each body s' l2).
Proof.
  revert s. induction l1 as [|a l1 IH]; intros s; [done|].
  cbn [for_each app]. destruct (body s a); cbn [mbind option_bind]; [apply IH|done].
Qed.

Lemma shape_list_app (l1 l2 : list Layer) (x : Z * Z * Z) :
  shape_list (l1 ++ l2) x = shape_list l1 x ≫= shape_list l2.
Proof. apply for_each_app. Qed.

Lemma ceil_div_1 (h : Z) : ceil_div h 1 = h.
Proof. unfold ceil_div. rewrite Z.div_1_r. lia. Qed.

Lemma ceil_div_mul (h a b : Z) :
  0 < a -> 0 < b -> ceil_div (ceil_div h a) b = ceil_div h (a * b).
Proof.
  intros Ha Hb. unfold ceil_div. rewrite <- Z.div_div by lia. f_equal. f_equal. lia.
Qed.

Lemma ceil_div_pos (h s : Z) : 1 <= h -> 0 < s -> 1 <= ceil_div h s.
Proof.
  intros Hh Hs. unfold ceil_div. pose proof (Z.div_pos (h - 1) s). lia.
Qed.

(** A convolution with an odd kernel and half of it as padding divides
    the size by the stride, rounding up. *)
Lemma conv_out_half (h k s : Z) :
  k = 3 \/ k = 5 -> conv_out h k (k / 2) s = ceil_div h s.
Proof.
  unfold conv_out, ceil_div. intros [-> | ->]; f_equal; f_equal.
  - change (3 / 2) with 1. lia.
  - change (5 / 2) with 2. lia.
Qed.

Lemma conv_shape (c cin cout k s g h w : Z) :
  c = cin -> 0 < cin -> 0 < cout -> 0 < g -> (g | cin) -> (g | cout) ->
  s = 1 \/ s = 2 -> k = 3 \/ k = 5 -> 1 <= h -> 1 <= w ->
  shape (Conv2d cin cout k (k / 2) s g) (c, h, w)
  = Some (cout, ceil_div h s, ceil_div w s).
Proof.
  intros -> Hin Hout Hg Hd1 Hd2 Hs Hk Hh Hw. cbn [shape].
  rewrite !conv_out_half by done.
  apply Z.mod_divide in Hd1, Hd2; try lia.
  assert (0 <= k / 2 /\ k <= h + 2 * (k / 2) /\ k <= w + 2 * (k / 2)) as (? & ? & ?).
  { destruct Hk as [-> | ->]; [change (3 / 2) with 1|change (5 / 2) with 2]; lia. }
  rewrite Z.eqb_refl, Hd1, Hd2.
  repeat match goal with
         | |- context [?a <? ?b] => rewrite (proj2 (Z.ltb_lt a b)) by lia
         | |- context [?a <=? ?b] => rewrite (proj2 (Z.leb_le a b)) by lia
         end.
  done.
Qed.

Lemma pointwise_shape (c cin cout h w : Z) :
  c = cin -> 0 < cin -> 0 < cout -> 1 <= h -> 1 <= w ->
  shape (Conv2d cin cout 1 0 1 1) (c, h, w) = Some (cout, h, w).
Proof.
  intros -> Hin Hout Hh Hw. cbn [shape]. unfold conv_out.
  rewrite !Z.mod_1_r, !Z.div_1_r, Z.eqb_refl.
  repeat match goal with
         | |- context [?a <? ?b] => rewrite (proj2 (Z.ltb_lt a b)) by lia
         | |- context [?a <=? ?b] => rewrite (proj2 (Z.leb_le a b)) by lia
         end.
  cbn. do 3 f_equal; lia.
Qed.

Lemma bn_shape (c n h w : Z) (m : float) :
  c = n -> shape (BatchNorm2d n m) (c, h, w) = Some (c, h, w).
Proof. intros ->. cbn. by rewrite Z.eqb_refl. Qed.

Lemma relu_shape (x : Z * Z * Z) : shape ReLU x = Some x.
Proof. done. Qed.


(** The block that [_InvertedResidual] returns, when it returns. *)
Lemma InvertedResidual_inv (in_ch out_ch k s e : Z) (skip : bool) (bn : float)
    (b : Layer) :
  _InvertedResidual torch_accepts in_ch out_ch k s e skip bn = Some b ->
  (s = 1 \/ s = 2) /\ (k = 3 \/ k = 5) /\
  b = inverted_residual_block in_ch out_ch k s e skip bn.
Proof.
  unfold _InvertedResidual.
  destruct (negb ((s =? 1) || (s =? 2))) eqn:Es; [done|].
  destruct (negb ((k =? 3) || (k =? 5))) eqn:Ek; [done|].
  destruct (new_sequential _ _) as [ls|] eqn:E; [|done].
  apply new_sequential_inv in E as ->. cbn [mbind option_bind].
  intros [= <-]. split; [lia|]. split; [lia|]. reflexivity.
Qed.

(** With channels above 0, it returns when its assertions hold. *)
Lemma InvertedResidual_plain (in_ch out_ch k s e : Z) (skip : bool) (bn : float) :
  0 < in_ch -> 0 < out_ch -> 0 < e -> s = 1 \/ s = 2 -> k = 3 \/ k = 5 ->
  is_Some (_InvertedResidual torch_accepts in_ch out_ch k s e skip bn).
Proof.
  intros Hin Hout He Hs Hk. unfold _InvertedResidual.
  assert ((s =? 1) || (s =? 2) = true) as -> by (by destruct Hs as [-> | ->]).
  assert ((k =? 3) || (k =? 5) = true) as -> by (by destruct Hk as [-> | ->]).
  cbn [negb]. assert (0 < in_ch * e) by nia.
  rewrite new_sequential_plain; [by eexists|].
  repeat (constructor; [first [by apply plain_bn | done | apply plain_conv;
            first [lia | apply Z.divide_refl | apply Z.divide_1_l
                  | (apply half_kernel; lia)]]|]).
  constructor.
Qed.

Lemma InvertedResidual_shape (in_ch out_ch k s e : Z) (skip : bool) (bn : float)
    (b : Layer) (h w : Z) :
  _InvertedResidual torch_accepts in_ch out_ch k s e skip bn = Some b ->
  0 < in_ch -> 0 < out_ch -> 0 < e -> 1 <= h -> 1 <= w ->
  shape b (in_ch, h, w) = Some (out_ch, ceil_div h s, ceil_div w s).
Proof.
  intros Hb Hin Hout He Hh Hw.
  apply InvertedResidual_inv in Hb as (Hs & Hk & ->).
  unfold inverted_residual_block. rewrite shape_InvertedResidual.
  rewrite shape_Sequential. unfold shape_list. cbn [for_each].
  rewrite pointwise_shape by (done || nia). cbn [mbind option_bind].
  rewrite bn_shape by done. cbn [mbind option_bind].
  rewrite relu_shape. cbn [mbind option_bind].
  rewrite conv_shape by (done || nia || apply Z.divide_refl).
  cbn [mbind option_bind]. rewrite bn_shape by done.
  cbn [mbind option_bind]. rewrite relu_shape. cbn [mbind option_bind].
  rewrite pointwise_shape;
    [|done|nia|done|by apply ceil_div_pos; lia|by apply ceil_div_pos; lia].
  cbn [mbind option_bind]. rewrite bn_shape by done. cbn [mbind option_bind].
  destruct (skip && (in_ch =? out_ch) && (s =? 1)) eqn:E; [|done].
  apply andb_true_iff in E as [E Es]. apply andb_true_iff in E as [_ E].
  apply Z.eqb_eq in E, Es. subst. rewrite !ceil_div_1. by rewrite decide_True.
Qed.

Lemma for_each_const {A B} (f : option B) (acc : list B) (l : list A) :
  for_each (fun remaining (_ : A) => b ← f; Some (remaining ++ [b])) acc l =
  match l with
  | [] => Some acc
  | _ => b ← f; Some (acc ++ replicate (length l) b)
  end.
Proof.
  revert acc. induction l as [|a l IH]; intros acc; [done|].
  cbn [for_each]. destruct f as [b|]; [cbn [mbind option_bind]|done].
  rewrite IH. destruct l; cbn; [done|]. by rewrite <- !app_assoc.
Qed.

(** The stack that [_stack_inverted_residual] returns, when it returns. *)
Lemma stack_inverted_residual_inv (in_ch out_ch k : Z) (skip : bool)
    (s e repeats : Z) (bn : float) (stack : Layer) :
  _stack_inverted_residual torch_accepts in_ch out_ch k skip s e repeats bn
  = Some stack ->
  1 <= repeats /\ (s = 1 \/ s = 2) /\ (k = 3 \/ k = 5) /\
  exists first remaining,
    stack = Sequential (first :: remaining) /\
    _InvertedResidual torch_accepts in_ch out_ch k s e skip bn = Some first /\
    (remaining = [] \/
     exists b, _InvertedResidual torch_accepts out_ch out_ch k 1 e skip bn = Some b /\
               remaining = replicate (Z.to_nat (repeats - 1)) b).
Proof.
  unfold _stack_inverted_residual.
  destruct (Z.leb_spec 1 repeats); cbn [negb]; [|done].
  destruct (_InvertedResidual torch_accepts in_ch out_ch k s e skip bn)
    as [first|] eqn:E1; [cbn [mbind option_bind]|done].
  destruct (InvertedResidual_inv _ _ _ _ _ _ _ _ E1) as (Hs & Hk & _).
  rewrite for_each_const. intros Hst.
  split; [done|]. split; [done|]. split; [done|].
  exists first.
  destruct (seqZ 1 (repeats - 1)) as [|i l] eqn:El.
  - cbn [mbind option_bind] in Hst. apply new_inv in Hst as ->.
    exists []. split; [done|]. split; [done|]. by left.
  - destruct (_InvertedResidual torch_accepts out_ch out_ch k 1 e skip bn)
      as [b|] eqn:E2; [cbn [mbind option_bind] in Hst|done].
    apply new_inv in Hst as ->. eexists. split; [done|]. split; [done|].
    right. exists b. split; [done|].
    apply (f_equal length) in El. rewrite length_seqZ in El. cbn [app].
    by rewrite El.
Qed.

Lemma stack_inverted_residual_plain (in_ch out_ch k : Z) (skip : bool)
    (s e repeats : Z) (bn : float) :
  0 < in_ch -> 0 < out_ch -> 0 < e ->
  1 <= repeats -> s = 1 \/ s = 2 -> k = 3 \/ k = 5 ->
  is_Some (_stack_inverted_residual torch_accepts in_ch out_ch k skip s e
             repeats bn).
Proof.
  intros Hin Hout He Hr Hs Hk. unfold _stack_inverted_residual.
  rewrite (proj2 (Z.leb_le 1 repeats)) by done. cbn [negb].
  destruct (InvertedResidual_plain in_ch out_ch k s e skip bn) as [first ->];
    try done.
  destruct (InvertedResidual_plain out_ch out_ch k 1 e skip bn) as [b Hb];
    try done; [by left|].
  cbn [mbind option_bind]. rewrite for_each_const, Hb.
  destruct (seqZ _ _); cbn [mbind option_bind]; rewrite new_plain; by eexists.
Qed.

Lemma replicate_block_shape (b : Layer) (n : nat) (x : Z * Z * Z) :
  shape b x = Some x -> shape_list (replicate n b) x = Some x.
Proof.
  intros Hb. induction n as [|n IH]; [done|].
  cbn [replicate]. unfold shape_list in *. cbn [for_each]. by rewrite Hb.
Qed.

Lemma stack_inverted_residual_shape (in_ch out_ch k : Z) (skip : bool)
    (s e repeats : Z) (bn : float) (stack : Layer) (h w : Z) :
  _stack_inverted_residual torch_accepts in_ch out_ch k skip s e repeats bn
  = Some stack ->
  0 < in_ch -> 0 < out_ch -> 0 < e -> 1 <= h -> 1 <= w ->
  shape stack (in_ch, h, w) = Some (out_ch, ceil_div h s, ceil_div w s).
Proof.
  intros Hst Hin Hout He Hh Hw.
  apply stack_inverted_residual_inv in Hst
    as (Hr & Hs & Hk & first & remaining & -> & E1 & Hrem).
  assert (1 <= ceil_div h s /\ 1 <= ceil_div w s) as [Hh' Hw'].
  { split; apply ceil_div_pos; lia. }
  pose proof (InvertedResidual_shape _ _ _ _ _ _ _ _ h w E1 Hin Hout He Hh Hw) as Hf.
  rewrite shape_Sequential. unfold shape_list. cbn [for_each].
  rewrite Hf. cbn [mbind option_bind].
  destruct Hrem as [->|(b & E2 & ->)]; [done|].
  apply replicate_block_shape.
  rewrite (InvertedResidual_shape _ _ _ _ _ _ _ _ _ _ E2) by done.
  by rewrite !ceil_div_1.
Qed.

(** One round of the loop of [_stack_normal_conv], when it ends. *)
Lemma normal_conv_step_inv (out_ch k : Z) (skip dconv : bool) (stride : Z)
    (bn : float) (stack : list Layer) (in_ch i : Z) (st : list Layer * Z) :
  normal_conv_step torch_accepts out_ch k skip dconv stride bn (stack, in_ch) i
  = Some st ->
  st = (stack ++ normal_conv_block in_ch out_ch k (if i =? 0 then stride else 1)
                   skip dconv bn, out_ch).
Proof.
  unfold normal_conv_step, normal_conv_block, normal_conv_modules.
  set (s := if i =? 0 then stride else 1).
  destruct (mapM _ _) as [modules|] eqn:E; [|done].
  apply mapM_new_inv in E as ->. cbn [mbind option_bind].
  destruct (skip && (in_ch =? out_ch) && (s =? 1)).
  - destruct (new _ _) as [net|] eqn:E; [|done]. apply new_inv in E as ->.
    cbn [mbind option_bind]. by intros [= <-].
  - cbn [mbind option_bind]. by intros [= <-].
Qed.

Lemma normal_conv_step_plain (out_ch k : Z) (skip dconv : bool) (stride : Z)
    (bn : float) (stack : list Layer) (in_ch i : Z) :
  0 < in_ch -> 0 < out_ch -> 1 <= k -> 1 <= stride ->
  is_Some (normal_conv_step torch_accepts out_ch k skip dconv stride bn
             (stack, in_ch) i).
Proof.
  intros Hin Hout Hk Hs. unfold normal_conv_step.
  set (s := if i =? 0 then stride else 1).
  assert (1 <= s) by (subst s; destruct (i =? 0); lia).
  rewrite mapM_new_plain.
  - cbn [mbind option_bind]. destruct (skip && _ && _); [|by eexists].
    rewrite new_plain by done. by eexists.
  - destruct dconv;
      repeat (constructor; [first [by apply plain_bn | done | apply plain_conv;
                first [lia | apply Z.divide_refl | apply Z.divide_1_l
                      | (apply half_kernel; lia)]]|]);
      constructor.
Qed.

Lemma normal_conv_tail (out_ch k : Z) (skip dconv : bool) (stride : Z)
    (bn : float) (l : list Z) (stack : list Layer) (st : list Layer * Z) :
  Forall (fun i => i <> 0) l ->
  for_each (normal_conv_step torch_accepts out_ch k skip dconv stride bn)
           (stack, out_ch) l = Some st ->
  st = (stack ++ concat (replicate (length l)
                           (normal_conv_block out_ch out_ch k 1 skip dconv bn)),
        out_ch).
Proof.
  intros Hl. revert stack. induction Hl as [|i l Hi _ IH]; intros stack.
  - cbn. intros [= <-]. by rewrite app_nil_r.
  - cbn [for_each length replicate concat].
    destruct (normal_conv_step _ _ _ _ _ _ _ _ _) as [st'|] eqn:E; [|done].
    apply normal_conv_step_inv in E as ->. apply Z.eqb_neq in Hi. rewrite Hi.
    cbn [mbind option_bind]. intros Hst. apply IH in Hst as ->.
    by rewrite <- app_assoc.
Qed.

(** The stack that [_stack_normal_conv] returns, when it returns. *)
Lemma stack_normal_conv_inv (in_ch out_ch k : Z) (skip dconv : bool)
    (s repeats : Z) (bn : float) (stack : list Layer) :
  _stack_normal_conv torch_accepts in_ch out_ch k skip dconv s repeats bn
  = Some stack ->
  1 <= repeats /\
  stack = normal_conv_block in_ch out_ch k s skip dconv bn ++
          concat (replicate (Z.to_nat (repeats - 1))
                    (normal_conv_block out_ch out_ch k 1 skip dconv bn)).
Proof.
  unfold _stack_normal_conv.
  destruct (Z.leb_spec 1 repeats); cbn [negb]; [|done].
  rewrite seqZ_cons by lia. cbn [for_each].
  destruct (normal_conv_step _ _ _ _ _ _ _ _ _) as [st'|] eqn:E; [|done].
  apply normal_conv_step_inv in E as ->. cbn [Z.eqb app mbind option_bind].
  destruct (for_each _ _ _) as [st|] eqn:E; [|done].
  apply normal_conv_tail in E as ->.
  - cbn. intros [= <-]. split; [done|]. rewrite length_seqZ.
    do 3 f_equal; lia.
  - apply Forall_forall. intros i Hi%elem_of_seqZ. lia.
Qed.

Lemma for_each_plain {S A} (body : S -> A -> option S) (P : S -> Prop)
    (s : S) (l : list A) :
  P s ->
  (forall s a, P s -> exists s', body s a = Some s' /\ P s') ->
  is_Some (for_each body s l).
Proof.
  intros Hs Hbody. revert s Hs. induction l as [|a l IH]; intros s Hs;
    [by eexists|].
  cbn [for_each]. destruct (Hbody s a Hs) as (s' & -> & Hs').
  cbn [mbind option_bind]. by apply IH.
Qed.

Lemma stack_normal_conv_plain (in_ch out_ch k : Z) (skip dconv : bool)
    (s repeats : Z) (bn : float) :
  0 < in_ch -> 0 < out_ch -> 1 <= k -> 1 <= s -> 1 <= repeats ->
  is_Some (_stack_normal_conv torch_accepts in_ch out_ch k skip dconv s
             repeats bn).
Proof.
  intros Hin Hout Hk Hs Hr. unfold _stack_normal_conv.
  rewrite (proj2 (Z.leb_le 1 repeats)) by done. cbn [negb].
  apply fmap_is_Some.
  apply (for_each_plain _ (fun st => 0 < st.2)); [done|].
  intros [stack c] i Hc. cbn in Hc.
  destruct (normal_conv_step_plain out_ch k skip dconv s bn stack c i)
    as [st' E]; try done.
  exists st'. split; [done|]. by apply normal_conv_step_inv in E as ->.
Qed.

Lemma normal_conv_block_shape (in_ch out_ch k s : Z) (skip dconv : bool)
    (bn : float) (h w : Z) :
  0 < in_ch -> 0 < out_ch -> k = 3 \/ k = 5 -> s = 1 \/ s = 2 ->
  1 <= h -> 1 <= w ->
  shape_list (normal_conv_block in_ch out_ch k s skip dconv bn) (in_ch, h, w)
  = Some (out_ch, ceil_div h s, ceil_div w s).
Proof.
  intros Hin Hout Hk Hs Hh Hw. unfold normal_conv_block.
  assert (1 <= ceil_div h s /\ 1 <= ceil_div w s) as [Hh' Hw'].
  { split; apply ceil_div_pos; lia. }
  assert (shape_list (normal_conv_modules in_ch out_ch k s dconv bn) (in_ch, h, w)
          = Some (out_ch, ceil_div h s, ceil_div w s)) as Hm.
  { unfold normal_conv_modules, shape_list. destruct dconv; cbn [for_each].
    - rewrite conv_shape by (done || apply Z.divide_refl). cbn [mbind option_bind].
      rewrite bn_shape by done. cbn [mbind option_bind].
      rewrite relu_shape. cbn [mbind option_bind].
      rewrite pointwise_shape by done. cbn [mbind option_bind].
      by rewrite bn_shape.
    - rewrite conv_shape by (done || apply Z.divide_1_l || lia).
      cbn [mbind option_bind]. rewrite relu_shape. cbn [mbind option_bind].
      by rewrite bn_shape. }
  cbv zeta. destruct (skip && (in_ch =? out_ch) && (s =? 1)) eqn:E; [|done].
  apply andb_true_iff in E as [E Es]. apply andb_true_iff in E as [_ E].
  apply Z.eqb_eq in E, Es. rewrite Es in *. rewrite !ceil_div_1 in *. subst in_ch.
  unfold shape_list at 1. cbn [for_each].
  rewrite shape_ResidualBlock, shape_Sequential, Hm. cbn [mbind option_bind].
  by rewrite decide_True.
Qed.

Lemma concat_blocks_shape (b : list Layer) (n : nat) (x : Z * Z * Z) :
  shape_list b x = Some x -> shape_list (concat (replicate n b)) x = Some x.
Proof.
  intros Hb. induction n as [|n IH]; [done|].
  cbn [replicate concat]. rewrite shape_list_app, Hb. done.
Qed.

Lemma stack_normal_conv_shape (in_ch out_ch k : Z) (skip dconv : bool)
    (s repeats : Z) (bn : float) (stack : list Layer) (layers : list Layer)
    (x : Z * Z * Z) (h w : Z) :
  _stack_normal_conv torch_accepts in_ch out_ch k skip dconv s repeats bn
  = Some stack ->
  shape_list layers x = Some (in_ch, h, w) ->
  0 < in_ch -> 0 < out_ch -> k = 3 \/ k = 5 -> s = 1 \/ s = 2 ->
  1 <= h -> 1 <= w ->
  shape_list (layers ++ stack) x = Some (out_ch, ceil_div h s, ceil_div w s).
Proof.
  intros Hst Hx Hin Hout Hk Hs Hh Hw.
  apply stack_normal_conv_inv in Hst as [Hr ->].
  rewrite shape_list_app, Hx. cbn [mbind option_bind].
  rewrite shape_list_app, normal_conv_block_shape by done.
  cbn [mbind option_bind].
  apply concat_blocks_shape.
  rewrite normal_conv_block_shape;
    [by rewrite !ceil_div_1|done|done|done|by left| |];
    apply ceil_div_pos; lia.
Qed.

Lemma modules_Sequential (ls : list Layer) :
  modules (Sequential ls) = Sequential ls :: (ls ≫= modules).
Proof.
  reflexivity.
Qed.

Lemma all_plain_Sequential (ls : list Layer) :
  Forall all_plain ls -> all_plain (Sequential ls).
Proof.
  intros H. unfold all_plain. rewrite modules_Sequential.
  constructor; [done|]. apply Forall_bind. exact H.
Qed.

Lemma all_plain_InvertedResidual (r : bool) (l : Layer) :
  all_plain l -> all_plain (MkInvertedResidual r l).
Proof. intros H. by constructor. Qed.

Lemma all_plain_ResidualBlock (l : Layer) :
  all_plain l -> all_plain (_ResidualBlock l).
Proof. intros H. by constructor. Qed.

Lemma all_plain_leaves (ls : list Layer) :
  Forall (fun l => plain_args l = true /\ modules l = [l]) ls ->
  Forall all_plain ls.
Proof.
  intros H. eapply Forall_impl; [exact H|]. intros l [Hp Hm].
  unfold all_plain. rewrite Hm. by constructor.
Qed.

Lemma inverted_residual_block_plain (in_ch out_ch k s e : Z) (skip : bool)
    (bn : float) :
  0 < in_ch -> 0 < out_ch -> 0 < e -> 1 <= s -> 1 <= k ->
  all_plain (inverted_residual_block in_ch out_ch k s e skip bn).
Proof.
  intros Hin Hout He Hs Hk. assert (0 < in_ch * e) by nia.
  unfold inverted_residual_block.
  apply all_plain_InvertedResidual, all_plain_Sequential, all_plain_leaves.
  repeat (constructor;
          [split; [first [by apply plain_bn | done | apply plain_conv;
             first [lia | apply Z.divide_refl | apply Z.divide_1_l
                   | (apply half_kernel; lia)]]|done]|]).
  constructor.
Qed.

Lemma normal_conv_block_plain (in_ch out_ch k s : Z) (skip dconv : bool)
    (bn : float) :
  0 < in_ch -> 0 < out_ch -> 1 <= s -> 1 <= k ->
  Forall all_plain (normal_conv_block in_ch out_ch k s skip dconv bn).
Proof.
  intros Hin Hout Hs Hk. unfold normal_conv_block. cbv zeta.
  assert (Forall all_plain (normal_conv_modules in_ch out_ch k s dconv bn)) as Hm.
  { apply all_plain_leaves. unfold normal_conv_modules. destruct dconv;
      repeat (constructor;
              [split; [first [by apply plain_bn | done | apply plain_conv;
                 first [lia | apply Z.divide_refl | apply Z.divide_1_l
                       | (apply half_kernel; lia)]]|done]|]);
      constructor. }
  destruct (skip && _ && _); [|done].
  constructor; [|done].
  by apply all_plain_ResidualBlock, all_plain_Sequential.
Qed.

(** What one round of the loop over the stages needs, and what it
    gives. *)
Lemma add_stage_inv (layers layers' : list Layer) (conv : string)
    (prev_depth depth ks : Z) (skip : bool) (stride repeat exp_ratio : Z) :
  add_stage torch_accepts layers
    (conv, (prev_depth, (depth, (ks, (skip, (stride, (repeat, exp_ratio)))))))
  = Some layers' ->
  1 <= repeat /\
  (conv = "mconv" -> (stride = 1 \/ stride = 2) /\ (ks = 3 \/ ks = 5)) /\
  (0 < prev_depth -> 0 < depth -> 0 < exp_ratio -> 1 <= stride -> 1 <= ks ->
   Forall all_plain layers -> Forall all_plain layers').
Proof.
  unfold add_stage. destruct (String.eqb_spec conv "mconv") as [->|Hne].
  - destruct (_stack_inverted_residual _ _ _ _ _ _ _ _ _) as [stack|] eqn:E;
      [cbn [mbind option_bind]|done].
    apply stack_inverted_residual_inv in E
      as (Hr & Hs & Hk & first & remaining & -> & E1 & Hrem).
    intros [= <-]. split; [done|]. split; [done|].
    intros Hp Hd He Hst Hks Hl. apply Forall_app. split; [done|].
    constructor; [|done]. apply all_plain_Sequential.
    apply InvertedResidual_inv in E1 as (_ & _ & ->).
    constructor; [by apply inverted_residual_block_plain|].
    destruct Hrem as [->|(b & E2 & ->)]; [done|].
    apply InvertedResidual_inv in E2 as (_ & _ & ->).
    apply Forall_replicate. by apply inverted_residual_block_plain.
  - destruct (_stack_normal_conv _ _ _ _ _ _ _ _ _) as [stack|] eqn:E;
      [cbn [mbind option_bind]|done].
    apply stack_normal_conv_inv in E as [Hr ->].
    intros [= <-]. split; [done|]. split; [done|].
    intros Hp Hd He Hst Hks Hl. apply Forall_app. split; [done|].
    apply Forall_app. split; [by apply normal_conv_block_plain|].
    apply Forall_concat, Forall_replicate. by apply normal_conv_block_plain.
Qed.

Lemma add_stage_plain (layers : list Layer) (conv : string)
    (prev_depth depth ks : Z) (skip : bool) (stride repeat exp_ratio : Z) :
  0 < prev_depth -> 0 < depth -> 0 < exp_ratio ->
  stride = 1 \/ stride = 2 -> 1 <= ks -> 1 <= repeat ->
  (conv = "mconv" -> ks = 3 \/ ks = 5) ->
  is_Some (add_stage torch_accepts layers
             (conv, (prev_depth, (depth, (ks, (skip, (stride, (repeat, exp_ratio)))))))).
Proof.
  intros Hp Hd He Hs Hks Hr Hm. unfold add_stage.
  destruct (String.eqb_spec conv "mconv") as [->|Hne].
  - specialize (Hm eq_refl).
    destruct (stack_inverted_residual_plain prev_depth depth ks skip stride
                exp_ratio repeat _BN_MOMENTUM Hp Hd He Hr Hs Hm) as [stack ->].
    by eexists.
  - assert (1 <= stride) as Hs' by lia.
    destruct (stack_normal_conv_plain prev_depth depth ks skip
                (String.eqb conv "dconv") stride repeat _BN_MOMENTUM
                Hp Hd Hks Hs' Hr) as [stack ->].
    by eexists.
Qed.

Lemma add_stage_shape (layers layers' : list Layer) (conv : string)
    (prev_depth depth ks : Z) (skip : bool) (stride repeat exp_ratio : Z)
    (x : Z * Z * Z) (h w : Z) :
  add_stage torch_accepts layers
    (conv, (prev_depth, (depth, (ks, (skip, (stride, (repeat, exp_ratio)))))))
  = Some layers' ->
  shape_list layers x = Some (prev_depth, h, w) ->
  0 < prev_depth -> 0 < depth -> 0 < exp_ratio ->
  ks = 3 \/ ks = 5 -> stride = 1 \/ stride = 2 -> 1 <= h -> 1 <= w ->
  shape_list layers' x = Some (depth, ceil_div h stride, ceil_div w stride).
Proof.
  intros Hadd Hx Hp Hd He Hk Hs Hh Hw. unfold add_stage in Hadd.
  destruct (String.eqb conv "mconv").
  - destruct (_stack_inverted_residual _ _ _ _ _ _ _ _ _) as [stack|] eqn:E;
      [cbn [mbind option_bind] in Hadd|done].
    injection Hadd as <-. rewrite shape_list_app, Hx. cbn [mbind option_bind].
    unfold shape_list. cbn [for_each].
    by rewrite (stack_inverted_residual_shape _ _ _ _ _ _ _ _ _ h w E).
  - destruct (_stack_normal_conv _ _ _ _ _ _ _ _ _) as [stack|] eqn:E;
      [cbn [mbind option_bind] in Hadd|done].
    injection Hadd as <-. by eapply stack_normal_conv_shape.
Qed.

(** The loop over the stages. *)
Lemma stages_inv (stages : list (string * (Z * (Z * (Z * (bool * (Z * (Z * Z))))))))
    (layers layers' : list Layer) :
  for_each (add_stage torch_accepts) layers stages = Some layers' ->
  Forall (fun st => 1 <= st.2.2.2.2.2.2.1 /\
                    (st.1 = "mconv" ->
                     (st.2.2.2.2.2.1 = 1 \/ st.2.2.2.2.2.1 = 2) /\
                     (st.2.2.2.1 = 3 \/ st.2.2.2.1 = 5))) stages /\
  (Forall (fun st => 0 < st.2.1 /\ 0 < st.2.2.1 /\ 0 < st.2.2.2.2.2.2.2 /\
                     1 <= st.2.2.2.2.2.1 /\ 1 <= st.2.2.2.1) stages ->
   Forall all_plain layers -> Forall all_plain layers').
Proof.
  revert layers. induction stages as [|st stages IH]; intros layers.
  - intros [= <-]. split; [constructor|done].
  - cbn [for_each].
    destruct st as (conv & pd & d & ks & skip & stride & rep & e).
    destruct (add_stage _ _ _) as [layers0|] eqn:E; [|done].
    apply add_stage_inv in E as (Hr & Hm & Hpl).
    cbn [mbind option_bind]. intros Hst. apply IH in Hst as [HF Hpl'].
    split; [by constructor|].
    intros Hg Hl. apply Forall_cons in Hg as [(? & ? & ? & ? & ?) Hg].
    cbn in *. apply Hpl'; [done|]. by apply Hpl.
Qed.

Lemma stages_plain (stages : list (string * (Z * (Z * (Z * (bool * (Z * (Z * Z))))))))
    (layers : list Layer) :
  Forall (fun st => 0 < st.2.1 /\ 0 < st.2.2.1 /\ 0 < st.2.2.2.2.2.2.2 /\
                    (st.2.2.2.2.2.1 = 1 \/ st.2.2.2.2.2.1 = 2) /\
                    1 <= st.2.2.2.1 /\ 1 <= st.2.2.2.2.2.2.1 /\
                    (st.1 = "mconv" -> st.2.2.2.1 = 3 \/ st.2.2.2.1 = 5)) stages ->
  is_Some (for_each (add_stage torch_accepts) layers stages).
Proof.
  intros H. revert layers. induction H as [|st stages Hst _ IH]; intros layers;
    [by eexists|].
  cbn [for_each].
  destruct st as (conv & pd & d & ks & skip & stride & rep & e). cbn in Hst.
  destruct Hst as (? & ? & ? & ? & ? & ? & ?).
  destruct (add_stage_plain layers conv pd d ks skip stride rep e) as [l' ->];
    try done.
  cbn [mbind option_bind]. apply IH.
Qed.


Ltac table_cases H :=
  repeat (apply elem_of_cons in H as [->|H]); [..|by apply elem_of_nil in H].

Ltac list7 l H :=
  destruct l as [|? [|? [|? [|? [|? [|? [|? [|? ?]]]]]]]]; cbn in H; try discriminate H.

Lemma round_to_multiple_of_ge (val : num) (d : Z) (b : float) (r : Z) :
  _round_to_multiple_of val d b = Some r -> 0 < d -> d <= r.
Proof.
  unfold _round_to_multiple_of. intros H Hd.
  destruct (negb _); [done|].
  destruct (int_truediv d 2) as [half|]; [cbn [mbind option_bind] in H|done].
  destruct (to_float val) as [v|]; [cbn [mbind option_bind] in H|done].
  destruct (int_of_float _) as [t|]; [cbn [mbind option_bind] in H|done].
  destruct (d =? 0); [done|].
  destruct (int_ge_float _ _); injection H as <-; lia.
Qed.

Lemma get_depths_ge (depths l : list Z) (alpha : float) :
  _get_depths depths alpha = Some l ->
  length l = length depths /\ Forall (fun r => 8 <= r) l.
Proof.
  unfold _get_depths. revert l.
  induction depths as [|depth depths IH]; intros l; [by intros [= <-]|].
  cbn [mapM].
  destruct (of_int depth) as [d|]; [cbn [mbind option_bind]|done].
  destruct (_round_to_multiple_of _ _ _) as [r|] eqn:Er;
    [cbn [mbind option_bind]|done].
  destruct (mapM _ depths) as [l0|]; [cbn [mbind option_bind]|done].
  intros [= <-]. destruct (IH l0 eq_refl) as [Hl HF].
  apply round_to_multiple_of_ge in Er; [|done].
  split; [cbn; by rewrite Hl|by constructor].
Qed.

Lemma get_depths_8 (d1 d2 d3 d4 d5 d6 d7 : Z) (alpha : float) (l : list Z) :
  _get_depths ([_FIRST_DEPTH] ++ [d1; d2; d3; d4; d5; d6; d7]) alpha = Some l ->
  exists a0 a1 a2 a3 a4 a5 a6 a7,
    l = [a0; a1; a2; a3; a4; a5; a6; a7] /\
    0 < a0 /\ 0 < a1 /\ 0 < a2 /\ 0 < a3 /\ 0 < a4 /\ 0 < a5 /\ 0 < a6 /\ 0 < a7.
Proof.
  intros H. apply get_depths_ge in H as [Hlen Hl].
  destruct l as [|a0 [|a1 [|a2 [|a3 [|a4 [|a5 [|a6 [|a7 [|? ?]]]]]]]]];
    try discriminate Hlen.
  exists a0, a1, a2, a3, a4, a5, a6, a7. split; [done|].
  rewrite !Forall_cons in Hl. cbn beta in Hl. lia.
Qed.

(** What a call of the constructor that returns has checked. *)
Lemma MNASNet_init_inv (alpha : float) (depths : list Z) (convops : list string)
    (kernel_sizes num_layers : list Z) (skips : list bool)
    (num_classes : Z) (dropout : float) (m : MNASNetModel) :
  MNASNet_init torch_accepts init_accepts alpha depths convops kernel_sizes
    num_layers skips num_classes dropout = Some m ->
  flt (Finite 0) alpha = true /\
  length depths = 7%nat /\ length convops = 7%nat /\
  length kernel_sizes = 7%nat /\ length num_layers = 7%nat /\
  length skips = 7%nat /\
  Forall (fun repeat => 1 <= repeat) num_layers /\
  Forall2 (fun conv ks => conv = "mconv" -> ks = 3 \/ ks = 5) convops kernel_sizes.
Proof.
  unfold MNASNet_init. intros Hm.
  destruct (flt (Finite 0) alpha); [cbn [negb] in Hm|done].
  destruct (_ && _) eqn:El; [cbn [negb] in Hm|done].
  apply andb_true_iff in El as [El L5]. apply andb_true_iff in El as [El L4].
  apply andb_true_iff in El as [El L3]. apply andb_true_iff in El as [L1 L2].
  apply Nat.eqb_eq in L1, L2, L3, L4, L5.
  split_and!; try done.
  all: list7 depths L1; list7 convops L2; list7 kernel_sizes L3;
    list7 num_layers L4; list7 skips L5.
  all: destruct (_get_depths _ _) as [ds|] eqn:Hd;
    [cbn [mbind option_bind] in Hm|done].
  all: apply get_depths_8 in Hd as (a0 & a1 & a2 & a3 & a4 & a5 & a6 & a7 & -> & _).
  all: cbn [mbind option_bind lookup list_lookup length Nat.sub take drop zip
              zip_with] in Hm.
  all: match type of Hm with
       | ?x ≫= _ = _ => destruct x as [ls|]; [cbn [mbind option_bind] in Hm|done]
       end.
  all: destruct (for_each _ _ _) as [layers|] eqn:E;
    [cbn [mbind option_bind] in Hm|done].
  all: apply stages_inv in E as [HF _]; rewrite !Forall_cons in HF; cbn in HF.
  all: repeat (constructor; [tauto|]); constructor.
Qed.

(** With plain arguments, the checks are all the constructor needs. *)
Lemma MNASNet_init_plain (alpha : Q) (depths : list Z) (convops : list string)
    (kernel_sizes num_layers : list Z) (skips : list bool)
    (num_classes : Z) (dropout : float) :
  (Qabs alpha <= 2 ^ 400)%Q ->
  Forall (fun depth => Z.abs depth <= 2 ^ 400) depths ->
  Forall (fun ks => 1 <= ks) kernel_sizes ->
  1 <= num_classes -> plain_args (Dropout dropout) = true ->
  (0 < alpha)%Q ->
  length depths = 7%nat -> length convops = 7%nat ->
  length kernel_sizes = 7%nat -> length num_layers = 7%nat ->
  length skips = 7%nat ->
  Forall (fun repeat => 1 <= repeat) num_layers ->
  Forall2 (fun conv ks => conv = "mconv" -> ks = 3 \/ ks = 5) convops kernel_sizes ->
  exists layers,
    MNASNet_init torch_accepts init_accepts (Finite alpha) depths convops
      kernel_sizes num_layers skips num_classes dropout =
    Some (MkMNASNetModel (Finite alpha) num_classes layers
            (Sequential [Dropout dropout; Linear 1280 num_classes])).
Proof.
  intros Ha Hds Hks Hnc Hdrop Hpos L1 L2 L3 L4 L5 HF HF2. unfold MNASNet_init.
  assert (flt (Finite 0) (Finite alpha) = true) as ->.
  { cbn [flt]. destruct (Qle_bool alpha 0) eqn:E; [|done].
    apply Qle_bool_iff in E. lra. }
  rewrite L1, L2, L3, L4, L5. cbn [Nat.eqb andb negb].
  list7 depths L1. list7 convops L2. list7 kernel_sizes L3. list7 num_layers L4.
  list7 skips L5.
  pose proof (get_depths_closed ([_FIRST_DEPTH] ++ [z; z0; z1; z2; z3; z4; z5])
                alpha ltac:(constructor; [by vm_compute|done]) Ha) as Hd.
  destruct (get_depths_8 _ _ _ _ _ _ _ _ _ Hd)
    as (a0 & a1 & a2 & a3 & a4 & a5 & a6 & a7 & Heq & P).
  rewrite Hd, Heq. clear Hd Heq.
  destruct P as (P0 & P1 & P2 & P3 & P4 & P5 & P6 & P7).
  cbn [mbind option_bind lookup list_lookup length Nat.sub take drop zip zip_with].
  assert (Forall (fun l => plain_args l = true /\ modules l = [l])
            [Conv2d 3 a0 3 1 2 1; BatchNorm2d a0 _BN_MOMENTUM; ReLU]) as Hini.
  { repeat (constructor; [split; [|done]|]); try done.
    - apply plain_conv; (lia || apply Z.divide_1_l).
    - by apply plain_bn. }
  assert (Forall all_plain
            [Conv2d 3 a0 3 1 2 1; BatchNorm2d a0 _BN_MOMENTUM; ReLU]) as Hp0
    by (by apply all_plain_leaves).
  rewrite (mapM_new_plain [Conv2d 3 a0 3 1 2 1; BatchNorm2d a0 _BN_MOMENTUM; ReLU])
    by (eapply Forall_impl; [exact Hini|]; by intros ? [? _]).
  cbn [mbind option_bind].
  rewrite !Forall_cons in HF. rewrite !Forall_cons in Hks.
  repeat match goal with
         | H : Forall2 _ (_ :: _) (_ :: _) |- _ =>
             apply Forall2_cons_1 in H as [? H]
         end.
  match goal with
  | |- context [for_each (add_stage torch_accepts) ?ls ?sts] =>
      destruct (stages_plain sts ls) as [layers E];
        [|pose proof (proj2 (stages_inv sts ls layers E)) as Hpl; rewrite E]
  end.
  { repeat (constructor; [cbn; split_and!; try (lia || tauto)|]). constructor. }
  cbn [mbind option_bind].
  assert (Forall all_plain layers) as Hl.
  { apply Hpl; [|done].
    repeat (constructor; [cbn; split_and!; try (lia || tauto)|]). constructor. }
  assert (Forall (fun l => plain_args l = true /\ modules l = [l])
            [Conv2d a7 1280 1 0 1 1; BatchNorm2d 1280 _BN_MOMENTUM; ReLU]) as Hfin.
  { repeat (constructor; [split; [|done]|]); try done.
    apply plain_conv; (lia || apply Z.divide_1_l). }
  rewrite (mapM_new_plain
             [Conv2d a7 1280 1 0 1 1; BatchNorm2d 1280 _BN_MOMENTUM; ReLU])
    by (eapply Forall_impl; [exact Hfin|]; by intros ? [? _]).
  cbn [mbind option_bind]. rewrite new_plain by done.
  cbn [mbind option_bind].
  assert (Forall (fun l => plain_args l = true /\ modules l = [l])
            [Dropout dropout; Linear 1280 num_classes]) as Hcl.
  { repeat (constructor; [split; [|done]|]); try done.
    cbn [plain_args]. lia. }
  rewrite new_sequential_plain
    by (eapply Forall_impl; [exact Hcl|]; by intros ? [? _]).
  cbn [mbind option_bind].
  assert (forallb (initialize init_accepts)
            (modules (Sequential (layers ++
                        [Conv2d a7 1280 1 0 1 1; BatchNorm2d 1280 _BN_MOMENTUM; ReLU]))
             ++ modules (Sequential [Dropout dropout; Linear 1280 num_classes]))
          = true) as ->.
  { apply forallb_forall. intros l Hl'. apply list_elem_of_In in Hl'.
    assert (plain_args l = true) as Hp.
    { apply elem_of_app in Hl' as [Hl'|Hl'].
      - revert l Hl'. apply Forall_forall. apply all_plain_Sequential.
        apply Forall_app. split; [done|]. by apply all_plain_leaves.
      - revert l Hl'. apply Forall_forall. apply all_plain_Sequential.
        by apply all_plain_leaves. }
    unfold initialize. destruct l; try done; by apply init_plain. }
  by eexists.
Qed.

(** The constructor returns a model exactly when its assertions and
    those of the stacks it builds hold: for a finite [alpha] and [depths]
    far below the largest double, kernels of size 1 at least, one class
    at least and a dropout probability that torch takes. *)
Theorem MNASNet_init_returns (alpha : Q) (depths : list Z) (convops : list string)
    (kernel_sizes num_layers : list Z) (skips : list bool)
    (num_classes : Z) (dropout : float) :
  (Qabs alpha <= 2 ^ 400)%Q ->
  Forall (fun depth => Z.abs depth <= 2 ^ 400) depths ->
  Forall (fun ks => 1 <= ks) kernel_sizes ->
  1 <= num_classes -> plain_args (Dropout dropout) = true ->
  is_Some (MNASNet_init torch_accepts init_accepts (Finite alpha) depths convops
             kernel_sizes num_layers skips num_classes dropout) <->
  (0 < alpha)%Q /\
  length depths = 7%nat /\ length convops = 7%nat /\
  length kernel_sizes = 7%nat /\ length num_layers = 7%nat /\
  length skips = 7%nat /\
  Forall (fun repeat => 1 <= repeat) num_layers /\
  Forall2 (fun conv ks => conv = "mconv" -> ks = 3 \/ ks = 5) convops kernel_sizes.
Proof.
  intros Ha Hds Hks Hnc Hdrop. split.
  - intros [m Hm]. apply MNASNet_init_inv in Hm as (Hlt & H).
    split; [|done]. cbn [flt] in Hlt.
    destruct (Qle_bool alpha 0) eqn:E; [done|].
    apply Qnot_le_lt. intros Hle. apply Qle_bool_iff in Hle. congruence.
  - intros (Hpos & L1 & L2 & L3 & L4 & L5 & HF & HF2).
    destruct (MNASNet_init_plain alpha depths convops kernel_sizes num_layers
                skips num_classes dropout) as [layers ->]; try done.
Qed.


Ltac stage_shape Hx :=
  match goal with
  | E : add_stage _ ?ls ?st ≫= _ = Some _ |- _ =>
      let ls' := fresh "layers" in
      let Ea := fresh "Ea" in
      destruct (add_stage torch_accepts ls st) as [ls'|] eqn:Ea;
        [cbn [mbind option_bind] in E|discriminate E];
      eapply add_stage_shape in Ea;
        [|exact Hx
         |first [lia | tauto | (repeat (apply ceil_div_pos; [|lia]); lia)]..];
      clear Hx; rename Ea into Hx
  end.

(** With kernels of size 3 or 5, the layers of a model map an image of 3
    channels to 1280 channels and a thirty-second of its height and width,
    rounded up. *)
Lemma MNASNet_init_shape (alpha : float) (depths : list Z) (convops : list string)
    (kernel_sizes num_layers : list Z) (skips : list bool)
    (num_classes : Z) (dropout : float) (m : MNASNetModel) (h w : Z) :
  MNASNet_init torch_accepts init_accepts alpha depths convops kernel_sizes
    num_layers skips num_classes dropout = Some m ->
  Forall (fun ks => ks = 3 \/ ks = 5) kernel_sizes ->
  1 <= h -> 1 <= w ->
  shape (model_layers m) (3, h, w) = Some (1280, ceil_div h 32, ceil_div w 32).
Proof.
  intros Hm Hks Hh Hw. unfold MNASNet_init in Hm.
  destruct (flt (Finite 0) alpha); [cbn [negb] in Hm|done].
  destruct (_ && _) eqn:El; [cbn [negb] in Hm|done].
  apply andb_true_iff in El as [El L5]. apply andb_true_iff in El as [El L4].
  apply andb_true_iff in El as [El L3]. apply andb_true_iff in El as [L1 L2].
  apply Nat.eqb_eq in L1, L2, L3, L4, L5.
  list7 depths L1. list7 convops L2. list7 kernel_sizes L3. list7 num_layers L4.
  list7 skips L5.
  destruct (_get_depths _ _) as [ds|] eqn:Hd;
    [cbn [mbind option_bind] in Hm|done].
  apply get_depths_8 in Hd
    as (a0 & a1 & a2 & a3 & a4 & a5 & a6 & a7 & -> &
        P0 & P1 & P2 & P3 & P4 & P5 & P6 & P7).
  cbn [mbind option_bind lookup list_lookup length Nat.sub take drop zip zip_with] in Hm.
  rewrite !Forall_cons in Hks.
  destruct (mapM _ [Conv2d 3 a0 3 1 2 1; _; _]) as [ls|] eqn:E0;
    [cbn [mbind option_bind] in Hm|done].
  apply mapM_new_inv in E0 as ->.
  destruct (for_each _ _ _) as [layers|] eqn:E;
    [cbn [mbind option_bind] in Hm|done].
  destruct (mapM _ [Conv2d a7 1280 1 0 1 1; _; _]) as [final|] eqn:E1;
    [cbn [mbind option_bind] in Hm|done].
  apply mapM_new_inv in E1 as ->.
  destruct (new _ _) as [net|] eqn:E2; [cbn [mbind option_bind] in Hm|done].
  apply new_inv in E2 as ->.
  destruct (new_sequential _ _) as [classifier|];
    [cbn [mbind option_bind] in Hm|done].
  destruct (forallb _ _); [|done].
  injection Hm as <-. cbn [model_layers].
  assert (shape_list [Conv2d 3 a0 3 1 2 1; BatchNorm2d a0 _BN_MOMENTUM; ReLU] (3, h, w)
          = Some (a0, ceil_div h 2, ceil_div w 2)) as Hx.
  { unfold shape_list. cbn [for_each].
    pose proof (conv_shape 3 3 a0 3 2 1 h w) as Hc. change (3 / 2) with 1 in Hc.
    rewrite Hc by (done || lia || apply Z.divide_1_l || tauto).
    cbn [mbind option_bind]. by rewrite bn_shape. }
  cbn [for_each] in E. do 7 stage_shape Hx.
  injection E as <-.
  rewrite shape_Sequential, shape_list_app, Hx. cbn [mbind option_bind].
  rewrite !ceil_div_mul by lia. cbn [Z.mul Pos.mul].
  unfold shape_list. cbn [for_each].
  rewrite pointwise_shape by (done || lia || (apply ceil_div_pos; lia)).
  cbn [mbind option_bind]. by rewrite bn_shape.
Qed.

Lemma mnasnet_filters_table (cs : list Choice) :
  Forall2 valid_choice _MOBILENET_V2_NUM_LAYERS cs ->
  exists filters,
    mnasnet_filters (ch_multiplier <$> cs) = Some filters /\
    length filters = 7%nat /\ Forall (fun f => Z.abs f <= 2 ^ 400) filters.
Proof.
  intros H. unfold _MOBILENET_V2_NUM_LAYERS in H.
  repeat match goal with
         | H : Forall2 _ (_ :: _) _ |- _ =>
             apply Forall2_cons_inv_l in H as (? & ? & ? & H & ->)
         | H : Forall2 _ [] _ |- _ => apply Forall2_nil_inv_l in H as ->
         end.
  repeat match goal with
         | H : valid_choice _ ?c |- _ => destruct H as (_ & _ & H & _)
         end.
  unfold mnasnet_filters, _MOBILENET_V2_FILTERS.
  cbn [fmap list_fmap zip zip_with mapM fst snd].
  assert (400 <= 2 ^ 400) as H400 by (by vm_compute).
  repeat match goal with
         | Hm : ch_multiplier ?c ∈ filter_table
           |- context [int_of_product ?base (ch_multiplier ?c)] =>
             let req := fresh "req" in
             let E := fresh "E" in
             let B := fresh "B" in
             destruct (int_of_product_table base (ch_multiplier c)) as (req & E & B);
             [unfold _MOBILENET_V2_FILTERS; repeat constructor | exact Hm |];
             rewrite E; clear Hm; cbn [mbind option_bind mret option_ret]
         end.
  eexists. split; [reflexivity|]. split; [reflexivity|].
  repeat (constructor; [lia|]). constructor.
Qed.

(** Every model string that [parse_mnasnet_block] accepts gives a model,
    and the layers of that model map an image of 3 channels to 1280
    channels and a thirty-second of its height and width, rounded up. *)
Theorem build_model_from_file_shape (model_str : string) (bd : block_def)
    (h w : Z) :
  parse_mnasnet_block model_str = Some bd -> 1 <= h -> 1 <= w ->
  exists m,
    build_model_from_file_model torch_accepts init_accepts "mnasnet" model_str
    = Some m /\
    shape (model_layers m) (3, h, w) = Some (1280, ceil_div h 32, ceil_div w 32) /\
    model_classifier m = Sequential [Dropout (literal 0.2%Q); Linear 1280 1000].
Proof.
  intros Hbd Hh Hw. unfold build_model_from_file_model.
  change (String.eqb "mnasnet" "mnasnet") with true. cbn iota.
  rewrite Hbd. cbn [mbind option_bind].
  rewrite parse_mnasnet_block_eq in Hbd. unfold parse_spec in Hbd.
  destruct (decide _) as [Hlen|]; [|done].
  destruct (block_choices _ _) as [cs|] eqn:Hcs; [|done].
  injection Hbd as <-. cbn [block_of convop filters kernel_size num_layers skips].
  pose proof (block_choices_valid _ _ _ Hcs) as Hv.
  assert (length cs = 7%nat) as Hl by (by apply Forall2_length in Hv).
  assert (Forall (fun ks => ks = 3 \/ ks = 5) (ch_kernel <$> cs)) as Hks.
  { apply Forall_fmap, Forall_forall. intros c Hc.
    apply list_elem_of_lookup in Hc as [i Hi].
    destruct (Forall2_lookup_r _ _ _ _ _ Hv Hi) as (base & _ & Hc).
    destruct Hc as (_ & _ & _ & Hk & _). unfold kernel_table in Hk.
    cbn. table_cases Hk; tauto. }
  unfold mnasnet_any_model.
  destruct (mnasnet_filters_table cs Hv) as (fs & -> & Hfl & Hfb).
  cbn [mbind option_bind]. rewrite literal_one.
  assert (Forall (fun ks => 1 <= ks) (ch_kernel <$> cs)) as Hk1.
  { eapply Forall_impl; [exact Hks|]. intros ks. cbn beta. lia. }
  assert (Forall (fun repeat => 1 <= repeat)
            (mnasnet_num_layers (ch_delta <$> cs))) as Hrep.
  { unfold mnasnet_num_layers. apply Forall_forall. intros r Hr.
    apply list_elem_of_lookup in Hr as [i Hi].
    apply lookup_zip_with_Some in Hi as (base & d & -> & Hb & Hd).
    rewrite list_lookup_fmap in Hd.
    destruct (cs !! i) as [c|] eqn:Hc; [|done]. injection Hd as <-.
    destruct (Forall2_lookup_lr _ _ _ _ _ _ Hv Hb Hc) as (_ & Hdl & _).
    apply delta_bound; [|done].
    apply list_elem_of_lookup_2 in Hb. unfold _MOBILENET_V2_NUM_LAYERS in Hb.
    table_cases Hb; lia. }
  assert (Forall2 (fun conv ks => conv = "mconv" -> ks = 3 \/ ks = 5)
            (ch_op <$> cs) (ch_kernel <$> cs)) as Hmk.
  { apply Forall2_fmap, Forall_Forall2_diag, Forall_forall. intros c Hc _.
    apply list_elem_of_lookup in Hc as [i Hi].
    destruct (Forall2_lookup_r _ _ _ _ _ Hv Hi) as (base & _ & Hc).
    destruct Hc as (_ & _ & _ & Hk & _). unfold kernel_table in Hk.
    table_cases Hk; tauto. }
  assert (length (mnasnet_num_layers (ch_delta <$> cs)) = 7%nat) as Hnl.
  { unfold mnasnet_num_layers. rewrite length_zip_with, length_fmap, Hl. done. }
  assert (0 < round_double 1.0)%Q as Hone by (by vm_compute).
  destruct (MNASNet_init_plain (round_double 1.0) fs
              (ch_op <$> cs) (ch_kernel <$> cs)
              (mnasnet_num_layers (ch_delta <$> cs)) (ch_skip <$> cs)
              1000 (literal 0.2%Q) one_bounded Hfb Hk1 ltac:(lia)
              ltac:(by vm_compute) Hone Hfl
              ltac:(by rewrite length_fmap) ltac:(by rewrite length_fmap)
              Hnl ltac:(by rewrite length_fmap) Hrep Hmk) as [layers Hm].
  eexists. split; [exact Hm|]. split; [|done].
  by eapply MNASNet_init_shape.
Qed.


Lemma stack_inverted_residual_closed (in_ch out_ch k : Z) (skip : bool)
    (s e repeats : Z) (bn : float) (stack : Layer) :
  _stack_inverted_residual torch_accepts in_ch out_ch k skip s e repeats bn
  = Some stack ->
  stack = Sequential (inverted_residual_block in_ch out_ch k s e skip bn ::
                      replicate (Z.to_nat (repeats - 1))
                        (inverted_residual_block out_ch out_ch k 1 e skip bn)).
Proof.
  unfold _stack_inverted_residual.
  destruct (Z.leb_spec 1 repeats); cbn [negb]; [|done].
  destruct (_InvertedResidual torch_accepts in_ch out_ch k s e skip bn)
    as [first|] eqn:E1; [cbn [mbind option_bind]|done].
  apply InvertedResidual_inv in E1 as (_ & _ & ->).
  rewrite for_each_const. intros Hst.
  destruct (seqZ 1 (repeats - 1)) as [|i l] eqn:El;
    apply (f_equal length) in El; rewrite length_seqZ in El; rewrite El.
  - cbn [mbind option_bind] in Hst. by apply new_inv in Hst as ->.
  - destruct (_InvertedResidual torch_accepts out_ch out_ch k 1 e skip bn)
      as [b|] eqn:E2; [cbn [mbind option_bind] in Hst|done].
    apply InvertedResidual_inv in E2 as (_ & _ & ->).
    by apply new_inv in Hst as ->.
Qed.

(** Both stacks repeat one block: the first block takes the input
    channels and the stride of the stage, the [repeats - 1] blocks after it
    are equal, from the output channels to the output channels with stride 1.
    With less than one repeat both raise, and the stack of inverted
    residuals raises for a stride other than 1 and 2 and for a kernel other
    than 3 and 5. The channels, the expansion factor and, for the plain
    stack, the kernel and the stride are positive. *)
Theorem stacks_repeat_one_block :
  (forall (in_ch out_ch k : Z) (skip dconv : bool) (s repeats : Z) (bn : float),
      0 < in_ch -> 0 < out_ch -> 1 <= k -> 1 <= s ->
      _stack_normal_conv torch_accepts in_ch out_ch k skip dconv s repeats bn =
      if repeats <? 1 then None
      else Some (normal_conv_block in_ch out_ch k s skip dconv bn ++
                 concat (replicate (Z.to_nat (repeats - 1))
                           (normal_conv_block out_ch out_ch k 1 skip dconv bn)))) /\
  (forall (in_ch out_ch k : Z) (skip : bool) (s e repeats : Z) (bn : float),
      0 < in_ch -> 0 < out_ch -> 0 < e ->
      _stack_inverted_residual torch_accepts in_ch out_ch k skip s e repeats bn =
      if (repeats <? 1) || negb ((s =? 1) || (s =? 2)) || negb ((k =? 3) || (k =? 5))
      then None
      else Some (Sequential
                   (inverted_residual_block in_ch out_ch k s e skip bn ::
                    replicate (Z.to_nat (repeats - 1))
                      (inverted_residual_block out_ch out_ch k 1 e skip bn)))).
Proof.
  split.
  - intros in_ch out_ch k skip dconv s repeats bn Hin Hout Hk Hs.
    destruct (Z.ltb_spec repeats 1) as [Hr|Hr].
    + unfold _stack_normal_conv. by rewrite (proj2 (Z.leb_gt 1 repeats)) by lia.
    + destruct (stack_normal_conv_plain in_ch out_ch k skip dconv s repeats bn
                  Hin Hout Hk Hs Hr) as [stack E].
      rewrite E. by apply stack_normal_conv_inv in E as [_ ->].
  - intros in_ch out_ch k skip s e repeats bn Hin Hout He.
    destruct (_stack_inverted_residual _ _ _ _ _ _ _ _ _) as [stack|] eqn:E.
    + pose proof (stack_inverted_residual_closed _ _ _ _ _ _ _ _ _ E) as ->.
      apply stack_inverted_residual_inv in E as (Hr & Hs & Hk & _).
      rewrite (proj2 (Z.ltb_ge repeats 1)) by lia.
      assert ((s =? 1) || (s =? 2) = true) as -> by lia.
      assert ((k =? 3) || (k =? 5) = true) as -> by lia.
      done.
    + destruct (Z.ltb_spec repeats 1) as [Hr|Hr]; [done|].
      destruct ((s =? 1) || (s =? 2)) eqn:Es; [|done].
      destruct ((k =? 3) || (k =? 5)) eqn:Ek; [|done].
      destruct (stack_inverted_residual_plain in_ch out_ch k skip s e repeats bn)
        as [stack E']; try done; try lia.
      congruence.
Qed.

End LayerFacts.

Section LayerWitnesses.
Import PyFloat Mnasnet MnasnetSpec MnasnetLayers LayerSpec.

Lemma MNASNet_init_returns_witness :
  is_Some (MNASNet_init plain_args plain_args (Finite 1)
             [16; 24; 40; 80; 96; 192; 320]
             ["mconv"; "conv"; "dconv"; "mconv"; "conv"; "dconv"; "mconv"]
             [3; 5; 3; 5; 3; 5; 3] [1; 3; 3; 3; 2; 4; 1]
             [true; false; true; false; true; false; true]
             1000 (literal 0.2%Q)) <->
  (0 < 1)%Q /\
  length [16; 24; 40; 80; 96; 192; 320] = 7%nat /\
  length ["mconv"; "conv"; "dconv"; "mconv"; "conv"; "dconv"; "mconv"] = 7%nat /\
  length [3; 5; 3; 5; 3; 5; 3] = 7%nat /\
  length [1; 3; 3; 3; 2; 4; 1] = 7%nat /\
  length [true; false; true; false; true; false; true] = 7%nat /\
  Forall (fun repeat => 1 <= repeat) [1; 3; 3; 3; 2; 4; 1] /\
  Forall2 (fun conv ks => conv = "mconv" -> ks = 3 \/ ks = 5)
    ["mconv"; "conv"; "dconv"; "mconv"; "conv"; "dconv"; "mconv"]
    [3; 5; 3; 5; 3; 5; 3].
Proof.
  apply (MNASNet_init_returns plain_args plain_args (fun _ H => H) (fun _ H => H) 1).
  - by vm_compute.
  - repeat (constructor; [by vm_compute|]). constructor.
  - repeat (constructor; [lia|]). constructor.
  - lia.
  - by vm_compute.
Defined.

Lemma build_model_from_file_shape_witness :
  exists m,
    build_model_from_file_model plain_args plain_args "mnasnet" sample_line
    = Some m /\
    shape (model_layers m) (3, 224, 224) = Some (1280, ceil_div 224 32, ceil_div 224 32) /\
    model_classifier m = Sequential [Dropout (literal 0.2%Q); Linear 1280 1000].
Proof.
  apply (build_model_from_file_shape plain_args plain_args (fun _ H => H)
           (fun _ H => H) sample_line
           (default (BlockDef [] [] [] [] []) (parse_mnasnet_block sample_line)));
    [by vm_compute | lia | lia].
Defined.

Lemma stacks_repeat_one_block_witness :
  _stack_normal_conv plain_args 16 24 3 true false 2 3 _BN_MOMENTUM =
  Some (normal_conv_block 16 24 3 2 true false _BN_MOMENTUM ++
        concat (replicate 2 (normal_conv_block 24 24 3 1 true false _BN_MOMENTUM))) /\
  _stack_inverted_residual plain_args 16 24 5 true 2 6 3 _BN_MOMENTUM =
  Some (Sequential
          (inverted_residual_block 16 24 5 2 6 true _BN_MOMENTUM ::
           replicate 2 (inverted_residual_block 24 24 5 1 6 true _BN_MOMENTUM))).
Proof.
  split.
  - apply (proj1 (stacks_repeat_one_block plain_args (fun _ H => H))
             16 24 3 true false 2 3 _BN_MOMENTUM); lia.
  - apply (proj2 (stacks_repeat_one_block plain_args (fun _ H => H))
             16 24 5 true 2 6 3 _BN_MOMENTUM); lia.
Defined.

End LayerWitnesses.
(** * More facts about the leaf modules *)
Section LeafCover.
Import PyStr GraphUtils GraphSpec.

Lemma is_parent_trans (a b c : string) :
  is_parent a b = true -> is_parent b c = true -> is_parent a c = true.
Proof.
  rewrite !is_parent_extension. intros [r1 ->] [r2 ->].
  exists (r1 +:+ String "." r2). by rewrite app_assoc_s, app_String.
Qed.

Lemma is_parent_longer (a b : string) :
  is_parent a b = true -> (String.length a < String.length b)%nat.
Proof.
  rewrite is_parent_extension. intros [r ->]. rewrite length_app_s. cbn. lia.
Qed.

(** [is_parent] is a strict order on names: [is_parent a b] holds exactly
    when [b] is [a] followed by a dot and more text. *)
Theorem is_parent_strict_order :
  (forall a b, is_parent a b = true <-> exists rest, b = a +:+ "." +:+ rest) /\
  (forall a, is_parent a a = false) /\
  (forall a b, is_parent a b = true -> is_parent b a = false) /\
  (forall a b c, is_parent a b = true -> is_parent b c = true ->
                 is_parent a c = true) /\
  is_parent "aa.bb" "aa.bb.cc" = true /\ is_parent "aa.b" "aa.bb" = false.
Proof.
  split_and!; [|apply is_parent_irrefl| |apply is_parent_trans|done|done].
  - intros a b. rewrite is_parent_extension. by setoid_rewrite app_String.
  - intros a b Hab. destruct (is_parent b a) eqn:Hba; [|done].
    apply is_parent_longer in Hab, Hba. lia.
Qed.

Lemma leaf_scan_cover (l : list string) (x : string) :
  x ∈ l -> exists y, y ∈ leaf_scan l /\ (x = y \/ is_parent x y = true).
Proof.
  induction l as [|x0 l IH] in x |- *; [by intros ?%elem_of_nil|].
  cbn [leaf_scan]. destruct l as [|y0 l'].
  - intros ->%list_elem_of_singleton. exists x0. split; [by left|by left].
  - intros [->|Hx]%elem_of_cons.
    + destruct (is_parent x0 y0) eqn:E.
      * destruct (IH y0 ltac:(left)) as (y & Hy & [<-|Hp]).
        -- exists y0. by split; [|right].
        -- exists y. split; [done|]. right. by eapply is_parent_trans.
      * exists x0. split; [by left|by left].
    + destruct (IH x Hx) as (y & Hy & Hxy). exists y.
      split; [|done]. destruct (is_parent x0 y0); [done|by right].
Qed.

Lemma leaf_scan_sub (l : list string) (x : string) : x ∈ leaf_scan l -> x ∈ l.
Proof.
  induction l as [|x0 l IH]; [done|]. cbn [leaf_scan]. destruct l as [|y0 l'].
  - done.
  - destruct (is_parent x0 y0).
    + intros H. right. by apply IH.
    + intros [->|H]%elem_of_cons; [by left|]. right. by apply IH.
Qed.

Lemma leaf_scan_sorted (l : list string) :
  StronglySorted sle l -> StronglySorted sle (leaf_scan l).
Proof.
  induction 1 as [|x0 l Hl IH Hx]; [constructor|].
  cbn [leaf_scan]. destruct l as [|y0 l']; [by repeat constructor|].
  destruct (is_parent x0 y0); [done|]. constructor; [done|].
  apply Forall_forall. intros z Hz%leaf_scan_sub.
  by apply (proj1 (Forall_forall _ _) Hx).
Qed.

(** Whatever names the trace lists, [_extract_leaf_modules] returns
    non-empty names of the list in ascending order, and every non-empty
    name of the list is one of them or the parent of one of them. *)
Theorem extract_leaf_modules_cover (named_modules : list string) :
  StronglySorted sle (_extract_leaf_modules named_modules) /\
  (forall x, x ∈ _extract_leaf_modules named_modules ->
             x ∈ named_modules /\ x <> "") /\
  (forall x, x ∈ named_modules -> x <> "" ->
     exists y, y ∈ _extract_leaf_modules named_modules /\
               (x = y \/ is_parent x y = true)).
Proof.
  rewrite extract_leaf_modules_scan. split_and!.
  - apply leaf_scan_sorted, sorted_ascending.
  - intros x Hx%leaf_scan_sub%elem_of_sorted%list_elem_of_filter. tauto.
  - intros x Hx Hne. apply leaf_scan_cover.
    by apply elem_of_sorted, list_elem_of_filter.
Qed.

(** The statement above for the name [a] of a small module tree. *)
Lemma extract_leaf_modules_cover_witness :
  exists y, y ∈ _extract_leaf_modules [""; "b"; "a"; "a.b"; "a.b.c"; "a.bb"] /\
            ("a" = y \/ is_parent "a" y = true).
Proof.
  apply (proj2 (proj2 (extract_leaf_modules_cover [""; "b"; "a"; "a.b"; "a.b.c"; "a.bb"])));
    [by apply (bool_decide_unpack _) | done].
Defined.

End LeafCover.
(** * More facts about the indices and the queries *)
Section IndexMaps.
Import PyStr GraphUtils GraphSpec.

Lemma inputs_loop_list (ref : nat) (ins : list string) (m : gmap string (list nat))
    (x : string) :
  foldl (input_step ref) m ins !! x =
  match filter (fun y => y = x) ins with
  | [] => m !! x
  | l => Some (default [] (m !! x) ++ replicate (length l) ref)
  end.
Proof.
  revert m. induction ins as [|i ins IH]; intros m; [done|].
  cbn [foldl]. rewrite IH.
  assert (input_step ref m i !! x =
          if decide (i = x) then Some (default [] (m !! x) ++ [ref]) else m !! x) as ->.
  { unfold input_step. destruct (decide (i = x)) as [->|Hne].
    - by rewrite lookup_insert_eq.
    - by rewrite lookup_insert_ne. }
  rewrite filter_cons. destruct (decide (i = x)) as [->|Hne]; [|done].
  destruct (filter _ ins) as [|y l]; cbn.
  - done.
  - by rewrite <- app_assoc.
Qed.

(** The references that the groups [entries] add to the list of [x]. *)
Lemma index_loop_inputs (entries : list (nat * NodePyGroup))
    (st st' : odict nat * gmap string (list nat) * gmap string nat) (x : string) :
  for_each index_group st entries = Some st' ->
  st'.1.2 !! x =
  match entries ≫= (fun e => replicate (length (filter (fun y => y = x) (inputs e.2))) e.1) with
  | [] => st.1.2 !! x
  | l => Some (default [] (st.1.2 !! x) ++ l)
  end.
Proof.
  revert st. induction entries as [|[ref g] entries IH]; intros [[n2n i2n] o2n].
  - by intros [= <-].
  - cbn [for_each]. rewrite index_group_unfold.
    destruct (for_each (output_step ref) o2n (outputs g)) as [o2n1|]; [|done].
    cbn [fmap option_fmap option_map mbind option_bind].
    intros H. rewrite (IH _ H). cbn [fst snd mbind list_bind].
    fold (@mbind list _). rewrite inputs_loop_list.
    destruct (filter _ (inputs g)) as [|y l]; cbn [length replicate app]; [done|].
    cbn [default]. destruct (entries ≫= _) as [|r l']; cbn [app].
    + by rewrite app_nil_r.
    + unfold id. by rewrite <- app_assoc.
Qed.

(** The group that [name_to_node] keeps for a name is the last one that
    carries it. *)
Lemma index_loop_names (l : list NodePyGroup) (k : nat)
    (st st' : odict nat * gmap string (list nat) * gmap string nat)
    (u : string) (r : nat) :
  for_each index_group st (imap (fun i g => ((k + i)%nat, g)) l) = Some st' ->
  od_map st'.1.1 !! u = Some r <->
  (exists pre g post, l = pre ++ g :: post /\ r = (k + length pre)%nat /\
                      unique_name g = u /\
                      Forall (fun g' => unique_name g' <> u) post) \/
  (od_map st.1.1 !! u = Some r /\ Forall (fun g' => unique_name g' <> u) l).
Proof.
  revert k st. induction l as [|g l IH]; intros k [[n2n i2n] o2n].
  - intros [= <-]. cbn. split; [by right|].
    intros [(pre & g & post & H & _)|[H _]]; [by destruct pre|done].
  - rewrite imap_cons. cbn [for_each]. rewrite index_group_unfold.
    destruct (for_each (output_step (k + 0)) o2n (outputs g)) as [o2n1|]; [|done].
    cbn [fmap option_fmap option_map mbind option_bind].
    rewrite (imap_ext _ (fun i g => ((S k + i)%nat, g))) by (intros; cbn; f_equal; lia).
    intros H. rewrite (IH _ _ H). cbn [fst snd od_set od_map]. split.
    + intros [(pre & g' & post & -> & -> & Hu & Hpost)|[Hl Hall]].
      * left. exists (g :: pre), g', post. cbn. split_and!; [done|lia|done|done].
      * destruct (decide (unique_name g = u)) as [<-|Hne].
        -- rewrite lookup_insert_eq in Hl. injection Hl as <-.
           left. exists [], g, l. cbn. split_and!; [done|lia|done|done].
        -- rewrite lookup_insert_ne in Hl by done. right. split; [done|].
           by constructor.
    + intros [(pre & g' & post & Hl & -> & Hu & Hpost)|[Hl Hall]].
      * destruct pre as [|g0 pre]; cbn in Hl; injection Hl as <- ->.
        -- right. subst u. rewrite lookup_insert_eq. split; [f_equal; cbn; lia|done].
        -- left. exists pre, g', post. cbn. split_and!; [done|lia|done|done].
      * apply Forall_cons in Hall as [Hne Hall]. right.
        by rewrite lookup_insert_ne.
Qed.

Lemma build_index_names (nodes_op : list NodePyGroup) (n2n : odict nat)
    (i2n : gmap string (list nat)) (o2n : gmap string nat) (u : string) (r : nat) :
  _build_index nodes_op = Some (n2n, i2n, o2n) ->
  od_map n2n !! u = Some r <->
  exists g, nodes_op !! r = Some g /\ unique_name g = u /\
            forall r' g', (r < r')%nat -> nodes_op !! r' = Some g' ->
                          unique_name g' <> u.
Proof.
  unfold _build_index. intros H.
  rewrite (index_loop_names nodes_op 0 _ _ u r H). cbn [fst snd od_empty od_map].
  rewrite lookup_empty. split.
  - intros [(pre & g & post & -> & -> & Hu & Hpost)|[? _]]; [|done].
    exists g. split_and!; [|done|].
    + by rewrite list_lookup_middle.
    + intros r' g' Hr Hg'. rewrite lookup_app_r in Hg' by (cbn in Hr; lia).
      destruct (r' - length pre)%nat as [|j] eqn:E; [cbn in Hr; lia|].
      cbn in Hg'. apply list_elem_of_lookup_2 in Hg'.
      by apply (proj1 (Forall_forall _ _) Hpost).
  - intros (g & Hg & Hu & Hlast). left.
    apply list_elem_of_split_length in Hg as (pre & post & -> & ->).
    exists pre, g, post. split_and!; [done|done|done|].
    apply Forall_forall. intros g' Hg'. apply list_elem_of_lookup in Hg' as [j Hj].
    apply (Hlast (S (length pre + j)) g'); [lia|].
    rewrite lookup_app_r by lia.
    replace (S (length pre + j) - length pre)%nat with (S j) by lia. done.
Qed.

(** What [_build_index] stores in [name_to_node] and [input_to_node]:
    a name is mapped to the last group that carries it, and an input name
    to the groups that read it, in their order and once for each time
    they list it; input names that no group reads have no entry. *)
Theorem build_index_maps (nodes_op : list NodePyGroup) (n2n : odict nat)
    (i2n : gmap string (list nat)) (o2n : gmap string nat) :
  _build_index nodes_op = Some (n2n, i2n, o2n) ->
  (forall u r, od_map n2n !! u = Some r <->
     exists g, nodes_op !! r = Some g /\ unique_name g = u /\
               forall r' g', (r < r')%nat -> nodes_op !! r' = Some g' ->
                             unique_name g' <> u) /\
  (forall x,
     default [] (i2n !! x) =
     imap pair nodes_op ≫=
       (fun e => replicate (length (filter (fun y => y = x) (inputs e.2))) e.1)) /\
  (forall x, i2n !! x = None <-> forall g, g ∈ nodes_op -> x ∉ inputs g).
Proof.
  intros H. split; [intros u r; by apply (build_index_names _ _ i2n o2n)|].
  assert (forall x, i2n !! x =
            match imap pair nodes_op ≫=
              (fun e => replicate (length (filter (fun y => y = x) (inputs e.2))) e.1) with
            | [] => None
            | l => Some l
            end) as Hi.
  { intros x. pose proof (index_loop_inputs _ _ _ x H) as Hi.
    cbn [fst snd] in Hi. by rewrite lookup_empty in Hi. }
  split.
  - intros x. rewrite Hi. by destruct (_ ≫= _).
  - intros x. rewrite Hi. split.
    + intros Hn g Hg Hx.
      apply list_elem_of_lookup in Hg as [r Hr].
      assert (r ∈ imap pair nodes_op ≫=
                (fun e => replicate (length (filter (fun y => y = x) (inputs e.2))) e.1))
        as Hin.
      { apply list_elem_of_bind. exists (r, g). split; [|by apply elem_of_imap_pair].
        cbn. assert (x ∈ filter (fun y => y = x) (inputs g)) as Hf
          by (by apply list_elem_of_filter).
        destruct (filter _ (inputs g)); [by apply elem_of_nil in Hf|]. by left. }
      destruct (_ ≫= _); [by apply elem_of_nil in Hin|done].
    + intros Hall.
      destruct (_ ≫= _) as [|r l] eqn:E; [done|]. exfalso.
      assert (r ∈ imap pair nodes_op ≫=
                (fun e => replicate (length (filter (fun y => y = x) (inputs e.2))) e.1))
        as Hin by (rewrite E; left).
      apply list_elem_of_bind in Hin as ([r' g] & Hr & Hg). cbn in Hr.
      apply elem_of_imap_pair in Hg.
      assert (filter (fun y => y = x) (inputs g) <> []) as Hf
        by (intros Hf; rewrite Hf in Hr; by apply elem_of_nil in Hr).
      destruct (filter _ (inputs g)) as [|y l'] eqn:Ef; [done|].
      assert (y ∈ filter (fun y => y = x) (inputs g)) as Hy by (rewrite Ef; left).
      apply list_elem_of_filter in Hy as [-> Hy].
      by apply (Hall g (list_elem_of_lookup_2 _ _ _ Hg)).
Qed.

(** The statement above on three groups, two of them with the same name. *)
Lemma build_index_maps_witness :
  exists n2n i2n o2n,
    _build_index [MkNodePyGroup "f" "f" "func" "aten::relu" [] ["x"] ["y"] None;
                  MkNodePyGroup "g" "g" "func" "aten::add" [] ["y"; "y"] ["z"] None;
                  MkNodePyGroup "f" "f" "func" "aten::relu" [] ["y"] ["w"] None]
    = Some (n2n, i2n, o2n) /\
    od_map n2n !! "f" = Some 2%nat /\
    default [] (i2n !! "y") = [1; 1; 2]%nat.
Proof.
  eexists _, _, _. split; [by vm_compute|].
  edestruct (build_index_maps
    [MkNodePyGroup "f" "f" "func" "aten::relu" [] ["x"] ["y"] None;
     MkNodePyGroup "g" "g" "func" "aten::add" [] ["y"; "y"] ["z"] None;
     MkNodePyGroup "f" "f" "func" "aten::relu" [] ["y"] ["w"] None]) as (Hn & Hi & _);
    [by vm_compute|].
  split.
  - apply Hn. eexists. split; [reflexivity|]. split; [reflexivity|].
    intros [|[|[|r']]] g' Hr Hg'; try lia. done.
  - rewrite Hi. reflexivity.
Defined.


Lemma index_loop_keys (entries : list (nat * NodePyGroup))
    (st st' : odict nat * gmap string (list nat) * gmap string nat) (u : string) :
  for_each index_group st entries = Some st' ->
  is_Some (od_map st'.1.1 !! u) <->
  is_Some (od_map st.1.1 !! u) \/ exists e, e ∈ entries /\ unique_name e.2 = u.
Proof.
  revert st. induction entries as [|[ref g] entries IH]; intros [[n2n i2n] o2n].
  - intros [= <-]. cbn. split; [by left|].
    intros [?|(e & ?%elem_of_nil & _)]; done.
  - cbn [for_each]. rewrite index_group_unfold.
    destruct (for_each (output_step ref) o2n (outputs g)) as [o2n1|]; [|done].
    cbn [fmap option_fmap option_map mbind option_bind].
    intros H. rewrite (IH _ H). cbn [fst snd od_set od_map].
    rewrite lookup_insert_is_Some. split.
    + intros [[Hu|[_ Hs]]|(e & He & Hu)].
      * right. exists (ref, g). split; [left|done].
      * by left.
      * right. exists e. split; [by right|done].
    + intros [Hs|(e & [->|He]%elem_of_cons & Hu)].
      * left. destruct (decide (unique_name g = u)); [by left|by right].
      * left. by left.
      * right. by exists e.
Qed.

Section Closure.
Variable self : TorchModuleGraph.
Hypothesis Hindexed : indexed self.

Lemma indexed_name_key (u : string) :
  is_Some (od_map (name_to_node self) !! u) <-> u ∈ unique_name <$> nodes_op self.
Proof.
  unfold indexed, _build_index in Hindexed.
  rewrite (index_loop_keys _ _ _ u Hindexed). cbn [fst snd od_empty od_map].
  rewrite lookup_empty, list_elem_of_fmap. split.
  - intros [[? ?]|([r g] & He & Hu)]; [done|].
    apply elem_of_imap_pair in He. exists g. split; [done|].
    by eapply list_elem_of_lookup_2.
  - intros (g & -> & [r Hr]%list_elem_of_lookup). right. exists (r, g).
    split; [by apply elem_of_imap_pair|done].
Qed.

Lemma indexed_queries (u : string) :
  (is_Some (find_predecessors self u) <-> u ∈ unique_name <$> nodes_op self) /\
  (is_Some (find_successors self u) <-> u ∈ unique_name <$> nodes_op self) /\
  (forall l, find_predecessors self u = Some l \/ find_successors self u = Some l ->
             forall v, v ∈ l -> v ∈ unique_name <$> nodes_op self).
Proof.
  pose proof (indexed_name_key u) as Hkey.
  pose proof (fun r => build_index_names _ _ _ _ u r Hindexed) as Hname.
  apply build_index_Some in Hindexed as (_ & Ho & Hi & _).
  unfold find_predecessors, find_successors.
  fold (pred_step self). fold (succ_ref_step self). fold (succ_step self).
  destruct (od_map (name_to_node self) !! u) as [r|] eqn:E; cbn [mbind option_bind].
  2:{ split_and!.
      - rewrite <- Hkey. split; by intros [? ?].
      - rewrite <- Hkey. split; by intros [? ?].
      - by intros l [?|?]. }
  destruct (proj1 (Hname r) eq_refl) as (g & Hg & _). rewrite Hg.
  cbn [mbind option_bind].
  destruct (pred_loop self (inputs g) []) as (preds & Hpreds & Hp).
  { intros x r' _ Hr. apply Ho in Hr as (g' & -> & _). by eexists. }
  destruct (succ_loop self (outputs g) []) as (succs & Hsuccs & Hs).
  { intros x refs r' _ Hrefs Hr.
    assert (r' ∈ default [] (input_to_node self !! x)) as Hr' by (by rewrite Hrefs).
    apply Hi in Hr' as (g' & -> & _). by eexists. }
  rewrite Hpreds, Hsuccs. cbn [app].
  split_and!.
  - rewrite <- Hkey. split; by eexists.
  - rewrite <- Hkey. split; by eexists.
  - intros l [[= <-]|[= <-]] v Hv.
    + apply Hp in Hv as (x & r' & g' & _ & _ & Hg' & <-).
      apply list_elem_of_fmap. exists g'. split; [done|].
      by eapply list_elem_of_lookup_2.
    + apply Hs in Hv as (x & refs & r' & g' & _ & _ & _ & Hg' & <-).
      apply list_elem_of_fmap. exists g'. split; [done|].
      by eapply list_elem_of_lookup_2.
Qed.
End Closure.

(** On a graph that [TorchModuleGraph.__init__] built, the two queries
    raise [KeyError] exactly on the names that are the [unique_name] of no
    group, and every name they return is the [unique_name] of a group, so
    that it can be queried in turn. *)
Theorem built_graph_queries_closed (torch_version : string) (fuel : nat)
    (graph_nodes : list Node) (named_modules : list (string * string))
    (self : TorchModuleGraph) (u : string) :
  TorchModuleGraph_init torch_version fuel graph_nodes named_modules = Some self ->
  (is_Some (find_predecessors self u) <-> u ∈ unique_name <$> nodes_op self) /\
  (is_Some (find_successors self u) <-> u ∈ unique_name <$> nodes_op self) /\
  (forall l, find_predecessors self u = Some l \/ find_successors self u = Some l ->
     forall v, v ∈ l ->
       is_Some (find_predecessors self v) /\ is_Some (find_successors self v)).
Proof.
  intros Hinit%init_indexed.
  destruct (indexed_queries self Hinit u) as (H1 & H2 & H3).
  split; [done|]. split; [done|].
  intros l Hl v Hv. specialize (H3 l Hl v Hv).
  destruct (indexed_queries self Hinit v) as (H1' & H2' & _).
  split; [by apply H1'|by apply H2'].
Qed.

(** The statement above on the graph of [cat_trace], at the group of
    [torch.cat]. *)
Lemma built_graph_queries_closed_witness :
  exists self,
    TorchModuleGraph_init "1.4.0" 8 cat_trace cat_modules = Some self /\
    (is_Some (find_predecessors self "_aten__cat_2") <->
     "_aten__cat_2" ∈ unique_name <$> nodes_op self).
Proof.
  eexists. split; [by vm_compute|].
  eapply (proj1 (built_graph_queries_closed "1.4.0" 8 cat_trace cat_modules _
                   "_aten__cat_2" _)).
  Unshelve. by vm_compute.
Defined.

End IndexMaps.
(** * More facts about the function groups and the auxiliary information *)
Section AuxiliaryFacts.
Import PyStr GraphUtils GraphSpec BuildSpec.

Lemma shape_info_keys (node : Node) (info : gmap string AuxVal) :
  _extract_shape_info node = Some info ->
  (exists i o, info !! "in_shape" = Some (AuxShape i) /\
               info !! "out_shape" = Some (AuxShape o)) /\
  forall k, k <> "in_shape" -> k <> "out_shape" -> info !! k = None.
Proof.
  unfold _extract_shape_info.
  destruct (head (node_inputs node)) as [t_input|]; [cbn [mbind option_bind]|done].
  destruct (node_outputs node) as [|t_output [|? ?]]; try done.
  destruct (vtype t_input) as [i|]; [|done].
  destruct (vtype t_output) as [o|]; [|done].
  intros [= <-]. split.
  - exists i, o. split; [by rewrite lookup_insert_ne, lookup_singleton_eq|].
    by rewrite lookup_insert_eq.
  - intros k H1 H2. rewrite lookup_insert_ne by done. by rewrite lookup_singleton_ne.
Qed.

Lemma aux_update_lookup (aux : option (gmap string AuxVal))
    (d : gmap string AuxVal) (k : string) :
  default ∅ (aux_update aux d) !! k =
  match d !! k with
  | Some v => Some v
  | None => default ∅ aux !! k
  end.
Proof.
  destruct aux as [a|]; cbn.
  - rewrite lookup_union. destruct (d !! k), (a !! k); done.
  - rewrite lookup_empty. by destruct (d !! k).
Qed.

(** [_extract_auxiliary_info] changes nothing but [auxiliary], where it
    keeps every key other than 'in_shape' and 'out_shape'; for the four
    operators with shapes it sets these two keys. *)
Theorem extract_auxiliary_info_keeps (self self' : TorchModuleGraph) :
  _extract_auxiliary_info self = Some self' ->
  trace_nodes self' = trace_nodes self /\
  global_count self' = global_count self /\
  leaf_modules self' = leaf_modules self /\
  name_to_node self' = name_to_node self /\
  input_to_node self' = input_to_node self /\
  output_to_node self' = output_to_node self /\
  Forall2 (fun g g' =>
             name g' = name g /\ unique_name g' = unique_name g /\
             node_type g' = node_type g /\ op_type g' = op_type g /\
             node_cpps g' = node_cpps g /\ inputs g' = inputs g /\
             outputs g' = outputs g /\
             (forall k, k <> "in_shape" -> k <> "out_shape" ->
                default ∅ (auxiliary g') !! k = default ∅ (auxiliary g) !! k) /\
             (op_type g ∈ shape_op_types ->
              exists i o,
                default ∅ (auxiliary g') !! "in_shape" = Some (AuxShape i) /\
                default ∅ (auxiliary g') !! "out_shape" = Some (AuxShape o)))
          (nodes_op self) (nodes_op self').
Proof.
  unfold _extract_auxiliary_info.
  destruct (mapM extract_auxiliary (nodes_op self)) as [l|] eqn:E;
    [cbn [mbind option_bind]|done].
  intros [= <-]. cbn. split_and!; try done.
  apply mapM_Some in E. eapply Forall2_impl; [exact E|].
  intros g g'. unfold extract_auxiliary, str_in.
  destruct (bool_decide_reflect (op_type g ∈ shape_op_types)) as [Hin|Hnin].
  - destruct (head _) as [c|]; [cbn [mbind option_bind]|done].
    destruct (_extract_shape_info c) as [info|] eqn:Ei; [cbn [mbind option_bind]|done].
    intros [= <-]. cbn [set_auxiliary name unique_name node_type op_type node_cpps
                         inputs outputs auxiliary].
    destruct (shape_info_keys _ _ Ei) as [(i & o & Hi & Ho) Hother].
    split_and!; try done.
    + intros k H1 H2. by rewrite aux_update_lookup, Hother.
    + intros _. exists i, o. by rewrite !aux_update_lookup, Hi, Ho.
  - destruct (String.eqb (op_type g) CAT_KIND).
    + destruct (head _) as [c|]; [cbn [mbind option_bind]|done].
      intros [= <-]. cbn [set_auxiliary name unique_name node_type op_type node_cpps
                           inputs outputs auxiliary].
      split_and!; try done.
      intros k _ _. rewrite aux_update_lookup. unfold _extract_cat_info.
      by rewrite lookup_empty.
    + intros [= <-]. split_and!; done.
Qed.

(** The statement above on the graph built from [cat_trace]. *)
Lemma extract_auxiliary_info_keeps_witness :
  exists self self',
    _build_graph "1.4.0" 8 cat_trace cat_modules = Some self /\
    _extract_auxiliary_info self = Some self' /\
    name_to_node self' = name_to_node self /\
    length (nodes_op self') = length (nodes_op self).
Proof.
  eexists _, _. split; [by vm_compute|]. split; [by vm_compute|].
  match goal with
  | |- name_to_node ?s' = name_to_node ?s /\ _ =>
      destruct (extract_auxiliary_info_keeps s s') as (_ & _ & _ & Hn & _ & _ & HF);
        [by vm_compute|]
  end.
  split; [exact Hn|]. symmetry. exact (Forall2_length _ _ _ HF).
Defined.

Lemma isidentifier_dot (a rest : string) :
  isidentifier (a +:+ "." +:+ rest) = false.
Proof.
  assert (all_chars is_word_char (a +:+ "." +:+ rest) = false) as Hall.
  { induction a as [|c a IH]; [done|].
    rewrite app_String. cbn [all_chars]. rewrite IH. apply andb_false_r. }
  unfold isidentifier. destruct (a +:+ "." +:+ rest) as [|c s]; [done|].
  by destruct (digit_val c).
Qed.

Lemma sub_non_word_chars (s : string) :
  all_chars is_word_char (sub_non_word s) = true /\
  String.length (sub_non_word s) = String.length s.
Proof.
  induction s as [|c s [IH1 IH2]]; [done|]. cbn [sub_non_word all_chars String.length].
  rewrite IH1, IH2. split; [|done]. by destruct (is_word_char c) eqn:E; rewrite ?E.
Qed.

Section FuncGroup.
Variable torch_version : string.
Variable nodes : list Node.
Variable output_to_node : gmap string Node.

(** The names of a function group: [name] is the module name, the kind
    of the seed and the counter, joined by dots; as it holds a dot it is never
    an identifier, so [unique_name] is always [name] with every character
    outside [0-9a-zA-Z_] replaced by an underscore. The group has the kind
    of its seed as [op_type], and its [auxiliary] holds 'input_args' only. *)
Theorem expand_non_prim_node_names (fuel global_count global_count' : nat)
    (node : Node) (module_type : string) (g : NodePyGroup) :
  _expand_non_prim_node torch_version nodes output_to_node fuel global_count
    node module_type = Some (g, global_count') ->
  global_count' = (global_count + 1)%nat /\
  name g = _get_module_name torch_version (scopeName node) +:+ "." +:+
           kind node +:+ "." +:+ str_of_nat global_count /\
  isidentifier (name g) = false /\
  unique_name g = sub_non_word (name g) /\
  all_chars is_word_char (unique_name g) = true /\
  String.length (unique_name g) = String.length (name g) /\
  node_type g = module_type /\ op_type g = kind node /\
  exists input_args, auxiliary g = Some {[ "input_args" := AuxArgs input_args ]}.
Proof.
  unfold _expand_non_prim_node.
  destruct (non_prim_loop _ _ _ _) as [st|]; [cbn [mbind option_bind]|done].
  destruct (_visit_node _ _ _ _) as [args|]; [cbn [mbind option_bind]|done].
  intros [= <- <-]. cbn [name unique_name node_type op_type auxiliary join].
  rewrite isidentifier_dot. cbn [negb].
  destruct (sub_non_word_chars
              (_get_module_name torch_version (scopeName node) +:+ "." +:+
               kind node +:+ "." +:+ str_of_nat global_count)) as [H1 H2].
  split_and!; try done. by exists args.
Qed.

(** The shapes that [_extract_auxiliary_info] gives to a function group
    of one of the four operators with shapes are those of its seed. *)
Theorem func_group_shape_of_seed (fuel global_count global_count' : nat)
    (node : Node) (module_type : string) (g : NodePyGroup) :
  _expand_non_prim_node torch_version nodes output_to_node fuel global_count
    node module_type = Some (g, global_count') ->
  kind node ∈ shape_op_types ->
  extract_auxiliary g =
    (info ← _extract_shape_info node;
     Some (set_auxiliary g (aux_update (auxiliary g) info))).
Proof.
  unfold _expand_non_prim_node.
  destruct (non_prim_loop _ _ _ _) as [st|] eqn:E; [cbn [mbind option_bind]|done].
  destruct (_visit_node _ _ _ _) as [args|]; [cbn [mbind option_bind]|done].
  intros [= <- <-] Hk. unfold extract_auxiliary, str_in.
  cbn [op_type node_cpps]. rewrite bool_decide_eq_true_2 by done.
  apply non_prim_loop_group in E as (new & -> & _). cbn [node_group app].
  rewrite filter_cons_True by done. done.
Qed.

End FuncGroup.

(** The two statements above on a constant added to a tensor, and on a
    [view] of a tensor. *)
Lemma expand_non_prim_node_names_witness :
  exists g,
    _expand_non_prim_node "1.4.0" [const_node; add_node] {[ "c1" := const_node ]}
      3 0 add_node "func" = Some (g, 1%nat) /\
    name g = ".aten::add.0" /\ unique_name g = "_aten__add_0".
Proof.
  eexists. split; [by vm_compute|].
  edestruct (expand_non_prim_node_names "1.4.0" [const_node; add_node]
               {[ "c1" := const_node ]} 3 0 1 add_node "func")
    as (_ & Hn & _ & Hu & _); [by vm_compute|].
  split; [exact Hn|]. rewrite Hu, Hn. reflexivity.
Defined.

Lemma func_group_shape_of_seed_witness :
  exists g,
    _expand_non_prim_node "1.4.0" [view_node] ∅ 2 0 view_node "func"
    = Some (g, 1%nat) /\
    extract_auxiliary g =
      (info ← _extract_shape_info view_node;
       Some (set_auxiliary g (aux_update (auxiliary g) info))).
Proof.
  eexists. split; [by vm_compute|].
  apply (func_group_shape_of_seed "1.4.0" [view_node] ∅ 2 0 1 view_node "func");
    [by vm_compute | by apply (bool_decide_unpack _)].
Defined.

End AuxiliaryFacts.
(** * More facts about the module hierarchy *)
Section HierarchyMore.
Import PyStr GraphUtils GraphSpec.

Lemma insert_from_present (name_slices rest : list string) (i : nat) (t : TreeNode) :
  is_Some (tnode_at t rest) -> insert_scope_name_from name_slices i rest t = t.
Proof.
  revert i t. induction rest as [|x rest IH]; intros i t; [done|].
  cbn [tnode_at insert_scope_name_from].
  destruct (child_tnodes t !! x) as [c|] eqn:E; cbn [mbind option_bind];
    [|by intros [? ?]].
  intros H. rewrite IH by done. rewrite insert_id by done. by destruct t.
Qed.

Lemma insert_from_graph_nodes (name_slices rest path : list string) (i : nat)
    (t t' : TreeNode) :
  tnode_at (insert_scope_name_from name_slices i rest t) path = Some t' ->
  graph_nodes t' = [] \/ (exists t0, tnode_at t path = Some t0 /\
                                      graph_nodes t' = graph_nodes t0).
Proof.
  revert i t path. induction rest as [|x rest IH]; intros i t path.
  - cbn. intros H. right. by exists t'.
  - destruct path as [|y path].
    + cbn. intros [= <-]. right. by exists t.
    + cbn [insert_scope_name_from tnode_at child_tnodes].
      destruct (decide (x = y)) as [<-|Hne].
      * rewrite lookup_insert_eq. cbn [mbind option_bind].
        destruct (child_tnodes t !! x) as [c|] eqn:E; cbn [mbind option_bind].
        -- apply IH.
        -- intros H. apply IH in H as [H|(t0 & H0 & H)]; [by left|].
           destruct path as [|z path]; [|done]. injection H0 as <-. by left.
      * rewrite lookup_insert_ne by done. intros H. right. by exists t'.
Qed.

(** [insert_scope_name] leaves a tree that already has the path as it
    is, so that inserting a scope name a second time changes nothing; it
    keeps every path of the tree, makes the inserted one a path, and
    attaches no group. *)
Theorem insert_scope_name_idempotent (root : TreeNode) (name_slices : list string) :
  (is_Some (tnode_at root name_slices) ->
   insert_scope_name root name_slices = root) /\
  insert_scope_name (insert_scope_name root name_slices) name_slices
  = insert_scope_name root name_slices /\
  is_Some (tnode_at (insert_scope_name root name_slices) name_slices) /\
  (forall path, is_Some (tnode_at root path) ->
                is_Some (tnode_at (insert_scope_name root name_slices) path)) /\
  (forall path t', tnode_at (insert_scope_name root name_slices) path = Some t' ->
     graph_nodes t' = [] \/
     exists t0, tnode_at root path = Some t0 /\ graph_nodes t' = graph_nodes t0).
Proof.
  unfold insert_scope_name. split_and!.
  - apply insert_from_present.
  - apply insert_from_present, insert_from_path.
  - apply insert_from_path.
  - intros path. apply insert_from_keeps.
  - intros path t'. apply insert_from_graph_nodes.
Qed.

(** [attach_node_to_tree] either finds every slice of the name in the
    tree and changes nothing, or stops at the first slice [x] that is not a
    child of the node [u] reached along the slices [pre] before it, and
    appends the group to the groups of [u] and to no other node. *)
Theorem attach_node_to_tree_once (root : TreeNode) (name_slices : list string)
    (node_pygroup : nat) :
  (is_Some (tnode_at root name_slices) ->
   attach_node_to_tree root name_slices node_pygroup = root) /\
  (tnode_at root name_slices = None ->
   exists pre x post u,
     name_slices = pre ++ x :: post /\ tnode_at root pre = Some u /\
     child_tnodes u !! x = None /\
     forall path,
       graph_nodes <$> tnode_at (attach_node_to_tree root name_slices node_pygroup) path
       = (fun t' => if decide (path = pre) then graph_nodes t' ++ [node_pygroup]
                    else graph_nodes t') <$> tnode_at root path).
Proof.
  split; [apply attach_full_path|].
  revert root. induction name_slices as [|x rest IH]; intros root; [done|].
  cbn [tnode_at attach_node_to_tree].
  destruct (child_tnodes root !! x) as [c|] eqn:E; cbn [mbind option_bind].
  - intros Hc. destruct (IH c Hc) as (pre & x' & post & u & -> & Hu & Hx & Hp).
    exists (x :: pre), x', post, u. split; [done|]. split; [by cbn; rewrite E|].
    split; [done|]. intros [|y path].
    + cbn. by rewrite decide_False.
    + cbn [tnode_at child_tnodes]. destruct (decide (x = y)) as [<-|Hne].
      * rewrite lookup_insert_eq, E. cbn [mbind option_bind]. rewrite Hp.
        destruct (tnode_at c path) as [t'|]; [|done]. cbn.
        destruct (decide (path = pre)) as [->|Hne].
        -- by rewrite decide_True.
        -- rewrite decide_False; [done|]. by intros [= ?].
      * rewrite lookup_insert_ne by done.
        destruct (child_tnodes root !! y ≫= _) as [t'|]; [|done]. cbn.
        rewrite decide_False; [done|]. by intros [= ?].
  - intros _. exists [], x, rest, root. split; [done|]. split; [done|].
    split; [done|]. intros [|y path].
    + cbn. by rewrite decide_True.
    + cbn [tnode_at child_tnodes].
      destruct (child_tnodes root !! y ≫= _) as [t'|]; [|done]. cbn.
      by rewrite decide_False.
Qed.

(** The statement above for the group of [torch.cat] on the scope tree of
    [cat_trace]. *)
Lemma attach_node_to_tree_once_witness :
  exists pre x post u,
    [""; "aten::cat"; "2"] = pre ++ x :: post /\
    tnode_at (scope_name_tree cat_trace) pre = Some u /\
    child_tnodes u !! x = None /\
    forall path,
      graph_nodes
        <$> tnode_at (attach_node_to_tree (scope_name_tree cat_trace)
                        [""; "aten::cat"; "2"] 2%nat) path
      = (fun t' => if decide (path = pre) then graph_nodes t' ++ [2%nat]
                   else graph_nodes t') <$> tnode_at (scope_name_tree cat_trace) path.
Proof.
  apply (proj2 (attach_node_to_tree_once (scope_name_tree cat_trace)
                  [""; "aten::cat"; "2"] 2%nat)).
  by vm_compute.
Defined.

End HierarchyMore.
(** * The groups that [_build_graph] builds *)
Section BuildGraphFacts.
Import PyStr GraphUtils GraphSpec BuildSpec.

Lemma od_empty_wf {V} : od_wf (@od_empty V).
Proof.
  split; [constructor|]. intros k. cbn. rewrite lookup_empty. split.
  - by intros ?%elem_of_nil.
  - by intros [? ?].
Qed.

Lemma od_set_wf {V} (k : string) (v : V) (d : odict V) :
  od_wf d -> od_wf (od_set k v d).
Proof.
  intros [Hnd Hkeys]. unfold od_set, od_wf.
  destruct (decide (is_Some (od_map d !! k))) as [Hs|Hn]; cbn [od_keys od_map]; split.
  - done.
  - intros k'. rewrite lookup_insert_is_Some, Hkeys.
    destruct (decide (k = k')) as [<-|?]; [tauto|]. tauto.
  - apply NoDup_app. split; [done|]. split; [|apply NoDup_singleton].
    intros x Hx ->%list_elem_of_singleton. by apply Hn, Hkeys.
  - intros k'. rewrite lookup_insert_is_Some, elem_of_app, list_elem_of_singleton, Hkeys.
    destruct (decide (k = k')) as [<-|?]; [tauto|]. split; [|tauto].
    intros [?|?]; [tauto|]. by subst.
Qed.

Lemma od_items_elem {V} (d : odict V) (k : string) (v : V) :
  od_wf d -> (k, v) ∈ od_items d <-> od_map d !! k = Some v.
Proof.
  intros [Hnd Hkeys]. unfold od_items. rewrite list_elem_of_omap. split.
  - intros (k' & Hk' & H). destruct (od_map d !! k') as [v'|] eqn:E; [|done].
    cbn in H. by injection H as <- <-.
  - intros H. exists k. split; [apply Hkeys; by eexists|]. by rewrite H.
Qed.

Lemma od_items_keys {V} (d : odict V) : od_wf d -> NoDup (fst <$> od_items d).
Proof.
  intros [Hnd Hkeys]. unfold od_items.
  assert (forall l : list string, (forall k, k ∈ l -> is_Some (od_map d !! k)) ->
            fst <$> omap (fun k => (fun v => (k, v)) <$> od_map d !! k) l = l) as H.
  { induction l as [|k l IH]; intros Hl; [done|]. cbn [omap list_omap].
    destruct (Hl k ltac:(left)) as [v ->]. cbn. f_equal. apply IH.
    intros k' Hk'. apply Hl. by right. }
  rewrite H; [done|]. intros k. apply Hkeys.
Qed.

(** The two dictionaries that the first loop of [_build_graph] fills. *)
Lemma partition_nodes (P : Node -> bool) (key1 key2 : Node -> string)
    (graph_nodes : list Node) :
  let acc :=
    foldl (fun (acc : odict (list Node) * odict (list Node)) node =>
             if P node then (od_append (key1 node) node acc.1, acc.2)
             else (acc.1, od_append (key2 node) node acc.2))
          (od_empty, od_empty) graph_nodes in
  od_wf acc.1 /\ od_wf acc.2 /\
  (forall k l, od_map acc.1 !! k = Some l ->
     forall n, n ∈ l <-> n ∈ graph_nodes /\ P n = true /\ key1 n = k) /\
  (forall k l, od_map acc.2 !! k = Some l ->
     forall n, n ∈ l <-> n ∈ graph_nodes /\ P n = false /\ key2 n = k) /\
  (forall n, n ∈ graph_nodes -> P n = true -> is_Some (od_map acc.1 !! key1 n)) /\
  (forall n, n ∈ graph_nodes -> P n = false -> is_Some (od_map acc.2 !! key2 n)) /\
  (forall k, od_map acc.1 !! k <> Some []) /\
  (forall k, od_map acc.2 !! k <> Some []).
Proof.
  induction graph_nodes as [|node graph_nodes IH] using rev_ind.
  - cbn. split_and!; try apply od_empty_wf.
    + intros k l. by rewrite lookup_empty.
    + intros k l. by rewrite lookup_empty.
    + by intros n ?%elem_of_nil.
    + by intros n ?%elem_of_nil.
    + intros k. by rewrite lookup_empty.
    + intros k. by rewrite lookup_empty.
  - rewrite foldl_app. cbn [foldl]. cbv zeta in IH.
    destruct (foldl _ _ graph_nodes) as [d1 d2].
    destruct IH as (W1 & W2 & H1 & H2 & S1 & S2 & N1 & N2). cbn [fst snd] in *.
    destruct (P node) eqn:EP; cbn [fst snd]; unfold od_append.
    + split_and!; [by apply od_set_wf|done| | | | | |done].
      * intros k l. cbn [od_set od_map].
        destruct (decide (key1 node = k)) as [<-|Hne].
        -- rewrite lookup_insert_eq. intros [= <-] n.
           rewrite !elem_of_app, list_elem_of_singleton.
           destruct (od_map d1 !! key1 node) as [l0|] eqn:E; cbn [default].
           ++ rewrite (H1 _ _ E). split; [|intros [[? | ->] ?]; tauto].
              intros [? | ->]; tauto.
           ++ split; [intros [?%elem_of_nil| ->]; [done|tauto]|].
              intros [[Hn| ->] [HP Hk]]; [|by right].
              destruct (S1 n Hn HP) as [? Hs]. rewrite Hk, E in Hs. done.
        -- rewrite lookup_insert_ne by done. intros Hl n. rewrite (H1 _ _ Hl).
           rewrite elem_of_app, list_elem_of_singleton. split; [tauto|].
           intros [[?| ->] [? ?]]; [tauto|done].
      * intros k l Hl n. rewrite (H2 _ _ Hl), elem_of_app, list_elem_of_singleton.
        split; [tauto|]. intros [[?| ->] [? ?]]; [tauto|congruence].
      * intros n [Hn| ->%list_elem_of_singleton]%elem_of_app HP; cbn [od_set od_map].
        -- rewrite lookup_insert_is_Some.
           destruct (decide (key1 node = key1 n)); [by left|right]. split; [done|].
           by apply S1.
        -- rewrite lookup_insert_eq. by eexists.
      * intros n [Hn| ->%list_elem_of_singleton]%elem_of_app HP; [by apply S2|].
        congruence.
      * intros k. cbn [od_set od_map].
        destruct (decide (key1 node = k)) as [<-|Hne].
        -- rewrite lookup_insert_eq. intros [= H]. by destruct (default _ _).
        -- by rewrite lookup_insert_ne.
    + split_and!; [done|by apply od_set_wf| | | | |done|].
      * intros k l Hl n. rewrite (H1 _ _ Hl), elem_of_app, list_elem_of_singleton.
        split; [tauto|]. intros [[?| ->] [? ?]]; [tauto|congruence].
      * intros k l. cbn [od_set od_map].
        destruct (decide (key2 node = k)) as [<-|Hne].
        -- rewrite lookup_insert_eq. intros [= <-] n.
           rewrite !elem_of_app, list_elem_of_singleton.
           destruct (od_map d2 !! key2 node) as [l0|] eqn:E; cbn [default].
           ++ rewrite (H2 _ _ E). split; [|intros [[? | ->] ?]; tauto].
              intros [? | ->]; tauto.
           ++ split; [intros [?%elem_of_nil| ->]; [done|tauto]|].
              intros [[Hn| ->] [HP Hk]]; [|by right].
              destruct (S2 n Hn HP) as [? Hs]. rewrite Hk, E in Hs. done.
        -- rewrite lookup_insert_ne by done. intros Hl n. rewrite (H2 _ _ Hl).
           rewrite elem_of_app, list_elem_of_singleton. split; [tauto|].
           intros [[?| ->] [? ?]]; [tauto|done].
      * intros n [Hn| ->%list_elem_of_singleton]%elem_of_app HP; [by apply S1|].
        congruence.
      * intros n [Hn| ->%list_elem_of_singleton]%elem_of_app HP; cbn [od_set od_map].
        -- rewrite lookup_insert_is_Some.
           destruct (decide (key2 node = key2 n)); [by left|right]. split; [done|].
           by apply S2.
        -- rewrite lookup_insert_eq. by eexists.
      * intros k. cbn [od_set od_map].
        destruct (decide (key2 node = k)) as [<-|Hne].
        -- rewrite lookup_insert_eq. intros [= H]. by destruct (default _ _).
        -- by rewrite lookup_insert_ne.
Qed.


Section Expansion.
Variable torch_version : string.
Variable fuel : nat.
Variable nodes : list Node.
Variable input_to_node_ output_to_node_ : gmap string Node.

Lemma module_visit_input_grows (st : ExpandState) (v : Value) :
  exists new,
    node_group (module_visit_input nodes output_to_node_ st v) = node_group st ++ new /\
    Forall (fun n => n ∈ nodes) new.
Proof.
  unfold module_visit_input.
  destruct (output_to_node_ !! debugName v) as [m|];
    [|exists []; by rewrite app_nil_r].
  destruct (node_in m nodes) eqn:E; [|exists []; by rewrite app_nil_r].
  destruct (negb _); [|exists []; by rewrite app_nil_r].
  exists [m]. split; [done|]. constructor; [|done]. by apply node_in_true.
Qed.

Lemma module_visit_output_grows (st : ExpandState) (v : Value) :
  exists new,
    node_group (module_visit_output nodes input_to_node_ st v) = node_group st ++ new /\
    Forall (fun n => n ∈ nodes) new.
Proof.
  unfold module_visit_output.
  destruct (input_to_node_ !! debugName v) as [m|];
    [|exists []; by rewrite app_nil_r].
  destruct (node_in m nodes) eqn:E; [|exists []; by rewrite app_nil_r].
  destruct (negb _); [|exists []; by rewrite app_nil_r].
  exists [m]. split; [done|]. constructor; [|done]. by apply node_in_true.
Qed.

Lemma foldl_grows {A} (f : ExpandState -> A -> ExpandState) (l : list A)
    (st : ExpandState) :
  (forall st v, exists new, node_group (f st v) = node_group st ++ new /\
                            Forall (fun n => n ∈ nodes) new) ->
  exists new, node_group (foldl f st l) = node_group st ++ new /\
              Forall (fun n => n ∈ nodes) new.
Proof.
  intros Hf. revert st. induction l as [|v l IH]; intros st.
  - exists []. by rewrite app_nil_r.
  - cbn [foldl]. destruct (Hf st v) as (new1 & E1 & F1).
    destruct (IH (f st v)) as (new2 & E2 & F2).
    exists (new1 ++ new2). rewrite E2, E1, app_assoc. split; [done|].
    by apply Forall_app.
Qed.

Lemma module_loop_grows (fuel' : nat) (st st' : ExpandState) :
  module_loop nodes input_to_node_ output_to_node_ fuel' st = Some st' ->
  exists new, node_group st' = node_group st ++ new /\
              Forall (fun n => n ∈ nodes) new.
Proof.
  revert st. induction fuel' as [|fuel' IH]; intros st.
  - cbn. destruct (node_queue st); [|done]. intros [= <-].
    exists []. by rewrite app_nil_r.
  - cbn [module_loop]. destruct (node_queue st) as [|curr rest].
    + intros [= <-]. exists []. by rewrite app_nil_r.
    + intros H. apply IH in H as (new2 & E2 & F2). unfold module_visit in E2.
      destruct (foldl_grows (module_visit_input nodes output_to_node_)
                  (node_inputs curr)
                  (MkExpandState rest (node_group st) (visited st)
                     (acc_inputs st) (acc_outputs st))
                  module_visit_input_grows) as (new0 & E0 & F0).
      destruct (foldl_grows (module_visit_output nodes input_to_node_)
                  (node_outputs curr)
                  (foldl (module_visit_input nodes output_to_node_)
                     (MkExpandState rest (node_group st) (visited st)
                        (acc_inputs st) (acc_outputs st)) (node_inputs curr))
                  module_visit_output_grows) as (new1 & E1 & F1).
      rewrite E1, E0 in E2. cbn [node_group] in E2.
      exists (new0 ++ new1 ++ new2). rewrite E2, <- !app_assoc. split; [done|].
      by repeat apply Forall_app_2.
Qed.

(** What [_expand_module_node] returns, when it returns. *)
Lemma expand_module_node_fields (global_count : nat) (node : Node)
    (node_name unique_name_ op_type_ module_type : string)
    (g : NodePyGroup) (global_count' : nat) :
  _expand_module_node nodes input_to_node_ output_to_node_ fuel global_count
    node node_name unique_name_ op_type_ module_type = Some (g, global_count') ->
  node ∈ nodes ->
  global_count' = (global_count + 1)%nat /\ name g = node_name /\
  unique_name g = unique_name_ /\ node_type g = module_type /\
  node ∈ node_cpps g /\ forall n, n ∈ node_cpps g -> n ∈ nodes.
Proof.
  unfold _expand_module_node.
  destruct (module_loop _ _ _ _ _) as [st|] eqn:E; [cbn [mbind option_bind]|done].
  intros [= <- <-] Hnode. cbn [name unique_name node_type node_cpps].
  apply module_loop_grows in E as (new & -> & Hnew). cbn [node_group].
  split_and!; try done.
  - by left.
  - intros n [->%list_elem_of_singleton|Hn]%elem_of_app; [done|].
    by apply (proj1 (Forall_forall _ _) Hnew).
Qed.

(** What [_expand_non_prim_node] returns, when it returns. *)
Lemma expand_non_prim_node_fields (global_count : nat) (node : Node)
    (module_type : string) (g : NodePyGroup) (global_count' : nat) :
  _expand_non_prim_node torch_version nodes output_to_node_ fuel global_count
    node module_type = Some (g, global_count') ->
  global_count' = (global_count + 1)%nat /\
  name g = join "." [_get_module_name torch_version (scopeName node); kind node;
                     str_of_nat global_count] /\
  node_type g = module_type /\ head (node_cpps g) = Some node.
Proof.
  unfold _expand_non_prim_node.
  destruct (non_prim_loop _ _ _ _) as [st|] eqn:E; [cbn [mbind option_bind]|done].
  destruct (_visit_node _ _ _ _) as [args|]; [cbn [mbind option_bind]|done].
  intros [= <- <-]. cbn [name node_type node_cpps].
  apply non_prim_loop_group in E as (new & -> & _). done.
Qed.

(** The groups of one module: the loop over its trace nodes. *)
Lemma module_uses (module_name op_type_ : string) (l : list Node)
    (use_count : nat) (merged : list Node) (ops : list NodePyGroup) (gc : nat)
    (st' : nat * list Node * list NodePyGroup * nat) :
  for_each (expand_module_use fuel module_name op_type_ nodes
              input_to_node_ output_to_node_)
           (use_count, merged, ops, gc) l = Some st' ->
  Forall (fun n => n ∈ nodes) l ->
  exists new,
    st'.1.2 = ops ++ new /\ st'.2 = (gc + length new)%nat /\
    st'.1.1.1 = (use_count + length new)%nat /\
    Forall (fun g => name g = module_name /\ node_type g = "module" /\
                     forall n, n ∈ node_cpps g -> n ∈ nodes) new /\
    (forall j g, new !! j = Some g ->
       unique_name g = if (0 <? use_count + j)%nat
                       then module_name +:+ "." +:+ str_of_nat (use_count + j)
                       else module_name) /\
    (forall n, n ∈ st'.1.1.2 <->
               n ∈ merged \/ exists g, g ∈ new /\ n ∈ node_cpps g) /\
    (forall n, n ∈ l -> n ∈ st'.1.1.2).
Proof.
  revert use_count merged ops gc.
  induction l as [|node l IH]; intros use_count merged ops gc.
  - intros [= <-] _. exists []. cbn. rewrite app_nil_r, !Nat.add_0_r.
    split_and!; try done.
    + intros n. split; [by left|]. intros [?|(g & ?%elem_of_nil & _)]; done.
    + by intros n ?%elem_of_nil.
  - cbn [for_each]. intros H Hl. apply Forall_cons in Hl as [Hnode Hl].
    destruct (expand_module_use _ _ _ _ _ _ _ node) as [st1|] eqn:Estep;
      [cbn [mbind option_bind] in H|done].
    unfold expand_module_use in Estep.
    destruct (node_in node merged) eqn:Em; cbn [negb] in Estep.
    + injection Estep as <-.
      destruct (IH _ _ _ _ H Hl) as (new & E1 & E2 & E3 & HF & Hu & Hm & Hcov).
      exists new. split_and!; try done.
      intros n [->|Hn]%elem_of_cons; [|by apply Hcov].
      apply Hm. left. by apply node_in_true.
    + destruct (_expand_module_node _ _ _ _ _ _ _ _ _ _) as [[g gc1]|] eqn:Eg;
        [cbn [mbind option_bind fst snd] in Estep|done].
      injection Estep as <-.
      apply expand_module_node_fields in Eg as (-> & Hname & Huniq & Htype & Hseed & Hsub);
        [|done].
      destruct (IH _ _ _ _ H Hl) as (new & E1 & E2 & E3 & HF & Hu & Hm & Hcov).
      exists (g :: new). cbn [length]. split_and!.
      * by rewrite E1, <- app_assoc.
      * lia.
      * lia.
      * by constructor.
      * intros [|j] g' Hj.
        -- injection Hj as <-. by rewrite Nat.add_0_r.
        -- cbn in Hj. rewrite (Hu j g' Hj).
           replace (use_count + 1 + j)%nat with (use_count + S j)%nat by lia. done.
      * intros n. rewrite Hm, elem_of_app. split.
        -- intros [[?|?]|(g' & Hg' & Hn)]; [by left| |].
           ++ right. exists g. split; [left|done].
           ++ right. exists g'. split; [by right|done].
        -- intros [?|(g' & [->|Hg']%elem_of_cons & Hn)];
             [by left; left|by left; right|right; by exists g'].
      * intros n [->|Hn]%elem_of_cons; [|by apply Hcov].
        apply Hm. left. apply elem_of_app. by right.
Qed.

(** The groups of the functions of one scope: the loop over its
    non-prim nodes. *)
Lemma func_uses (l : list Node) (ops : list NodePyGroup) (gc : nat)
    (st' : list NodePyGroup * nat) :
  for_each (expand_func torch_version fuel nodes input_to_node_ output_to_node_)
           (ops, gc) l = Some st' ->
  exists new,
    st'.1 = ops ++ new /\ st'.2 = (gc + length new)%nat /\
    length new = length l /\
    forall j g, new !! j = Some g ->
      exists seed, l !! j = Some seed /\ head (node_cpps g) = Some seed /\
        node_type g = "func" /\
        name g = join "." [_get_module_name torch_version (scopeName seed);
                           kind seed; str_of_nat (gc + j)].
Proof.
  revert ops gc. induction l as [|node l IH]; intros ops gc.
  - intros [= <-]. exists []. cbn. rewrite app_nil_r, Nat.add_0_r. done.
  - cbn [for_each]. intros H.
    destruct (expand_func _ _ _ _ _ _ node) as [st1|] eqn:Estep;
      [cbn [mbind option_bind] in H|done].
    unfold expand_func in Estep.
    destruct (_expand_non_prim_node _ _ _ _ _ _ _) as [[g gc1]|] eqn:Eg;
      [cbn [mbind option_bind fst snd] in Estep|done].
    injection Estep as <-.
    apply expand_non_prim_node_fields in Eg as (-> & Hname & Htype & Hseed).
    destruct (IH _ _ H) as (new & E1 & E2 & E3 & Hj).
    exists (g :: new). cbn [length]. split_and!.
    + by rewrite E1, <- app_assoc.
    + lia.
    + lia.
    + intros [|j] g' Hg'.
      * injection Hg' as <-. exists node. by rewrite Nat.add_0_r.
      * cbn in Hg'. destruct (Hj j g' Hg') as (seed & ? & ? & ? & Hn).
        exists seed. split_and!; try done.
        by replace (gc + S j)%nat with (gc + 1 + j)%nat by lia.
Qed.

End Expansion.


Lemma filter_all {A} (P : A -> Prop) `{forall x, Decision (P x)} (l : list A) :
  Forall P l -> filter P l = l.
Proof.
  induction 1 as [|x l Hx _ IH]; [done|]. by rewrite filter_cons_True, IH.
Qed.

Lemma filter_none {A} (P : A -> Prop) `{forall x, Decision (P x)} (l : list A) :
  Forall (fun x => ~ P x) l -> filter P l = [].
Proof.
  induction 1 as [|x l Hx _ IH]; [done|]. by rewrite filter_cons_False.
Qed.

Lemma list_elem_of_take {A} (x : A) (n : nat) (l : list A) : x ∈ take n l -> x ∈ l.
Proof.
  intros [i Hi]%list_elem_of_lookup. apply lookup_take_Some in Hi as [Hi _].
  by eapply list_elem_of_lookup_2.
Qed.

(** The loop of [_build_graph] over the modules. *)
Lemma module_groups (fuel : nat) (module_to_type : gmap string string)
    (input_to_node_ output_to_node_ : gmap string Node)
    (items : list (string * list Node)) (ops : list NodePyGroup) (gc : nat)
    (st' : list NodePyGroup * nat) :
  for_each
    (fun (st : list NodePyGroup * nat) (item : string * list Node) =>
       let '(module_name, node_cpps_) := item in
       op_type_ ← module_to_type !! module_name;
       r ← for_each (expand_module_use fuel module_name op_type_ node_cpps_
                       input_to_node_ output_to_node_)
              (O, [], st.1, st.2) node_cpps_;
       Some (r.1.2, r.2))
    (ops, gc) items = Some st' ->
  exists new,
    st'.1 = ops ++ new /\ st'.2 = (gc + length new)%nat /\
    Forall (fun g => node_type g = "module" /\
                     exists cpps, (name g, cpps) ∈ items /\
                                  forall n, n ∈ node_cpps g -> n ∈ cpps) new /\
    (forall m cpps n, (m, cpps) ∈ items -> n ∈ cpps ->
       exists g, g ∈ new /\ name g = m /\ n ∈ node_cpps g) /\
    (NoDup (fst <$> items) ->
     forall j g, new !! j = Some g ->
       let c := length (filter (fun g' => name g' = name g) (take j new)) in
       unique_name g = if (0 <? c)%nat then name g +:+ "." +:+ str_of_nat c
                       else name g).
Proof.
  revert ops gc. induction items as [|[m cpps] items IH]; intros ops gc.
  - intros [= <-]. exists []. cbn. rewrite app_nil_r, Nat.add_0_r.
    split_and!; try done. by intros m cpps n ?%elem_of_nil.
  - cbn [for_each].
    destruct (module_to_type !! m) as [ot|]; [cbn [mbind option_bind]|done].
    destruct (for_each _ (O, [], _, _) cpps) as [r|] eqn:Er;
      [cbn [mbind option_bind fst snd]|done].
    cbn [fst snd] in Er.
    apply module_uses in Er as (new1 & E1 & E2 & _ & HF1 & Hu1 & Hm1 & Hcov1);
      [|by apply Forall_forall].
    intros H. replace (r.1.2, r.2) with (ops ++ new1, (gc + length new1)%nat) in H
      by (by rewrite <- E1, <- E2).
    destruct (IH _ _ H) as (new2 & E3 & E4 & HF2 & Hcov2 & Hu2).
    exists (new1 ++ new2). rewrite length_app. split_and!.
    + by rewrite E3, app_assoc.
    + lia.
    + apply Forall_app. split.
      * eapply Forall_impl; [exact HF1|]. intros g (Hn & Ht & Hs).
        split; [done|]. exists cpps. rewrite Hn. split; [left|done].
      * eapply Forall_impl; [exact HF2|]. intros g (Ht & cpps' & Hi & Hs).
        split; [done|]. exists cpps'. split; [by right|done].
    + intros m' cpps' n [[= -> ->]|Hi]%elem_of_cons Hn.
      * specialize (Hcov1 n Hn). apply Hm1 in Hcov1 as [?%elem_of_nil|(g & Hg & Hng)];
          [done|].
        exists g. split; [apply elem_of_app; by left|]. split; [|done].
        by apply (proj1 (Forall_forall _ _) HF1 g Hg).
      * destruct (Hcov2 m' cpps' n Hi Hn) as (g & Hg & ? & ?).
        exists g. split; [apply elem_of_app; by right|done].
    + cbn [fmap list_fmap fst]. intros [Hm Hnd]%NoDup_cons j g Hg.
      assert (forall g', g' ∈ new1 -> name g' = m) as Hn1.
      { intros g' Hg'. by apply (proj1 (Forall_forall _ _) HF1 g' Hg'). }
      assert (forall g', g' ∈ new2 -> name g' <> m) as Hn2.
      { intros g' Hg' Hn. apply (proj1 (Forall_forall _ _) HF2) in Hg'
          as (_ & cpps' & Hi & _).
        apply Hm, list_elem_of_fmap. exists (name g', cpps'). by split. }
      apply lookup_app_Some in Hg as [Hg|[Hlen Hg]].
      * rewrite take_app_le by (apply lookup_lt_Some in Hg; lia).
        rewrite (Hu1 j g Hg). cbn [Nat.add].
        rewrite (Hn1 g) by (by eapply list_elem_of_lookup_2).
        rewrite filter_all.
        2:{ apply Forall_forall. intros g' Hg'%list_elem_of_take. by apply Hn1. }
        rewrite length_take_le by (apply lookup_lt_Some in Hg; lia). done.
      * rewrite take_app_ge by done. rewrite filter_app, length_app.
        assert (name g <> m) as Hne by (apply Hn2; by eapply list_elem_of_lookup_2).
        rewrite filter_none.
        2:{ apply Forall_forall. intros g' Hg' Hn. rewrite (Hn1 g' Hg') in Hn. done. }
        cbn [length Nat.add]. by apply Hu2.
Qed.

(** The loop of [_build_graph] over the scopes of the functions. *)
Lemma func_groups (torch_version : string) (fuel : nat)
    (input_to_node_ output_to_node_ : gmap string Node)
    (items : list (string * list Node)) (ops : list NodePyGroup) (gc : nat)
    (st' : list NodePyGroup * nat) :
  for_each
    (fun (st : list NodePyGroup * nat) (item : string * list Node) =>
       let non_prim_nodes := filter (fun n => is_prim n = false) item.2 in
       for_each (expand_func torch_version fuel item.2 input_to_node_ output_to_node_)
                st non_prim_nodes)
    (ops, gc) items = Some st' ->
  exists new,
    st'.1 = ops ++ new /\ st'.2 = (gc + length new)%nat /\
    (forall j g, new !! j = Some g ->
       node_type g = "func" /\
       exists seed s ns,
         (s, ns) ∈ items /\ seed ∈ ns /\ is_prim seed = false /\
         head (node_cpps g) = Some seed /\
         name g = join "." [_get_module_name torch_version (scopeName seed);
                            kind seed; str_of_nat (gc + j)]) /\
    (forall s ns n, (s, ns) ∈ items -> n ∈ ns -> is_prim n = false ->
       exists g, g ∈ new /\ node_type g = "func" /\ head (node_cpps g) = Some n).
Proof.
  revert ops gc. induction items as [|[s ns] items IH]; intros ops gc.
  - intros [= <-]. exists []. cbn. rewrite app_nil_r, Nat.add_0_r.
    split_and!; try done. by intros s ns n ?%elem_of_nil.
  - cbn [for_each snd]. cbv zeta.
    destruct (for_each _ (ops, gc) (filter _ ns)) as [r|] eqn:Er;
      [cbn [mbind option_bind]|done].
    apply func_uses in Er as (new1 & E1 & E2 & E3 & Hj1).
    intros H. destruct r as [ops1 gc1]. cbn [fst snd] in *. subst ops1 gc1.
    destruct (IH _ _ H) as (new2 & E4 & E5 & Hj2 & Hcov2).
    exists (new1 ++ new2). rewrite length_app. split_and!.
    + by rewrite E4, app_assoc.
    + lia.
    + intros j g Hg. apply lookup_app_Some in Hg as [Hg|[Hlen Hg]].
      * destruct (Hj1 j g Hg) as (seed & Hl & Hh & Ht & Hn). split; [done|].
        apply list_elem_of_lookup_2, list_elem_of_filter in Hl as [Hp Hl].
        exists seed, s, ns. split_and!; try done. left.
      * destruct (Hj2 _ g Hg) as (Ht & seed & s' & ns' & Hi & Hs & Hp & Hh & Hn).
        split; [done|]. exists seed, s', ns'. split_and!; try done; [by right|].
        rewrite Hn. by replace (gc + length new1 + (j - length new1))%nat
                          with (gc + j)%nat by lia.
    + intros s' ns' n [[= -> ->]|Hi]%elem_of_cons Hn Hp.
      * assert (n ∈ filter (fun n => is_prim n = false) ns) as Hf
          by (by apply list_elem_of_filter).
        apply list_elem_of_lookup in Hf as [j Hj].
        destruct (lookup_lt_is_Some_2 new1 j) as [g Hg];
          [rewrite E3; by eapply lookup_lt_Some|].
        destruct (Hj1 j g Hg) as (seed & Hl & Hh & Ht & _).
        exists g. split; [apply elem_of_app; left; by eapply list_elem_of_lookup_2|].
        split; [done|]. congruence.
      * destruct (Hcov2 s' ns' n Hi Hn Hp) as (g & Hg & ? & ?).
        exists g. split; [apply elem_of_app; by right|done].
Qed.

(** The groups of a built graph, before the auxiliary information. *)
Lemma build_graph_structure (torch_version : string) (fuel : nat)
    (graph_nodes : list Node) (named_modules : list (string * string))
    (self : TorchModuleGraph) :
  _build_graph torch_version fuel graph_nodes named_modules = Some self ->
  let module_name n := _get_module_name torch_version (scopeName n) in
  leaf_modules self = _extract_leaf_modules (fst <$> named_modules) /\
  global_count self = length (nodes_op self) /\
  exists mods funcs,
    nodes_op self = mods ++ funcs /\
    Forall (fun g => node_type g = "module" /\ name g ∈ leaf_modules self /\
                     forall n, n ∈ node_cpps g ->
                               n ∈ graph_nodes /\ module_name n = name g) mods /\
    (forall j g, funcs !! j = Some g ->
       node_type g = "func" /\
       exists seed, head (node_cpps g) = Some seed /\ seed ∈ graph_nodes /\
                    is_prim seed = false /\ (module_name seed ∉ leaf_modules self) /\
                    name g = join "." [module_name seed; kind seed;
                                       str_of_nat (length mods + j)]) /\
    (forall n, n ∈ graph_nodes -> module_name n ∈ leaf_modules self ->
       exists g, g ∈ mods /\ name g = module_name n /\ n ∈ node_cpps g) /\
    (forall n, n ∈ graph_nodes -> module_name n ∉ leaf_modules self ->
       is_prim n = false ->
       exists g, g ∈ funcs /\ node_type g = "func" /\ head (node_cpps g) = Some n) /\
    (forall j g, mods !! j = Some g ->
       let c := length (filter (fun g' => name g' = name g) (take j mods)) in
       unique_name g = if (0 <? c)%nat then name g +:+ "." +:+ str_of_nat c
                       else name g).
Proof.
  unfold _build_graph. cbv zeta.
  pose proof (partition_nodes
    (fun node => str_in (_get_module_name torch_version (scopeName node))
                        (_extract_leaf_modules (fst <$> named_modules)))
    (fun node => _get_module_name torch_version (scopeName node))
    scopeName graph_nodes) as HP.
  cbv zeta in HP.
  destruct (foldl _ (od_empty, od_empty) graph_nodes) as [m2n f2n].
  destruct HP as (W1 & W2 & H1 & H2 & S1 & S2 & N1 & N2). cbn [fst snd] in *.
  destruct (for_each _ ([], O) (od_items m2n)) as [r1|] eqn:E1;
    [cbn [mbind option_bind]|done].
  destruct (for_each _ r1 (od_items f2n)) as [r2|] eqn:E2;
    [cbn [mbind option_bind]|done].
  destruct (_build_index r2.1) as [idx|]; [cbn [mbind option_bind]|done].
  intros [= <-]. cbn [leaf_modules global_count nodes_op].
  apply module_groups in E1 as (mods & Em1 & Em2 & HFm & Hcovm & Hum).
  destruct r1 as [ops1 gc1]. cbn [fst snd app] in Em1, Em2. subst ops1 gc1.
  apply func_groups in E2 as (funcs & Ef1 & Ef2 & Hjf & Hcovf).
  rewrite Ef1, Ef2. cbn [Nat.add].
  split; [done|]. split; [by rewrite length_app|].
  exists mods, funcs. split; [done|]. split_and!.
  - eapply Forall_impl; [exact HFm|]. intros g (Ht & cpps & Hi & Hs).
    apply od_items_elem in Hi; [|done]. split; [done|].
    assert (forall n, n ∈ node_cpps g ->
              n ∈ graph_nodes /\
              str_in (_get_module_name torch_version (scopeName n))
                     (_extract_leaf_modules (fst <$> named_modules)) = true /\
              _get_module_name torch_version (scopeName n) = name g) as Hall.
    { intros n Hn. by apply (H1 _ _ Hi), Hs. }
    split.
    + destruct cpps as [|n cpps]; [by apply N1 in Hi|].
      destruct (proj1 (H1 _ _ Hi n) ltac:(left)) as (_ & Hl & <-).
      by apply bool_decide_eq_true in Hl.
    + intros n Hn. destruct (Hall n Hn) as (? & _ & ?). done.
  - intros j g Hg. destruct (Hjf j g Hg) as (Ht & seed & s & ns & Hi & Hs & Hp & Hh & Hn).
    split; [done|]. apply od_items_elem in Hi; [|done].
    apply (H2 _ _ Hi) in Hs as (Hin & Hl & _).
    exists seed. split_and!; try done.
    intros Hleaf. unfold str_in in Hl. by rewrite bool_decide_eq_true_2 in Hl.
  - intros n Hn Hleaf.
    destruct (S1 n Hn) as [cpps Hc]; [by apply bool_decide_eq_true_2|].
    apply (Hcovm (_get_module_name torch_version (scopeName n)) cpps n);
      [by apply od_items_elem|].
    apply (H1 _ _ Hc). split; [done|]. split; [by apply bool_decide_eq_true_2|done].
  - intros n Hn Hleaf Hp.
    destruct (S2 n Hn) as [ns Hc]; [by apply bool_decide_eq_false_2|].
    apply (Hcovf (scopeName n) ns n); [by apply od_items_elem| |done].
    apply (H2 _ _ Hc). split; [done|]. split; [by apply bool_decide_eq_false_2|done].
  - apply Hum. by apply od_items_keys.
Qed.


Lemma extract_auxiliary_fields (g g' : NodePyGroup) :
  extract_auxiliary g = Some g' ->
  name g' = name g /\ unique_name g' = unique_name g /\
  node_type g' = node_type g /\ op_type g' = op_type g /\
  node_cpps g' = node_cpps g /\ inputs g' = inputs g /\ outputs g' = outputs g.
Proof.
  unfold extract_auxiliary.
  destruct (str_in (op_type g) shape_op_types).
  - destruct (head _) as [c|]; [cbn [mbind option_bind]|done].
    destruct (_extract_shape_info c); [cbn [mbind option_bind]|done].
    by intros [= <-].
  - destruct (String.eqb (op_type g) CAT_KIND).
    + destruct (head _) as [c|]; [cbn [mbind option_bind]|done]. by intros [= <-].
    + by intros [= <-].
Qed.

(** The constructor keeps the groups of [_build_graph], up to [auxiliary]. *)
Lemma init_same_groups (torch_version : string) (fuel : nat)
    (graph_nodes : list Node) (named_modules : list (string * string))
    (self : TorchModuleGraph) :
  TorchModuleGraph_init torch_version fuel graph_nodes named_modules = Some self ->
  exists self0,
    _build_graph torch_version fuel graph_nodes named_modules = Some self0 /\
    leaf_modules self = leaf_modules self0 /\
    global_count self = global_count self0 /\
    Forall2 (fun g0 g =>
               name g = name g0 /\ unique_name g = unique_name g0 /\
               node_type g = node_type g0 /\ op_type g = op_type g0 /\
               node_cpps g = node_cpps g0 /\ inputs g = inputs g0 /\
               outputs g = outputs g0)
            (nodes_op self0) (nodes_op self).
Proof.
  unfold TorchModuleGraph_init.
  destruct (_build_graph _ _ _ _) as [self0|]; [cbn [mbind option_bind]|done].
  unfold _extract_auxiliary_info.
  destruct (mapM extract_auxiliary (nodes_op self0)) as [l|] eqn:E;
    [cbn [mbind option_bind]|done].
  intros [= <-]. exists self0. cbn. split_and!; try done.
  apply mapM_Some in E. eapply Forall2_impl; [exact E|].
  intros g g'. apply extract_auxiliary_fields.
Qed.

Lemma filter_name_length (m : string) (l : list NodePyGroup) :
  length (filter (fun g' => name g' = m) l)
  = length (filter (fun x => x = m) (name <$> l)).
Proof.
  induction l as [|g l IH]; [done|]. cbn [fmap list_fmap].
  rewrite !filter_cons. destruct (decide (name g = m)); cbn [length]; by rewrite IH.
Qed.

(** The groups of a built graph: the counter is their number; the
    groups of the leaf modules come first, each made of trace nodes of one
    leaf module; the groups of the functions follow, each with a non-prim
    trace node outside the leaf modules as first node and with its own
    position in [nodes_op] as the number that ends its [name]. *)
Theorem built_graph_groups (torch_version : string) (fuel : nat)
    (graph_nodes : list Node) (named_modules : list (string * string))
    (self : TorchModuleGraph) :
  TorchModuleGraph_init torch_version fuel graph_nodes named_modules = Some self ->
  let module_name n := _get_module_name torch_version (scopeName n) in
  leaf_modules self = _extract_leaf_modules (fst <$> named_modules) /\
  global_count self = length (nodes_op self) /\
  exists k : nat,
    forall r g, nodes_op self !! r = Some g ->
      ((r < k)%nat ->
       node_type g = "module" /\ name g ∈ leaf_modules self /\
       forall n, n ∈ node_cpps g -> n ∈ graph_nodes /\ module_name n = name g) /\
      ((k <= r)%nat ->
       node_type g = "func" /\
       exists seed, head (node_cpps g) = Some seed /\ seed ∈ graph_nodes /\
                    is_prim seed = false /\
                    (module_name seed ∉ leaf_modules self) /\
                    name g = join "." [module_name seed; kind seed; str_of_nat r]).
Proof.
  intros (self0 & H0 & Hleaf & Hgc & HF)%init_same_groups module_name.
  apply build_graph_structure in H0
    as (Hl0 & Hg0 & mods & funcs & Hops & Hmods & Hfuncs & _).
  rewrite Hleaf, Hgc, Hg0, Hl0 in *. split; [done|].
  split; [by apply Forall2_length in HF|].
  exists (length mods). intros r g Hg.
  destruct (Forall2_lookup_r _ _ _ _ _ HF Hg) as (g0 & Hg0' & Hn & _ & Ht & _ & Hc & _).
  rewrite Hn, Ht, Hc. rewrite Hops in Hg0'. split.
  - intros Hr. rewrite lookup_app_l in Hg0' by done.
    apply list_elem_of_lookup_2 in Hg0'.
    by apply (proj1 (Forall_forall _ _) Hmods g0 Hg0').
  - intros Hr. rewrite lookup_app_r in Hg0' by done.
    destruct (Hfuncs _ _ Hg0') as (Ht0 & seed & ? & ? & ? & ? & Hname).
    split; [done|]. exists seed. split_and!; try done.
    rewrite Hname. by replace (length mods + (r - length mods))%nat with r by lia.
Qed.

(** Every trace node of a leaf module is in a group of that module, and
    every non-prim trace node outside the leaf modules is the first node of
    a group of a function. *)
Theorem built_graph_covers (torch_version : string) (fuel : nat)
    (graph_nodes : list Node) (named_modules : list (string * string))
    (self : TorchModuleGraph) (n : Node) :
  TorchModuleGraph_init torch_version fuel graph_nodes named_modules = Some self ->
  n ∈ graph_nodes ->
  let module_name := _get_module_name torch_version (scopeName n) in
  (module_name ∈ leaf_modules self ->
   exists r g, nodes_op self !! r = Some g /\ node_type g = "module" /\
               name g = module_name /\ n ∈ node_cpps g) /\
  (module_name ∉ leaf_modules self -> is_prim n = false ->
   exists r g, nodes_op self !! r = Some g /\ node_type g = "func" /\
               head (node_cpps g) = Some n).
Proof.
  intros (self0 & H0 & Hleaf & Hgc & HF)%init_same_groups Hn module_name.
  apply build_graph_structure in H0
    as (Hl0 & Hg0 & mods & funcs & Hops & Hmods & Hfuncs & Hcm & Hcf & _).
  rewrite Hleaf, Hl0 in *. split.
  - intros Hl. destruct (Hcm n Hn Hl) as (g0 & Hg0' & Hname & Hin).
    apply list_elem_of_lookup in Hg0' as [r Hr].
    assert (nodes_op self0 !! r = Some g0) as Hr0
      by (rewrite Hops; by apply lookup_app_l_Some).
    destruct (Forall2_lookup_l _ _ _ _ _ HF Hr0) as (g & Hg & Hn' & _ & Ht & _ & Hc & _).
    exists r, g. rewrite Hn', Ht, Hc. split_and!; try done.
    by apply (proj1 (Forall_forall _ _) Hmods g0 (list_elem_of_lookup_2 _ _ _ Hr)).
  - intros Hl Hp. destruct (Hcf n Hn Hl Hp) as (g0 & Hg0' & Ht0 & Hh).
    apply list_elem_of_lookup in Hg0' as [j Hj].
    assert (nodes_op self0 !! (length mods + j)%nat = Some g0) as Hr0
      by (rewrite Hops, lookup_app_r by lia;
          by replace (length mods + j - length mods)%nat with j by lia).
    destruct (Forall2_lookup_l _ _ _ _ _ HF Hr0) as (g & Hg & _ & _ & Ht & _ & Hc & _).
    exists (length mods + j)%nat, g. by rewrite Ht, Hc.
Qed.

(** The groups of one module are numbered in [unique_name]: the first
    one carries the name of the module, and the one that follows [c] others
    carries the name followed by a dot and [c]. *)
Theorem module_group_unique_names (torch_version : string) (fuel : nat)
    (graph_nodes : list Node) (named_modules : list (string * string))
    (self : TorchModuleGraph) (r : nat) (g : NodePyGroup) :
  TorchModuleGraph_init torch_version fuel graph_nodes named_modules = Some self ->
  nodes_op self !! r = Some g -> node_type g = "module" ->
  let c := length (filter (fun x => x = name g) (take r (name <$> nodes_op self))) in
  unique_name g = if (0 <? c)%nat then name g +:+ "." +:+ str_of_nat c else name g.
Proof.
  intros (self0 & H0 & Hleaf & Hgc & HF)%init_same_groups Hg Ht.
  apply build_graph_structure in H0
    as (Hl0 & Hg0 & mods & funcs & Hops & Hmods & Hfuncs & _ & _ & Hum).
  assert (name <$> nodes_op self = name <$> nodes_op self0) as Hnames.
  { clear -HF. induction HF as [|g0 g l0 l (Hn & _) _ IH]; [done|].
    cbn. by rewrite Hn, IH. }
  destruct (Forall2_lookup_r _ _ _ _ _ HF Hg) as (g0 & Hg0' & Hn & Hu & Ht0 & _).
  rewrite Hnames, Hn, Hu. rewrite Hops in Hg0' |- *.
  destruct (decide (r < length mods)%nat) as [Hr|Hr].
  - rewrite lookup_app_l in Hg0' by done.
    rewrite fmap_app, take_app_le by (rewrite length_fmap; lia).
    rewrite <- fmap_take, <- filter_name_length. by apply Hum.
  - rewrite lookup_app_r in Hg0' by lia.
    destruct (Hfuncs _ _ Hg0') as (Hf & _). congruence.
Qed.

(** The three statements above on the graph built from [cat_trace]. *)
Lemma built_graph_groups_witness :
  exists self,
    TorchModuleGraph_init "1.4.0" 8 cat_trace cat_modules = Some self /\
    global_count self = length (nodes_op self).
Proof.
  eexists. split; [by vm_compute|].
  eapply (proj1 (proj2 (built_graph_groups "1.4.0" 8 cat_trace cat_modules _ _))).
  Unshelve. by vm_compute.
Defined.

Lemma built_graph_covers_witness :
  exists self r g,
    TorchModuleGraph_init "1.4.0" 8 cat_trace cat_modules = Some self /\
    nodes_op self !! r = Some g /\ node_type g = "func" /\
    head (node_cpps g) =
    Some (MkNode 5 "aten::cat" ""
            [MkValue "l1" IVNone OtherType; MkValue "c1" (IVInt 1) OtherType]
            [MkValue "out" IVNone (TensorType [1; 8; 8; 8])]).
Proof.
  eexists.
  edestruct (proj2 (built_graph_covers "1.4.0" 8 cat_trace cat_modules _
    (MkNode 5 "aten::cat" ""
       [MkValue "l1" IVNone OtherType; MkValue "c1" (IVInt 1) OtherType]
       [MkValue "out" IVNone (TensorType [1; 8; 8; 8])])
    ltac:(by vm_compute) ltac:(by apply (bool_decide_unpack _))))
    as (r & g & H1 & H2 & H3); [by apply (bool_decide_unpack _)|done|].
  exists r, g. split; [by vm_compute|done].
Defined.

Lemma module_group_unique_names_witness :
  exists self g,
    TorchModuleGraph_init "1.4.0" 8 cat_trace cat_modules = Some self /\
    nodes_op self !! 1%nat = Some g /\
    let c := length (filter (fun x => x = name g) (take 1 (name <$> nodes_op self))) in
    unique_name g = if (0 <? c)%nat then name g +:+ "." +:+ str_of_nat c else name g.
Proof.
  eexists _, _. split; [by vm_compute|]. split; [reflexivity|].
  apply (module_group_unique_names "1.4.0" 8 cat_trace cat_modules _ 1);
    [by vm_compute | reflexivity | reflexivity].
Defined.

End BuildGraphFacts.
(** * The trace nodes and the inputs of a function group *)
Section FuncGroupMore.
Import PyStr GraphUtils GraphSpec FuncGroupSpec.

Section FuncGroupMembers.
Variable torch_version : string.
Variable nodes : list Node.
Variable output_to_node : gmap string Node.

Lemma non_prim_visit_exact (vs : list Value) (st : ExpandState) :
  foldl (non_prim_visit_input nodes output_to_node) st vs =
  MkExpandState (node_queue st ++ prim_producers nodes output_to_node vs)
                (node_group st ++ prim_producers nodes output_to_node vs)
                (visited st)
                (acc_inputs st ++ func_inputs nodes output_to_node vs)
                (acc_outputs st).
Proof.
  revert st. induction vs as [|v vs IH]; intros st.
  - cbn. rewrite !app_nil_r. by destruct st.
  - cbn [foldl]. rewrite IH. unfold prim_producers, func_inputs.
    cbn [omap list_omap]. unfold non_prim_visit_input.
    destruct (output_to_node !! debugName v) as [m|]; cbn.
    + destruct (node_in m nodes); cbn.
      * destruct (is_prim m); cbn; by rewrite <- ?app_assoc.
      * by rewrite <- app_assoc.
    + by rewrite <- app_assoc.
Qed.

Lemma prim_producers_elem (n m : Node) :
  m ∈ prim_producers nodes output_to_node (node_inputs n) <->
  prim_producer nodes output_to_node n m.
Proof.
  unfold prim_producers, prim_producer. rewrite list_elem_of_omap. split.
  - intros (v & Hv & H). destruct (output_to_node !! debugName v) as [m'|] eqn:E; [|done].
    destruct (node_in m' nodes) eqn:En; [|done]. destruct (is_prim m') eqn:Ep; [|done].
    cbn in H. injection H as ->. split; [by apply node_in_true|]. split; [done|].
    by exists v.
  - intros (Hn & Hp & v & Hv & E). exists v. split; [done|]. rewrite E.
    apply node_in_true in Hn. by rewrite Hn, Hp.
Qed.

Lemma func_inputs_elem (n : Node) (x : string) :
  x ∈ func_inputs nodes output_to_node (node_inputs n) <->
  exists v, v ∈ node_inputs n /\ debugName v = x /\
            forall m, output_to_node !! x = Some m -> m ∈ nodes -> is_prim m = false.
Proof.
  unfold func_inputs. rewrite list_elem_of_omap. split.
  - intros (v & Hv & H). exists v. split; [done|].
    destruct (output_to_node !! debugName v) as [m'|] eqn:E.
    + destruct (node_in m' nodes) eqn:En; cbn in H.
      * destruct (is_prim m') eqn:Ep; [done|]. injection H as <-. split; [done|].
        intros m Hm _. congruence.
      * injection H as <-. split; [done|]. intros m Hm Hin.
        apply node_in_false in En. congruence.
    + injection H as <-. split; [done|]. intros m Hm. congruence.
  - intros (v & Hv & <- & H). exists v. split; [done|].
    destruct (output_to_node !! debugName v) as [m'|] eqn:E; [|done].
    destruct (node_in m' nodes) eqn:En; [|done]. cbn.
    apply node_in_true in En. by rewrite (H m' eq_refl En).
Qed.

(** The invariant of the loop of [_expand_non_prim_node]; [processed]
    lists the nodes already taken from the queue. *)
Lemma non_prim_loop_members (seed : Node) (fuel : nat) (processed : list Node)
    (st st' : ExpandState) :
  non_prim_loop nodes output_to_node fuel st = Some st' ->
  node_group st = processed ++ node_queue st ->
  acc_inputs st
  = processed ≫= (fun n => func_inputs nodes output_to_node (node_inputs n)) ->
  (forall n, n ∈ node_group st -> prim_reachable nodes output_to_node seed n) ->
  (forall n m, n ∈ processed -> prim_producer nodes output_to_node n m ->
               m ∈ node_group st) ->
  acc_inputs st'
  = node_group st' ≫= (fun n => func_inputs nodes output_to_node (node_inputs n)) /\
  (forall n, n ∈ node_group st' -> prim_reachable nodes output_to_node seed n) /\
  (forall n m, n ∈ node_group st' -> prim_producer nodes output_to_node n m ->
               m ∈ node_group st') /\
  (forall n, n ∈ node_group st -> n ∈ node_group st').
Proof.
  revert processed st. induction fuel as [|fuel IH]; intros processed st.
  - cbn. destruct (node_queue st) as [|curr rest] eqn:Eq; [|done].
    intros [= <-] Hg Hi Hr Hc. rewrite app_nil_r in Hg. rewrite Hg in *.
    split; [done|]. split; [done|]. by split.
  - cbn [non_prim_loop]. destruct (node_queue st) as [|curr rest] eqn:Eq.
    + intros [= <-] Hg Hi Hr Hc. rewrite app_nil_r in Hg. rewrite Hg in *.
      split; [done|]. split; [done|]. by split.
    + rewrite non_prim_visit_exact. cbn [node_queue node_group visited acc_inputs acc_outputs].
      intros H Hg Hi Hr Hc.
      apply (IH (processed ++ [curr])) in H; cbn [node_queue node_group acc_inputs].
      * destruct H as (H1 & H2 & H3 & H4). split; [done|]. split; [done|].
        split; [done|]. intros n Hn. apply H4. apply elem_of_app. by left.
      * rewrite Hg, <- !app_assoc. done.
      * rewrite Hi, bind_app. cbn. by rewrite app_nil_r.
      * intros n [Hn|Hn]%elem_of_app; [by apply Hr|].
        apply prim_producers_elem in Hn. eapply prim_reach_step; [|exact Hn].
        apply Hr. rewrite Hg. apply elem_of_app. right. left.
      * intros n m [Hn| ->%list_elem_of_singleton]%elem_of_app Hm.
        -- apply elem_of_app. left. by eapply Hc.
        -- apply elem_of_app. right. by apply prim_producers_elem.
Qed.

(** The trace nodes of a function group are the seed and the prim nodes
    of the scope reached from it along producers that are prim nodes of the
    scope; its inputs are, node by node, the inputs that no prim node of the
    scope produces. *)
Theorem expand_non_prim_node_members (fuel global_count global_count' : nat)
    (node : Node) (module_type : string) (g : NodePyGroup) :
  _expand_non_prim_node torch_version nodes output_to_node fuel global_count
    node module_type = Some (g, global_count') ->
  (forall n, n ∈ node_cpps g <-> prim_reachable nodes output_to_node node n) /\
  inputs g
  = node_cpps g ≫= (fun n => func_inputs nodes output_to_node (node_inputs n)) /\
  (forall x, x ∈ inputs g <->
     exists n v, n ∈ node_cpps g /\ v ∈ node_inputs n /\ debugName v = x /\
       forall m, output_to_node !! x = Some m -> m ∈ nodes -> is_prim m = false).
Proof.
  unfold _expand_non_prim_node.
  destruct (non_prim_loop _ _ _ _) as [st|] eqn:E; [cbn [mbind option_bind]|done].
  destruct (_visit_node _ _ _ _) as [args|]; [cbn [mbind option_bind]|done].
  intros [= <- <-]. cbn [node_cpps inputs].
  apply (non_prim_loop_members node _ []) in E as (Hi & Hr & Hc & Hs); cbn; try done.
  2:{ intros n ->%list_elem_of_singleton. constructor. }
  2:{ by intros n m ?%elem_of_nil. }
  split_and!.
  - intros n. split; [apply Hr|]. induction 1 as [|n m _ IH Hm].
    + apply Hs. left.
    + by eapply Hc.
  - done.
  - intros x. rewrite Hi, list_elem_of_bind. split.
    + intros (n & Hx & Hn). apply func_inputs_elem in Hx as (v & ? & ? & ?).
      by exists n, v.
    + intros (n & v & Hn & Hv & Hx & H). exists n. split; [|done].
      apply func_inputs_elem. by exists v.
Qed.

End FuncGroupMembers.

(** The statement above on a constant added to a tensor. *)
Lemma expand_non_prim_node_members_witness :
  exists g,
    _expand_non_prim_node "1.4.0" [const_node; add_node] {[ "c1" := const_node ]}
      3 0 add_node "func" = Some (g, 1%nat) /\
    inputs g
    = node_cpps g ≫=
        (fun n => func_inputs [const_node; add_node]
                    {[ "c1" := const_node ]} (node_inputs n)).
Proof.
  eexists. split; [by vm_compute|].
  eapply (proj1 (proj2 (expand_non_prim_node_members "1.4.0" [const_node; add_node]
                          {[ "c1" := const_node ]} 3 0 1 add_node "func" _ _))).
  Unshelve. by vm_compute.
Defined.

End FuncGroupMore.
(** * The scope names of [TorchProtoGraph.parse] *)
Section ProtoScopes.
Import PyStr GraphUtils GraphSpec ProtoGraph ProtoSpec.

Lemma join_empty_cons (x : string) (xs : list string) :
  join "" (x :: xs) = x +:+ join "" xs.
Proof.
  destruct xs as [|y xs]; cbn [join]; [by rewrite app_empty_r|].
  by rewrite app_empty_l.
Qed.

Lemma join_snoc (sep : string) (pre : list string) (a : string) :
  pre <> [] -> join sep (pre ++ [a]) = join sep pre +:+ sep +:+ a.
Proof. intros Hpre. rewrite join_app; [done|done|discriminate]. Qed.

(** The rounds of the loop after the first one. *)
Lemma rewrite_fold (base_name : string) (aliases : gmap string string)
    (l pre : list string) (sc : string) :
  pre <> [] ->
  foldl (rewrite_step base_name aliases) (join "." pre, sc)
        (imap (fun i x => ((length pre + i)%nat, x)) l) =
  (join "." (pre ++ l),
   sc +:+ join "" (imap (fun i a =>
                           scope_component aliases
                             (join "." (pre ++ take (S i) l)) a) l)).
Proof.
  revert pre sc. induction l as [|a l IH]; intros pre sc Hpre.
  - cbn. by rewrite app_nil_r, app_empty_r.
  - rewrite !imap_cons. cbn [foldl]. unfold rewrite_step at 2.
    destruct (Nat.eqb_spec (length pre + 0) 0) as [E|_]; [by destruct pre|].
    rewrite <- join_snoc by done.
    rewrite (imap_ext _ (fun i x => ((length (pre ++ [a]) + i)%nat, x)))
      by (intros; cbn; rewrite length_app; cbn; f_equal; lia).
    rewrite IH by (by destruct pre). rewrite <- (app_assoc pre [a] l). cbn [app].
    f_equal. rewrite join_empty_cons.
    rewrite (imap_ext (fun i a0 => scope_component aliases
                                     (join "." ((pre ++ [a]) ++ take (S i) l)) a0)
                      (fun i a0 => scope_component aliases
                                     (join "." (pre ++ take (S (S i)) (a :: l))) a0))
      by (intros i x _; cbn; by rewrite <- app_assoc).
    unfold scope_component at 2. cbn [take]. rewrite !app_assoc_s.
    by destruct (aliases !! _).
Qed.

Lemma rewrite_scope_parts (base_name : string) (aliases : gmap string string)
    (scopeName_ a0 : string) (rest : list string) :
  split "." (last_of (split "/" scopeName_)) = a0 :: rest ->
  rewrite_scope base_name aliases scopeName_ =
  base_name +:+
  join "" (imap (fun i a =>
                   scope_component aliases (join "." (a0 :: take (S i) rest)) a)
                rest).
Proof.
  intros E. unfold rewrite_scope. rewrite E, imap_cons. cbn [foldl].
  unfold rewrite_step at 2. cbn [Nat.eqb].
  rewrite (imap_ext _ (fun i x => ((length [a0] + i)%nat, x))) by done.
  change a0 with (join "." [a0]) at 1. by rewrite rewrite_fold.
Qed.

(** The scope name that [parse] leaves in a node is the base name,
    followed, for every alias of the last '/'-segment of the old scope
    name after the first one, by a slash and the name that [alias_to_name]
    gives to the module path up to that alias, or the alias itself when the
    path has no name. A scope name whose last segment has no dot becomes
    the base name. *)
Theorem rewrite_scope_closed (base_name : string) (aliases : gmap string string)
    (scopeName_ : string) :
  let parts := split "." (last_of (split "/" scopeName_)) in
  rewrite_scope base_name aliases scopeName_ =
  base_name +:+
  join "" (imap (fun i a =>
                   scope_component aliases (join "." (take (i + 2) parts)) a)
                (drop 1 parts)) /\
  (contains "." (last_of (split "/" scopeName_)) = false ->
   rewrite_scope base_name aliases scopeName_ = base_name).
Proof.
  intros parts. subst parts.
  destruct (split "." (last_of (split "/" scopeName_))) as [|a0 rest] eqn:E;
    [by apply split_nonempty in E|].
  split.
  - rewrite (rewrite_scope_parts _ _ _ _ _ E). cbn [drop]. do 2 f_equal.
    apply imap_ext. intros i a _. cbn.
    by replace (i + 2)%nat with (S (S i)) by lia.
  - intros Hdot. rewrite (split_no_sep _ _ Hdot) in E. injection E as <- <-.
    rewrite (rewrite_scope_parts _ _ _ (last_of (split "/" scopeName_)) []);
      [by rewrite app_empty_r|by apply split_no_sep].
Qed.

End ProtoScopes.

(** * The attribute scopes of [TorchProtoGraph.parse] *)
Section ProtoPaths.
Import PyStr GraphUtils GraphSpec ProtoGraph ProtoSpec.

Lemma contains_app (c : ascii) (s t : string) :
  contains c (s +:+ t) = contains c s || contains c t.
Proof.
  induction s as [|a s IH]; [done|]. rewrite app_String. cbn [contains].
  by rewrite IH, orb_assoc.
Qed.

Lemma contains_join (c : ascii) (sep : string) (l : list string) :
  contains c sep = false -> Forall (fun a => contains c a = false) l ->
  contains c (join sep l) = false.
Proof.
  intros Hsep H. induction H as [|a l Ha _ IH]; [done|].
  destruct l as [|b l]; [done|]. cbn [join] in *.
  by rewrite !contains_app, Ha, Hsep, IH.
Qed.

Lemma split_join_inv (sep : ascii) (l : list string) :
  l <> [] -> Forall (fun a => contains sep a = false) l ->
  split sep (join (String sep "") l) = l.
Proof.
  intros Hne H. induction H as [|a l Ha Hl IH]; [done|].
  destruct l as [|b l]; [by apply split_no_sep|].
  change (join (String sep "") (a :: b :: l))
    with (a +:+ String sep (join (String sep "") (b :: l))).
  rewrite split_app_sep, IH by done. by rewrite split_no_sep.
Qed.

Lemma last_of_app (l1 l2 : list string) :
  l2 <> [] -> last_of (l1 ++ l2) = last_of l2.
Proof.
  intros H. unfold last_of. induction l1 as [|a l1 IH]; [done|].
  cbn [app]. rewrite <- IH. cbn. by destruct (l1 ++ l2) eqn:E; [destruct l1, l2|].
Qed.

Lemma last_of_snoc (l : list string) (a : string) : last_of (l ++ [a]) = a.
Proof. by rewrite last_of_app. Qed.

Lemma last_split_join (sep : ascii) (l : list string) (x : string) :
  contains sep x = false ->
  last_of (split sep (join (String sep "") (l ++ [x]))) = x.
Proof.
  intros Hx. destruct l as [|a l]; [cbn; by rewrite split_no_sep|].
  rewrite join_snoc by done.
  change (String sep "" +:+ x) with (String sep x).
  rewrite split_app_sep, last_of_app by apply split_nonempty.
  by rewrite split_no_sep.
Qed.

Lemma scope_of_path_snoc (path : list string) (a : string) :
  scope_of_path (path ++ [a]) =
  join "/" (imap (fun i _ => "__module." +:+ join "." (take (S i) path)) path
            ++ ["__module." +:+ join "." (path ++ [a])]).
Proof.
  unfold scope_of_path. rewrite imap_app. cbn [imap]. f_equal. f_equal.
  - apply imap_ext. intros i x Hi. cbn. do 2 f_equal.
    apply take_app_le. apply lookup_lt_Some in Hi. lia.
  - do 3 f_equal. rewrite Nat.add_0_r. apply take_ge. rewrite length_app. cbn. lia.
Qed.

Lemma scope_of_path_last (path : list string) :
  path <> [] -> Forall (fun a => contains "/" a = false) path ->
  last_of (split "/" (scope_of_path path)) = "__module." +:+ join "." path.
Proof.
  intros Hne H. destruct (exists_last Hne) as (pre & a & ->).
  rewrite scope_of_path_snoc. apply last_split_join.
  rewrite contains_app. by rewrite contains_join.
Qed.

Lemma scope_of_path_child (path : list string) (a : string) :
  path <> [] -> Forall (fun a => contains "/" a = false) path ->
  scope_of_path path +:+ "/" +:+ last_of (split "/" (scope_of_path path)) +:+ "." +:+ a
  = scope_of_path (path ++ [a]).
Proof.
  intros Hne H. rewrite scope_of_path_last, scope_of_path_snoc by done.
  rewrite join_snoc by (by destruct path). rewrite join_snoc by done.
  by rewrite !app_assoc_s.
Qed.

Lemma attr_step_path (pm : gmap string (list string)) (scopes : list string)
    (node : ProtoNode) :
  map_Forall (fun _ p => p <> [] /\ Forall (fun a => contains "/" a = false) p) pm ->
  attr_step (path_scopes (pm, scopes)) node =
  path_scopes <$> path_step (pm, scopes) node.
Proof.
  intros Hpm. unfold attr_step, path_step, path_scopes. cbn [fst snd].
  destruct (String.eqb (pn_kind node) GETATTR_KIND); [|done].
  destruct (String.eqb (pn_parent_kind node) GETATTR_KIND).
  - rewrite lookup_fmap.
    destruct (pm !! node_to_name (pn_parent_str node)) as [p|] eqn:Ep; [|done].
    destruct (Hpm _ _ Ep) as [Hne Hp].
    cbn [fmap option_fmap option_map mbind option_bind].
    rewrite scope_of_path_child by done.
    cbn [fst snd]. rewrite lookup_insert_eq, fmap_insert. cbn [mbind option_bind].
    by destruct (String.eqb (pn_output_kind node) CLASSTYPE_KIND).
  - cbn [fmap option_fmap option_map mbind option_bind].
    cbn [fst snd]. rewrite lookup_insert_eq, fmap_insert. cbn [mbind option_bind].
    by destruct (String.eqb (pn_output_kind node) CLASSTYPE_KIND).
Qed.

Lemma path_step_ok (pm pm' : gmap string (list string)) (scopes scopes' : list string)
    (node : ProtoNode) :
  (String.eqb (pn_kind node) GETATTR_KIND = true -> contains "/" (pn_attr_name node) = false) ->
  map_Forall (fun _ p => p <> [] /\ Forall (fun a => contains "/" a = false) p) pm ->
  path_step (pm, scopes) node = Some (pm', scopes') ->
  map_Forall (fun _ p => p <> [] /\ Forall (fun a => contains "/" a = false) p) pm'.
Proof.
  intros Hattr Hpm. unfold path_step.
  destruct (String.eqb (pn_kind node) GETATTR_KIND); [|by intros [= <- <-]].
  specialize (Hattr eq_refl).
  destruct (String.eqb (pn_parent_kind node) GETATTR_KIND).
  - destruct (pm !! node_to_name (pn_parent_str node)) as [p|] eqn:Ep; [|done].
    destruct (Hpm _ _ Ep) as [Hne Hp].
    cbn [mbind option_bind]. intros [= <- <-].
    apply map_Forall_insert_2; [|done]. split; [by destruct p|].
    apply Forall_app. split; [done|by constructor].
  - cbn [mbind option_bind]. intros [= <- <-].
    apply map_Forall_insert_2; [|done]. split; [done|by constructor].
Qed.

Lemma attr_loop_path (nodes : list ProtoNode) (pm : gmap string (list string))
    (scopes : list string) :
  Forall (fun node => String.eqb (pn_kind node) GETATTR_KIND = true ->
                      contains "/" (pn_attr_name node) = false) nodes ->
  map_Forall (fun _ p => p <> [] /\ Forall (fun a => contains "/" a = false) p) pm ->
  for_each attr_step (path_scopes (pm, scopes)) nodes =
  path_scopes <$> for_each path_step (pm, scopes) nodes.
Proof.
  intros H. revert pm scopes.
  induction H as [|node nodes Hn _ IH]; intros pm scopes Hpm; [done|].
  cbn [for_each]. rewrite attr_step_path by done.
  destruct (path_step (pm, scopes) node) as [[pm' scopes']|] eqn:E; [|done].
  cbn [fmap option_fmap option_map mbind option_bind].
  apply IH. by eapply path_step_ok.
Qed.

(** The scope that [parse] gives to a [prim::GetAttr] node spells the
    attribute path of the node: when no attribute name of the trace holds a
    slash, [attr_to_scope] is the map of the attribute paths with every
    path [a1, ..., ak] written as
    ['__module.a1/__module.a1.a2/.../__module.a1...ak'], the scopes of the
    nodes are those of the paths, and the loop raises the [KeyError] of a
    missing parent exactly when the parent has no path. *)
Theorem attr_to_scope_paths (nodes : list ProtoNode) :
  Forall (fun node => pn_kind node = GETATTR_KIND ->
                      contains "/" (pn_attr_name node) = false) nodes ->
  for_each attr_step (∅, []) nodes =
  path_scopes <$> for_each path_step (∅, []) nodes.
Proof.
  intros H.
  assert (path_scopes (∅, []) = (∅, [])) as <-
    by (unfold path_scopes; cbn [fst snd]; by rewrite fmap_empty).
  apply attr_loop_path.
  - eapply Forall_impl; [exact H|]. intros node Hn E. apply Hn.
    by apply String.eqb_eq.
  - apply map_Forall_empty.
Qed.

Lemma attr_to_scope_paths_witness :
  for_each attr_step (∅, []) backbone_nodes =
  path_scopes <$> for_each path_step (∅, []) backbone_nodes.
Proof.
  apply (attr_to_scope_paths backbone_nodes).
  repeat (constructor; [by vm_compute|]). constructor.
Defined.


(** [alias_to_name] holds, for a name of [named_modules], the class and
    the last attribute of one of the modules of that name. *)
Lemma alias_to_name_lookup (named_modules : list (string * string)) (n : string) :
  n ∈ named_modules.*1 ->
  exists raw, (n, raw) ∈ named_modules /\
    alias_to_name named_modules !! n =
    Some (parse_traced_name raw +:+ "[" +:+ last_of (split "." n) +:+ "]").
Proof.
  unfold alias_to_name.
  induction named_modules as [|[n' raw'] l IH] using rev_ind; [by intros ?%elem_of_nil|].
  rewrite fmap_app, foldl_app. cbn [fmap list_fmap foldl fst snd].
  intros Hn. destruct (decide (n = n')) as [->|Hne].
  - exists raw'. split; [apply elem_of_app; right; by constructor|].
    by rewrite lookup_insert_eq.
  - apply elem_of_app in Hn as [Hn|Hn%list_elem_of_singleton]; [|done].
    destruct (IH Hn) as (raw & Hin & E). exists raw.
    split; [apply elem_of_app; by left|]. by rewrite lookup_insert_ne.
Qed.

Lemma findall_components (f : nat -> string -> string) (path : list string) :
  (forall i a, path !! i = Some a ->
     exists M, contains "[" M = false /\ f i a = "/" +:+ M +:+ "[" +:+ a +:+ "]") ->
  Forall (fun a => contains "]" a = false /\ contains "010" a = false) path ->
  findall_brackets_go O (join "" (imap f path)) = path.
Proof.
  intros Hf H. revert f Hf.
  induction H as [|a path [Ha1 Ha2] _ IH]; intros f Hf; [done|].
  rewrite imap_cons, join_empty_cons.
  destruct (Hf O a eq_refl) as (M & HM & ->).
  rewrite !app_assoc_s.
  rewrite (findall_no_open "/") by done. rewrite findall_no_open by done.
  change ("[" +:+ a +:+ "]" +:+ join "" (imap (f ∘ S) path))
    with (String "[" (a +:+ String "]" (join "" (imap (f ∘ S) path)))).
  cbn [findall_brackets_go]. change (Ascii.eqb "[" "[") with true. cbn iota.
  rewrite bracket_content_app by done.
  rewrite findall_go_skip.
  replace (string_drop (S (String.length a))
             (a +:+ String "]" (join "" (imap (f ∘ S) path))))
    with (join "" (imap (f ∘ S) path)).
  2:{ clear. induction a as [|c a IH]; [done|]. by rewrite app_String. }
  f_equal. apply IH. intros i b Hi. by apply (Hf (S i)).
Qed.

Lemma join_module (path : list string) :
  path <> [] ->
  join "." ("__module" :: path) = "__module." +:+ join "." path.
Proof. by destruct path. Qed.

Lemma rewrite_scope_path (named_modules : list (string * string))
    (base_name : string) (path : list string) :
  path <> [] ->
  Forall (fun a => contains "/" a = false /\ contains "." a = false) path ->
  (forall n raw, (n, raw) ∈ named_modules ->
     contains "[" (parse_traced_name raw) = false) ->
  (forall i, (i < length path)%nat ->
     "__module." +:+ join "." (take (S i) path) ∈ named_modules.*1) ->
  exists f,
    rewrite_scope base_name (alias_to_name named_modules) (scope_of_path path) =
    base_name +:+ join "" (imap f path) /\
    forall i a, path !! i = Some a ->
      exists M, contains "[" M = false /\ f i a = "/" +:+ M +:+ "[" +:+ a +:+ "]".
Proof.
  intros Hne Hpath Hclass Hnames.
  assert (Forall (fun a => contains "/" a = false) path) as Hslash
    by (eapply Forall_impl; [exact Hpath|]; by intros a [? ?]).
  assert (Forall (fun a => contains "." a = false) path) as Hdot
    by (eapply Forall_impl; [exact Hpath|]; by intros a [? ?]).
  eexists. split.
  - apply rewrite_scope_parts. rewrite scope_of_path_last by done.
    rewrite <- join_module by done.
    apply (split_join_inv "." ("__module" :: path)); [done|by constructor].
  - intros i a Hi. cbn beta.
    assert (join "." ("__module" :: take (S i) path) =
            "__module." +:+ join "." (take (S i) path)) as Ejoin
      by (apply join_module; by destruct path).
    destruct (alias_to_name_lookup named_modules
                ("__module." +:+ join "." (take (S i) path))) as (raw & Hin & E).
    { apply Hnames. by eapply lookup_lt_Some. }
    exists (parse_traced_name raw). split; [by eapply Hclass|].
    unfold scope_component. rewrite Ejoin, E. cbn [default]. do 3 f_equal.
    rewrite <- Ejoin.
    rewrite (split_join_inv "." ("__module" :: take (S i) path));
      [|done|constructor; [done|by apply Forall_take]].
    rewrite (take_S_r _ _ _ Hi).
    change ("__module" :: take i path ++ [a]) with (("__module" :: take i path) ++ [a]).
    by rewrite last_of_snoc.
Qed.

(** The scope that [parse] writes for a node of the module at the
    attribute path [a1, ..., ak] names that module for both versions of
    torch: read by the rule of the versions before 1.4.0, the rewritten
    scope ['Base/Class1[a1]/.../Classk[ak]'] gives ['a1.a2...ak'], which
    is what the rule of the later versions gives for the scope
    ['__module.a1/.../__module.a1...ak'] that [parse] started from. The
    attributes hold no slash, dot, closing bracket or newline, the base and
    class names no opening bracket, every module on the path is one of the
    named modules, and the dotted path holds no ['__module.']. *)
Theorem parse_scope_module_name (named_modules : list (string * string))
    (base_name : string) (path : list string) (old new : string) :
  String.leb "1.4.0" old = false -> String.leb "1.4.0" new = true ->
  path <> [] ->
  Forall (fun a => contains "/" a = false /\ contains "." a = false) path ->
  Forall (fun a => contains "]" a = false /\ contains "010" a = false) path ->
  contains "[" base_name = false ->
  (forall n raw, (n, raw) ∈ named_modules ->
     contains "[" (parse_traced_name raw) = false) ->
  (forall i, (i < length path)%nat ->
     "__module." +:+ join "." (take (S i) path) ∈ named_modules.*1) ->
  replace "__module." "" (join "." path) = join "." path ->
  _get_module_name old
    (rewrite_scope base_name (alias_to_name named_modules) (scope_of_path path))
  = join "." path /\
  _get_module_name new (scope_of_path path) = join "." path.
Proof.
  intros Hold Hnew Hne Hpath Hattr Hbase Hclass Hnames Hrepl.
  unfold _get_module_name. rewrite Hold, Hnew. split.
  - destruct (rewrite_scope_path named_modules base_name path Hne Hpath Hclass Hnames)
      as (f & -> & Hf).
    unfold findall_brackets. rewrite findall_no_open by done.
    by rewrite (findall_components f path Hf Hattr).
  - rewrite scope_of_path_last; [|done|].
    + change "__module." with (String "_" "_module.") at 1 2.
      by rewrite replace_occ.
    + eapply Forall_impl; [exact Hpath|]. by intros a [? ?].
Qed.

Lemma parse_scope_module_name_witness :
  _get_module_name "1.3.1"
    (rewrite_scope "MyModel" (alias_to_name backbone_modules)
       (scope_of_path ["backbone"; "conv2"]))
  = "backbone.conv2" /\
  _get_module_name "1.4.0" (scope_of_path ["backbone"; "conv2"]) = "backbone.conv2".
Proof.
  apply (parse_scope_module_name backbone_modules "MyModel" ["backbone"; "conv2"]
           "1.3.1" "1.4.0").
  - reflexivity.
  - reflexivity.
  - discriminate.
  - repeat (constructor; [by vm_compute|]). constructor.
  - repeat (constructor; [by vm_compute|]). constructor.
  - reflexivity.
  - intros n raw H. unfold backbone_modules in H.
    repeat (apply elem_of_cons in H as [[= -> ->]|H]; [by vm_compute|]).
    by apply elem_of_nil in H.
  - intros [|[|i]] Hi; [vm_compute; repeat constructor..|cbn in Hi; lia].
  - by vm_compute.
Defined.

End ProtoPaths.
